(** * pev2: plan enrichment, source cleanup and the tolerant parsers

    A shallow embedding of [src/services/plan-service.ts] and
    [src/services/parsers/text.ts].

    - [JSNum]: the numbers stored in plan nodes.
    - [Enrich]: the enrichment pass ([createPlan], [processNode],
      [calculatePlannerEstimate], [calculateActuals], [childrenDuration],
      [calculateExclusives]).
    - [Regex]: regular expressions with the matching order of ECMAScript,
      [exec] and [replace].
    - [Cleanup]: [cleanupSource].
    - [Store], [Json]: objects kept by reference, and [parseJson] over the
      events of the streaming parser.
    - [JSLib], [Text]: the string functions the text parser calls, and
      [fromText].
    - [EnrichSpec], [RegexSpec], [CleanupSpec], [JsonSpec], [TextSpec]: the
      vocabulary of the statements and the example inputs.
    - [JsonShape]: how a tree lies in the store, for the statements about
      [parseJson].
    - [Maximums]: [calculateMaximums]; [EnrichMoreSpec], [MaximumsSpec],
      [JsonMoreSpec], [TextMoreSpec]: the vocabulary of the further
      statements.
    - [EnrichFacts], [PlanShape], [RegexFacts], [CleanupFacts], [StoreFacts],
      [JsonFacts], [TextFacts], [EnrichMore], [TextMoreFacts]: the
      theorems. *)

From Stdlib Require Import List String Ascii Bool Arith PeanoNat ZArith QArith Lia Permutation.
Import ListNotations.

Set Implicit Arguments.

(** ** Numbers

    A plan property holds an ECMAScript number.  Finite values are taken
    exactly, as rationals kept in lowest terms (the results of arithmetic
    are not rounded to binary64, and a zero carries no sign; a number read
    from a text is rounded, see [JSLib.binary64]); the two infinities and NaN
    are kept, since division by zero and arithmetic on a missing property
    produce them. *)
Module JSNum.

Inductive number : Type :=
| NaN
| PInf
| NInf
| Fin (q : Q).

Definition fin (q : Q) : number := Fin (Qred q).

Definition zero : number := Fin 0.
Definition one : number := Fin 1.
Definition ofZ (z : Z) : number := Fin (inject_Z z).

Definition neg (a : number) : number :=
  match a with
  | NaN => NaN
  | PInf => NInf
  | NInf => PInf
  | Fin q => fin (- q)
  end.

Definition add (a b : number) : number :=
  match a, b with
  | NaN, _ | _, NaN => NaN
  | PInf, NInf | NInf, PInf => NaN
  | PInf, _ | _, PInf => PInf
  | NInf, _ | _, NInf => NInf
  | Fin x, Fin y => fin (x + y)
  end.

Definition sub (a b : number) : number := add a (neg b).

(** The infinity whose sign is that of [q]; NaN for [q] zero. *)
Definition signed_inf (positive : bool) (q : Q) : number :=
  match (q ?= 0)%Q with
  | Eq => NaN
  | Gt => if positive then PInf else NInf
  | Lt => if positive then NInf else PInf
  end.

Definition mul (a b : number) : number :=
  match a, b with
  | NaN, _ | _, NaN => NaN
  | PInf, PInf | NInf, NInf => PInf
  | PInf, NInf | NInf, PInf => NInf
  | PInf, Fin q | Fin q, PInf => signed_inf true q
  | NInf, Fin q | Fin q, NInf => signed_inf false q
  | Fin x, Fin y => fin (x * y)
  end.

Definition div (a b : number) : number :=
  match a, b with
  | NaN, _ | _, NaN => NaN
  | (PInf | NInf), (PInf | NInf) => NaN
  | PInf, Fin q => match (q ?= 0)%Q with Lt => NInf | _ => PInf end
  | NInf, Fin q => match (q ?= 0)%Q with Lt => PInf | _ => NInf end
  | Fin _, (PInf | NInf) => zero
  | Fin x, Fin y =>
      match (y ?= 0)%Q with
      | Eq => signed_inf true x
      | _ => fin (x / y)
      end
  end.

(** [a < b]; false as soon as one side is NaN. *)
Definition ltb (a b : number) : bool :=
  match a, b with
  | NaN, _ | _, NaN => false
  | _, NInf => false
  | PInf, _ => false
  | NInf, _ => true
  | _, PInf => true
  | Fin x, Fin y => match (x ?= y)%Q with Lt => true | _ => false end
  end.

Definition gtb (a b : number) : bool := ltb b a.

(** ToBoolean on a number: false for 0 and NaN. *)
Definition truthy (a : number) : bool :=
  match a with
  | NaN => false
  | PInf | NInf => true
  | Fin q => negb (Qeq_bool q 0)
  end.

(** A property value: [None] is [undefined]. *)
Definition value := option number.

(** ToNumber: [undefined] becomes NaN. *)
Definition toNumber (v : value) : number :=
  match v with
  | Some n => n
  | None => NaN
  end.

Definition truthyV (v : value) : bool :=
  match v with
  | Some n => truthy n
  | None => false
  end.

(** [a || b] *)
Definition or (a b : value) : value := if truthyV a then a else b.

(** [a || k] for a numeric literal [k] *)
Definition orNum (a : value) (k : number) : number :=
  match a with
  | Some n => if truthy n then n else k
  | None => k
  end.

End JSNum.
Import JSNum.

(** ** Plan nodes

    A node is an object of string-keyed properties.  The properties the
    enrichment pass reads or writes are numbers, indexed here by their key in
    the [NodeProp] enumeration (enums.ts), plus the two strings
    [PARENT_RELATIONSHIP] and [SUBPLAN_NAME], the estimate direction, the node
    id and the child list [PLANS]. *)

(** The twelve buffer and I/O counters of [calculateExclusives]. *)
Inductive BufProp : Type :=
| SHARED_HIT_BLOCKS | SHARED_READ_BLOCKS | SHARED_DIRTIED_BLOCKS | SHARED_WRITTEN_BLOCKS
| TEMP_READ_BLOCKS | TEMP_WRITTEN_BLOCKS
| LOCAL_HIT_BLOCKS | LOCAL_READ_BLOCKS | LOCAL_DIRTIED_BLOCKS | LOCAL_WRITTEN_BLOCKS
| IO_READ_TIME | IO_WRITE_TIME.

(** The four row counters that get a [_REVISED] twin in [calculateActuals]. *)
Inductive RowProp : Type :=
| ACTUAL_ROWS | PLAN_ROWS | ROWS_REMOVED_BY_FILTER | ROWS_REMOVED_BY_JOIN_FILTER.

(** Numeric keys.  [EXCLUSIVE_ b] is the key ['EXCLUSIVE_' + b] and
    [REVISED r] the key [r + '_REVISED']. *)
Inductive NodeProp : Type :=
| Row (r : RowProp)
| REVISED (r : RowProp)
| Buf (b : BufProp)
| EXCLUSIVE_ (b : BufProp)
| ACTUAL_LOOPS
| ACTUAL_STARTUP_TIME
| ACTUAL_TOTAL_TIME
| TOTAL_COST
| EXCLUSIVE_COST
| EXCLUSIVE_DURATION
| PLANNER_ESTIMATE_FACTOR
| WORKERS_PLANNED
| WORKERS_PLANNED_BY_GATHER.

Definition BufProp_eq_dec (a b : BufProp) : {a = b} + {a <> b}.
Proof. decide equality. Defined.

Definition RowProp_eq_dec (a b : RowProp) : {a = b} + {a <> b}.
Proof. decide equality. Defined.

Definition NodeProp_eq_dec (a b : NodeProp) : {a = b} + {a <> b}.
Proof. decide equality; first [apply RowProp_eq_dec | apply BufProp_eq_dec]. Defined.

Inductive EstimateDirection : Type := over | under | none.

Record Props : Type := mkProps {
  NODE_TYPE : string;
  nodeId : option nat;
  PARENT_RELATIONSHIP : option string;
  SUBPLAN_NAME : option string;
  PLANNER_ESTIMATE_DIRECTION : option EstimateDirection;
  numeric : NodeProp -> value
}.

#[warnings="-register-all"]
Inductive Node : Type :=
| mkNode (props : Props) (PLANS : option (list Node)).

Definition props (n : Node) : Props := let '(mkNode p _) := n in p.
Definition PLANS (n : Node) : option (list Node) := let '(mkNode _ pl) := n in pl.

(** The elements a lodash iteration over [node[PLANS]] visits: none when the
    property is missing. *)
Definition elems (pl : option (list Node)) : list Node :=
  match pl with
  | Some l => l
  | None => []
  end.

Definition children (n : Node) : list Node := elems (PLANS n).

(** [_.each(collection, iteratee)] with the state the iteratee updates made
    explicit; nothing is visited when the collection is missing. *)
Definition each {A S : Type} (collection : option (list A)) (iteratee : S -> A -> S) (s : S) : S :=
  match collection with
  | Some l => fold_left iteratee l s
  | None => s
  end.

(** [node[k]] and [node[k] = v] for a numeric key. *)
Definition get (k : NodeProp) (p : Props) : value := numeric p k.

Definition set (k : NodeProp) (v : value) (p : Props) : Props :=
  {| NODE_TYPE := NODE_TYPE p;
     nodeId := nodeId p;
     PARENT_RELATIONSHIP := PARENT_RELATIONSHIP p;
     SUBPLAN_NAME := SUBPLAN_NAME p;
     PLANNER_ESTIMATE_DIRECTION := PLANNER_ESTIMATE_DIRECTION p;
     numeric := fun k' => if NodeProp_eq_dec k k' then v else numeric p k' |}.

Definition set_nodeId (i : nat) (p : Props) : Props :=
  {| NODE_TYPE := NODE_TYPE p;
     nodeId := Some i;
     PARENT_RELATIONSHIP := PARENT_RELATIONSHIP p;
     SUBPLAN_NAME := SUBPLAN_NAME p;
     PLANNER_ESTIMATE_DIRECTION := PLANNER_ESTIMATE_DIRECTION p;
     numeric := numeric p |}.

Definition set_direction (d : EstimateDirection) (p : Props) : Props :=
  {| NODE_TYPE := NODE_TYPE p;
     nodeId := nodeId p;
     PARENT_RELATIONSHIP := PARENT_RELATIONSHIP p;
     SUBPLAN_NAME := SUBPLAN_NAME p;
     PLANNER_ESTIMATE_DIRECTION := Some d;
     numeric := numeric p |}.

(** [node[PARENT_RELATIONSHIP] === s] *)
Definition relationship_is (s : string) (p : Props) : bool :=
  match PARENT_RELATIONSHIP p with
  | Some r => String.eqb r s
  | None => false
  end.

(** [_.startsWith(x, target)]: a missing [x] is the empty string. *)
Definition startsWith (x : option string) (target : string) : bool :=
  match x with
  | Some s => String.prefix target s
  | None => String.prefix target ""
  end.

Module Enrich.

(** [isCTE] (plan-service.ts, 45-48) *)
Definition isCTE (node : Props) : bool :=
  relationship_is "InitPlan" node && startsWith (SUBPLAN_NAME node) "CTE".

(** [calculatePlannerEstimate] (plan-service.ts, 207-221) *)
Definition calculatePlannerEstimate (node : Props) : Props :=
  match get (Row ACTUAL_ROWS) node with
  | None => node
  | Some actual_rows =>
      let plan_rows := toNumber (get (Row PLAN_ROWS) node) in
      let node := set PLANNER_ESTIMATE_FACTOR (Some (div actual_rows plan_rows)) node in
      let node := set_direction none node in
      let node := if gtb actual_rows plan_rows then set_direction under node else node in
      if ltb actual_rows plan_rows
      then set PLANNER_ESTIMATE_FACTOR (Some (div plan_rows actual_rows))
             (set_direction over node)
      else node
  end.

(** [childrenDuration] (plan-service.ts, 193-203): the exclusive durations of
    the children and, recursively, of their descendants, never entering an
    InitPlan child. *)
Fixpoint childrenDuration (node : Node) (duration : number) : number :=
  let '(mkNode _ pl) := node in
  each pl
    (fun duration child =>
       if negb (relationship_is "InitPlan" (props child))
       then childrenDuration child
              (add duration (orNum (get EXCLUSIVE_DURATION (props child)) zero))
       else duration)
    duration.

(** [_.sumBy(array, iteratee)]: 0 for a missing or empty array, otherwise the
    values added from left to right starting from the first one. *)
Definition sumBy {A : Type} (array : option (list A)) (iteratee : A -> number) : number :=
  match array with
  | Some (x :: l) => fold_left (fun result y => add result (iteratee y)) l (iteratee x)
  | _ => zero
  end.

(** [calculateActuals] (plan-service.ts, 152-190); [pl] is [node[PLANS]]. *)
Definition calculateActuals (node : Props) (pl : option (list Node)) : Props :=
  let node :=
    match get ACTUAL_TOTAL_TIME node with
    | None => node
    | Some actual_total_time =>
        let workers := add (orNum (get WORKERS_PLANNED_BY_GATHER node) zero) one in
        let node :=
          set ACTUAL_TOTAL_TIME
            (Some (div (mul actual_total_time (toNumber (get ACTUAL_LOOPS node))) workers))
            node in
        let node :=
          set ACTUAL_STARTUP_TIME
            (Some (div (mul (toNumber (get ACTUAL_STARTUP_TIME node))
                          (toNumber (get ACTUAL_LOOPS node))) workers))
            node in
        let node := set EXCLUSIVE_DURATION (get ACTUAL_TOTAL_TIME node) node in
        let duration :=
          sub (toNumber (get EXCLUSIVE_DURATION node)) (childrenDuration (mkNode node pl) zero) in
        set EXCLUSIVE_DURATION (Some (if gtb duration zero then duration else zero)) node
    end in
  let node :=
    if truthyV (get TOTAL_COST node)
    then set EXCLUSIVE_COST (get TOTAL_COST node) node
    else node in
  let node :=
    each pl
      (fun node subPlan =>
         if negb (relationship_is "InitPlan" (props subPlan))
            && truthyV (get TOTAL_COST (props subPlan))
         then set EXCLUSIVE_COST
                (Some (sub (toNumber (get EXCLUSIVE_COST node))
                         (toNumber (get TOTAL_COST (props subPlan)))))
                node
         else node)
      node in
  let node :=
    if ltb (toNumber (get EXCLUSIVE_COST node)) zero
    then set EXCLUSIVE_COST (Some zero) node
    else node in
  fold_left
    (fun node prop =>
       match get (Row prop) node with
       | None => node
       | Some v =>
           let loops := orNum (get ACTUAL_LOOPS node) one in
           set (REVISED prop) (Some (mul v loops)) node
       end)
    [ACTUAL_ROWS; PLAN_ROWS; ROWS_REMOVED_BY_FILTER; ROWS_REMOVED_BY_JOIN_FILTER]
    node.

Definition properties : list BufProp :=
  [ SHARED_HIT_BLOCKS; SHARED_READ_BLOCKS; SHARED_DIRTIED_BLOCKS; SHARED_WRITTEN_BLOCKS;
    TEMP_READ_BLOCKS; TEMP_WRITTEN_BLOCKS;
    LOCAL_HIT_BLOCKS; LOCAL_READ_BLOCKS; LOCAL_DIRTIED_BLOCKS; LOCAL_WRITTEN_BLOCKS;
    IO_READ_TIME; IO_WRITE_TIME ].

(** What one child contributes to the sum of [calculateExclusives]:
    [child[property] || 0]. *)
Definition counterOf (property : BufProp) (child : Node) : number :=
  orNum (get (Buf property) (props child)) zero.

(** [calculateExclusives] (plan-service.ts, 378-405) *)
Definition calculateExclusives (node : Props) (pl : option (list Node)) : Props :=
  fold_left
    (fun node property =>
       let sum := sumBy pl (counterOf property) in
       set (EXCLUSIVE_ property) (Some (sub (toNumber (get (Buf property) node)) sum)) node)
    properties node.

(** What the loop of [processNode] writes to a child before descending into
    it (plan-service.ts, 57-62). *)
Definition disseminate (node child : Props) : Props :=
  if negb (isCTE child)
     && negb (relationship_is "InitPlan" child)
     && negb (relationship_is "SubPlan" child)
  then set WORKERS_PLANNED_BY_GATHER
         (or (get WORKERS_PLANNED node) (get WORKERS_PLANNED_BY_GATHER node)) child
  else child.

(** The result of a walk: the node as enrichment leaves it, the nodes the walk
    pushed on [plan.ctes] in push order, and the next value of [this.nodeId].
    [plan.ctes.push(child)] stores the child object itself and runs before the
    child is processed, so the entry shows the child as the walk leaves it. *)
Definition Walked : Type := (Node * list Node * nat)%type.

Definition walked_node (w : Walked) : Node := fst (fst w).
Definition walked_pushed (w : Walked) : list Node := snd (fst w).
Definition walked_next (w : Walked) : nat := snd w.

(** The body of [_.each(node[PLANS], ...)] in [processNode], for the node
    properties [node]; [processNode written child] processes a child to which
    its parent has applied the writes [written]. *)
Definition eachChild (processNode : (Props -> Props) -> Node -> nat -> Walked) (node : Props)
  : list Node -> nat -> list Node * list Node * nat :=
  fix loop (cs : list Node) (nodeId : nat) :=
    match cs with
    | [] => ([], [], nodeId)
    | child :: rest =>
        let here := if isCTE (disseminate node (props child)) then true else false in
        let '(child', pushed, nodeId) := processNode (disseminate node) child nodeId in
        let '(rest', pushed', nodeId) := loop rest nodeId in
        (child' :: rest', (if here then [child'] else []) ++ pushed ++ pushed', nodeId)
    end.

(** [processNode] (plan-service.ts, 51-76), run on a node its parent has
    written to with [written]. *)
Fixpoint processNodeFrom (written : Props -> Props) (node : Node) (nodeId : nat) {struct node}
  : Walked :=
  let '(mkNode p pl) := node in
  let p := calculatePlannerEstimate (set_nodeId nodeId (written p)) in
  let nodeId := S nodeId in
  let '(pl, pushed, nodeId) :=
    match pl with
    | Some cs =>
        let '(cs', pushed, nodeId) := eachChild processNodeFrom p cs nodeId in
        (Some cs', pushed, nodeId)
    | None => (None, [], nodeId)
    end in
  let pl := option_map (filter (fun child => negb (isCTE (props child)))) pl in
  let p := calculateActuals p pl in
  let p := calculateExclusives p pl in
  (mkNode p pl, pushed, nodeId).

Definition processNode (node : Node) (nodeId : nat) : Walked :=
  processNodeFrom (fun p => p) node nodeId.

(** The part of [IPlan] the walk fills. *)
Record IPlan : Type := mkPlan {
  content_Plan : Node;
  ctes : list Node
}.

(** [createPlan] (plan-service.ts, 19-43).  The name, the date, the query and
    the statistics of the envelope, and [calculateMaximums], which only adds
    [max...] entries to [content], do not touch a node. *)
Definition createPlan (planContent_Plan : Node) : IPlan :=
  let '(root, pushed, _) := processNode planContent_Plan 1 in
  {| content_Plan := root; ctes := pushed |}.

End Enrich.

(** ** Vocabulary of the statements about enrichment *)
Module EnrichSpec.
Import Enrich.

(** The properties that identify a node and that enrichment never writes. *)
Definition ident (p : Props) : string * option string * option string :=
  (NODE_TYPE p, PARENT_RELATIONSHIP p, SUBPLAN_NAME p).

(** A change of node properties that leaves [k] alone / leaves the identity
    and the node id alone. *)
Definition keeps (k : NodeProp) (f : Props -> Props) : Prop :=
  forall p, get k (f p) = get k p.

Definition keeps_ident (f : Props -> Props) : Prop :=
  forall p, ident (f p) = ident p.

Definition keeps_id (f : Props -> Props) : Prop :=
  forall p, nodeId (f p) = nodeId p.

(** The node and all its descendants, in pre-order. *)
Fixpoint nodes (n : Node) : list Node :=
  let '(mkNode _ pl) := n in
  n :: match pl with
       | Some l => flat_map nodes l
       | None => []
       end.

Definition nodeId_of (n : Node) : option nat := nodeId (props n).

(** The nodes found in [plans] lists below [n]: its strict descendants. *)
Definition descendants (n : Node) : list Node := tl (nodes n).

Definition size (n : Node) : nat := List.length (nodes n).

(** The strict descendants [childrenDuration] visits: those reached without
    entering a child whose parent relationship is InitPlan. *)
Fixpoint timed_descendants (n : Node) : list Node :=
  let '(mkNode _ pl) := n in
  match pl with
  | Some l =>
      flat_map
        (fun child =>
           if negb (relationship_is "InitPlan" (props child))
           then child :: timed_descendants child
           else [])
        l
  | None => []
  end.

(** [child[EXCLUSIVE_DURATION] || 0] *)
Definition durationOf (child : Node) : number :=
  orNum (get EXCLUSIVE_DURATION (props child)) zero.

(** The sum C2 speaks of: the exclusive durations of the direct children that
    are not InitPlans. *)
Definition directChildrenDuration (n : Node) : number :=
  fold_left
    (fun duration child =>
       if negb (relationship_is "InitPlan" (props child))
       then add duration (durationOf child)
       else duration)
    (children n) zero.

(** The keys [calculateActuals] may write. *)
Definition actuals_key (k : NodeProp) : bool :=
  match k with
  | ACTUAL_TOTAL_TIME | ACTUAL_STARTUP_TIME | EXCLUSIVE_DURATION | EXCLUSIVE_COST
  | REVISED _ => true
  | _ => false
  end.

(** The node properties when the children loop starts. *)
Definition entered (written : Props -> Props) (node : Node) (nodeId : nat) : Props :=
  calculatePlannerEstimate (set_nodeId nodeId (written (props node))).

Definition notCTE (child : Node) : bool := negb (isCTE (props child)).

(** [duration > 0 ? duration : 0] *)
Definition clamp (duration : number) : number :=
  if gtb duration zero then duration else zero.

(** A node without properties, and the writers used to build examples. *)
Definition bare (type : string) : Props :=
  {| NODE_TYPE := type;
     nodeId := None;
     PARENT_RELATIONSHIP := None;
     SUBPLAN_NAME := None;
     PLANNER_ESTIMATE_DIRECTION := None;
     numeric := fun _ => None |}.

Definition with_relationship (r name : string) (p : Props) : Props :=
  {| NODE_TYPE := NODE_TYPE p;
     nodeId := nodeId p;
     PARENT_RELATIONSHIP := Some r;
     SUBPLAN_NAME := Some name;
     PLANNER_ESTIMATE_DIRECTION := PLANNER_ESTIMATE_DIRECTION p;
     numeric := numeric p |}.

(** [isCTE] read off the identity of a node. *)
Definition isCTE_ident (i : string * option string * option string) : bool :=
  let '(_, relationship, name) := i in
  match relationship with
  | Some r => String.eqb r "InitPlan"
  | None => false
  end && startsWith name "CTE".

(** A node of an enriched plan as its id and its identity. *)
Definition key (n : Node) : option nat * (string * option string * option string) :=
  (nodeId_of n, ident (props n)).

Definition keys (n : Node) : list (option nat * (string * option string * option string)) :=
  map key (nodes n).

(** The nodes [l] of a parsed tree, taken in order and numbered from [start]:
    the ids a pre-order walk gives them, with their identities. *)
Definition numbered (start : nat) (l : list Node)
  : list (option nat * (string * option string * option string)) :=
  combine (map Some (seq start (List.length l))) (map (fun n => ident (props n)) l).

(** What one call contributes: the next id, the keys of the nodes it returns
    and pushes, and the keys of the pushed nodes in push order. *)
Definition call_shape (node : Node) (written : Props -> Props) (nodeId : nat) : Prop :=
  let w := processNodeFrom written node nodeId in
  walked_next w = (nodeId + size node)%nat
  /\ Permutation (keys (walked_node w) ++ flat_map keys (walked_pushed w))
       (numbered nodeId (nodes node))
  /\ map key (walked_pushed w)
     = filter (fun k => isCTE_ident (snd k)) (numbered (S nodeId) (descendants node)).

(** What C5 calls a CTE node: an InitPlan whose subplan name starts with
    "CTE " (with the space). *)
Definition named_CTE (n : Node) : Prop :=
  PARENT_RELATIONSHIP (props n) = Some "InitPlan"%string
  /\ exists name, SUBPLAN_NAME (props n) = Some name /\ String.prefix "CTE " name = true.

(** All the nodes of an enriched plan: the main tree and the trees moved to
    [plan.ctes]. *)
Definition plan_nodes (plan : IPlan) : list Node :=
  nodes (content_Plan plan) ++ flat_map nodes (ctes plan).

(** Example nodes. *)
Definition rows (type : string) (actual plan : Q) : Props :=
  set (Row PLAN_ROWS) (Some (Fin plan)) (set (Row ACTUAL_ROWS) (Some (Fin actual)) (bare type)).

Definition timed (type : string) (total : Q) : Props :=
  set ACTUAL_LOOPS (Some one) (set ACTUAL_TOTAL_TIME (Some (Fin total)) (bare type)).

(** actual_rows = 5, plan_rows = 0 *)
Definition ex_zero_plan : Node := mkNode (rows "Seq Scan" 5 0) None.

(** actual_rows = 6, plan_rows = 4 *)
Definition ex_under : Node := mkNode (rows "Seq Scan" 6 4) None.

(** A chain of three nodes with total times 10, 6 and 4, one loop each. *)
Definition ex_chain : Node :=
  mkNode (timed "Sort" 10)
    (Some [mkNode (timed "Hash Join" 6) (Some [mkNode (timed "Seq Scan" 4) None])]).

(** A node with [workers_planned] 0 that has inherited
    [workers_planned_by_gather] 3, and one ordinary child. *)
Definition ex_zero_workers : Node :=
  mkNode (set WORKERS_PLANNED_BY_GATHER (Some (Fin 3))
            (set WORKERS_PLANNED (Some zero) (bare "Gather")))
    (Some [mkNode (with_relationship "Outer" "" (bare "Seq Scan")) None]).

(** A Gather with three planned workers over a scan. *)
Definition ex_gather : Node :=
  mkNode (set WORKERS_PLANNED (Some (Fin 3)) (bare "Gather"))
    (Some [mkNode (with_relationship "Outer" "" (timed "Seq Scan" 8)) None]).

(** Two numbers of the same value; a finite one is kept as a fraction, which
    need not be in lowest terms. *)
Definition same (a b : number) : Prop :=
  match a, b with
  | NaN, NaN | PInf, PInf | NInf, NInf => True
  | Fin x, Fin y => (x == y)%Q
  | _, _ => False
  end.

(** The counter [b] of a child as C10 counts it: 0 when it is missing (and
    when it is 0 or NaN). *)
Definition counter (b : BufProp) (child : Node) : number :=
  match get (Buf b) (props child) with
  | Some n => if truthy n then n else zero
  | None => zero
  end.

(** The sum of a list of numbers. *)
Definition total (l : list number) : number := fold_left add l zero.

(** A node that read 2 shared blocks over an InitPlan child that read 5. *)
Definition ex_buffers : Node :=
  mkNode (set (Buf SHARED_READ_BLOCKS) (Some (Fin 2)) (bare "Result"))
    (Some [mkNode (set (Buf SHARED_READ_BLOCKS) (Some (Fin 5))
                     (with_relationship "InitPlan" "InitPlan 1 (returns $0)" (bare "Seq Scan")))
             None]).

(** A node that read 2 shared blocks over a CTE child that read 5. *)
Definition ex_cte_buffers : Node :=
  mkNode (set (Buf SHARED_READ_BLOCKS) (Some (Fin 2)) (bare "CTE Scan on x"))
    (Some [mkNode (set (Buf SHARED_READ_BLOCKS) (Some (Fin 5))
                     (with_relationship "InitPlan" "CTE x" (bare "Seq Scan")))
             None]).

(** A scan over a CTE child that itself holds a CTE child and a plain one. *)
Definition ex_ctes : Node :=
  mkNode (bare "CTE Scan on a")
    (Some [ mkNode (with_relationship "InitPlan" "CTE a" (bare "Hash Join"))
              (Some [ mkNode (with_relationship "InitPlan" "CTE b" (bare "Seq Scan on t")) None;
                      mkNode (with_relationship "Outer" "" (bare "Seq Scan on u")) None ]);
            mkNode (with_relationship "InitPlan" "InitPlan 1 (returns $0)" (bare "Result")) None ]).

End EnrichSpec.

(** ** Strings and regular expressions

    A string is its sequence of UTF-16 code units.  A regular expression is
    matched the way ECMAScript specifies it: by backtracking, with the rest
    of the pattern passed as a continuation; alternatives are tried from
    left to right, a greedy quantifier tries one more iteration before it
    tries to go on, a lazy one the other way round, and an iteration that
    consumes nothing is refused. *)
Module Regex.

Definition str : Type := list N.

(** The code units of an ASCII literal. *)
Definition lit (s : string) : str := map N_of_ascii (list_ascii_of_string s).

Inductive regex : Type :=
| Eps
| Chr (c : N)
| Cls (p : N -> bool)
| Bol
| Eol
| Seq (r1 r2 : regex)
| Alt (r1 r2 : regex)
| Star (greedy : bool) (r : regex)
| Grp (i : nat) (r : regex)
| Ref (i : nat).

(** Derived forms: [r+], [r?], a literal word, an alternation of several. *)
Definition Plus (r : regex) : regex := Seq r (Star true r).
Definition Opt (r : regex) : regex := Alt r Eps.
Definition Lit (s : string) : regex := fold_right (fun c r => Seq (Chr c) r) Eps (lit s).
Definition Seqs (rs : list regex) : regex := fold_right Seq Eps rs.
Definition Alts (r : regex) (rs : list regex) : regex := fold_left Alt rs r.
Definition OneOf (cs : list N) : regex := Cls (fun c => existsb (N.eqb c) cs).

(** The flags that change how a pattern matches ([g] only changes where
    [replace] and [match] continue). *)
Record flags : Type := mkFlags {
  multiline : bool;
  ignoreCase : bool
}.

Definition no_flags : flags := {| multiline := false; ignoreCase := false |}.
Definition flag_m : flags := {| multiline := true; ignoreCase := false |}.
Definition flag_i : flags := {| multiline := false; ignoreCase := true |}.

(** LineTerminator: LF, CR, LS, PS. *)
Definition isLineTerminator (c : N) : bool :=
  (N.eqb c 10 || N.eqb c 13 || N.eqb c 8232 || N.eqb c 8233)%bool.

(** [\s]: WhiteSpace and LineTerminator. *)
Definition isSpace (c : N) : bool :=
  (N.eqb c 9 || N.eqb c 10 || N.eqb c 11 || N.eqb c 12 || N.eqb c 13 || N.eqb c 32
   || N.eqb c 160 || N.eqb c 5760 || (N.leb 8192 c && N.leb c 8202)
   || N.eqb c 8232 || N.eqb c 8233 || N.eqb c 8239 || N.eqb c 8287 || N.eqb c 12288
   || N.eqb c 65279)%bool.

(** [\d] *)
Definition isDigit (c : N) : bool := (N.leb 48 c && N.leb c 57)%bool.

(** [.] without the [s] flag *)
Definition isDot (c : N) : bool := negb (isLineTerminator c).

Definition space : regex := Cls isSpace.
Definition nonspace : regex := Cls (fun c => negb (isSpace c)).
Definition digit : regex := Cls isDigit.
Definition dot : regex := Cls isDot.

(** Canonicalize under [i]: a pattern letter of the patterns below is ASCII,
    and only an ASCII letter has an ASCII upper case. *)
Definition canonicalize (fl : flags) (c : N) : N :=
  if (ignoreCase fl && N.leb 97 c && N.leb c 122)%bool then (c - 32)%N else c.

(** The state of a match: the code units behind the current position (last
    one first), those ahead, and the captures made so far. *)
Record mstate : Type := mkState {
  behind : list N;
  ahead : list N;
  captures : list (nat * str)
}.

Definition capture (i : nat) (st : mstate) : option str :=
  option_map snd (find (fun c => Nat.eqb (fst c) i) (captures st)).

(** What was consumed between [st] and the later state [st']. *)
Definition consumed (st st' : mstate) : str :=
  firstn (List.length (ahead st) - List.length (ahead st')) (ahead st).

Definition at_bol (fl : flags) (st : mstate) : bool :=
  match behind st with
  | [] => true
  | c :: _ => (multiline fl && isLineTerminator c)%bool
  end.

Definition at_eol (fl : flags) (st : mstate) : bool :=
  match ahead st with
  | [] => true
  | c :: _ => (multiline fl && isLineTerminator c)%bool
  end.

(** Consumes one code unit accepted by [p]. *)
Definition step (p : N -> bool) (k : mstate -> option mstate) (st : mstate) : option mstate :=
  match ahead st with
  | c :: rest =>
      if p c
      then k {| behind := c :: behind st; ahead := rest; captures := captures st |}
      else None
  | [] => None
  end.

(** Consumes the string [s]. *)
Fixpoint steps (fl : flags) (s : str) (k : mstate -> option mstate) (st : mstate)
  : option mstate :=
  match s with
  | [] => k st
  | c :: s' =>
      step (fun x => N.eqb (canonicalize fl x) (canonicalize fl c)) (steps fl s' k) st
  end.

(** The iterations of a quantified pattern whose one iteration is matched by
    [once]: at most [fuel] of them, each consuming something. *)
Fixpoint iterate (once : (mstate -> option mstate) -> mstate -> option mstate)
    (greedy : bool) (k : mstate -> option mstate) (fuel : nat) (st : mstate) {struct fuel}
  : option mstate :=
  match fuel with
  | O => k st
  | S fuel' =>
      let again (st' : mstate) :=
        if List.length (ahead st') <? List.length (ahead st)
        then iterate once greedy k fuel' st'
        else None in
      if greedy
      then match once again st with
           | Some res => Some res
           | None => k st
           end
      else match k st with
           | Some res => Some res
           | None => once again st
           end
  end.

(** [matcher fl r k st]: the first way, in backtracking order, in which [r]
    matches at [st] and [k] accepts what follows. *)
Fixpoint matcher (fl : flags) (r : regex) (k : mstate -> option mstate) (st : mstate)
  {struct r} : option mstate :=
  match r with
  | Eps => k st
  | Chr c => step (fun x => N.eqb (canonicalize fl x) (canonicalize fl c)) k st
  | Cls p => step p k st
  | Bol => if at_bol fl st then k st else None
  | Eol => if at_eol fl st then k st else None
  | Seq r1 r2 => matcher fl r1 (matcher fl r2 k) st
  | Alt r1 r2 =>
      match matcher fl r1 k st with
      | Some res => Some res
      | None => matcher fl r2 k st
      end
  | Star greedy r1 => iterate (matcher fl r1) greedy k (List.length (ahead st)) st
  | Grp i r1 =>
      matcher fl r1
        (fun st' =>
           k {| behind := behind st';
                ahead := ahead st';
                captures := (i, consumed st st') :: captures st' |})
        st
  | Ref i =>
      match capture i st with
      | Some s => steps fl s k st
      | None => k st
      end
  end.

(** A successful match: the text passed over before it started, the matched
    text, the captures, and the text behind and ahead of its end. *)
Record found : Type := mkFound {
  skipped : str;
  matched : str;
  groups : list (nat * str);
  end_behind : list N;
  end_ahead : list N
}.

Definition group (i : nat) (f : found) : option str :=
  option_map snd (find (fun c => Nat.eqb (fst c) i) (groups f)).

(** Tries the start positions from the current one on, as [exec] does. *)
Fixpoint search_from (fl : flags) (r : regex) (passed : list N) (behind0 ahead0 : list N)
  {struct ahead0} : option found :=
  let st := {| behind := behind0; ahead := ahead0; captures := [] |} in
  match matcher fl r Some st with
  | Some st' =>
      Some {| skipped := rev passed;
              matched := consumed st st';
              groups := captures st';
              end_behind := behind st';
              end_ahead := ahead st' |}
  | None =>
      match ahead0 with
      | [] => None
      | c :: rest => search_from fl r (c :: passed) (c :: behind0) rest
      end
  end.

(** [r.exec(s)] for a pattern whose [lastIndex] is 0. *)
Definition exec (fl : flags) (r : regex) (s : str) : option found :=
  search_from fl r [] [] s.

(** [r.test(s)], also the truth value of [s.match(r)] *)
Definition test (fl : flags) (r : regex) (s : str) : bool :=
  match exec fl r s with
  | Some _ => true
  | None => false
  end.

(** A replacement string: literal text and [$n] references. *)
Inductive piece : Type :=
| Text (s : str)
| Dollar (i : nat).

Definition expand (template : list piece) (f : found) : str :=
  flat_map
    (fun p =>
       match p with
       | Text s => s
       | Dollar i => match group i f with Some s => s | None => [] end
       end)
    template.

(** [s.replace(r, template)] without the [g] flag: the first match only. *)
Definition replace (fl : flags) (r : regex) (template : list piece) (s : str) : str :=
  match exec fl r s with
  | Some f => skipped f ++ expand template f ++ end_ahead f
  | None => s
  end.

(** [s.replace(r, template)] with the [g] flag: every match, each search
    starting where the previous match ended, one code unit further after an
    empty match. *)
Fixpoint replace_from (fuel : nat) (fl : flags) (r : regex) (template : list piece)
    (behind0 ahead0 : list N) : str :=
  match fuel with
  | O => ahead0
  | S fuel' =>
      match search_from fl r [] behind0 ahead0 with
      | None => ahead0
      | Some f =>
          skipped f ++ expand template f ++
          match matched f, end_ahead f with
          | [], c :: rest => c :: replace_from fuel' fl r template (c :: end_behind f) rest
          | [], [] => []
          | _ :: _, rest => replace_from fuel' fl r template (end_behind f) rest
          end
      end
  end.

Definition replace_all (fl : flags) (r : regex) (template : list piece) (s : str) : str :=
  replace_from (S (List.length s)) fl r template [] s.

End Regex.

(** ** Source cleanup

    [cleanupSource] (plan-service.ts, 223-258): thirteen [replace] calls in a
    row. *)
Module Cleanup.
Import Regex.

Definition LF : N := 10.
Definition CR : N := 13.
Definition plus_sign : N := 43.
Definition minus_sign : N := 45.
Definition double_quote : N := 34.
Definition single_quote : N := 39.
Definition open_paren : N := 40.
Definition close_paren : N := 41.
Definition vertical_bar : N := 124.

(** Box drawing characters and the return symbol, by code unit. *)
Definition box_light_horizontal : N := 9472.              (* U+2500 *)
Definition box_light_vertical : N := 9474.                (* U+2502 *)
Definition box_light_down_right : N := 9484.              (* U+250C *)
Definition box_light_down_left : N := 9488.               (* U+2510 *)
Definition box_light_up_right : N := 9492.                (* U+2514 *)
Definition box_light_up_left : N := 9496.                 (* U+2518 *)
Definition box_light_vertical_right : N := 9500.          (* U+251C *)
Definition box_light_vertical_left : N := 9508.           (* U+2524 *)
Definition box_double_horizontal : N := 9552.             (* U+2550 *)
Definition box_double_vertical : N := 9553.               (* U+2551 *)
Definition box_double_down_right : N := 9556.             (* U+2554 *)
Definition box_double_down_left : N := 9559.              (* U+2557 *)
Definition box_double_up_right : N := 9562.               (* U+255A *)
Definition box_double_up_left : N := 9565.                (* U+255D *)
Definition box_vertical_single_right_double : N := 9566.  (* U+255E *)
Definition box_vertical_double_right_single : N := 9567.  (* U+255F *)
Definition box_double_vertical_right : N := 9568.         (* U+2560 *)
Definition box_vertical_single_left_double : N := 9569.   (* U+2561 *)
Definition box_vertical_double_left_single : N := 9570.   (* U+2562 *)
Definition box_double_vertical_left : N := 9571.          (* U+2563 *)
Definition return_symbol : N := 8629.                     (* U+21B5 *)

(** [\r?\n] *)
Definition newline : regex := Seq (Opt (Chr CR)) (Chr LF).

(** Line 225: at a line start, one of the bars U+007C, U+2551, U+2502
    (group 1), any characters of the line, greedily (group 2), group 1
    again, and a line end. *)
Definition frame : regex :=
  Seqs [ Bol;
         Grp 1 (Alts (Chr vertical_bar) [Chr box_double_vertical; Chr box_light_vertical]);
         Grp 2 (Star true dot);
         Ref 1;
         newline ].

(** Lines 228 and 233, [/^\+-+\+\r?\n/gm] *)
Definition ascii_rule : regex :=
  Seqs [Bol; Chr plus_sign; Plus (Chr minus_sign); Chr plus_sign; newline].

(** Line 229, [/^(-|U+2500|U+2550)\1+\r?\n/gm] *)
Definition dash_rule : regex :=
  Seqs [ Bol;
         Grp 1 (Alts (Chr minus_sign) [Chr box_light_horizontal; Chr box_double_horizontal]);
         Plus (Ref 1);
         newline ].

(** Line 230: at a line start, a left tee (group 1), a horizontal (group
    2), group 2 again any number of times, a right tee (group 3), and a line
    end. *)
Definition middle_rule : regex :=
  Seqs [ Bol;
         Grp 1 (Alts (Chr box_light_vertical_right)
                  [ Chr box_vertical_double_right_single;
                    Chr box_double_vertical_right;
                    Chr box_vertical_single_right_double ]);
         Grp 2 (Alt (Chr box_light_horizontal) (Chr box_double_horizontal));
         Star true (Ref 2);
         Grp 3 (Alts (Chr box_light_vertical_left)
                  [ Chr box_vertical_double_left_single;
                    Chr box_double_vertical_left;
                    Chr box_vertical_single_left_double ]);
         newline ].

(** Lines 234 to 237, [/^L(H)+R\r?\n/gm] for a left corner [L], a horizontal
    [H] and a right corner [R] *)
Definition border (left horizontal right : N) : regex :=
  Seqs [Bol; Chr left; Plus (Grp 1 (Chr horizontal)); Chr right; newline].

(** Line 240: at a line start, a double or a single quote (group 1), any
    characters of the line, greedily (group 2), group 1 again, and a line
    end. *)
Definition quoted : regex :=
  Seqs [ Bol;
         Grp 1 (Cls (fun c => N.eqb c double_quote || N.eqb c single_quote)%bool);
         Grp 2 (Star true dot);
         Ref 1;
         newline ].

(** Line 243: white space, greedily, a plus sign, and a line end; no [m]
    flag. *)
Definition plus_continuation : regex := Seqs [Star true space; Chr plus_sign; newline].

(** Line 246, [/U+21B5\r?/gm] *)
Definition return_continuation : regex := Seq (Chr return_symbol) (Opt (Chr CR)).

(** Line 249: at a line start, white space, QUERY PLAN, white space, and a
    line end; no [g] flag. *)
Definition header : regex :=
  Seqs [Bol; Star true space; Lit "QUERY PLAN"; Star true space; newline].

(** Line 255: at a line start, an opening parenthesis, digits, white space,
    lower case letters, an optional s, a closing parenthesis, and (group 1)
    a line end or the end of a line. *)
Definition rowcount : regex :=
  Seqs [ Bol;
         Chr open_paren;
         Plus digit;
         Plus space;
         Star true (Cls (fun c => N.leb 97 c && N.leb c 122)%bool);
         Opt (Chr 115);
         Chr close_paren;
         Grp 1 (Alt newline Eol) ].

Definition cleanupSource (source : str) : str :=
  (* Remove frames around *)
  let source := replace_all flag_m frame [Dollar 2; Text [LF]] source in
  (* Remove separator lines from various types of borders *)
  let source := replace_all flag_m ascii_rule [] source in
  let source := replace_all flag_m dash_rule [] source in
  let source := replace_all flag_m middle_rule [] source in
  (* Remove more horizontal lines *)
  let source := replace_all flag_m ascii_rule [] source in
  let source :=
    replace_all flag_m
      (border box_light_up_right box_light_horizontal box_light_up_left) [] source in
  let source :=
    replace_all flag_m
      (border box_double_up_right box_double_horizontal box_double_up_left) [] source in
  let source :=
    replace_all flag_m
      (border box_light_down_right box_light_horizontal box_light_down_left) [] source in
  let source :=
    replace_all flag_m
      (border box_double_down_right box_double_horizontal box_double_down_left) [] source in
  (* Remove quotes around lines *)
  let source := replace_all flag_m quoted [Dollar 2; Text [LF]] source in
  (* Remove + line continuations *)
  let source := replace_all no_flags plus_continuation [Text [LF]] source in
  (* Remove the return symbol line continuations *)
  let source := replace_all flag_m return_continuation [Text [LF]] source in
  (* Remove query plan header *)
  let source := replace flag_m header [] source in
  (* Remove rowcount *)
  replace_all flag_m rowcount [Text [LF]] source.

End Cleanup.

(** ** Objects

    The parsers build their result out of JavaScript objects and arrays that
    they keep updating through references; the model keeps them in a store.
    A location is an index into the store.

    An object keeps its own properties in insertion order; [Object.keys]
    lists the array indices first, in increasing order, and then the other
    keys in insertion order.  An array keeps its list of elements.  The key
    [__proto__] names the prototype and not a property: an assignment to it
    creates no key, and is outside the model. *)
Module Store.
Import Regex.

Inductive value : Type :=
| VUndefined
| VNull
| VBool (b : bool)
| VNum (n : number)
| VStr (s : str)
| VRef (l : nat).

Inductive object : Type :=
| Obj (properties : list (str * value))
| Arr (items : list value).

Definition store : Type := list object.

Inductive error : Type :=
| TypeError
| SyntaxError
| Failure (message : string).

(** The outcome of a computation that can throw; [OutOfModel] marks a
    situation the model does not represent (an array given a named property,
    a dangling location). *)
Inductive outcome (A : Type) : Type :=
| Ok (a : A)
| Throw (e : error)
| OutOfModel.

Arguments Ok {A} a.
Arguments Throw {A} e.
Arguments OutOfModel {A}.

Definition bind {A B : Type} (x : outcome A) (f : A -> outcome B) : outcome B :=
  match x with
  | Ok a => f a
  | Throw e => Throw e
  | OutOfModel => OutOfModel
  end.

Definition str_eqb (a b : str) : bool :=
  (Nat.eqb (List.length a) (List.length b)
   && forallb (fun p => N.eqb (fst p) (snd p)) (combine a b))%bool.

(** *** Keys *)

Definition digit_value (c : N) : N := (c - 48)%N.

Definition number_of_digits (s : str) : N :=
  fold_left (fun n c => (10 * n + digit_value c)%N) s 0%N.

(** The array index a key spells, if it is the canonical decimal numeral of
    an integer below 2^32 - 1. *)
Definition array_index (key : str) : option N :=
  match key with
  | [] => None
  | c :: rest =>
      if (forallb isDigit key && (negb (N.eqb c 48) || Nat.eqb (List.length rest) 0)
          && (List.length key <=? 10)%nat)%bool
      then let n := number_of_digits key in
           if (n <? 4294967295)%N then Some n else None
      else None
  end.

(** The decimal numeral of [n]. *)
Fixpoint decimal_from (fuel : nat) (n : N) (acc : str) : str :=
  match fuel with
  | O => acc
  | S fuel' =>
      let acc := (48 + n mod 10)%N :: acc in
      if (n <? 10)%N then acc else decimal_from fuel' (n / 10)%N acc
  end.

Definition decimal (n : N) : str := decimal_from (S (N.to_nat (N.log2 n))) n [].

Fixpoint insert_sorted (k : N * str) (l : list (N * str)) : list (N * str) :=
  match l with
  | [] => [k]
  | k' :: l' => if (fst k <=? fst k')%N then k :: l else k' :: insert_sorted k l'
  end.

(** [Object.keys(o)] *)
Definition keys (o : object) : list str :=
  match o with
  | Obj ps =>
      let indexed :=
        fold_right
          (fun p acc =>
             match array_index (fst p) with
             | Some i => insert_sorted (i, fst p) acc
             | None => acc
             end)
          [] ps in
      map snd indexed
        ++ map fst (filter (fun p => match array_index (fst p) with
                                     | Some _ => false
                                     | None => true
                                     end) ps)
  | Arr items => map (fun i => decimal (N.of_nat i)) (seq 0 (List.length items))
  end.

Definition last_key (o : object) : option str := last (map Some (keys o)) None.

(** *** Reading and writing *)

Definition lookup (h : store) (l : nat) : option object := nth_error h l.

Fixpoint update {A : Type} (i : nat) (x : A) (l : list A) : list A :=
  match l, i with
  | [], _ => []
  | _ :: l', O => x :: l'
  | y :: l', S i' => y :: update i' x l'
  end.

Definition alloc (h : store) (o : object) : store * nat := (h ++ [o], List.length h).

Fixpoint assoc (key : str) (ps : list (str * value)) : option value :=
  match ps with
  | [] => None
  | (k, v) :: ps' => if str_eqb k key then Some v else assoc key ps'
  end.

(** Replaces the value of an existing key in place, or adds the key at the
    end. *)
Fixpoint assign (key : str) (v : value) (ps : list (str * value)) : list (str * value) :=
  match ps with
  | [] => [(key, v)]
  | (k, v') :: ps' => if str_eqb k key then (k, v) :: ps' else (k, v') :: assign key v ps'
  end.

(** [o[key]] *)
Definition get_property (o : object) (key : str) : value :=
  match o with
  | Obj ps => match assoc key ps with Some v => v | None => VUndefined end
  | Arr items =>
      match array_index key with
      | Some i => nth (N.to_nat i) items VUndefined
      | None => VUndefined
      end
  end.

Definition proto : str := lit "__proto__".

(** [o[key] = v]; on an array only an index at most its length is
    represented, and on an object every key but [__proto__]. *)
Definition set_property (o : object) (key : str) (v : value) : outcome object :=
  match o with
  | Obj ps => if str_eqb key proto then OutOfModel else Ok (Obj (assign key v ps))
  | Arr items =>
      match array_index key with
      | Some i =>
          let i := N.to_nat i in
          if (i <? List.length items)%nat then Ok (Arr (update i v items))
          else if Nat.eqb i (List.length items) then Ok (Arr (items ++ [v]))
          else OutOfModel
      | None => OutOfModel
      end
  end.

(** [array.push(v)] *)
Definition push (o : object) (v : value) : outcome object :=
  match o with
  | Arr items => Ok (Arr (items ++ [v]))
  | Obj _ => OutOfModel
  end.

Definition isArray (o : object) : bool :=
  match o with
  | Arr _ => true
  | Obj _ => false
  end.

(** Rewrites the object at [l]. *)
Definition modify (h : store) (l : nat) (f : object -> outcome object) : outcome store :=
  match lookup h l with
  | Some o => bind (f o) (fun o' => Ok (update l o' h))
  | None => OutOfModel
  end.

(** ToBoolean *)
Definition truthy (v : value) : bool :=
  match v with
  | VUndefined | VNull => false
  | VBool b => b
  | VNum n => JSNum.truthy n
  | VStr s => negb (Nat.eqb (List.length s) 0)
  | VRef _ => true
  end.

(** *** Results as trees *)

#[warnings="-register-all"]
Inductive tree : Type :=
| TUndefined
| TNull
| TBool (b : bool)
| TNum (n : number)
| TStr (s : str)
| TArr (items : list tree)
| TObj (members : list (str * tree)).

(** The tree below a value; [None] when the store is cyclic or dangling. *)
Fixpoint reify (fuel : nat) (h : store) (v : value) : option tree :=
  match fuel with
  | O => None
  | S fuel' =>
      let all (vs : list value) : option (list tree) :=
        fold_right
          (fun v acc =>
             match reify fuel' h v, acc with
             | Some t, Some ts => Some (t :: ts)
             | _, _ => None
             end)
          (Some []) vs in
      match v with
      | VUndefined => Some TUndefined
      | VNull => Some TNull
      | VBool b => Some (TBool b)
      | VNum n => Some (TNum n)
      | VStr s => Some (TStr s)
      | VRef l =>
          match lookup h l with
          | Some (Arr items) => option_map TArr (all items)
          | Some (Obj ps) =>
              option_map (fun ts => TObj (combine (map fst ps) ts)) (all (map snd ps))
          | None => None
          end
      end
  end.

Definition tree_of (h : store) (v : value) : option tree := reify (S (List.length h)) h v.

End Store.

(** ** The tolerant JSON parser

    [parseJson] (plan-service.ts, 316-376) feeds the text to the streaming
    parser of the clarinet library and rebuilds the value from the events it
    gets back, merging with lodash's [_.merge] where a key comes twice. *)
Module Json.
Import Regex Store.

(** A JSON text, as written: the members of an object in source order,
    repeated keys included. *)
#[warnings="-register-all"]
Inductive jtext : Type :=
| JNull
| JBool (b : bool)
| JNumber (n : number)
| JString (s : str)
| JArray (items : list jtext)
| JObject (members : list (str * jtext)).

Inductive event : Type :=
| OpenObject (key : option str)
| Key (key : str)
| Value (v : value)
| OpenArray
| CloseObject
| CloseArray.

(** The events clarinet emits for an object or an array and for what it
    holds (from the library's documentation; the library is not part of the
    repository): [onopenobject] carries the first key of the object, or
    nothing when the object is empty; every further key comes as [onkey]; a
    scalar comes as [onvalue]. *)
Fixpoint events (t : jtext) : list event :=
  match t with
  | JNull => [Value VNull]
  | JBool b => [Value (VBool b)]
  | JNumber n => [Value (VNum n)]
  | JString s => [Value (VStr s)]
  | JArray items => OpenArray :: flat_map events items ++ [CloseArray]
  | JObject [] => [OpenObject None; CloseObject]
  | JObject ((key, v) :: members) =>
      OpenObject (Some key) :: events v
        ++ flat_map (fun m => Key (fst m) :: events (snd m)) members
        ++ [CloseObject]
  end.

(** *** [_.merge]

    From lodash's documentation and its [baseMerge]: the keys of the source
    are visited in [Object.keys] order; a source value that is an array or an
    object is merged recursively into the destination value when that is an
    array (for an array) or any object (for an object), and into a fresh
    array or object otherwise; any other source value is assigned unless it
    is the value already there. *)

(** SameValueZero *)
Definition eq (a b : value) : bool :=
  match a, b with
  | VUndefined, VUndefined | VNull, VNull => true
  | VBool x, VBool y => Bool.eqb x y
  | VNum NaN, VNum NaN | VNum PInf, VNum PInf | VNum NInf, VNum NInf => true
  | VNum (Fin x), VNum (Fin y) => Qeq_bool x y
  | VStr x, VStr y => str_eqb x y
  | VRef x, VRef y => Nat.eqb x y
  | _, _ => false
  end.

Definition assignMergeValue (h : store) (object : nat) (key : str) (v : value)
  : outcome store :=
  match lookup h object with
  | None => OutOfModel
  | Some o =>
      match v with
      | VUndefined => Ok h
      | _ => if eq (get_property o key) v then Ok h
             else modify h object (fun o => set_property o key v)
      end
  end.

(** [isLength(o.length)] for the value of a [length] property *)
Definition isLength (v : value) : bool :=
  match v with
  | VNum (Fin q) =>
      let r := Qred q in
      (Pos.eqb (Qden r) 1 && Z.leb 0 (Qnum r) && Z.leb (Qnum r) 9007199254740991)%bool
  | _ => false
  end.

Fixpoint baseMerge (fuel : nat) (h : store) (object source : nat) {struct fuel}
  : outcome store :=
  match fuel with
  | O => OutOfModel
  | S fuel' =>
      if Nat.eqb object source then Ok h
      else
        match lookup h source with
        | None => OutOfModel
        | Some src =>
            fold_left
              (fun acc key =>
                 bind acc (fun h =>
                   match lookup h object with
                   | None => OutOfModel
                   | Some o =>
                       match get_property src key with
                       | VRef sl =>
                           (* baseMergeDeep *)
                           match lookup h sl with
                           | None => OutOfModel
                           | Some srcValue =>
                               let objValue := get_property o key in
                               let target : outcome (store * nat) :=
                                 match srcValue, objValue with
                                 | Arr _, VRef ol =>
                                     match lookup h ol with
                                     | Some (Arr _) => Ok (h, ol)
                                     | Some (Obj ps) =>
                                         if isLength (get_property (Obj ps) (lit "length"))
                                         then OutOfModel
                                         else Ok (alloc h (Arr []))
                                     | None => OutOfModel
                                     end
                                 | Arr _, _ => Ok (alloc h (Arr []))
                                 | Obj _, VRef ol => Ok (h, ol)
                                 | Obj _, _ => Ok (alloc h (Obj []))
                                 end in
                               bind target (fun t =>
                                 let '(h, newValue) := t in
                                 bind (baseMerge fuel' h newValue sl) (fun h =>
                                   assignMergeValue h object key (VRef newValue)))
                           end
                       | srcValue => assignMergeValue h object key srcValue
                       end
                   end))
              (keys src) (Ok h)
        end
  end.

(** [_.merge(object, source)]: a destination that is not an object is
    wrapped into a fresh one, which nothing else refers to. *)
Definition merge (h : store) (object source : value) : outcome store :=
  match source with
  | VRef sl =>
      match object with
      | VRef ol => baseMerge (S (List.length h)) h ol sl
      | _ => Ok h
      end
  | _ => Ok h
  end.

(** *** The handlers *)

Record parser_state : Type := mkParser {
  heap : store;
  elements : list nat;
  root : value;
  duplicated : option (nat * value)
}.

Definition initial : parser_state :=
  {| heap := []; elements := []; root := VNull; duplicated := None |}.

Definition with_heap (st : parser_state) (h : store) : parser_state :=
  {| heap := h; elements := elements st; root := root st; duplicated := duplicated st |}.

(** [elements[elements.length - 1]] and the object it refers to;
    [Object.keys(undefined)] throws. *)
Definition current (st : parser_state) : outcome (nat * object) :=
  match last (map Some (elements st)) None with
  | None => Throw TypeError
  | Some l =>
      match lookup (heap st) l with
      | Some o => Ok (l, o)
      | None => OutOfModel
      end
  end.

(** [current.push(v)] for an array, [current[lastKey] = v] otherwise; an
    object without keys gets the key [undefined]. *)
Definition attach (st : parser_state) (v : value) : outcome parser_state :=
  bind (current st) (fun c =>
    let '(l, o) := c in
    bind (modify (heap st) l
            (fun o =>
               if isArray o then push o v
               else match last_key o with
                    | Some lastKey => set_property o lastKey v
                    | None => set_property o (lit "undefined") v
                    end))
      (fun h => Ok (with_heap st h))).

Definition onvalue (v : value) (st : parser_state) : outcome parser_state := attach st v.

(** [o[key] = null] on the new object is an assignment like any other: for
    the key [__proto__] it is outside the model. *)
Definition onopenobject (key : option str) (st : parser_state) : outcome parser_state :=
  let key := match key with Some k => k | None => lit "undefined" end in
  bind (set_property (Obj []) key VNull) (fun o =>
    let '(h, l) := alloc (heap st) o in
    Ok {| heap := h; elements := elements st ++ [l]; root := root st;
          duplicated := duplicated st |}).

Definition onkey (key : str) (st : parser_state) : outcome parser_state :=
  bind (current st) (fun c =>
    let '(l, o) := c in
    if existsb (str_eqb key) (keys o)
    then Ok {| heap := heap st; elements := elements st; root := root st;
               duplicated := Some ((List.length (elements st) - 1)%nat, get_property o key) |}
    else bind (modify (heap st) l (fun o => set_property o key VNull))
           (fun h => Ok (with_heap st h))).

Definition onopenarray (st : parser_state) : outcome parser_state :=
  let '(h, l) := alloc (heap st) (Arr []) in
  Ok {| heap := h; elements := elements st ++ [l]; root := root st;
        duplicated := duplicated st |}.

(** [oncloseobject] and [onclosearray]; popping the empty stack gives
    [undefined]. *)
Definition onclose (st : parser_state) : outcome parser_state :=
  match rev (elements st) with
  | [] => Ok {| heap := heap st; elements := []; root := VUndefined;
                duplicated := duplicated st |}
  | popped :: below =>
      let st := {| heap := heap st; elements := rev below; root := root st;
                   duplicated := duplicated st |} in
      match elements st with
      | [] => Ok {| heap := heap st; elements := []; root := VRef popped;
                    duplicated := duplicated st |}
      | _ :: _ =>
          let matches :=
            match duplicated st with
            | Some (level, _) => Nat.eqb level (List.length (elements st) - 1)
            | None => false
            end in
          match duplicated st, matches with
          | Some (_, existing), true =>
              bind (merge (heap st) existing (VRef popped)) (fun h =>
                Ok {| heap := h; elements := elements st; root := root st;
                      duplicated := None |})
          | _, _ => attach st (VRef popped)
          end
      end
  end.

Definition handle (e : event) (st : parser_state) : outcome parser_state :=
  match e with
  | OpenObject key => onopenobject key st
  | Key key => onkey key st
  | Value v => onvalue v st
  | OpenArray => onopenarray st
  | CloseObject | CloseArray => onclose st
  end.

Definition run (es : list event) (st : parser_state) : outcome parser_state :=
  fold_left (fun acc e => bind acc (handle e)) es (Ok st).

(** What clarinet does with a text that does not start with a brace or a
    bracket: it records the error [Non-whitespace before {[.] (the message
    goes on with the position) without calling a handler, and [close]
    throws it. *)
Definition rejected : error := Failure "Non-whitespace before {[.".

(** [parseJson], on the events of the text; the result is returned with the
    store it lives in. *)
Definition parseJson (source : jtext) : outcome (store * value) :=
  match source with
  | JArray _ | JObject _ =>
      bind (run (events source) initial) (fun st =>
        match root st with
        | VRef l =>
            match lookup (heap st) l with
            | Some (Arr items) => Ok (heap st, nth 0 items VUndefined)
            | Some (Obj _) => Ok (heap st, root st)
            | None => OutOfModel
            end
        | r => Ok (heap st, r)
        end)
  | _ => Throw rejected
  end.

(** The result as a tree. *)
Definition parsed (source : jtext) : outcome (option tree) :=
  bind (parseJson source) (fun r => Ok (tree_of (fst r) (snd r))).

End Json.

(** ** String functions of the language and of lodash

    The built-in functions follow the ECMAScript specification; those of
    lodash follow its documentation.  Case mapping is that of the ASCII
    letters (other letters are left as they are); a number read from a text
    is rounded to binary64. *)
Module JSLib.
Import Regex Store Json.

(** The highest group number in a pattern. *)
Fixpoint ngroups (r : regex) : nat :=
  match r with
  | Seq r1 r2 | Alt r1 r2 => Nat.max (ngroups r1) (ngroups r2)
  | Star _ r1 => ngroups r1
  | Grp i r1 => Nat.max i (ngroups r1)
  | _ => 0
  end.

(** [s.split(r)]: the texts between the matches, each followed by the
    captures of the match that ends it ([None] for a group that did not take
    part).  A match is tried at each position in turn; an empty match at the
    start of the current piece is skipped. *)
Fixpoint split_from (fuel : nat) (fl : flags) (r : regex) (piece : list N)
    (behind0 ahead0 : list N) {struct fuel} : list (option str) :=
  match fuel with
  | O => [Some (rev piece ++ ahead0)]
  | S fuel' =>
      match ahead0 with
      | [] => [Some (rev piece)]
      | c :: rest =>
          let st := {| behind := behind0; ahead := ahead0; captures := [] |} in
          let advance := split_from fuel' fl r (c :: piece) (c :: behind0) rest in
          match matcher fl r Some st with
          | None => advance
          | Some st' =>
              if (Nat.eqb (List.length (ahead st')) (List.length ahead0)
                  && Nat.eqb (List.length piece) 0)%bool
              then advance
              else Some (rev piece)
                     :: map (fun i => capture i st') (seq 1 (ngroups r))
                     ++ split_from fuel' fl r [] (behind st') (ahead st')
          end
      end
  end.

Definition split (fl : flags) (r : regex) (s : str) : list (option str) :=
  match s with
  | [] => if test fl r [] then [] else [Some []]
  | _ => split_from (2 * List.length s + 2) fl r [] [] s
  end.

(** The pieces of a split by a pattern without groups. *)
Definition pieces (l : list (option str)) : list str :=
  map (fun x => match x with Some s => s | None => [] end) l.

(** [.filter((x) => x)]: the non-empty strings *)
Definition nonempty (l : list (option str)) : list str :=
  flat_map (fun x => match x with Some (c :: s) => [c :: s] | _ => [] end) l.

(** [(s.match(r) || []).length] for a pattern with the [g] flag: the number
    of matches. *)
Fixpoint count_from (fuel : nat) (fl : flags) (r : regex) (behind0 ahead0 : list N) : nat :=
  match fuel with
  | O => 0
  | S fuel' =>
      match search_from fl r [] behind0 ahead0 with
      | None => 0
      | Some f =>
          S match matched f, end_ahead f with
            | [], c :: rest => count_from fuel' fl r (c :: end_behind f) rest
            | [], [] => 0
            | _ :: _, rest => count_from fuel' fl r (end_behind f) rest
            end
      end
  end.

Definition countChar (s : str) (r : regex) : nat :=
  count_from (S (List.length s)) no_flags r [] s.

(** [a || b] on captures: an empty or missing capture is falsy. *)
Definition orElse (a b : option str) : option str :=
  match a with
  | Some (_ :: _) => a
  | _ => b
  end.

Definition present (a : option str) : bool :=
  match a with
  | Some (_ :: _) => true
  | _ => false
  end.

Fixpoint dropWhile (p : N -> bool) (s : str) : str :=
  match s with
  | c :: s' => if p c then dropWhile p s' else s
  | [] => []
  end.

Fixpoint takeWhile (p : N -> bool) (s : str) : str :=
  match s with
  | c :: s' => if p c then c :: takeWhile p s' else []
  | [] => []
  end.

(** [s.trim()], [_.trim(s)] *)
Definition trim (s : str) : str := rev (dropWhile isSpace (rev (dropWhile isSpace s))).

Definition lower (c : N) : N := if (N.leb 65 c && N.leb c 90)%bool then (c + 32)%N else c.
Definition upper (c : N) : N := if (N.leb 97 c && N.leb c 122)%bool then (c - 32)%N else c.

Definition toLowerCase (s : str) : str := map lower s.
Definition toUpperCase (s : str) : str := map upper s.

(** [_.capitalize]: the first character in upper case, the rest in lower
    case. *)
Definition capitalize (s : str) : str :=
  match toLowerCase s with
  | c :: s' => upper c :: s'
  | [] => []
  end.

Definition isAlnum (c : N) : bool :=
  (isDigit c || (N.leb 65 c && N.leb c 90) || (N.leb 97 c && N.leb c 122))%bool.

Definition isUpperLetter (c : N) : bool := (N.leb 65 c && N.leb c 90)%bool.
Definition isLowerLetter (c : N) : bool := (N.leb 97 c && N.leb c 122)%bool.
Definition isLetter (c : N) : bool := (isUpperLetter c || isLowerLetter c)%bool.

(** lodash's test for the texts it cuts into words with its Unicode
    pattern: a lower case letter before an upper case one, two upper case
    letters before a lower case one, a digit next to a letter, or a
    character that is not a letter, a digit or a space. *)
Fixpoint hasUnicodeWord (s : str) : bool :=
  match s with
  | [] => false
  | c :: rest =>
      (negb (isAlnum c || N.eqb c 32)
       || match rest with
          | c2 :: rest2 =>
              (isLowerLetter c && isUpperLetter c2)
              || (isDigit c && isLetter c2)
              || (isLetter c && isDigit c2)
              || (isUpperLetter c && isUpperLetter c2
                  && match rest2 with
                     | c3 :: _ => isLowerLetter c3
                     | [] => false
                     end)
          | [] => false
          end
       || hasUnicodeWord rest)%bool
  end.

(** The maximal runs of letters and digits. *)
Fixpoint words_from (fuel : nat) (s : str) : list str :=
  match fuel with
  | O => []
  | S fuel' =>
      match dropWhile (fun c => negb (isAlnum c)) s with
      | [] => []
      | s' => takeWhile isAlnum s' :: words_from fuel' (dropWhile isAlnum s')
      end
  end.

(** [_.words] as [_.startCase] and [_.upperCase] call it: on the text
    without its apostrophes.  Only the texts lodash cuts with its ASCII
    pattern are represented, which leaves out a text with a character
    outside ASCII (that [deburr] may change) and one for which
    [hasUnicodeWord] holds; there the words are the runs of letters and
    digits between the spaces. *)
Definition words (s : str) : option (list str) :=
  if existsb (fun c => N.leb 128 c) s then None
  else
    let s := filter (fun c => negb (N.eqb c 39)) s in
    if hasUnicodeWord s then None else Some (words_from (S (List.length s)) s).

Definition join (sep : str) (l : list str) : str :=
  match l with
  | [] => []
  | x :: l' => x ++ flat_map (fun y => sep ++ y) l'
  end.

(** [_.startCase]: the words, each with its first letter in upper case,
    joined by spaces. *)
Definition startCase (s : str) : option str :=
  option_map
    (fun ws => join [32%N] (map (fun w => match w with c :: w' => upper c :: w' | [] => [] end) ws))
    (words s).

(** [_.upperCase]: the words in upper case, joined by spaces. *)
Definition upperCase (s : str) : option str :=
  option_map (fun ws => join [32%N] (map toUpperCase ws)) (words s).

Fixpoint isPrefix (p s : str) : bool :=
  match p, s with
  | [], _ => true
  | _ :: _, [] => false
  | a :: p', b :: s' => (N.eqb a b && isPrefix p' s')%bool
  end.

(** [s.indexOf(p) !== -1] *)
Fixpoint includes (p s : str) : bool :=
  (isPrefix p s || match s with
                   | [] => false
                   | _ :: s' => includes p s'
                   end)%bool.

(** *** Numbers *)

Definition digits_value (s : str) : Z := Z.of_N (number_of_digits s).

Definition pow10 (n : nat) : Q := inject_Z (Z.pow 10 (Z.of_nat n)).

(** The binary64 value nearest to a rational, the one with an even
    significand when two are as near; an infinity from 2^1024 up.  (The sign
    of a zero is not kept.) *)
Definition binary64 (q : Q) : number :=
  let n := Qnum q in
  let d := Zpos (Qden q) in
  if (n =? 0)%Z then zero
  else
    let a := Z.abs n in
    (* 2^e <= a/d < 2^(e+1), or the least exponent *)
    let e0 := (Z.log2 a - Z.log2 d)%Z in
    let below :=
      if (0 <=? e0)%Z then (a <? d * 2 ^ e0)%Z else (a * 2 ^ (- e0) <? d)%Z in
    let e := Z.max (if below then e0 - 1 else e0)%Z (-1022) in
    (* the significand: a/d in units of 2^(e-52), rounded *)
    let s := (52 - e)%Z in
    let num := if (0 <=? s)%Z then (a * 2 ^ s)%Z else a in
    let den := if (0 <=? s)%Z then d else (d * 2 ^ (- s))%Z in
    let r := (num / den)%Z in
    let rem := (num mod den)%Z in
    let r :=
      if (den <? 2 * rem)%Z then (r + 1)%Z
      else if (2 * rem =? den)%Z then (if Z.even r then r else r + 1)%Z
      else r in
    if ((1023 <? e) || ((e =? 1023) && (2 ^ 53 <=? r)))%Z
    then (if (n <? 0)%Z then NInf else PInf)
    else
      let magnitude : Q :=
        if (0 <=? s)%Z then Qmake r (Z.to_pos (2 ^ s)) else inject_Z (r * 2 ^ (- s)) in
      fin (if (n <? 0)%Z then - magnitude else magnitude).

(** An optional sign: whether it is a minus, and the rest. *)
Definition sign (s : str) : bool * str :=
  match s with
  | 45%N :: s' => (true, s')
  | 43%N :: s' => (false, s')
  | _ => (false, s)
  end.

(** The number with the digits [int] before and [frac] after the point and
    the decimal exponent [exponent].  The two tests only keep the powers of
    ten small: from 10^310 up the value is past every finite binary64, and
    below 10^-330 it rounds to 0. *)
Definition decimal_value (int frac : str) (exponent : Z) : number :=
  if forallb (N.eqb 48) (int ++ frac) then zero
  else if (310 <=? exponent - Z.of_nat (List.length frac))%Z then PInf
  else if (exponent + Z.of_nat (List.length int) <=? -330)%Z then zero
  else
    let mantissa :=
      (inject_Z (digits_value int)
       + inject_Z (digits_value frac) / pow10 (List.length frac))%Q in
    binary64
      (if (exponent <? 0)%Z then (mantissa / pow10 (Z.to_nat (- exponent)))%Q
       else (mantissa * pow10 (Z.to_nat exponent))%Q).

(** [parseFloat(s)]: the longest prefix, after leading white space, that is
    a decimal literal. *)
Definition parseFloat (s : str) : number :=
  let '(negative, s) := sign (dropWhile isSpace s) in
  let apply_sign (n : number) := if negative then JSNum.neg n else n in
  if isPrefix (lit "Infinity") s then apply_sign PInf
  else
    let int := takeWhile isDigit s in
    let s := dropWhile isDigit s in
    let '(frac, s) :=
      match s with
      | 46%N :: s' => (takeWhile isDigit s', dropWhile isDigit s')
      | _ => ([], s)
      end in
    match int, frac with
    | [], [] => NaN
    | _, _ =>
        let exponent : Z :=
          match s with
          | (101%N | 69%N) :: s' =>
              let '(minus, s'') := sign s' in
              match takeWhile isDigit s'' with
              | [] => 0%Z
              | ds => if minus then (- digits_value ds)%Z else digits_value ds
              end
          | _ => 0%Z
          end in
        apply_sign (decimal_value int frac exponent)
    end.

Definition hex_value (c : N) : option N :=
  if isDigit c then Some (c - 48)%N
  else if (N.leb 97 c && N.leb c 102)%bool then Some (c - 87)%N
  else if (N.leb 65 c && N.leb c 70)%bool then Some (c - 55)%N
  else None.

(** [parseInt(s, 0)]: radix 16 after [0x], radix 10 otherwise. *)
Definition parseInt (s : str) : number :=
  let '(negative, s) := sign (dropWhile isSpace s) in
  let apply_sign (n : number) := if negative then JSNum.neg n else n in
  match s with
  | 48%N :: (120%N | 88%N) :: s' =>
      match takeWhile (fun c => match hex_value c with Some _ => true | None => false end) s' with
      | [] => NaN
      | ds =>
          apply_sign
            (binary64
               (inject_Z
                  (Z.of_N (fold_left
                             (fun n c => (16 * n + match hex_value c with
                                                   | Some d => d
                                                   | None => 0
                                                   end)%N) ds 0%N))))
      end
  | _ =>
      match takeWhile isDigit s with
      | [] => NaN
      | ds => apply_sign (binary64 (inject_Z (digits_value ds)))
      end
  end.

(** [parseFloat(x)], [parseInt(x, 0)] on a capture: [undefined] reads as the
    text undefined, which is not a number. *)
Definition parseFloatOf (x : option str) : number :=
  match x with
  | Some s => parseFloat s
  | None => NaN
  end.

Definition parseIntOf (x : option str) : number :=
  match x with
  | Some s => parseInt s
  | None => NaN
  end.

(** *** [JSON.parse]

    The grammar of ECMA-404: a value between white space.  The text is read
    into the members as written; [Text.materialize] builds the value. *)

Definition isJsonSpace (c : N) : bool :=
  (N.eqb c 32 || N.eqb c 9 || N.eqb c 10 || N.eqb c 13)%bool.

Definition skip (s : str) : str := dropWhile isJsonSpace s.

(** The characters of a string after its opening quote, up to the closing
    one, and the rest. *)
Fixpoint json_string (s : str) (acc : list N) : option (str * str) :=
  match s with
  | [] => None
  | 34%N :: rest => Some (rev acc, rest)
  | 92%N :: e :: rest =>
      let plain (c : N) := json_string rest (c :: acc) in
      match e with
      | 34%N => plain 34%N
      | 92%N => plain 92%N
      | 47%N => plain 47%N
      | 98%N => plain 8%N
      | 102%N => plain 12%N
      | 110%N => plain 10%N
      | 114%N => plain 13%N
      | 116%N => plain 9%N
      | 117%N =>
          match rest with
          | a :: b :: c :: d :: rest' =>
              match hex_value a, hex_value b, hex_value c, hex_value d with
              | Some a, Some b, Some c, Some d =>
                  json_string rest' ((4096 * a + 256 * b + 16 * c + d)%N :: acc)
              | _, _, _, _ => None
              end
          | _ => None
          end
      | _ => None
      end
  | c :: rest => if (c <? 32)%N then None else json_string rest (c :: acc)
  end.

(** A number: an optional minus sign, then a zero or digits that do not
    start with a zero, then optionally a point and digits, then optionally
    an exponent: [e] or [E], an optional sign and digits. *)
Definition json_number (s : str) : option (number * str) :=
  let '(negative, s1) :=
    match s with
    | 45%N :: s' => (true, s')
    | _ => (false, s)
    end in
  let int := takeWhile isDigit s1 in
  let s2 := dropWhile isDigit s1 in
  match int with
  | [] => None
  | 48%N :: _ :: _ => None
  | _ =>
      let frac_part : option (str * str) :=
        match s2 with
        | 46%N :: s' =>
            match takeWhile isDigit s' with
            | [] => None
            | ds => Some (ds, dropWhile isDigit s')
            end
        | _ => Some ([], s2)
        end in
      match frac_part with
      | None => None
      | Some (frac, s3) =>
          let exp_part : option (Z * str) :=
            match s3 with
            | (101%N | 69%N) :: s' =>
                let '(minus, s'') := sign s' in
                match takeWhile isDigit s'' with
                | [] => None
                | ds => Some (if minus then (- digits_value ds)%Z else digits_value ds,
                              dropWhile isDigit s'')
                end
            | _ => Some (0%Z, s3)
            end in
          match exp_part with
          | None => None
          | Some (exponent, s4) =>
              let n := decimal_value int frac exponent in
              Some (if negative then JSNum.neg n else n, s4)
          end
      end
  end.

Fixpoint json_value (fuel : nat) (s : str) {struct fuel} : option (jtext * str) :=
  match fuel with
  | O => None
  | S fuel' =>
      match skip s with
      | 110%N :: 117%N :: 108%N :: 108%N :: rest => Some (JNull, rest)
      | 116%N :: 114%N :: 117%N :: 101%N :: rest => Some (JBool true, rest)
      | 102%N :: 97%N :: 108%N :: 115%N :: 101%N :: rest => Some (JBool false, rest)
      | 34%N :: rest =>
          match json_string rest [] with
          | Some (text, rest') => Some (JString text, rest')
          | None => None
          end
      | 91%N :: rest =>
          match skip rest with
          | 93%N :: rest' => Some (JArray [], rest')
          | _ =>
              (fix elements (k : nat) (s : str) (acc : list jtext) {struct k}
                 : option (jtext * str) :=
                 match k with
                 | O => None
                 | S k' =>
                     match json_value fuel' s with
                     | Some (v, rest') =>
                         match skip rest' with
                         | 44%N :: rest'' => elements k' rest'' (v :: acc)
                         | 93%N :: rest'' => Some (JArray (rev (v :: acc)), rest'')
                         | _ => None
                         end
                     | None => None
                     end
                 end) fuel' rest []
          end
      | 123%N :: rest =>
          match skip rest with
          | 125%N :: rest' => Some (JObject [], rest')
          | _ =>
              (fix members (k : nat) (s : str) (acc : list (str * jtext)) {struct k}
                 : option (jtext * str) :=
                 match k with
                 | O => None
                 | S k' =>
                     match skip s with
                     | 34%N :: s' =>
                         match json_string s' [] with
                         | Some (key, rest') =>
                             match skip rest' with
                             | 58%N :: rest'' =>
                                 match json_value fuel' rest'' with
                                 | Some (v, rest3) =>
                                     match skip rest3 with
                                     | 44%N :: rest4 => members k' rest4 ((key, v) :: acc)
                                     | 125%N :: rest4 =>
                                         Some (JObject (rev ((key, v) :: acc)), rest4)
                                     | _ => None
                                     end
                                 | None => None
                                 end
                             | _ => None
                             end
                         | None => None
                         end
                     | _ => None
                     end
                 end) fuel' rest []
          end
      | s' =>
          match json_number s' with
          | Some (n, rest) => Some (JNumber n, rest)
          | None => None
          end
      end
  end.

(** [JSON.parse(s)], up to the text it reads; a text outside the grammar
    throws a SyntaxError. *)
Definition JSON_parse (s : str) : outcome jtext :=
  match json_value (S (List.length s)) s with
  | Some (v, rest) =>
      match skip rest with
      | [] => Ok v
      | _ => Throw SyntaxError
      end
  | None => Throw SyntaxError
  end.

(** Modelled from the spec: [splitBalanced] of help-service.ts, which is not
    among the sources.  "[splitBalanced(s, ',')] splits on commas that occur
    at parenthesis nesting depth 0 (tracking [()], [[]], and quotes)." *)
Fixpoint splitBalanced_from (s : str) (sep : N) (depth : nat) (quote : option N)
    (piece : list N) : list str :=
  match s with
  | [] => [rev piece]
  | c :: s' =>
      match quote with
      | Some q =>
          splitBalanced_from s' sep depth (if N.eqb c q then None else quote) (c :: piece)
      | None =>
          if (N.eqb c sep && Nat.eqb depth 0)%bool
          then rev piece :: splitBalanced_from s' sep depth None []
          else if (N.eqb c 34 || N.eqb c 39)%bool
          then splitBalanced_from s' sep depth (Some c) (c :: piece)
          else if (N.eqb c 40 || N.eqb c 91)%bool
          then splitBalanced_from s' sep (S depth) None (c :: piece)
          else if (N.eqb c 41 || N.eqb c 93)%bool
          then splitBalanced_from s' sep (Nat.pred depth) None (c :: piece)
          else splitBalanced_from s' sep depth None (c :: piece)
      end
  end.

Definition splitBalanced (s : str) (sep : N) : list str := splitBalanced_from s sep 0 None [].

End JSLib.

(** ** The text parser

    [TextParser] (parsers/text.ts).  The plan is built in the store; the
    parser keeps references to the nodes it may still write to in
    [elementsAtDepth]. *)
Module Text.
Import Regex Store Json JSLib.
Local Open Scope nat_scope.

(** *** Computations on the store *)

Definition M (A : Type) : Type := store -> outcome (store * A).

Definition ret {A : Type} (a : A) : M A := fun h => Ok (h, a).

Definition throw {A : Type} (e : error) : M A := fun _ => Throw e.

Definition unmodelled {A : Type} : M A := fun _ => OutOfModel.

Definition mbind {A B : Type} (c : M A) (k : A -> M B) : M B :=
  fun h =>
    match c h with
    | Ok (h', a) => k a h'
    | Throw e => Throw e
    | OutOfModel => OutOfModel
    end.

Notation "x <- c ;; k" := (mbind c (fun x => k))
  (at level 61, c at next level, right associativity).
Notation "c ;;; k" := (mbind c (fun _ => k))
  (at level 61, right associativity).

(** [for (x of l) body(x)] *)
Fixpoint forEach {A : Type} (l : list A) (body : A -> M unit) : M unit :=
  match l with
  | [] => ret tt
  | x :: l' => body x ;;; forEach l' body
  end.

Definition new (o : object) : M nat := fun h => let '(h', l) := alloc h o in Ok (h', l).

Definition read (l : nat) : M object :=
  fun h => match lookup h l with Some o => Ok (h, o) | None => OutOfModel end.

(** [o[key]] and [o[key] = v] for the object at [l] *)
Definition getp (l : nat) (key : str) : M value := o <- read l ;; ret (get_property o key).

Definition setp (l : nat) (key : str) (v : value) : M unit :=
  fun h => match modify h l (fun o => set_property o key v) with
           | Ok h' => Ok (h', tt)
           | Throw e => Throw e
           | OutOfModel => OutOfModel
           end.

(** [x.push(v)] for the value [x] of a property: it throws unless [x] is an
    array. *)
Definition pushTo (x : value) (v : value) : M unit :=
  match x with
  | VRef l =>
      o <- read l ;;
      match o with
      | Arr items =>
          fun h => match modify h l (fun o => push o v) with
                   | Ok h' => Ok (h', tt)
                   | Throw e => Throw e
                   | OutOfModel => OutOfModel
                   end
      | Obj _ => throw TypeError
      end
  | _ => throw TypeError
  end.

(** The value [JSON.parse] builds for a text: a key that comes twice keeps
    its place and takes the later value; an own property [__proto__] is
    outside the model. *)
Fixpoint materialize (text : jtext) : M value :=
  match text with
  | JNull => ret VNull
  | JBool b => ret (VBool b)
  | JNumber n => ret (VNum n)
  | JString s => ret (VStr s)
  | JArray items =>
      vs <- (fix all (l : list jtext) : M (list value) :=
               match l with
               | [] => ret []
               | x :: l' => v <- materialize x ;; vs <- all l' ;; ret (v :: vs)
               end) items ;;
      l <- new (Arr vs) ;;
      ret (VRef l)
  | JObject members =>
      ps <- (fix all (l : list (str * jtext)) (acc : list (str * value))
               : M (list (str * value)) :=
               match l with
               | [] => ret acc
               | m :: l' =>
                   v <- materialize (snd m) ;;
                   if str_eqb (fst m) proto then unmodelled else all l' (assign (fst m) v acc)
               end) members [] ;;
      l <- new (Obj ps) ;;
      ret (VRef l)
  end.

(** *** Property names

    Modelled from the spec: the keys of the enumerations of enums.ts, which
    is not among the sources; they are the names of PostgreSQL's JSON
    format. *)
Definition NODE_TYPE : str := lit "Node Type".
Definition STARTUP_COST : str := lit "Startup Cost".
Definition TOTAL_COST : str := lit "Total Cost".
Definition PLAN_ROWS : str := lit "Plan Rows".
Definition PLAN_WIDTH : str := lit "Plan Width".
Definition ACTUAL_STARTUP_TIME : str := lit "Actual Startup Time".
Definition ACTUAL_TOTAL_TIME : str := lit "Actual Total Time".
Definition ACTUAL_ROWS : str := lit "Actual Rows".
Definition ACTUAL_LOOPS : str := lit "Actual Loops".
Definition PLANS : str := lit "Plans".
Definition WORKERS : str := lit "Workers".
Definition PARENT_RELATIONSHIP : str := lit "Parent Relationship".
Definition SUBPLAN_NAME : str := lit "Subplan Name".
Definition SORT_METHOD : str := lit "Sort Method".
Definition SORT_SPACE_USED : str := lit "Sort Space Used".
Definition SORT_SPACE_TYPE : str := lit "Sort Space Type".
Definition FULL_SORT_GROUPS : str := lit "Full-sort Groups".
Definition PRE_SORTED_GROUPS : str := lit "Pre-sorted Groups".
Definition IO_READ_TIME : str := lit "I/O Read Time".
Definition IO_WRITE_TIME : str := lit "I/O Write Time".
Definition WORKER_NUMBER : str := lit "Worker Number".
Definition GROUP_COUNT : str := lit "Group Count".
Definition SORT_METHODS_USED : str := lit "Sort Methods Used".
Definition SORT_SPACE_MEMORY : str := lit "Sort Space Memory".
Definition AVERAGE_SORT_SPACE_USED : str := lit "Average Sort Space Used".
Definition PEAK_SORT_SPACE_USED : str := lit "Peak Sort Space Used".

(** Modelled from the spec: the constructors of inode.ts and iworker.ts,
    which are not among the sources.  A node starts with its [node_type], a
    worker with its [worker_number]. *)
Definition newNode (type : option str) : M nat :=
  new (Obj [(NODE_TYPE, match type with Some s => VStr s | None => VUndefined end)]).

Definition newWorker (workerNumber : number) : M nat :=
  new (Obj [(WORKER_NUMBER, VNum workerNumber)]).

(** *** Patterns *)

Definition digits : regex := Plus digit.

(** [\d+\.\d+] *)
Definition decimal_number : regex := Seqs [digits; Chr 46; digits].

(** [estimationRegex], its four groups numbered from [g] *)
Definition estimationRegex (g : nat) : regex :=
  Seqs [ Lit "(cost="; Grp g decimal_number; Lit ".."; Grp (g + 1) decimal_number;
         Plus space; Lit "rows="; Grp (g + 2) digits;
         Plus space; Lit "width="; Grp (g + 3) digits; Lit ")" ].

(** [actualRegex], its seven groups numbered from [g] *)
Definition actualRegex (g : nat) : regex :=
  Alts
    (Seqs [ Lit "actual"; space; Lit "time="; Grp g decimal_number; Lit "..";
            Grp (g + 1) decimal_number; space; Lit "rows="; Grp (g + 2) digits;
            space; Lit "loops="; Grp (g + 3) digits ])
    [ Seqs [ Lit "actual"; space; Lit "rows="; Grp (g + 4) digits;
             space; Lit "loops="; Grp (g + 5) digits ];
      Grp (g + 6) (Seqs [Lit "never"; Plus space; Lit "executed"]) ].

(** [prefixRegex]: a line start and, as group 1, an arrow between white
    space, or white space *)
Definition prefixRegex : regex :=
  Seq Bol (Grp 1 (Alt (Seqs [Star true space; Lit "->"; Star true space]) (Star true space))).

(** [typeRegex]: group 2, as few characters as possible, none of them CR,
    LF, TAB, FF, VT, a colon or an opening parenthesis *)
Definition typeRegex : regex :=
  Grp 2 (Star false
           (Cls (fun c => negb (existsb (N.eqb c) [13; 10; 9; 12; 11; 58; 40]%N)))).

(** [nodeRegex], flags [gm].  Its groups: 1 prefix, 2 type; in the first
    alternative 3 to 6 the estimate and 7 to 13 the actuals; in the second 14
    to 17 the estimate; in the third 18 to 24 the actuals. *)
Definition nodeRegex : regex :=
  Seqs [ prefixRegex; typeRegex; Star true space;
         Alts (Seqs [ estimationRegex 3; Plus space;
                      Chr 40; actualRegex 7; Chr 41 ])
           [ estimationRegex 14;
             Seqs [Chr 40; actualRegex 18; Chr 41] ];
         Star true space; Eol ].

(** The empty line pattern.  It is built from the string literal ['^\s*$'],
    in which the escape is lost: a line start, any number of the letter s,
    a line end. *)
Definition emptyLineRegex : regex := Seqs [Bol; Star true (Chr 115); Eol].

(** [headerRegex]: a line start, white space, QUERY or three dashes or a
    hash, the rest of the line *)
Definition headerRegex : regex :=
  Seqs [ Bol; Star true space;
         Grp 1 (Alts (Lit "QUERY") [Lit "---"; Lit "#"]);
         Star true dot; Eol ].

(** [subRegex], flags [gm]: a line start, white space (group 1), SubPlan or
    InitPlan (group 2), white space, an optional number, an optional
    parenthesis starting with returns, a line end *)
Definition subRegex : regex :=
  Seqs [ Bol; Grp 1 (Star true space);
         Grp 2 (Seq (Alt (Lit "Sub") (Lit "Init")) (Lit "Plan"));
         Star true space;
         Opt (Seq digits (Star true space));
         Star true space;
         Opt (Seqs [Lit "(returns"; Star true dot; Chr 41; Star true space]);
         Eol ].

(** [cteRegex]: a line start, white space (group 1), CTE, white space, a
    name without white space (group 2), white space, the end *)
Definition cteRegex : regex :=
  Seqs [ Bol; Grp 1 (Star true space); Lit "CTE"; Plus space;
         Grp 2 (Plus nonspace); Star true space; Eol ].

(** [triggerRegex]: groups 2 name, 3 time, 4 calls *)
Definition triggerRegex : regex :=
  Seqs [ Bol; Grp 1 (Star true space); Lit "Trigger"; Plus space;
         Grp 2 (Star true dot); Chr 58; Plus space;
         Lit "time="; Grp 3 decimal_number; Plus space;
         Lit "calls="; Grp 4 digits; Star true space; Eol ].

(** [workerRegex]: groups 2 worker number, 3 to 9 the optional actuals, 10
    the rest of the line *)
Definition workerRegex : regex :=
  Seqs [ Bol; Grp 1 (Star true space); Lit "Worker"; Plus space; Grp 2 digits; Chr 58;
         Plus space;
         Opt (actualRegex 3);
         Grp 10 (Star true dot);
         Star true space; Eol ].

(** [jitRegex] *)
Definition jitRegex : regex :=
  Seqs [Bol; Grp 1 (Star true space); Lit "JIT:"; Star true space; Eol].

(** [extraRegex]: group 2 runs from the first to the last character that is
    not white space *)
Definition extraRegex : regex :=
  Seqs [ Bol; Grp 1 (Star true space);
         Grp 2 (Seqs [nonspace; Star true dot; nonspace]);
         Star true space; Eol ].

(** The separator of a label and its value: a colon, a space, and as
    group 1 the rest of the line *)
Definition labelRegex : regex := Seqs [Chr 58; Chr 32; Grp 1 (Plus dot)].

(** A trailing [ms] with the white space before it *)
Definition msRegex : regex := Seqs [Grp 1 (Seq (Star true space) (Lit "ms")); Eol].

(** *** [splitIntoLines] (text.ts, 16-44) *)

(** The words that start a logical line of their own, flag [i] *)
Definition keywordRegex : regex :=
  Seq Bol
    (Alts (Seqs [Lit "Total"; Plus space; Lit "runtime"])
       [ Seqs [Lit "Planning"; Plus space; Lit "time"];
         Seqs [Lit "Execution"; Plus space; Lit "time"];
         Lit "Time"; Lit "Filter"; Lit "Output"; Lit "JIT" ]).

(** [out[out.length - 1] += line]; on an empty [out] the assignment creates
    the property [-1], which is not an element. *)
Definition appendToLast (out : list str) (line : str) : list str :=
  match rev out with
  | [] => out
  | lastLine :: before => rev before ++ [lastLine ++ line]
  end.

Definition splitIntoLines (text : str) : list str :=
  let lines := pieces (split no_flags (Seq (Opt (Chr 13)) (Chr 10)) text) in
  fold_left
    (fun out line =>
       if (countChar line (Chr 40) <? countChar line (Chr 41))%nat
       then appendToLast out line
       else if test flag_i keywordRegex line
       then out ++ [line]
       else if (test no_flags (Seq Bol nonspace) line
                || test no_flags (Seqs [Bol; Star true space; Chr 40]) line)%bool
       then (if (0 <? List.length out)%nat then appendToLast out line else out ++ [line])
       else out ++ [line])
    lines [].

(** *** The attribute parsers (text.ts, 401-632) *)

(** [parseTime] *)
Definition parseTime (text : str) : number :=
  parseFloat (replace no_flags msRegex [] text).

Definition whenM (c : bool) (body : M unit) : M unit := if c then body else ret tt.

Definition groupOr (i : nat) (f : found) : str :=
  match group i f with
  | Some s => s
  | None => []
  end.

Definition strOf (x : option str) : value :=
  match x with
  | Some s => VStr s
  | None => VUndefined
  end.

(** [parseSort] *)
Definition parseSort (text : str) (el : nat) : M bool :=
  let sortRegex :=
    Seqs [ Bol; Grp 1 (Star true space); Lit "Sort Method:"; Plus space;
           Grp 2 (Star true dot); Plus space;
           Grp 3 (Alt (Lit "Memory") (Lit "Disk")); Chr 58; Plus space;
           Grp 4 (Star true nonspace); Lit "kB"; Star true space; Eol ] in
  match exec no_flags sortRegex text with
  | Some sortMatches =>
      setp el SORT_METHOD (VStr (trim (groupOr 2 sortMatches))) ;;;
      setp el SORT_SPACE_USED (strOf (group 4 sortMatches)) ;;;
      setp el SORT_SPACE_TYPE (strOf (group 3 sortMatches)) ;;;
      ret true
  | None => ret false
  end.

(** [_.map([type, method, 'blocks'], _.capitalize).join(' ')] *)
Definition bufferKey (type method : str) : str :=
  join [32%N] (map capitalize [type; method; lit "blocks"]).

(** [s[0]] and [s[1]] of [text.split(/=/)] *)
Definition splitEquals (text : str) : str * option str :=
  match pieces (split no_flags (Chr 61) text) with
  | [] => ([], None)
  | [a] => (a, None)
  | a :: b :: _ => (a, Some b)
  end.

(** [parseBuffer] *)
Definition parseBuffer (text type : str) (el : nat) : M unit :=
  let '(method, v) := splitEquals text in
  setp el (bufferKey type method) (VNum (parseIntOf v)).

(** [parseBuffers] *)
Definition parseBuffers (text : str) (el : nat) : M bool :=
  let buffersRegex :=
    Seqs [Lit "Buffers:"; Plus space; Grp 1 (Star true dot); Star true space; Eol] in
  let bufferInfoRegex :=
    Seqs [ Grp 1 (Alts (Lit "shared") [Lit "temp"; Lit "local"]); Plus space;
           Grp 2 (Star true dot); Eol ] in
  match exec no_flags buffersRegex text with
  | Some buffersMatches =>
      forEach (pieces (split no_flags (Seq (Chr 44) (Plus space)) (groupOr 1 buffersMatches)))
        (fun infos =>
           match exec no_flags bufferInfoRegex infos with
           | Some m =>
               let type := groupOr 1 m in
               forEach [lit "hit"; lit "read"; lit "written"; lit "dirtied"]
                 (fun method => setp el (bufferKey type method) (VNum zero)) ;;;
               forEach (pieces (split no_flags (Plus space) (groupOr 2 m)))
                 (fun buffer => parseBuffer buffer type el)
           | None => ret tt
           end) ;;;
      ret true
  | None => ret false
  end.

(** [parseWAL] *)
Definition parseWAL (text : str) (el : nat) : M bool :=
  let WALRegex := Seqs [Lit "WAL:"; Plus space; Grp 1 (Star true dot); Star true space; Eol] in
  match exec no_flags WALRegex text with
  | Some WALMatches =>
      forEach [lit "Records"; lit "Bytes"; lit "FPI"]
        (fun type => setp el (lit "WAL " ++ type) (VNum zero)) ;;;
      forEach (pieces (split no_flags (Plus space) (groupOr 1 WALMatches)))
        (fun t =>
           let '(type, v) := splitEquals t in
           let typeCaps := if str_eqb type (lit "fpi") then lit "FPI" else capitalize type in
           setp el (lit "WAL " ++ typeCaps) (VNum (parseIntOf v))) ;;;
      ret true
  | None => ret false
  end.

(** [NodeProp['IO_' + method + '_TIME']]: the enumeration has the two
    members IO_READ_TIME and IO_WRITE_TIME; any other name gives
    [undefined], which as a key reads undefined. *)
Definition ioTimeKey (method : str) : str :=
  if str_eqb method (lit "READ") then IO_READ_TIME
  else if str_eqb method (lit "WRITE") then IO_WRITE_TIME
  else lit "undefined".

(** [parseIOTimings] *)
Definition parseIOTimings (text : str) (el : nat) : M bool :=
  let iotimingsRegex :=
    Seqs [Lit "I/O Timings:"; Plus space; Grp 1 (Star true dot); Star true space; Eol] in
  match exec no_flags iotimingsRegex text with
  | Some iotimingsMatches =>
      setp el IO_READ_TIME (VNum zero) ;;;
      setp el IO_WRITE_TIME (VNum zero) ;;;
      forEach (pieces (split no_flags (Plus space) (groupOr 1 iotimingsMatches)))
        (fun timing =>
           let '(method, v) := splitEquals timing in
           match upperCase method with
           | Some METHOD => setp el (ioTimeKey METHOD) (VNum (parseFloatOf v))
           | None => unmodelled
           end) ;;;
      ret true
  | None => ret false
  end.

(** A name, white space, and the rest: the pattern of one option or timing;
    [matches![1]] throws when it does not match. *)
Definition nameRestRegex : regex :=
  Seqs [Bol; Grp 1 (Star true nonspace); Plus space; Grp 2 (Star true dot); Eol].

Definition commaRegex : regex := Seqs [Star true space; Chr 44; Star true space].

(** [parseOptions] *)
Definition parseOptions (text : str) (el : nat) : M bool :=
  let optionsRegex :=
    Seqs [Bol; Grp 1 (Star true space); Lit "Options:"; Plus space; Grp 2 (Star true dot); Eol] in
  match exec no_flags optionsRegex text with
  | Some optionsMatches =>
      options <- new (Obj []) ;;
      setp el (lit "Options") (VRef options) ;;;
      forEach (pieces (split no_flags commaRegex (groupOr 2 optionsMatches)))
        (fun option =>
           match exec no_flags nameRestRegex option with
           | Some matches =>
               v <- match JSON_parse (groupOr 2 matches) with
                    | Ok text => materialize text
                    | Throw e => throw e
                    | OutOfModel => unmodelled
                    end ;;
               setp options (groupOr 1 matches) v
           | None => throw TypeError
           end) ;;;
      ret true
  | None => ret false
  end.

(** [parseTiming] *)
Definition parseTiming (text : str) (el : nat) : M bool :=
  let timingRegex :=
    Seqs [Bol; Grp 1 (Star true space); Lit "Timing:"; Plus space; Grp 2 (Star true dot); Eol] in
  match exec no_flags timingRegex text with
  | Some timingMatches =>
      timing <- new (Obj []) ;;
      setp el (lit "Timing") (VRef timing) ;;;
      forEach (pieces (split no_flags commaRegex (groupOr 2 timingMatches)))
        (fun option =>
           match exec no_flags nameRestRegex option with
           | Some matches =>
               setp timing (groupOr 1 matches) (VNum (parseTime (groupOr 2 matches)))
           | None => throw TypeError
           end) ;;;
      ret true
  | None => ret false
  end.

(** [parseSettings] *)
Definition parseSettings (text : str) (el : nat) : M bool :=
  let settingsRegex :=
    Seqs [ Bol; Grp 1 (Star true space); Lit "Settings:"; Star true space;
           Grp 2 (Star true dot); Eol ] in
  let reg :=
    Seqs [ Bol; Grp 1 (Star true nonspace); Plus space; Chr 61; Plus space;
           Grp 2 (Star true dot); Eol ] in
  match exec no_flags settingsRegex text with
  | Some settingsMatches =>
      settings <- new (Obj []) ;;
      setp el (lit "Settings") (VRef settings) ;;;
      forEach (splitBalanced (groupOr 2 settingsMatches) 44)
        (fun option =>
           match exec no_flags reg (trim option) with
           | Some matches =>
               setp settings (groupOr 1 matches)
                 (VStr (replace_all no_flags (Chr 39) [] (groupOr 2 matches)))
           | None => throw TypeError
           end) ;;;
      ret true
  | None => ret false
  end.

(** [parseSortGroups] *)
Definition parseSortGroups (text : str) (el : nat) : M bool :=
  let sortGroupsRegex :=
    Seqs [ Bol; Star true space;
           Grp 1 (Alt (Lit "Full-sort") (Lit "Pre-sorted")); Lit " Groups:"; Plus space;
           Grp 2 (Star true digit); Plus space;
           Lit "Sort Method"; Star true (Chr 115); Chr 58; Plus space;
           Grp 3 (Star true dot); Plus space;
           Lit "Average Memory:"; Plus space; Grp 4 (Star true nonspace); Lit "kB"; Plus space;
           Lit "Peak Memory:"; Plus space; Grp 5 (Star true nonspace); Lit "kB";
           Star true dot; Eol ] in
  match exec no_flags sortGroupsRegex text with
  | Some matches =>
      methods <-
        new (Arr (map (fun m => VStr (trim m))
                    (pieces (split no_flags (Chr 44) (groupOr 3 matches))))) ;;
      memory <-
        new (Obj [ (AVERAGE_SORT_SPACE_USED, VNum (parseIntOf (group 4 matches)));
                   (PEAK_SORT_SPACE_USED, VNum (parseIntOf (group 5 matches))) ]) ;;
      groups <-
        new (Obj [ (GROUP_COUNT, VNum (parseIntOf (group 2 matches)));
                   (SORT_METHODS_USED, VRef methods);
                   (SORT_SPACE_MEMORY, VRef memory) ]) ;;
      (if str_eqb (groupOr 1 matches) (lit "Full-sort")
       then setp el FULL_SORT_GROUPS (VRef groups)
       else if str_eqb (groupOr 1 matches) (lit "Pre-sorted")
       then setp el PRE_SORTED_GROUPS (VRef groups)
       else throw (Failure "Unsupported sort groups method")) ;;;
      ret true
  | None => ret false
  end.

(** [parseSortKey] *)
Definition parseSortKey (text : str) (el : nat) : M bool :=
  let sortRegex :=
    Seqs [ Bol; Star true space;
           Grp 1 (Seq (Alt (Lit "Sort") (Lit "Presorted")) (Lit " Key")); Chr 58; Plus space;
           Grp 2 (Star true dot) ] in
  match exec no_flags sortRegex text with
  | Some sortMatches =>
      keys <- new (Arr (map (fun k => VStr (trim k)) (splitBalanced (groupOr 2 sortMatches) 44))) ;;
      setp el (groupOr 1 sortMatches) (VRef keys) ;;;
      ret true
  | None => ret false
  end.

(** Runs the parsers in turn until one takes the line. *)
Fixpoint firstOf (parsers : list (str -> nat -> M bool)) (text : str) (el : nat) : M bool :=
  match parsers with
  | [] => ret false
  | parse :: rest =>
      taken <- parse text el ;;
      if taken then ret true else firstOf rest text el
  end.

(** *** [fromText] (text.ts, 46-400) *)

(** An entry of [elementsAtDepth], with the depth it was pushed at. *)
Record element : Type := mkElement {
  node : nat;
  subelementType : option str;
  name : option str
}.

Definition ElementAtDepth : Type := (nat * element)%type.

(** [_.remove(elementsAtDepth, (e) => e[0] >= depth)] *)
Definition removeDeeper (depth : nat) (elementsAtDepth : list ElementAtDepth)
  : list ElementAtDepth :=
  filter (fun e => negb (depth <=? fst e)%nat) elementsAtDepth.

(** [_.last(elementsAtDepth)![1]]: reading index 1 of [undefined] throws. *)
Definition lastElement (elementsAtDepth : list ElementAtDepth) : M element :=
  match last (map Some elementsAtDepth) None with
  | Some e => ret (snd e)
  | None => throw TypeError
  end.

(** The node a node line describes (text.ts, 177-201). *)
Definition buildNode (nodeMatches : found) : M nat :=
  let m (i : nat) := group i nodeMatches in
  let neverExecuted := m 13 in
  newNode <- newNode (m 2) ;;
  whenM (present (m 3) && present (m 4) || present (m 14) && present (m 15))
    (setp newNode STARTUP_COST (VNum (parseFloatOf (orElse (m 3) (m 14)))) ;;;
     setp newNode TOTAL_COST (VNum (parseFloatOf (orElse (m 4) (m 15)))) ;;;
     setp newNode PLAN_ROWS (VNum (parseIntOf (orElse (m 5) (m 16)))) ;;;
     setp newNode PLAN_WIDTH (VNum (parseIntOf (orElse (m 6) (m 17))))) ;;;
  whenM (present (m 7) && present (m 8) || present (m 18) && present (m 19))
    (setp newNode ACTUAL_STARTUP_TIME (VNum (parseFloatOf (orElse (m 7) (m 18)))) ;;;
     setp newNode ACTUAL_TOTAL_TIME (VNum (parseFloatOf (orElse (m 8) (m 19))))) ;;;
  whenM (present (m 9) && present (m 10) || present (m 11) && present (m 12)
         || present (m 20) && present (m 21))
    (setp newNode ACTUAL_ROWS (VNum (parseIntOf (orElse (m 9) (orElse (m 11) (m 20))))) ;;;
     setp newNode ACTUAL_LOOPS (VNum (parseIntOf (orElse (m 10) (orElse (m 12) (m 21)))))) ;;;
  whenM (present neverExecuted)
    (setp newNode ACTUAL_LOOPS (VNum zero) ;;;
     setp newNode ACTUAL_ROWS (VNum zero) ;;;
     setp newNode ACTUAL_TOTAL_TIME (VNum zero)) ;;;
  ret newNode.

(** The branch of a node line (text.ts, 176-235). *)
Definition nodeLine (nodeMatches : found) (depth root : nat)
    (elementsAtDepth : list ElementAtDepth) : M (list ElementAtDepth) :=
  newNode <- buildNode nodeMatches ;;
  let element :=
    {| node := newNode; subelementType := Some (lit "subnode"); name := None |} in
  if Nat.eqb 0 (List.length elementsAtDepth)
  then setp root (lit "Plan") (VRef newNode) ;;;
       ret (elementsAtDepth ++ [(depth, element)])
  else
    let elementsAtDepth := removeDeeper depth elementsAtDepth in
    previousElement <- lastElement elementsAtDepth ;;
    let elementsAtDepth := elementsAtDepth ++ [(depth, element)] in
    plans <- getp (node previousElement) PLANS ;;
    whenM (negb (truthy plans))
      (fresh <- new (Arr []) ;; setp (node previousElement) PLANS (VRef fresh)) ;;;
    (match subelementType previousElement with
     | Some type =>
         if str_eqb type (lit "initplan")
         then setp newNode PARENT_RELATIONSHIP (VStr (lit "InitPlan")) ;;;
              setp newNode SUBPLAN_NAME (strOf (name previousElement))
         else if str_eqb type (lit "subplan")
         then setp newNode PARENT_RELATIONSHIP (VStr (lit "SubPlan")) ;;;
              setp newNode SUBPLAN_NAME (strOf (name previousElement))
         else ret tt
     | None => ret tt
     end) ;;;
    plans <- getp (node previousElement) PLANS ;;
    pushTo plans (VRef newNode) ;;;
    ret elementsAtDepth.

(** The branches of a SubPlan or InitPlan line and of a CTE line (text.ts,
    236-259) *)
Definition subLine (subMatches : found) (depth : nat) (elementsAtDepth : list ElementAtDepth)
  : M (list ElementAtDepth) :=
  let type := groupOr 2 subMatches in
  let elementsAtDepth := removeDeeper depth elementsAtDepth in
  previousElement <- lastElement elementsAtDepth ;;
  let element :=
    {| node := node previousElement;
       subelementType := Some (toLowerCase type);
       name := Some (matched subMatches) |} in
  ret (elementsAtDepth ++ [(depth, element)]).

Definition cteLine (cteMatches : found) (depth : nat) (elementsAtDepth : list ElementAtDepth)
  : M (list ElementAtDepth) :=
  let cteName := groupOr 2 cteMatches in
  let elementsAtDepth := removeDeeper depth elementsAtDepth in
  previousElement <- lastElement elementsAtDepth ;;
  let element :=
    {| node := node previousElement;
       subelementType := Some (lit "initplan");
       name := Some (lit "CTE " ++ cteName) |} in
  ret (elementsAtDepth ++ [(depth, element)]).

(** [getWorker]: the first element of the array whose worker number is
    [workerNumber]. *)
Fixpoint findWorker (workers : list value) (workerNumber : number) : M (option nat) :=
  match workers with
  | [] => ret None
  | VRef w :: rest =>
      n <- getp w WORKER_NUMBER ;;
      if Json.eq n (VNum workerNumber) then ret (Some w) else findWorker rest workerNumber
  | (VUndefined | VNull) :: _ => throw TypeError
  | _ :: rest => findWorker rest workerNumber
  end.

(** The branch of a worker line (text.ts, 260-291) *)
Definition workerLine (workerMatches : found) (elementsAtDepth : list ElementAtDepth)
  : M (list ElementAtDepth) :=
  let m (i : nat) := group i workerMatches in
  let workerNumber := parseIntOf (m 2) in
  previousElement <- lastElement elementsAtDepth ;;
  workers <- getp (node previousElement) WORKERS ;;
  whenM (negb (truthy workers))
    (fresh <- new (Arr []) ;; setp (node previousElement) WORKERS (VRef fresh)) ;;;
  workers <- getp (node previousElement) WORKERS ;;
  worker <-
    match workers with
    | VRef l =>
        o <- read l ;;
        match o with
        | Arr items =>
            found <- findWorker items workerNumber ;;
            match found with
            | Some w => ret w
            | None =>
                w <- newWorker workerNumber ;;
                pushTo workers (VRef w) ;;;
                ret w
            end
        | Obj _ => unmodelled
        end
    | _ => throw TypeError
    end ;;
  whenM (present (m 3) && present (m 4))
    (setp worker ACTUAL_STARTUP_TIME (VNum (parseFloatOf (m 3))) ;;;
     setp worker ACTUAL_TOTAL_TIME (VNum (parseFloatOf (m 4))) ;;;
     setp worker ACTUAL_ROWS (VNum (parseIntOf (m 5))) ;;;
     setp worker ACTUAL_LOOPS (VNum (parseIntOf (m 6)))) ;;;
  sorted <- parseSort (groupOr 10 workerMatches) worker ;;
  if sorted then ret elementsAtDepth
  else
    let info := nonempty (split no_flags labelRegex (groupOr 10 workerMatches)) in
    match groupOr 10 workerMatches, info with
    | _ :: _, label :: v :: _ =>
        match startCase label with
        | Some property => setp worker property (VStr v) ;;; ret elementsAtDepth
        | None => unmodelled
        end
    | _, _ => ret elementsAtDepth
    end.

(** The branch of a trigger line (text.ts, 292-301) *)
Definition triggerLine (triggerMatches : found) (depth root : nat)
    (elementsAtDepth : list ElementAtDepth) : M (list ElementAtDepth) :=
  let elementsAtDepth := removeDeeper depth elementsAtDepth in
  triggers <- getp root (lit "Triggers") ;;
  whenM (negb (truthy triggers))
    (fresh <- new (Arr []) ;; setp root (lit "Triggers") (VRef fresh)) ;;;
  triggers <- getp root (lit "Triggers") ;;
  trigger <-
    new (Obj [ (lit "Trigger Name", strOf (group 2 triggerMatches));
               (lit "Time", VNum (parseTime (groupOr 3 triggerMatches)));
               (lit "Calls", strOf (group 4 triggerMatches)) ]) ;;
  pushTo triggers (VRef trigger) ;;;
  ret elementsAtDepth.

(** The branch of a JIT line (text.ts, 302-320).  [_.last] of the workers is
    only modelled for an array or a missing property. *)
Definition jitLine (depth root : nat) (elementsAtDepth : list ElementAtDepth)
  : M (list ElementAtDepth) :=
  if Nat.eqb (List.length elementsAtDepth) 0
  then jit <- new (Obj []) ;;
       setp root (lit "JIT") (VRef jit) ;;;
       ret (elementsAtDepth
              ++ [(1, {| node := jit; subelementType := None; name := None |})])
  else
    lastOne <- lastElement elementsAtDepth ;;
    workers <- getp (node lastOne) WORKERS ;;
    match workers with
    | VUndefined => ret elementsAtDepth
    | VRef l =>
        o <- read l ;;
        match o with
        | Arr items =>
            match last items VUndefined with
            | VRef worker =>
                jit <- new (Obj []) ;;
                setp worker (lit "JIT") (VRef jit) ;;;
                ret (elementsAtDepth
                       ++ [(depth, {| node := jit; subelementType := None; name := None |})])
            | _ => ret elementsAtDepth
            end
        | Obj _ => unmodelled
        end
    | _ => unmodelled
    end.

(** The branch of any other line (text.ts, 321-394) *)
Definition extraLine (extraMatches : found) (line : str) (depth root : nat)
    (elementsAtDepth : list ElementAtDepth) : M (list ElementAtDepth) :=
  let elementsAtDepth := removeDeeper depth elementsAtDepth in
  let element :=
    match last (map Some elementsAtDepth) None with
    | Some e => node (snd e)
    | None => root
    end in
  plan <- getp element (lit "Plan") ;;
  queryText <- getp element (lit "Query Text") ;;
  if (negb (truthy plan) && truthy queryText)%bool
  then match queryText with
       | VStr q => setp element (lit "Query Text") (VStr (q ++ [10%N] ++ line)) ;;;
                   ret elementsAtDepth
       | _ => unmodelled
       end
  else
    let text := groupOr 2 extraMatches in
    match nonempty (split no_flags labelRegex text) with
    | label :: v :: _ =>
        taken <-
          firstOf [ parseSort; parseBuffers; parseWAL; parseIOTimings; parseOptions;
                    parseTiming; parseSettings; parseSortGroups; parseSortKey ]
            text element ;;
        if taken then ret elementsAtDepth
        else
          let v := replace no_flags msRegex [] v in
          let v := if JSNum.truthy (parseFloat v) then VNum (parseFloat v) else VStr v in
          let property :=
            if (includes (lit " runtime") label || includes (lit " time") label)%bool
            then startCase label
            else Some label in
          match property with
          | Some property => setp element property v ;;; ret elementsAtDepth
          | None => unmodelled
          end
    | _ => ret elementsAtDepth
    end.

(** The first statements of the loop body (text.ts, 56-66): the line without
    its quotes, with its tabs expanded and without its indentation, and the
    width of that indentation. *)
Definition strip (line : str) : nat * str :=
  (* Remove any trailing double quote *)
  let line := replace no_flags (Seqs [Chr 34; Star true space; Eol]) [] line in
  (* Remove any beginning double quote *)
  let line := replace no_flags (Seqs [Bol; Star true space; Chr 34]) [] line in
  (* Replace tabs with 4 spaces *)
  let line := replace_all flag_m (Chr 9) [Text (lit "    ")] line in
  let indentationRegex := Seq Bol (Star true space) in
  let depth :=
    match exec no_flags indentationRegex line with
    | Some f => List.length (matched f)
    | None => 0
    end in
  (* remove indentation *)
  (depth, replace no_flags indentationRegex [] line).

(** Whether the loop body skips the stripped line. *)
Definition skipped_line (line : str) : bool :=
  (test no_flags emptyLineRegex line || test no_flags headerRegex line)%bool.

(** The match that sends a stripped line to the node branch: it matches the
    node pattern and neither the CTE nor the SubPlan pattern. *)
Definition nodeMatch (line : str) : option found :=
  match exec flag_m nodeRegex line, exec no_flags cteRegex line, exec flag_m subRegex line with
  | Some nodeMatches, None, None => Some nodeMatches
  | _, _, _ => None
  end.

(** The body of the loop over the logical lines (text.ts, 55-395). *)
Definition processLine (root : nat) (elementsAtDepth : list ElementAtDepth) (line : str)
  : M (list ElementAtDepth) :=
  let '(depth, line) := strip line in
  if skipped_line line
  then ret elementsAtDepth
  else
    match nodeMatch line with
    | Some nodeMatches => nodeLine nodeMatches depth root elementsAtDepth
    | None =>
        match exec flag_m subRegex line, exec no_flags cteRegex line with
        | Some subMatches, _ => subLine subMatches depth elementsAtDepth
        | None, Some cteMatches => cteLine cteMatches depth elementsAtDepth
        | None, None =>
            match exec no_flags workerRegex line with
            | Some workerMatches => workerLine workerMatches elementsAtDepth
            | None =>
                match exec no_flags triggerRegex line with
                | Some triggerMatches => triggerLine triggerMatches depth root elementsAtDepth
                | None =>
                    if test no_flags jitRegex line
                    then jitLine depth root elementsAtDepth
                    else
                      match exec no_flags extraRegex line with
                      | Some extraMatches =>
                          extraLine extraMatches line depth root elementsAtDepth
                      | None => ret elementsAtDepth
                      end
                end
            end
        end
    end.

Fixpoint processLines (root : nat) (elementsAtDepth : list ElementAtDepth) (lines : list str)
  : M (list ElementAtDepth) :=
  match lines with
  | [] => ret elementsAtDepth
  | line :: rest =>
      elementsAtDepth <- processLine root elementsAtDepth line ;;
      processLines root elementsAtDepth rest
  end.

(** What a call of [fromText] ends in: the root object, an exception raised
    while a line was processed, the final [Error('Unable to parse plan')],
    or a situation outside the model. *)
Inductive result : Type :=
| Returned (h : store) (root : nat)
| Thrown (e : error)
| UnableToParsePlan
| NotModelled.

(** The loop of [fromText]: the root object, on which [Plan] is null, and
    the state the lines leave. *)
Definition parseLines (text : str) : outcome (store * (nat * list ElementAtDepth)) :=
  (root <- new (Obj [(lit "Plan", VNull)]) ;;
   elementsAtDepth <- processLines root [] (splitIntoLines text) ;;
   ret (root, elementsAtDepth)) [].

(** [root.Plan] in a store *)
Definition rootPlan (h : store) (root : nat) : value :=
  match lookup h root with
  | Some o => get_property o (lit "Plan")
  | None => VUndefined
  end.

Definition fromText (text : str) : result :=
  match parseLines text with
  | Ok (h, (root, _)) => if truthy (rootPlan h root) then Returned h root else UnableToParsePlan
  | Throw e => Thrown e
  | OutOfModel => NotModelled
  end.

End Text.

(** ** What a pattern can match

    A declarative account of the matcher, without the order in which it
    tries things: [derives fl r st st'] holds at least whenever the matcher
    can move from [st] to [st'] over [r].  It serves to show that a pattern
    matches nowhere in a text. *)
Module RegexSpec.
Import Regex.

(** [st'] is [st] moved forward over [text]. *)
Definition moved (text : str) (st st' : mstate) : Prop :=
  ahead st = text ++ ahead st' /\ behind st' = rev text ++ behind st.

Inductive derives (fl : flags) : regex -> mstate -> mstate -> Prop :=
| d_eps (st : mstate) : derives fl Eps st st
| d_chr (c x : N) (b a : list N) (cs : list (nat * str)) :
    N.eqb (canonicalize fl x) (canonicalize fl c) = true ->
    derives fl (Chr c)
      {| behind := b; ahead := x :: a; captures := cs |}
      {| behind := x :: b; ahead := a; captures := cs |}
| d_cls (p : N -> bool) (x : N) (b a : list N) (cs : list (nat * str)) :
    p x = true ->
    derives fl (Cls p)
      {| behind := b; ahead := x :: a; captures := cs |}
      {| behind := x :: b; ahead := a; captures := cs |}
| d_bol (st : mstate) : at_bol fl st = true -> derives fl Bol st st
| d_eol (st : mstate) : at_eol fl st = true -> derives fl Eol st st
| d_seq (r1 r2 : regex) (st st1 st2 : mstate) :
    derives fl r1 st st1 -> derives fl r2 st1 st2 -> derives fl (Seq r1 r2) st st2
| d_alt_l (r1 r2 : regex) (st st' : mstate) :
    derives fl r1 st st' -> derives fl (Alt r1 r2) st st'
| d_alt_r (r1 r2 : regex) (st st' : mstate) :
    derives fl r2 st st' -> derives fl (Alt r1 r2) st st'
| d_star_stop (greedy : bool) (r : regex) (st : mstate) : derives fl (Star greedy r) st st
| d_star_more (greedy : bool) (r : regex) (st st1 st2 : mstate) :
    derives fl r st st1 -> derives fl (Star greedy r) st1 st2 ->
    derives fl (Star greedy r) st st2
| d_grp (i : nat) (r : regex) (st st' : mstate) :
    derives fl r st st' ->
    derives fl (Grp i r) st
      {| behind := behind st'; ahead := ahead st';
         captures := (i, consumed st st') :: captures st' |}
| d_ref (i : nat) (text : str) (st st' : mstate) :
    moved text st st' -> derives fl (Ref i) st st'.

(** Whether [r] can match without consuming anything, and the code units a
    non-empty match of [r] can start with. *)
Fixpoint nullable (r : regex) : bool :=
  match r with
  | Eps | Bol | Eol | Star _ _ | Ref _ => true
  | Chr _ | Cls _ => false
  | Seq r1 r2 => nullable r1 && nullable r2
  | Alt r1 r2 => nullable r1 || nullable r2
  | Grp _ r1 => nullable r1
  end.

Fixpoint first (fl : flags) (r : regex) (x : N) : bool :=
  match r with
  | Eps | Bol | Eol => false
  | Chr c => N.eqb (canonicalize fl x) (canonicalize fl c)
  | Cls p => p x
  | Seq r1 r2 => first fl r1 x || (nullable r1 && first fl r2 x)
  | Alt r1 r2 => first fl r1 x || first fl r2 x
  | Star _ r1 | Grp _ r1 => first fl r1 x
  | Ref _ => true
  end.

(** [r] matches at no position of [s]. *)
Definition no_match (fl : flags) (r : regex) (s : str) : Prop :=
  forall (before after : str) (st' : mstate),
    s = before ++ after ->
    ~ derives fl r {| behind := rev before; ahead := after; captures := [] |} st'.

End RegexSpec.

(** ** Sources with nothing left to strip *)
Module CleanupSpec.
Import Regex Cleanup.

(** The characters that start a line which one of the anchored patterns of
    [cleanupSource], the header pattern apart, could take: the bars, the
    plus and minus signs, the horizontals, the left tees and corners, the
    quotes and the opening parenthesis. *)
Definition trigger (c : N) : bool :=
  existsb (N.eqb c)
    [ vertical_bar; box_double_vertical; box_light_vertical;
      plus_sign;
      minus_sign; box_light_horizontal; box_double_horizontal;
      box_light_vertical_right; box_vertical_double_right_single;
      box_double_vertical_right; box_vertical_single_right_double;
      box_light_up_right; box_double_up_right; box_light_down_right; box_double_down_right;
      double_quote; single_quote;
      open_paren ].

(** No line starts with a trigger: [at_start] tells whether the first code
    unit of [s] starts a line. *)
Fixpoint starts_ok (at_start : bool) (s : str) : bool :=
  match s with
  | [] => true
  | c :: s' => (if at_start then negb (trigger c) else true) && starts_ok (isLineTerminator c) s'
  end.

(** A source with nothing left to strip: no line starts with a trigger, no
    plus sign stands directly before a line end, and neither the return
    symbol nor the words QUERY PLAN occur. *)
Definition clean (s : str) : bool :=
  starts_ok true s
  && negb (JSLib.includes [plus_sign; LF] s)
  && negb (JSLib.includes [plus_sign; CR; LF] s)
  && negb (JSLib.includes [return_symbol] s)
  && negb (JSLib.includes (lit "QUERY PLAN") s).

(** Example sources: a doubly framed line, and the framed table of the
    first scenario of the specification. *)
Definition line (s : string) : str := lit s ++ [LF].

Definition ex_nested_frames : str := line "||a||".

Definition ex_framed_plan : str :=
  line "+----+"
    ++ line "| QUERY PLAN |"
    ++ line "+----+"
    ++ line "| Seq Scan on t  (cost=0.00..1.00 rows=1 width=4) |"
    ++ line "+----+"
    ++ line "(1 row)".

End CleanupSpec.

(** ** JSON texts read plainly, and with repeated keys merged *)
Module JsonSpec.
Import Regex Store Json.

Definition scalar (t : jtext) : bool :=
  match t with
  | JArray _ | JObject _ => false
  | _ => true
  end.

(** The tree a text spells, member by member; what a parser returns for a
    text without repeated keys. *)
Fixpoint plain (t : jtext) : tree :=
  match t with
  | JNull => TNull
  | JBool b => TBool b
  | JNumber n => TNum n
  | JString s => TStr s
  | JArray items => TArr (map plain items)
  | JObject members => TObj (map (fun m => (fst m, plain (snd m))) members)
  end.

(** *** Members by key *)

(** The value under a key, and a value put under a key: in the place of the
    one the key holds, or behind the last member. *)
Fixpoint entry {A : Type} (key : str) (members : list (str * A)) : option A :=
  match members with
  | [] => None
  | m :: members' => if str_eqb (fst m) key then Some (snd m) else entry key members'
  end.

Fixpoint put {A : Type} (key : str) (x : A) (members : list (str * A)) : list (str * A) :=
  match members with
  | [] => [(key, x)]
  | m :: members' =>
      if str_eqb (fst m) key then (fst m, x) :: members' else m :: put key x members'
  end.

(** An item put at an index of an array, which is at most its length. *)
Definition set_item {A : Type} (i : nat) (x : A) (items : list A) : list A :=
  if (i <? List.length items)%nat then update i x items else items ++ [x].

(** A key that is an ordinary property name: it spells no array index and
    is not [__proto__]. *)
Definition usable (key : str) : bool :=
  match array_index key with
  | Some _ => false
  | None => negb (str_eqb key proto)
  end.

(** The number of elements an array can have. *)
Definition array_limit : N := 4294967295.

(** *** Deep merge *)

(** Two scalars that are the same value (SameValueZero). *)
Definition same (a b : tree) : bool :=
  match a, b with
  | TUndefined, TUndefined | TNull, TNull => true
  | TBool x, TBool y => Bool.eqb x y
  | TNum x, TNum y =>
      match x, y with
      | NaN, NaN | PInf, PInf | NInf, NInf => true
      | Fin p, Fin q => Qeq_bool p q
      | _, _ => false
      end
  | TStr x, TStr y => str_eqb x y
  | _, _ => false
  end.

(** The members [ns] of the later object merged one after the other into
    the members [ms], and the items [ss] of the later array merged into the
    items [ds] from the index [i] on; [merge_value] merges one value into
    what a key or an index holds. *)
Definition merge_members (merge_value : option tree -> tree -> option tree)
  : list (str * tree) -> list (str * tree) -> option (list (str * tree)) :=
  fix members (ns ms : list (str * tree)) {struct ns} :=
    match ns with
    | [] => Some ms
    | n :: ns' =>
        match merge_value (entry (fst n) ms) (snd n) with
        | Some x => members ns' (put (fst n) x ms)
        | None => None
        end
    end.

Definition merge_items (merge_value : option tree -> tree -> option tree)
  : list tree -> nat -> list tree -> option (list tree) :=
  fix items (ss : list tree) (i : nat) (ds : list tree) {struct ss} :=
    match ss with
    | [] => Some ds
    | s :: ss' =>
        match merge_value (nth_error ds i) s with
        | Some x => items ss' (S i) (set_item i x ds)
        | None => None
        end
    end.

(** What a key or an index that held [old] holds after the value [src] of
    the later occurrence is merged in.  An object is merged key by key and
    an array index by index, into the object or the array that is there and
    otherwise into an empty one; a scalar replaces what is there, unless
    that is the same value.  Nothing is given where an object meets an
    array. *)
Fixpoint merge_value (old : option tree) (src : tree) {struct src} : option tree :=
  match src with
  | TObj ns =>
      match old with
      | Some (TArr _) => None
      | Some (TObj ms) => option_map TObj (merge_members merge_value ns ms)
      | _ => option_map TObj (merge_members merge_value ns [])
      end
  | TArr ss =>
      match old with
      | Some (TObj _) => None
      | Some (TArr ds) => option_map TArr (merge_items merge_value ss 0%nat ds)
      | _ => option_map TArr (merge_items merge_value ss 0%nat [])
      end
  | TUndefined => None
  | _ => Some match old with
              | Some o => if same o src then o else src
              | None => src
              end
  end.

(** The later occurrence [src] of a key merged into what the key holds: an
    object into an object, an array into an array. *)
Definition merged (dst src : tree) : option tree :=
  match dst, src with
  | TObj _, TObj _ | TArr _, TArr _ => merge_value (Some dst) src
  | _, _ => None
  end.

(** *** Texts with repeated keys *)

(** The items of an array read one by one, and the members of an object
    read into the members [acc] that came before: a key that comes anew
    goes behind them; the value of a key that comes again is read with no
    repeated key allowed, and merged into what the key holds. *)
Definition collapse_items (collapse : jtext -> option tree)
  : list jtext -> option (list tree) :=
  fix all (l : list jtext) :=
    match l with
    | [] => Some []
    | x :: l' =>
        match collapse x, all l' with
        | Some r, Some rs => Some (r :: rs)
        | _, _ => None
        end
    end.

Definition collapse_members (strict : bool) (collapse : bool -> jtext -> option tree)
  : list (str * jtext) -> list (str * tree) -> option (list (str * tree)) :=
  fix all (l : list (str * jtext)) (acc : list (str * tree)) {struct l} :=
    match l with
    | [] => Some acc
    | m :: l' =>
        if usable (fst m)
        then match entry (fst m) acc with
             | None =>
                 match collapse strict (snd m) with
                 | Some r => all l' (acc ++ [(fst m, r)])
                 | None => None
                 end
             | Some held =>
                 if strict then None
                 else match collapse true (snd m) with
                      | Some later =>
                          match merged held later with
                          | Some r => all l' (put (fst m) r acc)
                          | None => None
                          end
                      | None => None
                      end
             end
        else None
    end.

(** The tree a text stands for when a key that comes again in an object is
    merged into what the key holds.  It is given for the texts in which
    - no object is empty, and every key is [usable];
    - an array has fewer than 2^32 - 1 elements;
    - where a key comes again, what it holds and the later value are both
      objects or both arrays, the later value has no repeated key at any
      depth, and no object meets an array when they are merged.
    With [strict] set no key may come again. *)
Fixpoint collapse (strict : bool) (t : jtext) {struct t} : option tree :=
  match t with
  | JNull => Some TNull
  | JBool b => Some (TBool b)
  | JNumber n => Some (TNum n)
  | JString s => Some (TStr s)
  | JArray items =>
      if (N.of_nat (List.length items) <? array_limit)%N
      then option_map TArr (collapse_items (collapse strict) items)
      else None
  | JObject [] => None
  | JObject members => option_map TObj (collapse_members strict collapse members [])
  end.

(** What [parseJson] is to return for a text that is an object or an array:
    the object, or the first element of the array. *)
Definition reading (source : jtext) : option tree :=
  match source with
  | JObject _ => collapse false source
  | JArray _ =>
      match collapse false source with
      | Some (TArr (first :: _)) => Some first
      | Some _ => Some TUndefined
      | None => None
      end
  | _ => None
  end.

(** *** Examples *)

Definition num (z : Z) : jtext := JNumber (ofZ z).

(** [{"a":1,"b":2,"a":3}] *)
Definition ex_scalar_twice : jtext :=
  JObject [(lit "a", num 1); (lit "b", num 2); (lit "a", num 3)].

(** [{"a":1,"a":2,"b":{"c":3}}] *)
Definition ex_stale_marker : jtext :=
  JObject [(lit "a", num 1); (lit "a", num 2); (lit "b", JObject [(lit "c", num 3)])].

(** A plan inside the array EXPLAIN prints, with a node whose member
    [Workers] comes three times: the second time with a further element and
    with a member of the first element that comes anew, a nested object and
    a number that replaces the one before; the third time once more.

    [[{"Plan": {"Node Type": "Gather",
                "Workers": [{"Worker Number": 0, "Actual Rows": 5}],
                "Plans": [{"Node Type": "Seq Scan"}],
                "Workers": [{"Actual Rows": 7, "JIT": {"Timing": {"Total": 1}}},
                            {"Worker Number": 1}],
                "Workers": [{"JIT": {"Timing": {"Total": 2}, "Functions": 3}}],
                "Actual Loops": 1},
       "Planning Time": 2}]] *)
Definition ex_workers : jtext :=
  JArray
    [ JObject
        [ (lit "Plan",
           JObject
             [ (lit "Node Type", JString (lit "Gather"));
               (lit "Workers",
                JArray [JObject [(lit "Worker Number", num 0); (lit "Actual Rows", num 5)]]);
               (lit "Plans", JArray [JObject [(lit "Node Type", JString (lit "Seq Scan"))]]);
               (lit "Workers",
                JArray
                  [ JObject
                      [ (lit "Actual Rows", num 7);
                        (lit "JIT",
                         JObject [(lit "Timing", JObject [(lit "Total", num 1)])]) ];
                    JObject [(lit "Worker Number", num 1)] ]);
               (lit "Workers",
                JArray
                  [ JObject
                      [ (lit "JIT",
                         JObject [ (lit "Timing", JObject [(lit "Total", num 2)]);
                                   (lit "Functions", num 3) ]) ] ]);
               (lit "Actual Loops", num 1) ]);
          (lit "Planning Time", num 2) ] ].

(** The plan [ex_workers] is read to: one [Workers] array of two workers. *)
Definition ex_workers_merged : jtext :=
  JObject
    [ (lit "Plan",
       JObject
         [ (lit "Node Type", JString (lit "Gather"));
           (lit "Workers",
            JArray
              [ JObject
                  [ (lit "Worker Number", num 0);
                    (lit "Actual Rows", num 7);
                    (lit "JIT",
                     JObject [ (lit "Timing", JObject [(lit "Total", num 2)]);
                               (lit "Functions", num 3) ]) ];
                JObject [(lit "Worker Number", num 1)] ]);
           (lit "Plans", JArray [JObject [(lit "Node Type", JString (lit "Seq Scan"))]]);
           (lit "Actual Loops", num 1) ]);
      (lit "Planning Time", num 2) ].

End JsonSpec.

(** ** Text plans and what is read off the result *)
Module TextSpec.
Import Regex Store JSLib Text.
Local Open Scope string_scope.

(** The lines of a text, joined by line feeds. *)
Definition lines (ls : list string) : str :=
  match ls with
  | [] => []
  | l :: ls' => fold_left (fun text l => (text ++ 10%N :: lit l)%list) ls' (lit l)
  end.

(** The result as a tree, when a root object is returned. *)
Definition returned (r : result) : option tree :=
  match r with
  | Returned h root => tree_of h (VRef root)
  | _ => None
  end.

(** The property [key] of the node that a node line built on the store [h]:
    the node is the object allocated last. *)
Definition built (r : outcome (store * nat)) (key : str) : option value :=
  match r with
  | Ok (h, n) =>
      match lookup h n with
      | Some o => Some (get_property o key)
      | None => None
      end
  | _ => None
  end.

(** [c] succeeds on every store that has an object at [n] and only rewrites
    that object; it returns [a]. *)
Definition writes {A : Type} (n : nat) (a : A) (c : M A) : Prop :=
  forall h ps,
    lookup h n = Some (Obj ps) ->
    exists ps', c h = Ok (update n (Obj ps') h, a).

(** As [writes], and the properties [keys] of the object are left as they
    were. *)
Definition leaves {A : Type} (keys : list str) (n : nat) (a : A) (c : M A) : Prop :=
  forall h ps,
    lookup h n = Some (Obj ps) ->
    exists ps',
      c h = Ok (update n (Obj ps') h, a)
      /\ forall key, In key keys -> assoc key ps' = assoc key ps.

(** What the loop body does with a logical line: it skips it, takes it for
    a node line, with its indentation and its match, or takes it for
    something else. *)
Inductive kind : Type :=
| Skipped
| NodeLine (depth : nat) (nodeMatches : found)
| OtherLine.

Definition kind_of (line : str) : kind :=
  let '(depth, line) := strip line in
  if skipped_line line then Skipped
  else match nodeMatch line with
       | Some nodeMatches => NodeLine depth nodeMatches
       | None => OtherLine
       end.

(** The node lines among logical lines that are node lines or skipped, in
    order; nothing when a line is of another kind. *)
Fixpoint node_lines (lines : list str) : option (list (nat * found)) :=
  match lines with
  | [] => Some []
  | line :: rest =>
      match kind_of line, node_lines rest with
      | Skipped, r => r
      | NodeLine depth nodeMatches, Some r => Some ((depth, nodeMatches) :: r)
      | _, _ => None
      end
  end.

(** Every later node line is indented deeper than [depth]. *)
Definition below (depth : nat) (rest : list (nat * found)) : bool :=
  forallb (fun n => (depth <? fst n)%nat) rest.

(** An element a node line pushed: its node is an object other than the
    root, whose [Plans], when set, is an array. *)
Definition attached (h : store) (root : nat) (e : ElementAtDepth) : Prop :=
  subelementType (snd e) = Some (lit "subnode")
  /\ node (snd e) <> root
  /\ exists ps,
       lookup h (node (snd e)) = Some (Obj ps)
       /\ match assoc PLANS ps with
          | None => True
          | Some (VRef a) => exists items, lookup h a = Some (Arr items)
          | Some _ => False
          end.

(** The state of the loop after a first node line at indentation [d0] built
    the node [n0] of type [type], and node lines indented deeper followed:
    the first element stays at the bottom of [elementsAtDepth], and
    [root.Plan] is [n0]. *)
Definition rooted (root d0 n0 : nat) (type : value) (h : store)
    (elementsAtDepth : list ElementAtDepth) : Prop :=
  (exists e0 rest,
      elementsAtDepth = (d0, e0) :: rest /\ node e0 = n0
      /\ Forall (fun e => (d0 < fst e)%nat) rest)
  /\ Forall (attached h root) elementsAtDepth
  /\ (exists ps, lookup h root = Some (Obj ps) /\ assoc (lit "Plan") ps = Some (VRef n0))
  /\ (exists ps, lookup h n0 = Some (Obj ps) /\ assoc NODE_TYPE ps = Some type).

(** The store [fromText] starts the loop with, and its root. *)
Definition empty_root : store := [Obj [(lit "Plan", VNull)]].

Definition ex_node_line : string := "Seq Scan on t  (cost=0.00..1.00 rows=1 width=4)".

(** A JIT section before the first node line. *)
Definition ex_jit_first : str :=
  lines ["JIT:"; "  ->  Seq Scan on t  (cost=0.00..1.00 rows=1 width=4)"].

(** A line that sets [Plan] to the empty string on the root object. *)
Definition ex_plan_overwritten : str :=
  lines ["  Seq Scan on t  (cost=0.00..1.00 rows=1 width=4)"; " Plan: ms"].

(** A line that sets [Plan] on the root object though no node line came. *)
Definition ex_plan_attribute : str := lines ["Plan: x"].

(** An option without a value. *)
Definition ex_bare_option : str :=
  lines ["Seq Scan on t  (cost=0.00..1.00 rows=1 width=4)"; "  Options: x"].

(** A header, a node, its child and its grandchild. *)
Definition ex_three_nodes : str :=
  lines [ " QUERY PLAN";
          " Limit  (cost=0.00..2.00 rows=1 width=4)";
          "   ->  Sort  (cost=0.00..2.00 rows=1 width=4)";
          "         ->  Seq Scan on t  (cost=0.00..1.00 rows=1 width=4)" ].

(** Two nodes at the same indentation. *)
Definition ex_two_roots : str :=
  lines [ "  Limit  (cost=0.00..2.00 rows=1 width=4)";
          "  ->  Sort  (cost=0.00..2.00 rows=1 width=4)" ].

(** Nodes that were never executed, with and without the cost estimate. *)
Definition ex_never_executed_with_cost : string :=
  "  ->  Index Scan using i on t (cost=0.00..8.00 rows=1 width=4) (never executed)".

Definition ex_never_executed : string := "  ->  Seq Scan on t (never executed)".

Definition ex_never_executed_plan : str :=
  lines ["Limit (actual time=0.010..0.020 rows=0 loops=1)"; ex_never_executed].

(** What [fromText] returns for [ex_never_executed_plan]: the child has its
    node type and nothing else.  The times are 0.010 and 0.020 as binary64
    numbers. *)
Definition ex_never_executed_tree : tree :=
  TObj [ (lit "Plan",
          TObj [ (NODE_TYPE, TStr (lit "Limit"));
                 (ACTUAL_STARTUP_TIME, TNum (binary64 (1 # 100)));
                 (ACTUAL_TOTAL_TIME, TNum (binary64 (1 # 50)));
                 (ACTUAL_ROWS, TNum (ofZ 0));
                 (ACTUAL_LOOPS, TNum (ofZ 1));
                 (PLANS, TArr [TObj [(NODE_TYPE, TStr (lit "Seq Scan on t"))]]) ]) ].

End TextSpec.

(** ** Trees in the store

    How a tree lies in the store: every array and every object of the tree at
    a location of its own.  The statements about [parseJson] follow the parts
    of the result through the store with this. *)
Module JsonShape.
Import Regex Store Json JsonSpec.

Inductive atom : Type :=
| ANull
| ABool (b : bool)
| ANum (n : number)
| AStr (s : str).

Definition atom_value (a : atom) : value :=
  match a with
  | ANull => VNull
  | ABool b => VBool b
  | ANum n => VNum n
  | AStr s => VStr s
  end.

Definition atom_tree (a : atom) : tree :=
  match a with
  | ANull => TNull
  | ABool b => TBool b
  | ANum n => TNum n
  | AStr s => TStr s
  end.

Definition atom_of (t : jtext) : option atom :=
  match t with
  | JNull => Some ANull
  | JBool b => Some (ABool b)
  | JNumber n => Some (ANum n)
  | JString s => Some (AStr s)
  | JArray _ | JObject _ => None
  end.

(** A tree with the locations of its arrays and objects. *)
#[warnings="-register-all"]
Inductive ltree : Type :=
| LLeaf (a : atom)
| LArr (l : nat) (items : list ltree)
| LObj (l : nat) (members : list (str * ltree)).

(** The value that stands for the tree: a scalar, or a reference. *)
Definition value_at (t : ltree) : value :=
  match t with
  | LLeaf a => atom_value a
  | LArr l _ | LObj l _ => VRef l
  end.

Definition value_of_entry (t : option ltree) : value :=
  match t with
  | Some t => value_at t
  | None => VUndefined
  end.

Fixpoint erase (t : ltree) : tree :=
  match t with
  | LLeaf a => atom_tree a
  | LArr _ items => TArr (map erase items)
  | LObj _ members => TObj (map (fun m => (fst m, erase (snd m))) members)
  end.

(** The array or object at the top of the tree. *)
Definition cell (t : ltree) : object :=
  match t with
  | LLeaf _ => Arr []
  | LArr _ items => Arr (map value_at items)
  | LObj _ members => Obj (map (fun m => (fst m, value_at (snd m))) members)
  end.

Definition top (t : ltree) : nat :=
  match t with
  | LLeaf _ => 0%nat
  | LArr l _ | LObj l _ => l
  end.

Definition parts (t : ltree) : list ltree :=
  match t with
  | LLeaf _ => []
  | LArr _ items => items
  | LObj _ members => map snd members
  end.

(** The arrays and objects of the tree with their locations, the top one
    first. *)
Fixpoint cells (t : ltree) : list (nat * object) :=
  match t with
  | LLeaf _ => []
  | LArr l items => (l, cell t) :: flat_map cells items
  | LObj l members => (l, cell t) :: flat_map (fun m => cells (snd m)) members
  end.

Definition locs (t : ltree) : list nat := map fst (cells t).

(** The store holds the tree. *)
Definition holds (h : store) (t : ltree) : Prop :=
  Forall (fun c => lookup h (fst c) = Some (snd c)) (cells t).

(** The tree of the latest occurrence of a key: its keys are [usable] and
    come once, and its arrays are within the limit. *)
Fixpoint tidy (t : tree) : Prop :=
  match t with
  | TArr items =>
      (N.of_nat (List.length items) < array_limit)%N
      /\ (fix all (l : list tree) : Prop :=
            match l with
            | [] => True
            | x :: l' => tidy x /\ all l'
            end) items
  | TObj members =>
      Forall (fun m => usable (fst m) = true) members
      /\ NoDup (map fst members)
      /\ (fix all (l : list (str * tree)) : Prop :=
            match l with
            | [] => True
            | m :: l' => tidy (snd m) /\ all l'
            end) members
  | _ => True
  end.

(** The keys of an object under construction: [usable], and each once. *)
Definition keyed (members : list (str * ltree)) : Prop :=
  Forall (fun m => usable (fst m) = true) members /\ NoDup (map fst members).

(** A container that takes the next value: an array, or an object whose
    last key waits for its value. *)
Definition accepts (cur : ltree) : Prop :=
  match cur with
  | LLeaf _ => False
  | LArr _ _ => True
  | LObj _ members =>
      exists before key a, members = before ++ [(key, LLeaf a)] /\ keyed members
  end.

(** The container with the value it took: pushed on the array, or under
    the last key of the object. *)
Definition fill (cur x : ltree) : ltree :=
  match cur with
  | LLeaf a => LLeaf a
  | LArr l items => LArr l (items ++ [x])
  | LObj l members =>
      LObj l (removelast members
                ++ match last (map Some members) None with
                   | Some m => [(fst m, x)]
                   | None => []
                   end)
  end.

(** The events of an array or an object up to its closing bracket. *)
Definition body (t : jtext) : list event :=
  match t with
  | JArray items => OpenArray :: flat_map events items
  | JObject [] => [OpenObject None]
  | JObject ((key, v) :: members) =>
      OpenObject (Some key) :: events v
        ++ flat_map (fun m => Key (fst m) :: events (snd m)) members
  | _ => []
  end.

(** The duplicate marker cannot match while the values of a container that
    is opened in [st] are read: with [strict], it is unset or was set at a
    level below; without, it is unset. *)
Definition quiet (strict : bool) (st : parser_state) : Prop :=
  if strict
  then match duplicated st with
       | Some (level, _) => (level < List.length (elements st))%nat
       | None => True
       end
  else duplicated st = None.

(** The parser [st] is reading the values of the container [cur], which it
    opened in [st0]: [cur] is on top of the stack and lies in the store
    behind what [st0] held, which is as it was. *)
Definition under (st0 st : parser_state) (cur : ltree) : Prop :=
  elements st = elements st0 ++ [top cur]
  /\ value_at cur = VRef (top cur)
  /\ (List.length (heap st0) <= List.length (heap st))%nat
  /\ (forall i, (i < List.length (heap st0))%nat -> lookup (heap st) i = lookup (heap st0) i)
  /\ holds (heap st) cur
  /\ NoDup (locs cur)
  /\ Forall (fun i => (List.length (heap st0) <= i)%nat) (locs cur)
  /\ root st = root st0
  /\ duplicated st = duplicated st0.

(** The body of the loop of [baseMerge], for one key of the source [src]. *)
Definition mergeKey (fuel : nat) (src : object) (object : nat) (key : str) (h : store)
  : outcome store :=
  match lookup h object with
  | None => OutOfModel
  | Some o =>
      match get_property src key with
      | VRef sl =>
          match lookup h sl with
          | None => OutOfModel
          | Some srcValue =>
              let objValue := get_property o key in
              let target : outcome (store * nat) :=
                match srcValue, objValue with
                | Arr _, VRef ol =>
                    match lookup h ol with
                    | Some (Arr _) => Ok (h, ol)
                    | Some (Obj ps) =>
                        if isLength (get_property (Obj ps) (lit "length"))
                        then OutOfModel
                        else Ok (alloc h (Arr []))
                    | None => OutOfModel
                    end
                | Arr _, _ => Ok (alloc h (Arr []))
                | Obj _, VRef ol => Ok (h, ol)
                | Obj _, _ => Ok (alloc h (Obj []))
                end in
              bind target (fun t =>
                let '(h, newValue) := t in
                bind (baseMerge fuel h newValue sl) (fun h =>
                  assignMergeValue h object key (VRef newValue)))
          end
      | srcValue => assignMergeValue h object key srcValue
      end
  end.

(** The store [h'] holds [d'] where [h] held [d]: at the same top and
    otherwise where [d] lay or in locations that are new, and nothing else
    of [h] has changed. *)
Definition grown (h : store) (d : ltree) (h' : store) (d' : ltree) : Prop :=
  top d' = top d
  /\ value_at d' = VRef (top d')
  /\ holds h' d'
  /\ NoDup (locs d')
  /\ (forall i, In i (locs d') -> In i (locs d) \/ (List.length h <= i)%nat)
  /\ (List.length h <= List.length h')%nat
  /\ (forall i, (i < List.length h)%nat -> ~ In i (locs d) -> lookup h' i = lookup h i).

(** The locations of what a key holds. *)
Definition locs_of (old : option ltree) : list nat :=
  match old with
  | Some t => locs t
  | None => []
  end.

(** What reading an array or an object [t] up to its closing bracket is to
    do: the parser has the container on top of its stack, and the store holds
    it as [collapse] gives it. *)
Definition opens (t : jtext) : Prop :=
  forall (strict : bool) (r : tree) (st0 : parser_state),
    collapse strict t = Some r ->
    atom_of t = None ->
    quiet strict st0 ->
    exists st cur,
      run (body t) st0 = Ok st
      /\ under st0 st cur
      /\ erase cur = r
      /\ (strict = true -> tidy r).

(** What [baseMerge] is to do with [fuel] for the sources that fit in it:
    the target [d] grows into a tree that erases to the merged tree. *)
Definition merges (fuel : nat) : Prop :=
  forall (s d : ltree) (h : store) (m : tree),
    (List.length (locs s) <= fuel)%nat ->
    value_at d = VRef (top d) ->
    value_at s = VRef (top s) ->
    holds h d ->
    holds h s ->
    NoDup (locs d) ->
    (forall i, In i (locs d) -> ~ In i (locs s)) ->
    tidy (erase s) ->
    merged (erase d) (erase s) = Some m ->
    exists h' d', baseMerge fuel h (top d) (top s) = Ok h' /\ grown h d h' d' /\ erase d' = m.

(** What the loop of [baseMerge] is to do for the key [k] of the object [o]
    at [ol], which holds [old] under [k]: [r] is a store in which a tree
    that erases to [x] lies where [old] lay or in new locations, the object
    at [ol] has it under [k], and nothing else of [h] has changed. *)
Definition stepped (o : object) (ol : nat) (k : str) (old : option ltree) (h : store)
    (x : tree) (r : outcome store) : Prop :=
  exists h' X o',
    r = Ok h'
    /\ erase X = x
    /\ set_property o k (value_at X) = Ok o'
    /\ lookup h' ol = Some o'
    /\ holds h' X
    /\ NoDup (locs X)
    /\ (forall i, In i (locs X) -> In i (locs_of old) \/ (List.length h <= i)%nat)
    /\ (List.length h <= List.length h')%nat
    /\ (forall i, (i < List.length h)%nat -> i <> ol -> ~ In i (locs_of old) ->
                   lookup h' i = lookup h i).

End JsonShape.

(** ** Vocabulary of the further statements about the plan service *)
Module EnrichMoreSpec.
Import JSNum Enrich EnrichSpec.

(** A number that is neither negative nor NaN. *)
Definition nonneg (a : number) : bool :=
  match a with
  | Fin q => Qle_bool 0 q
  | PInf => true
  | NaN | NInf => false
  end.

(** A property that is missing or finite. *)
Definition finite (v : value) : Prop :=
  match v with
  | None => True
  | Some (Fin _) => True
  | Some _ => False
  end.

(** The total cost of a child as a rational, 0 when it is missing. *)
Definition costOf (child : Node) : Q :=
  match get TOTAL_COST (props child) with
  | Some (Fin q) => q
  | _ => 0
  end.

(** The children whose cost [calculateActuals] takes off: all but the
    InitPlans. *)
Definition charged (n : Node) : list Node :=
  filter (fun child => negb (relationship_is "InitPlan" (props child))) (children n).

Definition Qsum (l : list Q) : Q := fold_right Qplus 0 l.

(** [x < 0 ? 0 : x] on a rational *)
Definition floor0 (x : Q) : Q :=
  match (x ?= 0)%Q with
  | Lt => 0
  | _ => x
  end.

Definition with_cost (c : Q) (p : Props) : Props := set TOTAL_COST (Some (Fin c)) p.

(** A join of cost 10 over scans of cost 3 and 4 and an InitPlan of cost 5. *)
Definition ex_costs : Node :=
  mkNode (with_cost 10 (bare "Hash Join"))
    (Some [ mkNode (with_cost 3 (with_relationship "Outer" "" (bare "Seq Scan"))) None;
            mkNode (with_cost 4 (with_relationship "Inner" "" (bare "Hash"))) None;
            mkNode (with_cost 5 (with_relationship "InitPlan" "InitPlan 1 (returns $0)"
                                   (bare "Result"))) None ]).

(** Three rows seen in two loops. *)
Definition ex_loops : Node :=
  mkNode (set ACTUAL_LOOPS (Some (Fin 2)) (set (Row ACTUAL_ROWS) (Some (Fin 3)) (bare "Seq Scan")))
    None.

End EnrichMoreSpec.


(** ** The maxima of a plan

    [calculateMaximums] (plan-service.ts, 78-149), which [createPlan] runs on
    the content after the walk. *)
Module Maximums.
Import JSNum Enrich.

Definition isNaN (a : number) : bool :=
  match a with
  | NaN => true
  | _ => false
  end.

(** [_.maxBy(array, iteratee)], from lodash's [baseExtremum] with [baseGt]:
    an element whose value is [undefined] is passed over; the first value
    that is not NaN is taken; after that an element replaces the one kept
    when its value is greater. *)
Definition maxBy {A : Type} (array : list A) (iteratee : A -> value) : option A :=
  option_map snd
    (fold_left
       (fun (kept : option (number * A)) (x : A) =>
          match iteratee x with
          | None => kept
          | Some current =>
              match kept with
              | None => if isNaN current then kept else Some (current, x)
              | Some (computed, _) => if gtb current computed then Some (current, x) else kept
              end
          end)
       array None).

(** [maxBlocks], by buffer location *)
Record Blocks : Type := mkBlocks {
  shared : value;
  temp : value;
  local : value
}.

(** The content object: the root plan and the entries [calculateMaximums]
    writes. *)
Record Content : Type := mkContent {
  Plan : Node;
  maxRows : value;
  maxCost : value;
  maxTotalCost : value;
  maxDuration : value;
  maxBlocks : option Blocks
}.

(** [_.flattenDeep(recurse(nodes))]: every node, followed by the nodes
    below it. *)
Fixpoint recurse (node : Node) : list Node :=
  let '(mkNode _ pl) := node in
  node :: match pl with
          | Some l => flat_map recurse l
          | None => []
          end.

Definition flat (content : Content) : list Node := recurse (Plan content).

Definition exclusive (b : BufProp) (o : Node) : number :=
  toNumber (get (EXCLUSIVE_ b) (props o)).

Definition sumShared (o : Node) : number :=
  add (add (add (exclusive SHARED_HIT_BLOCKS o) (exclusive SHARED_READ_BLOCKS o))
         (exclusive SHARED_DIRTIED_BLOCKS o))
    (exclusive SHARED_WRITTEN_BLOCKS o).

Definition sumTemp (o : Node) : number :=
  add (exclusive TEMP_READ_BLOCKS o) (exclusive TEMP_WRITTEN_BLOCKS o).

Definition sumLocal (o : Node) : number :=
  add (add (add (exclusive LOCAL_HIT_BLOCKS o) (exclusive LOCAL_READ_BLOCKS o))
         (exclusive LOCAL_DIRTIED_BLOCKS o))
    (exclusive LOCAL_WRITTEN_BLOCKS o).

(** One of the four blocks [const x = _.maxBy(flat, key); if (x) content.m =
    x[key]]: the entry after it, [before] being the entry before. *)
Definition largest (key : NodeProp) (nodes : list Node) (before : value) : value :=
  match maxBy nodes (fun o => get key (props o)) with
  | Some o => get key (props o)
  | None => before
  end.

(** One of the three blocks on [maxBlocks]. *)
Definition highest (sum : Node -> number) (nodes : list Node) (before : value) : value :=
  match maxBy nodes (fun o => Some (sum o)) with
  | Some o => if truthy (sum o) then Some (sum o) else before
  | None => before
  end.

(** [calculateMaximums] (plan-service.ts, 78-149) *)
Definition calculateMaximums (content : Content) : Content :=
  let flat := flat content in
  let blocks :=
    match maxBlocks content with
    | Some blocks => blocks
    | None => {| shared := None; temp := None; local := None |}
    end in
  {| Plan := Plan content;
     maxRows := largest (Row ACTUAL_ROWS) flat (maxRows content);
     maxCost := largest EXCLUSIVE_COST flat (maxCost content);
     maxTotalCost := largest TOTAL_COST flat (maxTotalCost content);
     maxDuration := largest EXCLUSIVE_DURATION flat (maxDuration content);
     maxBlocks :=
       Some {| shared := highest sumShared flat (shared blocks);
               temp := highest sumTemp flat (temp blocks);
               local := highest sumLocal flat (local blocks) |} |}.

End Maximums.


(** ** Vocabulary of the statement about the maxima *)
Module MaximumsSpec.
Import JSNum Enrich Maximums.

(** [m] is a value some element of [l] has, it is not NaN, and no value in
    [l] is greater. *)
Definition is_max {A : Type} (iteratee : A -> value) (l : list A) (m : number) : Prop :=
  (exists o, In o l /\ iteratee o = Some m)
  /\ isNaN m = false
  /\ forall o v, In o l -> iteratee o = Some v -> gtb v m = false.

(** No element of [l] has a value other than NaN. *)
Definition no_value {A : Type} (iteratee : A -> value) (l : list A) : Prop :=
  forall o, In o l -> iteratee o = None \/ iteratee o = Some NaN.

(** What one block of [calculateMaximums] does to its entry: the entry
    becomes the maximum of the values, or stays as it was when there is no
    value. *)
Definition max_entry (key : NodeProp) (l : list Node) (before after : value) : Prop :=
  (exists m, after = Some m /\ is_max (fun o => get key (props o)) l m)
  \/ (after = before /\ no_value (fun o => get key (props o)) l).

(** The same for a [maxBlocks] entry, which is only written when the
    maximum is not 0. *)
Definition max_blocks_entry (sum : Node -> number) (l : list Node) (before after : value)
  : Prop :=
  (exists m, is_max (fun o => Some (sum o)) l m
             /\ after = if truthy m then Some m else before)
  \/ (after = before /\ no_value (fun o => Some (sum o)) l).

End MaximumsSpec.

(** ** JSON texts without repeated keys *)
Module JsonMoreSpec.
Import Regex Store Json JsonSpec.

(** No key comes twice. *)
Fixpoint distinct (keys : list str) : bool :=
  match keys with
  | [] => true
  | key :: keys' => (negb (existsb (str_eqb key) keys') && distinct keys')%bool
  end.

(** A text in which no object is empty or has a key twice, every key is
    [usable], and every array is within the limit. *)
Fixpoint regular (t : jtext) : bool :=
  match t with
  | JArray items =>
      ((N.of_nat (List.length items) <? array_limit)%N && forallb regular items)%bool
  | JObject members =>
      (match members with [] => false | _ :: _ => true end
       && forallb (fun m => usable (fst m)) members
       && distinct (map fst members)
       && forallb (fun m => regular (snd m)) members)%bool
  | _ => true
  end.

(** [[{"Plan": {"Node Type": "Gather", ...}, "Planning Time": 2}]] *)
Definition ex_plain_plan : jtext := JArray [ex_workers_merged].

End JsonMoreSpec.

(** ** Vocabulary of the statement about [splitIntoLines] *)
Module TextMoreSpec.
Import Regex JSLib Text TextSpec.

(** The lines of the text as the line breaks cut it. *)
Definition rawLines (text : str) : list str :=
  pieces (split no_flags (Seq (Opt (Chr 13)) (Chr 10)) text).

(** A line with more closing than opening parentheses. *)
Definition closes (line : str) : bool :=
  (countChar line (Chr 40) <? countChar line (Chr 41))%nat.

(** The lines from the first one that does not close on. *)
Fixpoint fromFirstOpen (lines : list str) : list str :=
  match lines with
  | [] => []
  | line :: lines' => if closes line then fromFirstOpen lines' else lines
  end.

(** A first line that closes a parenthesis it did not open. *)
Definition ex_closing_first : str := lines ["rows=1)"%string; "Seq Scan on t"%string].

End TextMoreSpec.
Import JSNum.

(** * Facts about the enrichment pass *)

Module EnrichFacts.
Import Enrich EnrichSpec.

(** ** Reading a property after a write *)

Lemma get_set_same (k : NodeProp) (v : value) (p : Props) : get k (set k v p) = v.
Proof. unfold get, set; simpl. destruct (NodeProp_eq_dec k k); congruence. Qed.

Lemma get_set_other (k k' : NodeProp) (v : value) (p : Props) :
  k <> k' -> get k' (set k v p) = get k' p.
Proof. intros H. unfold get, set; simpl. destruct (NodeProp_eq_dec k k'); congruence. Qed.

Lemma get_set_direction (k : NodeProp) (d : EstimateDirection) (p : Props) :
  get k (set_direction d p) = get k p.
Proof. reflexivity. Qed.

Lemma get_set_nodeId (k : NodeProp) (i : nat) (p : Props) : get k (set_nodeId i p) = get k p.
Proof. reflexivity. Qed.

(** Pushes reads through the writes in front of them; [k <> k'] side
    conditions are closed by discrimination. *)
Ltac read_props :=
  repeat first
    [ rewrite get_set_same
    | rewrite get_set_direction
    | rewrite get_set_nodeId
    | rewrite get_set_other by (first [congruence | intros E; subst; discriminate]) ].

Lemma isCTE_same_ident (p q : Props) : ident p = ident q -> isCTE p = isCTE q.
Proof.
  unfold ident, isCTE, relationship_is. intros H. injection H as _ Hr Hs.
  now rewrite Hr, Hs.
Qed.

Lemma relationship_ident (s : string) (p q : Props) :
  ident p = ident q -> relationship_is s p = relationship_is s q.
Proof. unfold ident, relationship_is. intros H. injection H as _ Hr _. now rewrite Hr. Qed.

Lemma fold_left_inv {A B : Type} (I : A -> Prop) (f : A -> B -> A) (l : list B) (a : A) :
  I a -> (forall a b, I a -> I (f a b)) -> I (fold_left f l a).
Proof. revert a. induction l as [|b l IH]; simpl; auto. Qed.

Lemma each_inv {A S : Type} (I : S -> Prop) (c : option (list A)) (f : S -> A -> S) (s : S) :
  I s -> (forall s a, I s -> I (f s a)) -> I (each c f s).
Proof. intros Hs Hf. destruct c; simpl; [now apply fold_left_inv | exact Hs]. Qed.

(** *** [calculatePlannerEstimate] *)

Lemma estimate_ident (p : Props) : ident (calculatePlannerEstimate p) = ident p.
Proof.
  unfold calculatePlannerEstimate.
  destruct (get (Row ACTUAL_ROWS) p); [|reflexivity].
  destruct (gtb _ _), (ltb _ _); reflexivity.
Qed.

Lemma estimate_id (p : Props) : nodeId (calculatePlannerEstimate p) = nodeId p.
Proof.
  unfold calculatePlannerEstimate.
  destruct (get (Row ACTUAL_ROWS) p); [|reflexivity].
  destruct (gtb _ _), (ltb _ _); reflexivity.
Qed.

Lemma estimate_get (k : NodeProp) (p : Props) :
  k <> PLANNER_ESTIMATE_FACTOR -> get k (calculatePlannerEstimate p) = get k p.
Proof.
  intros Hk. unfold calculatePlannerEstimate.
  destruct (get (Row ACTUAL_ROWS) p); [|reflexivity].
  destruct (gtb _ _), (ltb _ _); read_props; reflexivity.
Qed.

(** *** [calculateActuals] *)

Lemma actuals_ident (p : Props) (pl : option (list Node)) :
  ident (calculateActuals p pl) = ident p.
Proof.
  unfold calculateActuals.
  apply fold_left_inv with (I := fun q => ident q = ident p).
  2: { intros a b Ha. destruct (get (Row b) a); auto. }
  match goal with |- ident (if ?c then _ else _) = _ => destruct c end; simpl;
  (apply each_inv with (I := fun q => ident q = ident p);
   [ destruct (truthyV _); destruct (get ACTUAL_TOTAL_TIME p); reflexivity
   | intros s a Hs; destruct (_ && _); auto ]).
Qed.

Lemma actuals_id (p : Props) (pl : option (list Node)) :
  nodeId (calculateActuals p pl) = nodeId p.
Proof.
  unfold calculateActuals.
  apply fold_left_inv with (I := fun q => nodeId q = nodeId p).
  2: { intros a b Ha. destruct (get (Row b) a); auto. }
  match goal with |- nodeId (if ?c then _ else _) = _ => destruct c end; simpl;
  (apply each_inv with (I := fun q => nodeId q = nodeId p);
   [ destruct (truthyV _); destruct (get ACTUAL_TOTAL_TIME p); reflexivity
   | intros s a Hs; destruct (_ && _); auto ]).
Qed.

Lemma actuals_get (k : NodeProp) (p : Props) (pl : option (list Node)) :
  actuals_key k = false -> get k (calculateActuals p pl) = get k p.
Proof.
  intros Hk. unfold calculateActuals.
  apply fold_left_inv with (I := fun q => get k q = get k p).
  2: { intros a b Ha. destruct (get (Row b) a); auto.
       rewrite get_set_other; auto. intros E; subst k; discriminate. }
  assert (Hset : forall v q, get k q = get k p -> get k (set EXCLUSIVE_COST v q) = get k p).
  { intros v q Hq. rewrite get_set_other; auto. intros E; subst k; discriminate. }
  match goal with |- get k (if ?c then _ else _) = _ => destruct c end; [apply Hset|];
  (apply each_inv with (I := fun q => get k q = get k p);
   [| intros s a Hs; destruct (_ && _); auto ]);
  (match goal with |- get k (if ?c then _ else _) = _ => destruct c end; [apply Hset|]);
  (destruct (get ACTUAL_TOTAL_TIME p); [|reflexivity]);
  repeat (rewrite get_set_other by (intros E; subst k; discriminate)); reflexivity.
Qed.

(** *** [calculateExclusives] *)

Lemma exclusives_ident (p : Props) (pl : option (list Node)) :
  ident (calculateExclusives p pl) = ident p.
Proof.
  unfold calculateExclusives.
  now apply fold_left_inv with (I := fun q => ident q = ident p).
Qed.

Lemma exclusives_id (p : Props) (pl : option (list Node)) :
  nodeId (calculateExclusives p pl) = nodeId p.
Proof.
  unfold calculateExclusives.
  now apply fold_left_inv with (I := fun q => nodeId q = nodeId p).
Qed.

Lemma exclusives_get (k : NodeProp) (p : Props) (pl : option (list Node)) :
  (forall b, k <> EXCLUSIVE_ b) -> get k (calculateExclusives p pl) = get k p.
Proof.
  intros Hk. unfold calculateExclusives.
  apply fold_left_inv with (I := fun q => get k q = get k p); [reflexivity|].
  intros a b Ha. rewrite get_set_other; [exact Ha|]. intros E. now apply (Hk b).
Qed.

(** Every one of the twelve exclusive counters is written, from the node's
    own counter and the sum over [pl]. *)
Lemma exclusives_set (b : BufProp) (p : Props) (pl : option (list Node)) :
  get (EXCLUSIVE_ b) (calculateExclusives p pl)
  = Some (sub (toNumber (get (Buf b) p)) (sumBy pl (counterOf b))).
Proof. destruct b; reflexivity. Qed.

(** *** [childrenDuration] *)

Lemma Node_nested_ind (P : Node -> Prop) :
  (forall p, P (mkNode p None)) ->
  (forall p l, Forall P l -> P (mkNode p (Some l))) ->
  forall n, P n.
Proof.
  intros Hnone Hsome. fix IH 1. intros [p [l|]]; [|apply Hnone].
  apply Hsome. induction l as [|c l IHl]; constructor; [apply IH | exact IHl].
Qed.

Lemma childrenDuration_sum (n : Node) :
  forall d, childrenDuration n d
            = fold_left (fun d m => add d (durationOf m)) (timed_descendants n) d.
Proof.
  induction n as [p|p l IH] using Node_nested_ind; intros d; [reflexivity|].
  simpl. revert d. induction IH as [|c l Hc _ IHl]; intros d; [reflexivity|].
  simpl. rewrite fold_left_app.
  destruct (negb (relationship_is "InitPlan" (props c))); simpl.
  - rewrite Hc. apply IHl.
  - apply IHl.
Qed.

(** ** One call of [processNode] *)

Lemma processNodeFrom_eq (written : Props -> Props) (p : Props) (pl : option (list Node))
    (nodeId : nat) :
  processNodeFrom written (mkNode p pl) nodeId
  = let p1 := entered written (mkNode p pl) nodeId in
    let '(pl1, pushed, next) :=
      match pl with
      | Some cs =>
          let '(cs', pushed, next) := eachChild processNodeFrom p1 cs (S nodeId) in
          (Some cs', pushed, next)
      | None => (None, [], S nodeId)
      end in
    let pl2 := option_map (filter notCTE) pl1 in
    (mkNode (calculateExclusives (calculateActuals p1 pl2) pl2) pl2, pushed, next).
Proof. reflexivity. Qed.

Lemma eachChild_cons (process : (Props -> Props) -> Node -> nat -> Walked) (p : Props)
    (child : Node) (rest : list Node) (nodeId : nat) :
  eachChild process p (child :: rest) nodeId
  = let w := process (disseminate p) child nodeId in
    let '(rest', pushed', next) := eachChild process p rest (walked_next w) in
    (walked_node w :: rest',
     (if isCTE (disseminate p (props child)) then [walked_node w] else [])
       ++ walked_pushed w ++ pushed',
     next).
Proof.
  simpl. destruct (process (disseminate p) child nodeId) as [[c' pc] n1]. simpl.
  destruct (eachChild process p rest n1) as [[r' pr] n2].
  now destruct (isCTE (disseminate p (props child))).
Qed.

(** Each processed child comes from a call of [process] on a child. *)
Lemma eachChild_In (process : (Props -> Props) -> Node -> nat -> Walked) (p : Props)
    (cs : list Node) :
  forall nodeId c',
    In c' (fst (fst (eachChild process p cs nodeId))) ->
    exists c i, In c cs /\ c' = walked_node (process (disseminate p) c i).
Proof.
  induction cs as [|child rest IH]; intros nodeId c'; [intros []|].
  rewrite eachChild_cons. cbv zeta.
  destruct (eachChild process p rest _) as [[r' pr] n2] eqn:E. simpl.
  intros [<-|Hin].
  - exists child, nodeId. split; [now left | reflexivity].
  - destruct (IH (walked_next (process (disseminate p) child nodeId)) c') as (c & i & Hc & ->).
    + now rewrite E.
    + exists c, i. split; [now right | reflexivity].
Qed.

(** The shape of the node a call returns: the properties are those at the
    start of the loop put through [calculateActuals] and
    [calculateExclusives], the children are processed children of the input,
    none of them a CTE. *)
Lemma walked_root (written : Props -> Props) (node : Node) (nodeId : nat) :
  exists pl2,
    walked_node (processNodeFrom written node nodeId)
    = mkNode (calculateExclusives (calculateActuals (entered written node nodeId) pl2) pl2) pl2
    /\ forall c', In c' (elems pl2) ->
         notCTE c' = true
         /\ exists c i,
              In c (children node)
              /\ c' = walked_node
                        (processNodeFrom (disseminate (entered written node nodeId)) c i).
Proof.
  destruct node as [p pl]. rewrite processNodeFrom_eq. cbv zeta.
  destruct pl as [cs|].
  - destruct (eachChild processNodeFrom _ cs (S nodeId)) as [[cs' pushed] next] eqn:E.
    eexists. split; [reflexivity|].
    simpl. intros c' Hin. apply filter_In in Hin. destruct Hin as [Hin Hn].
    split; [exact Hn|].
    apply (eachChild_In processNodeFrom _ cs (S nodeId)). now rewrite E.
  - exists None. split; [reflexivity | intros c' []].
Qed.

(** ** Every node of the result comes out of a call *)

Lemma nodes_eq (p : Props) (pl : option (list Node)) :
  nodes (mkNode p pl) = mkNode p pl :: flat_map nodes (elems pl).
Proof. now destruct pl. Qed.

Section WalkAll.

Variable P : Node -> Prop.
Hypothesis P_call :
  forall written node nodeId, P (walked_node (processNodeFrom written node nodeId)).

Let Pall (n : Node) : Prop := Forall P (nodes n).

Lemma eachChild_all (p : Props) (cs : list Node) :
  Forall (fun c => forall written i,
            Pall (walked_node (processNodeFrom written c i))
            /\ Forall Pall (walked_pushed (processNodeFrom written c i))) cs ->
  forall nodeId,
    Forall Pall (fst (fst (eachChild processNodeFrom p cs nodeId)))
    /\ Forall Pall (snd (fst (eachChild processNodeFrom p cs nodeId))).
Proof.
  induction 1 as [|child rest Hc _ IH]; intros nodeId; [split; constructor|].
  rewrite eachChild_cons. cbv zeta.
  destruct (Hc (disseminate p) nodeId) as [Hn Hp].
  specialize (IH (walked_next (processNodeFrom (disseminate p) child nodeId))).
  destruct (eachChild processNodeFrom p rest _) as [[r' pr] n2]. simpl in *.
  destruct IH as [IH1 IH2]. split; [now constructor|].
  apply Forall_app. split.
  - destruct (isCTE _); [now constructor | constructor].
  - apply Forall_app. now split.
Qed.

Lemma walk_all (node : Node) :
  forall written nodeId,
    Pall (walked_node (processNodeFrom written node nodeId))
    /\ Forall Pall (walked_pushed (processNodeFrom written node nodeId)).
Proof.
  induction node as [p|p l IH] using Node_nested_ind; intros written nodeId;
    [ pose proof (P_call written (mkNode p None) nodeId) as Hroot
    | pose proof (P_call written (mkNode p (Some l)) nodeId) as Hroot ];
    rewrite processNodeFrom_eq in *; cbv zeta in *.
  - cbn [walked_node walked_pushed fst snd option_map] in *.
    split; [|constructor]. unfold Pall. rewrite nodes_eq. now constructor.
  - pose proof (eachChild_all (entered written (mkNode p (Some l)) nodeId) IH (S nodeId))
      as [Hcs Hpushed].
    destruct (eachChild processNodeFrom _ l (S nodeId)) as [[cs' pushed] next].
    cbn [walked_node walked_pushed fst snd option_map] in *.
    split; [|exact Hpushed].
    unfold Pall. rewrite nodes_eq. constructor; [exact Hroot|].
    apply Forall_flat_map. cbn [elems].
    apply Forall_forall. intros c Hin. apply filter_In in Hin.
    rewrite Forall_forall in Hcs. now apply Hcs.
Qed.

End WalkAll.

(** ** What a call leaves in the node it returns *)

Lemma actuals_direction (p : Props) (pl : option (list Node)) :
  PLANNER_ESTIMATE_DIRECTION (calculateActuals p pl) = PLANNER_ESTIMATE_DIRECTION p.
Proof.
  unfold calculateActuals.
  apply fold_left_inv
    with (I := fun q => PLANNER_ESTIMATE_DIRECTION q = PLANNER_ESTIMATE_DIRECTION p).
  2: { intros a b Ha. destruct (get (Row b) a); auto. }
  match goal with |- _ (if ?c then _ else _) = _ => destruct c end; simpl;
  (apply each_inv
     with (I := fun q => PLANNER_ESTIMATE_DIRECTION q = PLANNER_ESTIMATE_DIRECTION p);
   [ destruct (truthyV _); destruct (get ACTUAL_TOTAL_TIME p); reflexivity
   | intros s a Hs; destruct (_ && _); auto ]).
Qed.

Lemma exclusives_direction (p : Props) (pl : option (list Node)) :
  PLANNER_ESTIMATE_DIRECTION (calculateExclusives p pl) = PLANNER_ESTIMATE_DIRECTION p.
Proof.
  unfold calculateExclusives.
  now apply fold_left_inv
    with (I := fun q => PLANNER_ESTIMATE_DIRECTION q = PLANNER_ESTIMATE_DIRECTION p).
Qed.

Section Call.

Variables (written : Props -> Props) (node : Node) (nodeId : nat).

Let result : Node := walked_node (processNodeFrom written node nodeId).

Lemma walked_ident : ident (props result) = ident (written (props node)).
Proof.
  subst result. destruct (walked_root written node nodeId) as (pl2 & -> & _). cbn [props].
  now rewrite exclusives_ident, actuals_ident; unfold entered; rewrite estimate_ident.
Qed.

Lemma walked_id : EnrichSpec.nodeId_of result = Some nodeId.
Proof.
  subst result. destruct (walked_root written node nodeId) as (pl2 & -> & _).
  unfold nodeId_of. cbn [props].
  now rewrite exclusives_id, actuals_id; unfold entered; rewrite estimate_id.
Qed.

(** The keys no step of the walk writes keep the value the node had when the
    call started. *)
Lemma walked_get (k : NodeProp) :
  k <> PLANNER_ESTIMATE_FACTOR -> actuals_key k = false -> (forall b, k <> EXCLUSIVE_ b) ->
  get k (props result) = get k (written (props node)).
Proof.
  intros H1 H2 H3. subst result.
  destruct (walked_root written node nodeId) as (pl2 & -> & _). cbn [props].
  rewrite exclusives_get, actuals_get by assumption. unfold entered.
  now rewrite estimate_get.
Qed.

Lemma walked_estimate :
  PLANNER_ESTIMATE_DIRECTION (props result)
  = PLANNER_ESTIMATE_DIRECTION (calculatePlannerEstimate (written (props node)))
  /\ get PLANNER_ESTIMATE_FACTOR (props result)
     = get PLANNER_ESTIMATE_FACTOR (calculatePlannerEstimate (written (props node))).
Proof.
  subst result. destruct (walked_root written node nodeId) as (pl2 & -> & _). cbn [props].
  rewrite exclusives_direction, actuals_direction.
  rewrite exclusives_get, actuals_get by (reflexivity || discriminate).
  unfold entered, calculatePlannerEstimate. rewrite get_set_nodeId.
  destruct (get (Row ACTUAL_ROWS) (written (props node))); [|now split].
  rewrite !get_set_nodeId.
  destruct (gtb _ _), (ltb _ _); read_props; now split.
Qed.

End Call.

(** ** The planner estimate (C1) *)

Lemma compare_flip (a p : Q) : (p ?= a)%Q = CompOpp (a ?= p)%Q.
Proof. symmetry. apply Qcompare_antisym. Qed.

(** [calculatePlannerEstimate] on two finite row counts. *)
Lemma estimate_fin (node : Props) (a p : Q) :
  get (Row ACTUAL_ROWS) node = Some (Fin a) ->
  get (Row PLAN_ROWS) node = Some (Fin p) ->
  PLANNER_ESTIMATE_DIRECTION (calculatePlannerEstimate node)
  = Some match (a ?= p)%Q with Eq => none | Lt => over | Gt => under end
  /\ get PLANNER_ESTIMATE_FACTOR (calculatePlannerEstimate node)
     = Some match (a ?= p)%Q with
            | Lt => div (Fin p) (Fin a)
            | _ => div (Fin a) (Fin p)
            end.
Proof.
  intros Ha Hp. unfold calculatePlannerEstimate. rewrite Ha, Hp.
  unfold gtb, ltb, toNumber. rewrite (compare_flip a p).
  destruct (a ?= p)%Q; cbn [CompOpp]; read_props; now split.
Qed.

Lemma div_positive (x y : Q) : (0 < y)%Q -> div (Fin x) (Fin y) = Fin (Qred (x / y)).
Proof.
  intros Hy. unfold div, fin. apply Qgt_alt in Hy. now rewrite Hy.
Qed.

Lemma div_by_zero (x y : Q) :
  (y == 0)%Q -> div (Fin x) (Fin y) = signed_inf true x.
Proof. intros Hy. unfold div. apply Qeq_alt in Hy. now rewrite Hy. Qed.

(** C1, as the code has it.  For a node whose [actual_rows] and [plan_rows]
    are finite numbers [a] and [p], enrichment leaves the direction [none]
    exactly when [a] equals [p], [under] exactly when [a > p] and [over]
    exactly when [a < p]; the factor is always set; for positive counts it
    is the larger count over the smaller one, hence at least 1; and when
    one of two non-negative counts is zero the division by zero is carried out:
    the factor is [Infinity] (with direction [under] or [over]), or [NaN]
    when both counts are zero. *)
Theorem planner_estimate (written : Props -> Props) (node : Node) (nodeId : nat) (a p : Q) :
  get (Row ACTUAL_ROWS) (written (props node)) = Some (Fin a) ->
  get (Row PLAN_ROWS) (written (props node)) = Some (Fin p) ->
  let result := props (walked_node (processNodeFrom written node nodeId)) in
  (PLANNER_ESTIMATE_DIRECTION result = Some none <-> (a == p)%Q)
  /\ (PLANNER_ESTIMATE_DIRECTION result = Some under <-> (p < a)%Q)
  /\ (PLANNER_ESTIMATE_DIRECTION result = Some over <-> (a < p)%Q)
  /\ (exists factor, get PLANNER_ESTIMATE_FACTOR result = Some factor)
  /\ ((0 < a)%Q -> (0 < p)%Q ->
      exists q, get PLANNER_ESTIMATE_FACTOR result = Some (Fin q)
                /\ (1 <= q)%Q
                /\ (q == if Qle_bool p a then a / p else p / a)%Q)
  /\ ((0 <= a)%Q -> (0 <= p)%Q -> (a == 0)%Q \/ (p == 0)%Q ->
      get PLANNER_ESTIMATE_FACTOR result = Some (if Qeq_bool a p then NaN else PInf)).
Proof.
  intros Ha Hp result.
  destruct (walked_estimate written node nodeId) as [Hd Hf].
  destruct (estimate_fin _ Ha Hp) as [Hd' Hf'].
  subst result. rewrite Hd, Hf, Hd', Hf'. clear Hd Hf Hd' Hf'.
  rewrite (Qeq_alt a p), (Qlt_alt a p), (Qgt_alt a p).
  repeat split.
  1-6: destruct (a ?= p)%Q; congruence.
  - eexists; reflexivity.
  - intros Hap Hpp. destruct (a ?= p)%Q eqn:E.
    + apply Qeq_alt in E. rewrite div_positive by assumption.
      eexists; split; [reflexivity|].
      assert (Hle : (p <= a)%Q) by (rewrite E; apply Qle_refl).
      split.
      * rewrite Qred_correct. apply Qle_shift_div_l; [assumption|]. now rewrite Qmult_1_l.
      * rewrite Qred_correct. apply Qle_bool_iff in Hle. now rewrite Hle.
    + apply Qlt_alt in E. rewrite div_positive by assumption.
      eexists; split; [reflexivity|]. split.
      * rewrite Qred_correct. apply Qle_shift_div_l; [assumption|].
        rewrite Qmult_1_l. now apply Qlt_le_weak.
      * rewrite Qred_correct.
        destruct (Qle_bool p a) eqn:B; [|reflexivity].
        apply Qle_bool_iff in B. exfalso. apply (Qlt_irrefl a).
        now apply Qlt_le_trans with p.
    + apply Qgt_alt in E. rewrite div_positive by assumption.
      eexists; split; [reflexivity|].
      assert (Hle : (p <= a)%Q) by now apply Qlt_le_weak.
      split.
      * rewrite Qred_correct. apply Qle_shift_div_l; [assumption|]. now rewrite Qmult_1_l.
      * rewrite Qred_correct. apply Qle_bool_iff in Hle. now rewrite Hle.
  - intros Hap Hpp Hz. destruct (a ?= p)%Q eqn:E.
    + apply Qeq_alt in E. pose proof E as B. apply Qeq_bool_iff in B. rewrite B.
      assert (Hp0 : (p == 0)%Q) by (destruct Hz as [Hz|Hz]; [now rewrite <- E|exact Hz]).
      assert (Ha0 : (a == 0)%Q) by now rewrite E.
      rewrite div_by_zero by assumption. unfold signed_inf.
      apply Qeq_alt in Ha0. now rewrite Ha0.
    + pose proof E as Hlt. apply Qlt_alt in Hlt.
      assert (Ha0 : (a == 0)%Q).
      { destruct Hz as [Hz|Hz]; [exact Hz|]. exfalso. apply (Qlt_irrefl a).
        apply Qlt_le_trans with p; [exact Hlt|]. now rewrite Hz. }
      assert (B : Qeq_bool a p = false).
      { destruct (Qeq_bool a p) eqn:B; [|reflexivity]. apply Qeq_bool_iff, Qeq_alt in B.
        congruence. }
      rewrite B, div_by_zero by assumption. unfold signed_inf.
      assert (Hp0 : (0 < p)%Q) by now rewrite <- Ha0.
      apply Qgt_alt in Hp0. now rewrite Hp0.
    + pose proof E as Hgt. apply Qgt_alt in Hgt.
      assert (Hp0 : (p == 0)%Q).
      { destruct Hz as [Hz|Hz]; [|exact Hz]. exfalso. apply (Qlt_irrefl p).
        apply Qlt_le_trans with a; [exact Hgt|]. now rewrite Hz. }
      assert (B : Qeq_bool a p = false).
      { destruct (Qeq_bool a p) eqn:B; [|reflexivity]. apply Qeq_bool_iff, Qeq_alt in B.
        congruence. }
      rewrite B, div_by_zero by assumption. unfold signed_inf.
      assert (Ha0 : (0 < a)%Q) by now rewrite <- Hp0.
      apply Qgt_alt in Ha0. now rewrite Ha0.
Qed.

(** C1 as stated fails where the division is by zero: with 5 actual rows
    against 0 planned ones the direction is [under], not [none], and the
    factor is set, to [Infinity]. *)
Lemma planner_estimate_division_by_zero :
  PLANNER_ESTIMATE_DIRECTION (props (content_Plan (createPlan ex_zero_plan))) = Some under
  /\ get PLANNER_ESTIMATE_FACTOR (props (content_Plan (createPlan ex_zero_plan))) = Some PInf.
Proof. split; reflexivity. Qed.

Lemma planner_estimate_witness :
  get (Row ACTUAL_ROWS) (props ex_under) = Some (Fin 6)
  /\ get (Row PLAN_ROWS) (props ex_under) = Some (Fin 4)
  /\ PLANNER_ESTIMATE_DIRECTION (props (walked_node (processNodeFrom (fun p => p) ex_under 1)))
     = Some under.
Proof.
  split; [reflexivity|]. split; [reflexivity|].
  destruct (@planner_estimate (fun p => p) ex_under 1 6 4 eq_refl eq_refl) as (_ & [_ H] & _).
  apply H. reflexivity.
Defined.

(** ** Plans *)

Lemma createPlan_eq (root : Node) :
  createPlan root
  = {| content_Plan := walked_node (processNode root 1);
       ctes := walked_pushed (processNode root 1) |}.
Proof. unfold createPlan. now destruct (processNode root 1) as [[n c] i]. Qed.

(** A property every call establishes for the node it returns holds of every
    node of an enriched plan. *)
Lemma plan_all (P : Node -> Prop) :
  (forall written node nodeId, P (walked_node (processNodeFrom written node nodeId))) ->
  forall root, Forall P (plan_nodes (createPlan root)).
Proof.
  intros HP root. rewrite createPlan_eq. unfold plan_nodes, processNode. cbn [content_Plan ctes].
  destruct (walk_all P HP root (fun p => p) 1) as [Hn Hc].
  apply Forall_app. split; [exact Hn|]. now apply Forall_flat_map.
Qed.

(** ** Workers planned by the Gather above (C3) *)

Lemma disseminate_ident (node child : Props) : ident (disseminate node child) = ident child.
Proof. unfold disseminate. now destruct (_ && _). Qed.

Lemma disseminate_plain (node child : Props) :
  relationship_is "InitPlan" child = false ->
  relationship_is "SubPlan" child = false ->
  get WORKERS_PLANNED_BY_GATHER (disseminate node child)
  = or (get WORKERS_PLANNED node) (get WORKERS_PLANNED_BY_GATHER node).
Proof.
  intros Hi Hs. unfold disseminate, isCTE. rewrite Hi, Hs. cbn [andb negb].
  apply get_set_same.
Qed.

(** C3 as stated fails: a node whose [workers_planned] is 0 hands its own
    inherited [workers_planned_by_gather], here 3, to its child. *)
Lemma workers_planned_zero_is_skipped :
  get WORKERS_PLANNED (props ex_zero_workers) = Some zero
  /\ map (fun child => get WORKERS_PLANNED_BY_GATHER (props child))
       (children (content_Plan (createPlan ex_zero_workers)))
     = [Some (Fin 3)].
Proof. split; reflexivity. Qed.

(** C3, as the code has it.  In an enriched plan, every child left in a
    node's [plans] list (none of them is a CTE) whose parent relationship is
    neither InitPlan nor SubPlan has [workers_planned_by_gather] equal to
    [node.workers_planned || node.workers_planned_by_gather]: the node's
    [workers_planned] when that is a number other than 0 and NaN, and the
    node's own [workers_planned_by_gather] otherwise. *)
Theorem workers_planned_by_gather_set (root : Node) :
  Forall
    (fun n =>
       Forall
         (fun child =>
            notCTE child = true
            /\ (relationship_is "InitPlan" (props child) = false ->
                relationship_is "SubPlan" (props child) = false ->
                get WORKERS_PLANNED_BY_GATHER (props child)
                = if truthyV (get WORKERS_PLANNED (props n))
                  then get WORKERS_PLANNED (props n)
                  else get WORKERS_PLANNED_BY_GATHER (props n)))
         (children n))
    (plan_nodes (createPlan root)).
Proof.
  apply plan_all. intros written node nodeId.
  pose proof (@walked_get written node nodeId WORKERS_PLANNED) as Hwp.
  pose proof (@walked_get written node nodeId WORKERS_PLANNED_BY_GATHER) as Hwg.
  destruct (walked_root written node nodeId) as (pl2 & E & Hch).
  rewrite E in *. unfold children. cbn [PLANS].
  apply Forall_forall. intros c' Hin.
  destruct (Hch c' Hin) as (Hn & c & i & _ & ->). split; [exact Hn|].
  set (p1 := entered written node nodeId) in *.
  pose proof (walked_ident (disseminate p1) c i) as Hid.
  rewrite disseminate_ident in Hid.
  rewrite !(relationship_ident _ Hid). intros Hi Hs.
  rewrite walked_get by (discriminate || reflexivity).
  rewrite disseminate_plain by assumption.
  rewrite Hwp, Hwg by (discriminate || reflexivity).
  unfold or, p1, entered.
  now rewrite !estimate_get, !get_set_nodeId by discriminate.
Qed.

(** A Gather with three planned workers: its child inherits 3 and has its
    total time of 8 divided by 4. *)
Lemma gather_child_inherits :
  map (fun child =>
         (get WORKERS_PLANNED_BY_GATHER (props child), get ACTUAL_TOTAL_TIME (props child)))
    (children (content_Plan (createPlan ex_gather)))
  = [(Some (Fin 3), Some (Fin 2))].
Proof. reflexivity. Qed.

(** ** Scaled times and the exclusive duration (C2) *)

Lemma actuals_times (p : Props) (pl : option (list Node)) (t : number) :
  get ACTUAL_TOTAL_TIME p = Some t ->
  let workers := add (orNum (get WORKERS_PLANNED_BY_GATHER p) zero) one in
  let loops := toNumber (get ACTUAL_LOOPS p) in
  let total := div (mul t loops) workers in
  get ACTUAL_TOTAL_TIME (calculateActuals p pl) = Some total
  /\ get ACTUAL_STARTUP_TIME (calculateActuals p pl)
     = Some (div (mul (toNumber (get ACTUAL_STARTUP_TIME p)) loops) workers)
  /\ get EXCLUSIVE_DURATION (calculateActuals p pl)
     = Some (clamp (sub total (childrenDuration (mkNode p pl) zero))).
Proof.
  intros Ht workers loops total. unfold calculateActuals. rewrite Ht.
  set (I := fun q : Props =>
              get ACTUAL_TOTAL_TIME q = Some total
              /\ get ACTUAL_STARTUP_TIME q
                 = Some (div (mul (toNumber (get ACTUAL_STARTUP_TIME p)) loops) workers)
              /\ get EXCLUSIVE_DURATION q
                 = Some (clamp (sub total (childrenDuration (mkNode p pl) zero)))).
  assert (Hcost : forall v q, I q -> I (set EXCLUSIVE_COST v q)).
  { intros v q (H1 & H2 & H3). unfold I. now read_props. }
  apply fold_left_inv with (I := I).
  2: { intros a b (H1 & H2 & H3). destruct (get (Row b) a); [|now repeat split].
       unfold I. now read_props. }
  match goal with |- I (if ?c then _ else _) => destruct c end; [apply Hcost|];
  (apply each_inv with (I := I); [| intros q a Hq; destruct (_ && _); auto ]);
  (match goal with |- I (if ?c then _ else _) => destruct c end; [apply Hcost|]);
  unfold I; read_props; repeat split.
Qed.

(** C2 as stated fails below the children: on a chain with total times 10, 6
    and 4 the child keeps 2 and the root keeps 4, which is 10 minus the 2 of
    its child and the 4 of its grandchild, not 10 - 2. *)
Lemma exclusive_duration_counts_grandchildren :
  get ACTUAL_TOTAL_TIME (props (content_Plan (createPlan ex_chain))) = Some (Fin 10)
  /\ directChildrenDuration (content_Plan (createPlan ex_chain)) = Fin 2
  /\ get EXCLUSIVE_DURATION (props (content_Plan (createPlan ex_chain))) = Some (Fin 4).
Proof. repeat split. Qed.

(** C2, as the code has it.  A call of [processNode] on a node whose
    [actual_total_time] is defined ([written] being what the parent assigned
    to the node before the call) scales the total and the startup time by
    [actual_loops / ((workers_planned_by_gather || 0) + 1)] and sets the
    exclusive duration to the scaled total minus the exclusive durations of
    all the descendants reached without entering an InitPlan child, or to 0
    when that difference is not positive. *)
Theorem exclusive_duration (written : Props -> Props) (node : Node) (nodeId : nat)
    (t : number) :
  get ACTUAL_TOTAL_TIME (written (props node)) = Some t ->
  let before := written (props node) in
  let result := walked_node (processNodeFrom written node nodeId) in
  let workers := add (orNum (get WORKERS_PLANNED_BY_GATHER before) zero) one in
  let loops := toNumber (get ACTUAL_LOOPS before) in
  let total := div (mul t loops) workers in
  get ACTUAL_TOTAL_TIME (props result) = Some total
  /\ get ACTUAL_STARTUP_TIME (props result)
     = Some (div (mul (toNumber (get ACTUAL_STARTUP_TIME before)) loops) workers)
  /\ get EXCLUSIVE_DURATION (props result)
     = Some (clamp (sub total
                      (fold_left (fun duration m => add duration (durationOf m))
                         (timed_descendants result) zero))).
Proof.
  intros Ht before result workers loops total. subst result.
  destruct (walked_root written node nodeId) as (pl2 & -> & _). cbn [props].
  rewrite !exclusives_get by discriminate.
  assert (Hget : forall k, k <> PLANNER_ESTIMATE_FACTOR ->
                           get k (entered written node nodeId) = get k before).
  { intros k Hk. unfold entered. now rewrite estimate_get, get_set_nodeId. }
  destruct (@actuals_times (entered written node nodeId) pl2 t) as (H1 & H2 & H3).
  { rewrite Hget by discriminate. exact Ht. }
  pose proof (Hget ACTUAL_LOOPS ltac:(discriminate)) as E1.
  pose proof (Hget WORKERS_PLANNED_BY_GATHER ltac:(discriminate)) as E2.
  pose proof (Hget ACTUAL_STARTUP_TIME ltac:(discriminate)) as E3.
  rewrite ?E1, ?E2, ?E3 in H1. rewrite ?E1, ?E2, ?E3 in H2. rewrite ?E1, ?E2, ?E3 in H3.
  rewrite H1, H2, H3. repeat split.
  now rewrite childrenDuration_sum.
Qed.

Lemma exclusive_duration_witness :
  get ACTUAL_TOTAL_TIME (props ex_chain) = Some (Fin 10)
  /\ get EXCLUSIVE_DURATION (props (walked_node (processNodeFrom (fun p => p) ex_chain 1)))
     = Some (Fin 4).
Proof.
  split; [reflexivity|].
  destruct (@exclusive_duration (fun p => p) ex_chain 1 (Fin 10) eq_refl) as (_ & _ & H).
  rewrite H. reflexivity.
Defined.

(** ** Exclusive buffer and I/O counters (C10) *)

Lemma sub_NaN (x : number) : sub NaN x = NaN.
Proof. reflexivity. Qed.

Lemma add_same (a a' b : number) : same a a' -> same (add a b) (add a' b).
Proof.
  destruct a as [| | |x], a' as [| | |x'], b as [| | |y]; cbn [same add zero];
    auto; try contradiction.
  intros E. unfold fin. cbn [same]. now rewrite !Qred_correct, E.
Qed.

Lemma fold_add_same (iteratee : Node -> number) (l : list Node) (a a' : number) :
  same a a' ->
  same (fold_left (fun result y => add result (iteratee y)) l a)
    (fold_left add (map iteratee l) a').
Proof.
  revert a a'. induction l as [|x l IH]; intros a a' E; cbn [fold_left map]; [exact E|].
  apply IH. now apply add_same.
Qed.

Lemma sub_same (a s s' : number) : same s s' -> sub a s = sub a s'.
Proof.
  destruct a as [| | |x], s as [| | |y], s' as [| | |y']; cbn [same]; auto; try contradiction.
  intros E. unfold sub, neg, add, fin. f_equal. apply Qred_complete.
  rewrite !Qred_correct. now rewrite E.
Qed.

(** lodash's sum, which starts from the first value, is the sum from 0. *)
Lemma sumBy_total (array : option (list Node)) (iteratee : Node -> number) :
  same (sumBy array iteratee) (total (map iteratee (elems array))).
Proof.
  destruct array as [[|x l]|]; cbn [sumBy elems map];
    [exact (Qeq_refl 0) | | exact (Qeq_refl 0)].
  unfold total. cbn [fold_left]. apply fold_add_same.
  destruct (iteratee x) as [| | |q]; cbn [same add zero]; auto.
  unfold fin. cbn [same]. rewrite Qred_correct. symmetry. apply Qplus_0_l.
Qed.

(** The children a call returns are the processed children of its node, in
    their order. *)
Lemma eachChild_Forall2 (process : (Props -> Props) -> Node -> nat -> Walked) (p : Props)
    (cs : list Node) :
  forall nodeId,
    Forall2 (fun c c' => exists i, c' = walked_node (process (disseminate p) c i))
      cs (fst (fst (eachChild process p cs nodeId))).
Proof.
  induction cs as [|child rest IH]; intros nodeId; [constructor|].
  rewrite eachChild_cons. cbv zeta.
  specialize (IH (walked_next (process (disseminate p) child nodeId))).
  destruct (eachChild process p rest _) as [[r' pr] n2]. simpl in *.
  constructor; [now exists nodeId | exact IH].
Qed.

(** A CTE child is not counted, and what is counted of the others is what
    the input holds. *)
Lemma counters_of_processed (b : BufProp) (p : Props) (cs cs' : list Node) :
  Forall2 (fun c c' => exists i, c' = walked_node (processNodeFrom (disseminate p) c i)) cs cs' ->
  map (counterOf b) (filter notCTE cs') = map (counter b) (filter notCTE cs).
Proof.
  induction 1 as [|c c' cs cs' (i & ->) _ IH]; [reflexivity|].
  pose proof (walked_ident (disseminate p) c i) as Hid. rewrite disseminate_ident in Hid.
  pose proof (@walked_get (disseminate p) c i (Buf b)) as Hget.
  assert (Hn : notCTE (walked_node (processNodeFrom (disseminate p) c i)) = notCTE c).
  { unfold notCTE. now rewrite (isCTE_same_ident Hid). }
  cbn [filter]. rewrite Hn.
  destruct (notCTE c); cbn [map]; [|exact IH].
  f_equal; [|exact IH].
  unfold counterOf, counter, orNum. rewrite Hget by (discriminate || reflexivity).
  unfold disseminate. destruct (_ && _); [|reflexivity].
  now rewrite get_set_other by discriminate.
Qed.

(** C10 as stated fails on a CTE child: it is an InitPlan child, and it has
    left the [plans] list when the counters are computed, so its 5 blocks
    are not subtracted from the 2 of its parent. *)
Lemma exclusive_counter_skips_cte :
  map (fun child => (PARENT_RELATIONSHIP (props child), counter SHARED_READ_BLOCKS child))
    (children ex_cte_buffers)
  = [(Some "InitPlan"%string, Fin 5)]
  /\ get (EXCLUSIVE_ SHARED_READ_BLOCKS) (props (content_Plan (createPlan ex_cte_buffers)))
     = Some (Fin 2).
Proof. split; reflexivity. Qed.

(** The difference can be negative, and an InitPlan child that is no CTE
    counts: 2 - 5. *)
Lemma exclusive_counter_negative :
  get (EXCLUSIVE_ SHARED_READ_BLOCKS) (props (content_Plan (createPlan ex_buffers)))
  = Some (Fin (-3))
  /\ get (EXCLUSIVE_ SHARED_HIT_BLOCKS) (props (content_Plan (createPlan ex_buffers)))
     = Some NaN.
Proof. split; reflexivity. Qed.

(** C10, as the code has it.  In an enriched plan every node (of the main
    tree and of the trees moved to [plan.ctes]) has each of the twelve
    exclusive counters set to its own counter minus the sum of the counters
    of the children in its [plans] list, a counter that is missing counting
    as 0; nothing clamps the difference.  And for every call of
    [processNode] ([written] being what the parent assigned to the node
    before the call) the children summed are the children of the node that
    are not CTEs, with the counters they came with, whatever their parent
    relationship otherwise; the node keeps its own counter, and without it
    the exclusive counter is NaN. *)
Theorem exclusive_counters :
  (forall root : Node,
      Forall
        (fun n =>
           forall b : BufProp,
             get (EXCLUSIVE_ b) (props n)
             = Some (sub (toNumber (get (Buf b) (props n)))
                       (total (map (counter b) (children n)))))
        (plan_nodes (createPlan root)))
  /\ (forall (written : Props -> Props) (node : Node) (nodeId : nat) (b : BufProp),
        let own := get (Buf b) (written (props node)) in
        let result := walked_node (processNodeFrom written node nodeId) in
        get (Buf b) (props result) = own
        /\ get (EXCLUSIVE_ b) (props result)
           = Some (sub (toNumber own)
                     (total (map (counter b) (filter notCTE (children node)))))
        /\ (own = None -> get (EXCLUSIVE_ b) (props result) = Some NaN)).
Proof.
  split.
  - intros root. apply plan_all. intros written node nodeId b.
    destruct (walked_root written node nodeId) as (pl2 & -> & _). cbn [props].
    rewrite exclusives_set, (exclusives_get (k := Buf b)) by discriminate.
    f_equal. apply sub_same. unfold children. cbn [PLANS].
    apply (sumBy_total pl2 (counterOf b)).
  - intros written node nodeId b own result.
    assert (Hown : get (Buf b) (props result) = own).
    { subst result own. apply walked_get; discriminate || reflexivity. }
    assert (Hex : get (EXCLUSIVE_ b) (props result)
                  = Some (sub (toNumber own)
                            (total (map (counter b) (filter notCTE (children node)))))).
    { rewrite <- Hown. subst result. destruct node as [p pl].
      rewrite processNodeFrom_eq. cbv zeta.
      set (p1 := entered written (mkNode p pl) nodeId).
      destruct pl as [cs|].
      - pose proof (eachChild_Forall2 processNodeFrom p1 cs (S nodeId)) as Hcs.
        destruct (eachChild processNodeFrom p1 cs (S nodeId)) as [[cs' pushed] next].
        cbn [fst walked_node props option_map] in *.
        rewrite exclusives_set, (exclusives_get (k := Buf b)) by discriminate.
        f_equal. apply sub_same. unfold children. cbn [PLANS elems].
        rewrite <- (@counters_of_processed b p1 cs cs' Hcs).
        apply (sumBy_total (Some (filter notCTE cs')) (counterOf b)).
      - cbn [fst walked_node props option_map].
        rewrite exclusives_set, (exclusives_get (k := Buf b)) by discriminate.
        reflexivity. }
    split; [exact Hown|]. split; [exact Hex|].
    intros Hnone. rewrite Hex, Hnone. reflexivity.
Qed.

End EnrichFacts.

(** * Node ids and the relocation of CTEs *)

Module PlanShape.
Import Enrich EnrichSpec EnrichFacts.

Lemma map_flat_map {A B C : Type} (f : B -> C) (g : A -> list B) (l : list A) :
  map f (flat_map g l) = flat_map (fun x => map f (g x)) l.
Proof. induction l as [|a l IH]; simpl; [reflexivity|]. now rewrite map_app, IH. Qed.

Lemma keys_eq (p : Props) (pl : option (list Node)) :
  keys (mkNode p pl) = key (mkNode p pl) :: flat_map keys (elems pl).
Proof. unfold keys. rewrite nodes_eq. cbn [map]. now rewrite map_flat_map. Qed.

Lemma nodes_descendants (n : Node) : nodes n = n :: descendants n.
Proof. unfold descendants. destruct n as [p [l|]]; reflexivity. Qed.

Lemma descendants_eq (p : Props) (pl : option (list Node)) :
  descendants (mkNode p pl) = flat_map nodes (elems pl).
Proof. unfold descendants. now rewrite nodes_eq. Qed.

Lemma numbered_cons (start : nat) (n : Node) (l : list Node) :
  numbered start (n :: l) = (Some start, ident (props n)) :: numbered (S start) l.
Proof. reflexivity. Qed.

Lemma numbered_app (l1 l2 : list Node) :
  forall start,
    numbered start (l1 ++ l2) = numbered start l1 ++ numbered (start + List.length l1)%nat l2.
Proof.
  induction l1 as [|n l1 IH]; intros start.
  - simpl. now rewrite Nat.add_0_r.
  - rewrite <- app_comm_cons, !numbered_cons, IH. cbn [List.length app].
    now rewrite Nat.add_succ_r.
Qed.

Lemma numbered_ids (start : nat) (l : list Node) :
  map fst (numbered start l) = map Some (seq start (List.length l)).
Proof.
  revert start. induction l as [|n l IH]; intros start; [reflexivity|].
  rewrite numbered_cons. cbn [map fst List.length seq]. now rewrite IH.
Qed.

Lemma isCTE_key (p : Props) : isCTE p = isCTE_ident (ident p).
Proof. reflexivity. Qed.

Lemma eachChild_shape (p : Props) (cs : list Node) :
  Forall (fun c => forall written i, keeps_ident written -> call_shape c written i) cs ->
  forall nodeId,
    let r := eachChild processNodeFrom p cs nodeId in
    snd r = (nodeId + List.length (flat_map nodes cs))%nat
    /\ Permutation
         (flat_map keys (filter notCTE (fst (fst r))) ++ flat_map keys (snd (fst r)))
         (numbered nodeId (flat_map nodes cs))
    /\ map key (snd (fst r))
       = filter (fun k => isCTE_ident (snd k)) (numbered nodeId (flat_map nodes cs)).
Proof.
  induction 1 as [|c rest Hc _ IH]; intros nodeId.
  - cbn. rewrite Nat.add_0_r. repeat split. constructor.
  - cbv zeta. rewrite eachChild_cons. cbv zeta.
    destruct (Hc (disseminate p) nodeId (disseminate_ident p)) as (Hnext & Hperm & Hpushed).
    pose proof (walked_id (disseminate p) c nodeId) as Hid.
    pose proof (walked_ident (disseminate p) c nodeId) as Hident.
    rewrite disseminate_ident in Hident.
    set (w := processNodeFrom (disseminate p) c nodeId) in *.
    specialize (IH (walked_next w)).
    destruct (eachChild processNodeFrom p rest (walked_next w)) as [[rest' pushed'] next].
    cbn [fst snd] in *. destruct IH as (IHnext & IHperm & IHpushed).
    assert (Hkey : key (walked_node w) = (Some nodeId, ident (props c))).
    { unfold key. now rewrite Hid, Hident. }
    assert (Hcte : isCTE (props (walked_node w)) = isCTE_ident (ident (props c))).
    { now rewrite isCTE_key, Hident. }
    rewrite isCTE_key, disseminate_ident.
    cbn [flat_map]. rewrite length_app, numbered_app. fold (size c).
    rewrite <- Hnext.
    split; [rewrite IHnext, Hnext; lia|].
    cbn [filter]. unfold notCTE at 1. rewrite Hcte.
    rewrite filter_app, <- IHpushed.
    rewrite (nodes_descendants c), numbered_cons. cbn [filter snd].
    rewrite <- Hpushed. rewrite (nodes_descendants c), numbered_cons in Hperm.
    destruct (isCTE_ident (ident (props c))); cbn [negb].
    + split.
      * rewrite !flat_map_app. cbn [flat_map app]. rewrite app_nil_r.
        rewrite (app_assoc (keys (walked_node w))).
        rewrite Permutation_app_swap_app.
        exact (Permutation_app Hperm IHperm).
      * cbn [app map]. rewrite map_app, Hkey. reflexivity.
    + split.
      * cbn [flat_map app]. rewrite !flat_map_app.
        rewrite <- app_assoc.
        rewrite (Permutation_app_swap_app (flat_map keys (filter notCTE rest'))).
        rewrite !app_assoc. rewrite <- (app_assoc _ (flat_map keys (filter notCTE rest'))).
        exact (Permutation_app Hperm IHperm).
      * cbn [app]. now rewrite map_app.
Qed.

Lemma walk_shape (node : Node) :
  forall written nodeId, keeps_ident written -> call_shape node written nodeId.
Proof.
  induction node as [p|p l IH] using Node_nested_ind; intros written nodeId Hw;
    unfold call_shape; cbv zeta.
  - pose proof (walked_id written (mkNode p None) nodeId) as Hid.
    pose proof (walked_ident written (mkNode p None) nodeId) as Hident.
    rewrite processNodeFrom_eq in *. cbv zeta in *.
    cbn [walked_node walked_pushed walked_next fst snd option_map] in *.
    rewrite keys_eq. unfold key. rewrite Hid, Hident, Hw.
    cbn. split; [lia|]. split; [|reflexivity]. apply Permutation_refl.
  - pose proof (walked_id written (mkNode p (Some l)) nodeId) as Hid.
    pose proof (walked_ident written (mkNode p (Some l)) nodeId) as Hident.
    rewrite processNodeFrom_eq in *. cbv zeta in *.
    pose proof (eachChild_shape (entered written (mkNode p (Some l)) nodeId) IH (S nodeId))
      as (Hnext & Hperm & Hpushed).
    destruct (eachChild processNodeFrom _ l (S nodeId)) as [[cs' pushed] next].
    cbn [walked_node walked_pushed walked_next fst snd option_map] in *.
    rewrite keys_eq. unfold key at 1. rewrite Hid, Hident, Hw.
    unfold size. rewrite nodes_eq, descendants_eq. cbn [elems List.length].
    rewrite numbered_cons. cbn [props app].
    split; [lia|]. split; [|exact Hpushed].
    now apply perm_skip.
Qed.

Lemma plan_keys (root : Node) :
  map key (plan_nodes (createPlan root))
  = keys (walked_node (processNode root 1))
      ++ flat_map keys (walked_pushed (processNode root 1)).
Proof.
  rewrite createPlan_eq. unfold plan_nodes. cbn [content_Plan ctes].
  now rewrite map_app, map_flat_map.
Qed.

Lemma plan_shape (root : Node) :
  Permutation (map key (plan_nodes (createPlan root))) (numbered 1 (nodes root))
  /\ map key (ctes (createPlan root))
     = filter (fun k => isCTE_ident (snd k)) (numbered 2 (descendants root)).
Proof.
  destruct (@walk_shape root (fun p => p) 1) as (_ & Hperm & Hpushed); [now intros p|].
  split; [now rewrite plan_keys|]. now rewrite createPlan_eq.
Qed.

Lemma plan_ids (root : Node) :
  Permutation (map nodeId_of (plan_nodes (createPlan root))) (map Some (seq 1 (size root))).
Proof.
  destruct (plan_shape root) as [Hperm _].
  apply (Permutation_map fst) in Hperm.
  rewrite map_map, numbered_ids in Hperm. exact Hperm.
Qed.

Lemma plan_ids_NoDup (root : Node) : NoDup (map nodeId_of (plan_nodes (createPlan root))).
Proof.
  apply Permutation_NoDup with (l := map Some (seq 1 (size root))).
  - symmetry. apply plan_ids.
  - apply Finite.Injective_map_NoDup; [|apply seq_NoDup]. intros x y H. now injection H.
Qed.

(** ** Node ids (C8) *)

(** C8.  The ids of all the nodes of an enriched plan, those of the main tree
    together with those of the trees moved to [plan.ctes], are the integers 1
    to N, N being the number of nodes of the parsed tree, each once; and the
    node that has id k is the k-th node of the parsed tree in pre-order: the
    (id, identity) pairs of the enriched nodes are those of the parsed nodes
    numbered from 1 in pre-order. *)
Theorem node_ids (root : Node) :
  Permutation (map nodeId_of (plan_nodes (createPlan root))) (map Some (seq 1 (size root)))
  /\ NoDup (map nodeId_of (plan_nodes (createPlan root)))
  /\ List.length (plan_nodes (createPlan root)) = size root
  /\ Permutation (map key (plan_nodes (createPlan root)))
       (combine (map Some (seq 1 (size root))) (map (fun n => ident (props n)) (nodes root))).
Proof.
  split; [apply plan_ids|]. split; [apply plan_ids_NoDup|]. split.
  - pose proof (Permutation_length (plan_ids root)) as H.
    now rewrite !length_map, length_seq in H.
  - apply plan_shape.
Qed.

(** On the plan [ex_ctes]: ids 1 to 5, the two CTEs carrying 2 and 3. *)
Lemma node_ids_example :
  map nodeId_of (nodes (content_Plan (createPlan ex_ctes))) = [Some 1; Some 5]%nat
  /\ map (fun c => map nodeId_of (nodes c)) (ctes (createPlan ex_ctes))
     = [[Some 2; Some 4]; [Some 3]]%nat.
Proof. split; reflexivity. Qed.

(** ** CTE relocation (C5) *)

Lemma prefix_CTE (name : string) :
  String.prefix "CTE " name = true -> String.prefix "CTE" name = true.
Proof.
  revert name.
  assert (step : forall (c : ascii) (s t : string),
             (forall name, String.prefix s name = true -> String.prefix t name = true) ->
             forall name,
               String.prefix (String c s) name = true ->
               String.prefix (String c t) name = true).
  { intros c s t Hst [|b name]; cbn [String.prefix]; [discriminate|].
    destruct (ascii_dec c b); [apply Hst | discriminate]. }
  do 3 apply step. intros name _. now destruct name.
Qed.

Lemma named_CTE_isCTE (n : Node) : named_CTE n -> isCTE (props n) = true.
Proof.
  intros (Hr & name & Hn & Hp). unfold isCTE, relationship_is, startsWith.
  rewrite Hr, Hn, String.eqb_refl. cbn [andb]. now apply prefix_CTE.
Qed.

Lemma children_notCTE (root : Node) :
  Forall (fun n => Forall (fun child => notCTE child = true) (children n))
    (plan_nodes (createPlan root)).
Proof.
  apply plan_all. intros written node nodeId.
  destruct (walked_root written node nodeId) as (pl2 & -> & Hch).
  apply Forall_forall. intros c' Hin. now apply Hch.
Qed.

(** A property of the children of every node holds of every strict
    descendant. *)
Lemma descendants_all (Q : Node -> Prop) (n : Node) :
  Forall (fun m => Forall Q (children m)) (nodes n) -> Forall Q (descendants n).
Proof.
  induction n as [p|p l IH] using Node_nested_ind; [constructor|].
  rewrite nodes_eq, descendants_eq. cbn [elems]. intros H.
  apply Forall_cons_iff in H. destruct H as [Hch Hrest].
  unfold children in Hch. cbn [PLANS elems] in Hch.
  apply (proj1 (Forall_flat_map _ _ _)) in Hrest. apply (proj2 (Forall_flat_map _ _ _)).
  rewrite Forall_forall in *. intros c Hin.
  rewrite nodes_descendants. constructor; [now apply Hch|].
  apply IH; [exact Hin | now apply Hrest].
Qed.

(** C5.  In an enriched plan no node found in a [plans] list of the main
    tree, nor of a tree moved to [plan.ctes], is an InitPlan whose subplan
    name starts with "CTE "; [plan.ctes] lists, in pre-order and with the ids
    they were given, exactly the nodes of the [plans] lists of the parsed tree
    that [isCTE] accepts, one entry each, and [isCTE] accepts every InitPlan
    whose subplan name starts with "CTE "; no id occurs twice among the main
    tree and the moved trees, so a moved node is in one place only. *)
Theorem cte_relocation (root : Node) :
  Forall (fun n => ~ named_CTE n) (descendants (content_Plan (createPlan root)))
  /\ Forall (fun cte => Forall (fun n => ~ named_CTE n) (descendants cte))
       (ctes (createPlan root))
  /\ map key (ctes (createPlan root))
     = filter (fun k => isCTE_ident (snd k))
         (combine (map Some (seq 2 (List.length (descendants root))))
            (map (fun n => ident (props n)) (descendants root)))
  /\ Forall (fun n => named_CTE n -> isCTE_ident (ident (props n)) = true) (descendants root)
  /\ NoDup (map nodeId_of (plan_nodes (createPlan root))).
Proof.
  pose proof (children_notCTE root) as H. unfold plan_nodes in H.
  apply Forall_app in H. destruct H as [Hmain Hctes].
  assert (Hno : forall n, Forall (fun m => Forall (fun c => notCTE c = true) (children m)) (nodes n) ->
                          Forall (fun m => ~ named_CTE m) (descendants n)).
  { intros n Hn. apply descendants_all in Hn. revert Hn. apply Forall_impl.
    intros m Hm Hc. apply named_CTE_isCTE in Hc. unfold notCTE in Hm.
    rewrite Hc in Hm. discriminate. }
  split; [now apply Hno|]. split.
  - apply (proj1 (Forall_flat_map _ _ _)) in Hctes. revert Hctes. apply Forall_impl. exact Hno.
  - split; [apply plan_shape|]. split; [|apply plan_ids_NoDup].
    apply Forall_forall. intros n _. apply named_CTE_isCTE.
Qed.

(** On the plan [ex_ctes]: the nested CTEs "a" and "b" are both moved, the
    plain InitPlan stays. *)
Lemma cte_relocation_example :
  map (fun n => NODE_TYPE (props n)) (nodes (content_Plan (createPlan ex_ctes)))
  = ["CTE Scan on a"; "Result"]%string
  /\ map (fun c => map (fun n => NODE_TYPE (props n)) (nodes c)) (ctes (createPlan ex_ctes))
     = [["Hash Join"; "Seq Scan on u"]; ["Seq Scan on t"]]%string.
Proof. split; reflexivity. Qed.

End PlanShape.

(** * The matcher against its declarative account *)

Module RegexFacts.
Import Regex RegexSpec.

Lemma step_sound (p : N -> bool) (k : mstate -> option mstate) (st : mstate) (res : mstate) :
  step p k st = Some res ->
  exists x a,
    ahead st = x :: a /\ p x = true
    /\ k {| behind := x :: behind st; ahead := a; captures := captures st |} = Some res.
Proof.
  unfold step. destruct (ahead st) as [|x a]; [discriminate|].
  destruct (p x) eqn:E; [|discriminate]. intros H. now exists x, a.
Qed.

Lemma moved_nil (st : mstate) : moved [] st st.
Proof. now split. Qed.

Lemma moved_app (t1 t2 : str) (st st1 st2 : mstate) :
  moved t1 st st1 -> moved t2 st1 st2 -> moved (t1 ++ t2) st st2.
Proof.
  intros [H1 H2] [H3 H4]. split.
  - now rewrite H1, H3, app_assoc.
  - now rewrite H4, H2, rev_app_distr, app_assoc.
Qed.

Lemma moved_one (x : N) (b a : list N) (cs cs' : list (nat * str)) :
  moved [x] {| behind := b; ahead := x :: a; captures := cs |}
    {| behind := x :: b; ahead := a; captures := cs' |}.
Proof. now split. Qed.

Lemma steps_sound (fl : flags) (s : str) :
  forall k st res,
    steps fl s k st = Some res ->
    exists text st', moved text st st' /\ k st' = Some res.
Proof.
  induction s as [|c s IH]; intros k st res H.
  - exists [], st. split; [apply moved_nil | exact H].
  - cbn [steps] in H. apply step_sound in H. destruct H as (x & a & Ha & _ & H).
    apply IH in H. destruct H as (text & st' & Hm & Hk).
    exists (x :: text), st'. split; [|exact Hk].
    destruct st as [b a0 cs]. cbn in Ha. subst a0.
    apply (moved_app (t1 := [x]) (moved_one x b a cs cs) Hm).
Qed.

Section Soundness.

Variable fl : flags.

Lemma iterate_sound (r1 : regex) (greedy : bool) (k : mstate -> option mstate) :
  (forall k st res,
      matcher fl r1 k st = Some res -> exists st', derives fl r1 st st' /\ k st' = Some res) ->
  forall fuel st res,
    iterate (matcher fl r1) greedy k fuel st = Some res ->
    exists st', derives fl (Star greedy r1) st st' /\ k st' = Some res.
Proof.
  intros Hr1. induction fuel as [|fuel IH]; intros st res H; cbn [iterate] in H.
  - exists st. split; [constructor | exact H].
  - assert (Hmore : forall res,
               matcher fl r1
                 (fun st' => if List.length (ahead st') <? List.length (ahead st)
                             then iterate (matcher fl r1) greedy k fuel st'
                             else None) st = Some res ->
               exists st', derives fl (Star greedy r1) st st' /\ k st' = Some res).
    { intros res' H'. apply Hr1 in H'. destruct H' as (st1 & Hd & H').
      destruct (_ <? _); [|discriminate]. apply IH in H'.
      destruct H' as (st' & Hs & Hk). exists st'. split; [|exact Hk].
      now apply d_star_more with st1. }
    destruct greedy.
    + destruct (matcher fl r1 _ st) as [res'|] eqn:E.
      * injection H as <-. now apply Hmore.
      * exists st. split; [constructor | exact H].
    + destruct (k st) as [res'|] eqn:E.
      * injection H as <-. exists st. split; [constructor | exact E].
      * now apply Hmore.
Qed.

(** Whatever the matcher returns is a derivation followed by what the
    continuation accepts. *)
Theorem matcher_sound (r : regex) :
  forall k st res,
    matcher fl r k st = Some res -> exists st', derives fl r st st' /\ k st' = Some res.
Proof.
  induction r as [|c|p| | |r1 IH1 r2 IH2|r1 IH1 r2 IH2|greedy r1 IH1|i r1 IH1|i];
    intros k st res H; cbn [matcher] in H.
  - exists st. split; [constructor | exact H].
  - apply step_sound in H. destruct H as (x & a & Ha & Hx & H).
    destruct st as [b a0 cs]. cbn in *. subst a0. eexists. split; [|exact H].
    now constructor.
  - apply step_sound in H. destruct H as (x & a & Ha & Hx & H).
    destruct st as [b a0 cs]. cbn in *. subst a0. eexists. split; [|exact H].
    now constructor.
  - destruct (at_bol fl st) eqn:E; [|discriminate]. exists st. split; [now constructor | exact H].
  - destruct (at_eol fl st) eqn:E; [|discriminate]. exists st. split; [now constructor | exact H].
  - apply IH1 in H. destruct H as (st1 & H1 & H). apply IH2 in H.
    destruct H as (st2 & H2 & H). exists st2. split; [now apply d_seq with st1 | exact H].
  - destruct (matcher fl r1 k st) as [res'|] eqn:E.
    + injection H as <-. apply IH1 in E. destruct E as (st' & Hd & Hk).
      exists st'. split; [now apply d_alt_l | exact Hk].
    + apply IH2 in H. destruct H as (st' & Hd & Hk).
      exists st'. split; [now apply d_alt_r | exact Hk].
  - now apply iterate_sound in H.
  - apply IH1 in H. destruct H as (st' & Hd & Hk).
    eexists. split; [apply d_grp; exact Hd | exact Hk].
  - destruct (capture i st) as [s|].
    + apply steps_sound in H. destruct H as (text & st' & Hm & Hk).
      exists st'. split; [now apply d_ref with text | exact Hk].
    + exists st. split; [apply d_ref with []; apply moved_nil | exact H].
Qed.

(** A derivation moves forward over some text. *)
Lemma derives_moved (r : regex) (st st' : mstate) :
  derives fl r st st' -> exists text, moved text st st'.
Proof.
  induction 1 as [st|c x b a cs Hx|p x b a cs Hx|st Hb|st He
                 |r1 r2 st st1 st2 _ IH1 _ IH2|r1 r2 st st' _ IH|r1 r2 st st' _ IH
                 |greedy r st|greedy r st st1 st2 _ IH1 _ IH2|i r st st' _ IH|i text st st' Hm].
  - exists []. apply moved_nil.
  - exists [x]. apply moved_one.
  - exists [x]. apply moved_one.
  - exists []. apply moved_nil.
  - exists []. apply moved_nil.
  - destruct IH1 as [t1 H1]. destruct IH2 as [t2 H2]. exists (t1 ++ t2).
    now apply moved_app with st1.
  - exact IH.
  - exact IH.
  - exists []. apply moved_nil.
  - destruct IH1 as [t1 H1]. destruct IH2 as [t2 H2]. exists (t1 ++ t2).
    now apply moved_app with st1.
  - destruct IH as [t H]. exists t. exact H.
  - now exists text.
Qed.

(** A derivation either consumes nothing, over a pattern that can match the
    empty text, or starts with a code unit of the pattern's first set. *)
Lemma first_sound (r : regex) (st st' : mstate) :
  derives fl r st st' ->
  (nullable r = true /\ ahead st' = ahead st)
  \/ exists x a, ahead st = x :: a /\ first fl r x = true.
Proof.
  induction 1 as [st|c x b a cs Hx|p x b a cs Hx|st Hb|st He
                 |r1 r2 st st1 st2 _ IH1 _ IH2|r1 r2 st st' _ IH|r1 r2 st st' _ IH
                 |greedy r st|greedy r st st1 st2 _ IH1 _ IH2|i r st st' _ IH|i text st st' Hm];
    cbn [nullable first ahead].
  - now left.
  - right. now exists x, a.
  - right. now exists x, a.
  - now left.
  - now left.
  - destruct IH1 as [[N1 E1]|(x & a & E1 & F1)].
    + destruct IH2 as [[N2 E2]|(x & a & E2 & F2)].
      * left. rewrite N1, N2, E2, E1. now split.
      * right. exists x, a. rewrite <- E1, N1, F2. split; [exact E2|]. apply orb_true_r.
    + right. exists x, a. now rewrite F1.
  - destruct IH as [[N1 E1]|(x & a & E1 & F1)].
    + left. now rewrite N1.
    + right. exists x, a. now rewrite F1.
  - destruct IH as [[N1 E1]|(x & a & E1 & F1)].
    + left. rewrite N1. split; [apply orb_true_r | exact E1].
    + right. exists x, a. rewrite F1. split; [exact E1 | apply orb_true_r].
  - now left.
  - destruct IH1 as [[N1 E1]|(x & a & E1 & F1)].
    + destruct IH2 as [[N2 E2]|(x & a & E2 & F2)].
      * left. split; [reflexivity | congruence].
      * right. exists x, a. split; [congruence | exact F2].
    + right. now exists x, a.
  - exact IH.
  - destruct Hm as [Ha _]. destruct text as [|x text].
    + left. now split.
    + right. now exists x, (text ++ ahead st').
Qed.

(** *** Searching and replacing where nothing matches *)

Lemma search_None (r : regex) (after : str) :
  forall passed before,
    (forall mid after' st',
        after = mid ++ after' ->
        ~ derives fl r {| behind := rev mid ++ before; ahead := after'; captures := [] |} st') ->
    search_from fl r passed before after = None.
Proof.
  induction after as [|c after IH]; intros passed before Hno; cbn [search_from].
  - destruct (matcher fl r Some _) as [st'|] eqn:E; [|reflexivity].
    apply matcher_sound in E. destruct E as (st'' & Hd & _).
    exfalso. now apply (Hno [] [] st'').
  - destruct (matcher fl r Some _) as [st'|] eqn:E.
    + apply matcher_sound in E. destruct E as (st'' & Hd & _).
      exfalso. now apply (Hno [] (c :: after) st'').
    + apply IH. intros mid after' st' -> Hd.
      apply (Hno (c :: mid) after' st'); [reflexivity|].
      cbn [rev]. now rewrite <- app_assoc.
Qed.

Lemma exec_None (r : regex) (s : str) : no_match fl r s -> exec fl r s = None.
Proof.
  intros Hno. apply search_None. intros mid after' st' -> Hd.
  rewrite app_nil_r in Hd. now apply (Hno mid after' st').
Qed.

Lemma replace_no_match (r : regex) (template : list piece) (s : str) :
  no_match fl r s -> replace fl r template s = s.
Proof. intros Hno. unfold replace. now rewrite exec_None. Qed.

Lemma replace_all_no_match (r : regex) (template : list piece) (s : str) :
  no_match fl r s -> replace_all fl r template s = s.
Proof.
  intros Hno. unfold replace_all. cbn [replace_from].
  fold (exec fl r s). now rewrite exec_None.
Qed.

End Soundness.

(** *** Inverting derivations *)

Lemma derives_seq (fl : flags) (r1 r2 : regex) (st st2 : mstate) :
  derives fl (Seq r1 r2) st st2 ->
  exists st1, derives fl r1 st st1 /\ derives fl r2 st1 st2.
Proof. inversion 1; subst. now exists st1. Qed.

Lemma derives_chr (fl : flags) (c : N) (st st' : mstate) :
  ignoreCase fl = false -> derives fl (Chr c) st st' -> ahead st = c :: ahead st'.
Proof.
  intros Hi. inversion 1; subst. cbn. unfold canonicalize in *. rewrite Hi in *.
  cbn in *. f_equal. now apply N.eqb_eq.
Qed.

Lemma derives_bol (fl : flags) (st st' : mstate) :
  derives fl Bol st st' -> st' = st /\ at_bol fl st = true.
Proof. inversion 1; subst. now split. Qed.

Lemma derives_word (fl : flags) (w : str) :
  ignoreCase fl = false ->
  forall st st',
    derives fl (fold_right (fun c r => Seq (Chr c) r) Eps w) st st' ->
    ahead st = w ++ ahead st'.
Proof.
  intros Hi. induction w as [|c w IH]; intros st st' H; cbn [fold_right] in H.
  - inversion H; subst. reflexivity.
  - apply derives_seq in H. destruct H as (st1 & H1 & H2).
    apply (derives_chr Hi) in H1. apply IH in H2. now rewrite H1, H2.
Qed.

End RegexFacts.

(** * Source cleanup (C4) *)

Module CleanupFacts.
Import Regex RegexSpec RegexFacts Cleanup CleanupSpec.

Lemma isPrefix_app (w post : str) : JSLib.isPrefix w (w ++ post) = true.
Proof. induction w as [|c w IH]; [reflexivity|]. cbn. now rewrite N.eqb_refl, IH. Qed.

Lemma includes_app (w pre post : str) : JSLib.includes w (pre ++ w ++ post) = true.
Proof.
  induction pre as [|c pre IH].
  - cbn [app]. destruct (w ++ post) eqn:E; cbn [JSLib.includes];
      rewrite <- E, isPrefix_app; reflexivity.
  - cbn [app JSLib.includes]. rewrite IH. apply orb_true_r.
Qed.

(** Where a line starts in a source without triggers at its line starts, no
    trigger stands. *)
Lemma starts_ok_split (before : str) :
  forall (b : bool) (rest : str),
    starts_ok b (before ++ rest) = true ->
    starts_ok match rev before with
              | [] => b
              | c :: _ => isLineTerminator c
              end rest = true.
Proof.
  induction before as [|c before IH]; intros b rest H; [exact H|].
  cbn [app starts_ok] in H. apply andb_true_iff in H. destruct H as [_ H].
  apply IH in H. cbn [rev].
  destruct (rev before) as [|d l]; exact H.
Qed.

Lemma starts_ok_at (s : str) :
  starts_ok true s = true ->
  forall before x after,
    s = before ++ x :: after ->
    at_bol flag_m {| behind := rev before; ahead := x :: after; captures := [] |} = true ->
    trigger x = false.
Proof.
  intros Hs before x after ->.
  apply starts_ok_split in Hs.
  unfold at_bol. cbn [behind multiline flag_m andb]. intros Hb.
  cbn [starts_ok] in Hs. apply andb_true_iff in Hs. destruct Hs as [H _].
  destruct (rev before) as [|c l]; [|rewrite Hb in H]; now apply negb_true_iff in H.
Qed.

Lemma derives_alt (fl : flags) (r1 r2 : regex) (st st' : mstate) :
  derives fl (Alt r1 r2) st st' -> derives fl r1 st st' \/ derives fl r2 st st'.
Proof. inversion 1; subst; auto. Qed.

Lemma derives_eps (fl : flags) (st st' : mstate) : derives fl Eps st st' -> st' = st.
Proof. now inversion 1. Qed.

Lemma derives_newline (fl : flags) (st st' : mstate) :
  ignoreCase fl = false ->
  derives fl newline st st' ->
  ahead st = LF :: ahead st' \/ ahead st = CR :: LF :: ahead st'.
Proof.
  intros Hi H. unfold newline, Opt in H.
  apply derives_seq in H. destruct H as (st1 & H1 & H2).
  apply (derives_chr Hi) in H2.
  apply derives_alt in H1. destruct H1 as [H1|H1].
  - apply (derives_chr Hi) in H1. right. now rewrite H1, H2.
  - apply derives_eps in H1. subst st1. now left.
Qed.

Section Clean.

Variable s : str.
Hypothesis Hclean : clean s = true.

Lemma clean_starts : starts_ok true s = true.
Proof. unfold clean in Hclean. now repeat (apply andb_true_iff in Hclean; destruct Hclean as [Hclean ?]). Qed.

Lemma clean_excludes (w : str) :
  In w [[plus_sign; LF]; [plus_sign; CR; LF]; [return_symbol]; lit "QUERY PLAN"] ->
  forall pre post, s <> pre ++ w ++ post.
Proof.
  intros Hw pre post E.
  assert (Hi : JSLib.includes w s = true) by (rewrite E; apply includes_app).
  unfold clean in Hclean.
  repeat (apply andb_true_iff in Hclean; destruct Hclean as [Hclean ?]).
  repeat match goal with H : negb _ = true |- _ => apply negb_true_iff in H end.
  cbn [In] in Hw. intuition (subst; congruence).
Qed.

(** An anchored pattern whose body must start with a trigger matches
    nowhere. *)
Lemma anchored_no_match (body : regex) :
  nullable body = false ->
  (forall x, first flag_m body x = true -> trigger x = true) ->
  no_match flag_m (Seq Bol body) s.
Proof.
  intros Hn Hf before after st' E H.
  apply derives_seq in H. destruct H as (st1 & H1 & H2).
  apply derives_bol in H1. destruct H1 as [-> Hb].
  apply first_sound in H2. destruct H2 as [[N _]|(x & a & Ha & Hx)]; [congruence|].
  cbn [ahead] in Ha. subst after. apply Hf in Hx.
  rewrite (starts_ok_at clean_starts before x a E Hb) in Hx. discriminate.
Qed.

(** The first sets of the anchored patterns lie within the triggers. *)
Ltac anchored :=
  cbv beta delta [frame ascii_rule dash_rule middle_rule border quoted rowcount Seqs fold_right];
  apply anchored_no_match;
  [ reflexivity
  | intros x; unfold trigger; cbn -[N.eqb];
    rewrite ?orb_false_r; rewrite ?orb_true_iff; tauto ].

Lemma no_frame : no_match flag_m frame s.
Proof. anchored. Qed.

Lemma no_ascii_rule : no_match flag_m ascii_rule s.
Proof. anchored. Qed.

Lemma no_dash_rule : no_match flag_m dash_rule s.
Proof. anchored. Qed.

Lemma no_middle_rule : no_match flag_m middle_rule s.
Proof. anchored. Qed.

Lemma no_border (left horizontal right : N) :
  trigger left = true -> no_match flag_m (border left horizontal right) s.
Proof.
  intros Hl.
  cbv beta delta [border Seqs fold_right]. apply anchored_no_match; [reflexivity|].
  intros x. cbn -[N.eqb]. rewrite orb_false_r. intros E. apply N.eqb_eq in E. now subst x.
Qed.

Lemma no_quoted : no_match flag_m quoted s.
Proof. anchored. Qed.

Lemma no_rowcount : no_match flag_m rowcount s.
Proof. anchored. Qed.

Lemma no_plus_continuation : no_match no_flags plus_continuation s.
Proof.
  intros before after st' E H. unfold plus_continuation in H. cbn [Seqs fold_right] in H.
  apply derives_seq in H. destruct H as (st1 & H1 & H).
  apply derives_seq in H. destruct H as (st2 & H2 & H).
  apply derives_seq in H. destruct H as (st3 & H3 & _).
  apply derives_moved in H1. destruct H1 as (text & Ht & _). cbn [ahead] in Ht.
  apply (derives_chr (fl := no_flags) eq_refl) in H2.
  apply (derives_newline (fl := no_flags) eq_refl) in H3.
  rewrite Ht, H2 in E.
  destruct H3 as [H3|H3]; rewrite H3 in E.
  - apply (@clean_excludes [plus_sign; LF]) with (pre := before ++ text) (post := ahead st3);
      [cbn; tauto|].
    rewrite E, <- app_assoc. reflexivity.
  - apply (@clean_excludes [plus_sign; CR; LF]) with (pre := before ++ text)
                                                    (post := ahead st3);
      [cbn; tauto|].
    rewrite E, <- app_assoc. reflexivity.
Qed.

Lemma no_return_continuation : no_match flag_m return_continuation s.
Proof.
  intros before after st' E H. unfold return_continuation in H.
  apply derives_seq in H. destruct H as (st1 & H1 & _).
  apply (derives_chr (fl := flag_m) eq_refl) in H1. cbn [ahead] in H1. rewrite H1 in E.
  apply (@clean_excludes [return_symbol]) with (pre := before) (post := ahead st1);
    [cbn; tauto | exact E].
Qed.

Lemma no_header : no_match flag_m header s.
Proof.
  intros before after st' E H. unfold header in H. cbn [Seqs fold_right] in H.
  apply derives_seq in H. destruct H as (st1 & H1 & H).
  apply derives_bol in H1. destruct H1 as [-> _].
  apply derives_seq in H. destruct H as (st2 & H2 & H).
  apply derives_seq in H. destruct H as (st3 & H3 & _).
  apply derives_moved in H2. destruct H2 as (text & Ht & _). cbn [ahead] in Ht.
  apply (derives_word (fl := flag_m) (lit "QUERY PLAN") eq_refl) in H3.
  rewrite Ht, H3 in E.
  apply (@clean_excludes (lit "QUERY PLAN")) with (pre := before ++ text)
                                                  (post := ahead st3);
    [cbn; tauto|].
  rewrite E, <- app_assoc. reflexivity.
Qed.

(** A source with nothing left to strip is a fixed point. *)
Lemma cleanup_fixed : cleanupSource s = s.
Proof.
  unfold cleanupSource.
  rewrite (replace_all_no_match _ no_frame).
  rewrite (replace_all_no_match _ no_ascii_rule).
  rewrite (replace_all_no_match _ no_dash_rule).
  rewrite (replace_all_no_match _ no_middle_rule).
  rewrite (replace_all_no_match _ no_ascii_rule).
  rewrite (replace_all_no_match _
             (@no_border box_light_up_right box_light_horizontal box_light_up_left eq_refl)).
  rewrite (replace_all_no_match _
             (@no_border box_double_up_right box_double_horizontal box_double_up_left eq_refl)).
  rewrite (replace_all_no_match _
             (@no_border box_light_down_right box_light_horizontal box_light_down_left
                eq_refl)).
  rewrite (replace_all_no_match _
             (@no_border box_double_down_right box_double_horizontal box_double_down_left
                eq_refl)).
  rewrite (replace_all_no_match _ no_quoted).
  rewrite (replace_all_no_match _ no_plus_continuation).
  rewrite (replace_all_no_match _ no_return_continuation).
  rewrite (replace_no_match _ no_header).
  apply (replace_all_no_match _ no_rowcount).
Qed.

End Clean.

Unset Implicit Arguments.

(** C4 as stated fails: a second pass strips the inner frame that the first
    pass uncovered. *)
Lemma cleanup_twice_strips_more :
  cleanupSource ex_nested_frames = line "|a|"
  /\ cleanupSource (cleanupSource ex_nested_frames) = line "a".
Proof. split; vm_compute; reflexivity. Qed.

(** C4, as the code has it.  [cleanupSource] is idempotent on a source whose
    cleaned form has nothing left to strip (no line of it starts with a bar,
    a plus or minus sign, a horizontal, a left tee or corner, a quote or an
    opening parenthesis, no plus sign stands directly before a line end, and
    neither the return symbol nor QUERY PLAN occurs in it): a source in that
    form is left as it is. *)
Theorem cleanup_idempotent_when_clean (s : str) :
  clean (cleanupSource s) = true ->
  cleanupSource (cleanupSource s) = cleanupSource s.
Proof. intros Hclean; exact (cleanup_fixed (cleanupSource s) Hclean). Qed.

Lemma cleanup_idempotent_witness :
  clean (cleanupSource ex_framed_plan) = true
  /\ cleanupSource ex_framed_plan
     = line " Seq Scan on t  (cost=0.00..1.00 rows=1 width=4) " ++ [LF]
  /\ cleanupSource (cleanupSource ex_framed_plan) = cleanupSource ex_framed_plan.
Proof.
  split; [vm_compute; reflexivity|]. split; [vm_compute; reflexivity|].
  apply cleanup_idempotent_when_clean. vm_compute. reflexivity.
Defined.

End CleanupFacts.

(** * Strings, keys and the store *)

Module StoreFacts.
Import Regex Store.

Unset Implicit Arguments.

(** *** Strings and keys *)

Lemma str_eqb_eq (a b : str) : str_eqb a b = true <-> a = b.
Proof.
  unfold str_eqb. revert b.
  induction a as [|x a IH]; intros [|y b]; cbn [List.length combine forallb Nat.eqb fst snd];
    try (split; [reflexivity || discriminate | reflexivity || discriminate]).
  specialize (IH b). rewrite andb_true_iff in IH.
  rewrite !andb_true_iff, N.eqb_eq. split.
  - intros (Hl & Hx & Hf). f_equal; tauto.
  - intros E. injection E as -> ->. tauto.
Qed.

Lemma str_eqb_refl (a : str) : str_eqb a a = true.
Proof. now apply str_eqb_eq. Qed.

Lemma str_eqb_neq (a b : str) : a <> b -> str_eqb a b = false.
Proof.
  intros N. destruct (str_eqb a b) eqn:E; [|reflexivity]. now apply str_eqb_eq in E.
Qed.

Lemma keys_single (k : str) (v : value) : keys (Obj [(k, v)]) = [k].
Proof. cbn. now destruct (array_index k). Qed.

Lemma assoc_absent (k : str) (ps : list (str * value)) :
  ~ In k (map fst ps) -> assoc k ps = None.
Proof.
  induction ps as [|[k' v] ps IH]; [reflexivity|]. cbn. intros H.
  rewrite str_eqb_neq by tauto. apply IH. tauto.
Qed.

Lemma assign_absent (k : str) (v : value) (ps : list (str * value)) :
  ~ In k (map fst ps) -> assign k v ps = ps ++ [(k, v)].
Proof.
  induction ps as [|[k' v'] ps IH]; [reflexivity|]. cbn. intros H.
  rewrite str_eqb_neq by tauto. f_equal. apply IH. tauto.
Qed.

Lemma assign_last (k : str) (v v' : value) (ps : list (str * value)) :
  ~ In k (map fst ps) -> assign k v (ps ++ [(k, v')]) = ps ++ [(k, v)].
Proof.
  induction ps as [|[k' w] ps IH]; cbn; intros H.
  - now rewrite str_eqb_refl.
  - rewrite str_eqb_neq by tauto. f_equal. apply IH. tauto.
Qed.

Lemma absent_key (k : str) (ks : list str) : ~ In k ks -> existsb (str_eqb k) ks = false.
Proof.
  induction ks as [|k' ks IH]; [reflexivity|]. cbn. intros H.
  rewrite str_eqb_neq by (intros E; apply H; left; now symmetry). apply IH. tauto.
Qed.

(** *** The store *)

Lemma update_length {A : Type} (i : nat) (x : A) (l : list A) :
  List.length (update i x l) = List.length l.
Proof. revert i. induction l as [|y l IH]; intros [|i]; cbn; auto. Qed.

Lemma lookup_update (h : store) (l : nat) (o : object) :
  (l < List.length h)%nat -> lookup (update l o h) l = Some o.
Proof.
  unfold lookup. revert l. induction h as [|y h IH]; intros [|l]; cbn; intros H;
    try lia; [reflexivity|]. apply IH. lia.
Qed.

Lemma lookup_update_other (h : store) (l l' : nat) (o : object) :
  l <> l' -> lookup (update l o h) l' = lookup h l'.
Proof.
  unfold lookup. revert l l'. induction h as [|y h IH]; intros [|l] [|l'] N; cbn;
    try reflexivity; try congruence. apply IH. congruence.
Qed.

Lemma update_update {A : Type} (i : nat) (x y : A) (l : list A) :
  update i x (update i y l) = update i x l.
Proof. revert i. induction l as [|z l IH]; intros [|i]; cbn; congruence. Qed.

Lemma update_same (h : store) (l : nat) (o : object) :
  lookup h l = Some o -> update l o h = h.
Proof.
  unfold lookup. revert l. induction h as [|y h IH]; intros [|l]; cbn; intros H;
    try congruence. f_equal. now apply IH.
Qed.

Lemma lookup_lt (h : store) (l : nat) (o : object) :
  lookup h l = Some o -> (l < List.length h)%nat.
Proof. intros H. apply nth_error_Some. unfold lookup in H. congruence. Qed.

Lemma lookup_alloc (h : store) (o : object) : lookup (h ++ [o]) (List.length h) = Some o.
Proof. unfold lookup. rewrite nth_error_app2 by lia. now rewrite Nat.sub_diag. Qed.

Lemma update_alloc (h : store) (o o' : object) :
  update (List.length h) o' (h ++ [o]) = h ++ [o'].
Proof. induction h as [|y h IH]; cbn; congruence. Qed.

Lemma modify_at (h : store) (l : nat) (o o' : object) (f : object -> outcome object) :
  lookup h l = Some o -> f o = Ok o' -> modify h l f = Ok (update l o' h).
Proof. intros Hl Hf. unfold modify. now rewrite Hl, Hf. Qed.

Lemma assoc_assign (key : str) (v : value) (ps : list (str * value)) :
  assoc key (assign key v ps) = Some v.
Proof.
  induction ps as [|[k w] ps IH]; cbn [assign assoc].
  - now rewrite str_eqb_refl.
  - destruct (str_eqb k key) eqn:E; cbn [assoc]; now rewrite E.
Qed.

Lemma assoc_assign_other (key key' : str) (v : value) (ps : list (str * value)) :
  key' <> key -> assoc key (assign key' v ps) = assoc key ps.
Proof.
  intros N. induction ps as [|[k w] ps IH]; cbn [assign assoc].
  - now rewrite (str_eqb_neq _ _ N).
  - destruct (str_eqb k key') eqn:E; cbn [assoc].
    + apply str_eqb_eq in E. subst k. now rewrite (str_eqb_neq _ _ N).
    + now rewrite IH.
Qed.

Lemma lookup_app_l (h h' : store) (l : nat) (o : object) :
  lookup h l = Some o -> lookup (h ++ h') l = Some o.
Proof.
  intros Hl. unfold lookup in *. rewrite nth_error_app1; [exact Hl|].
  apply nth_error_Some. congruence.
Qed.

End StoreFacts.
(** * The tolerant JSON parser (C6) *)

Module JsonFacts.
Import Regex Store Json JsonSpec JsonShape StoreFacts.

Unset Implicit Arguments.
Local Open Scope nat_scope.

(** *** Keys and members *)

Lemma usable_index (k : str) : usable k = true -> array_index k = None.
Proof. unfold usable. now destruct (array_index k). Qed.

Lemma usable_proto (k : str) : usable k = true -> str_eqb k proto = false.
Proof.
  unfold usable. destruct (array_index k); [discriminate|].
  now destruct (str_eqb k proto).
Qed.

Lemma keys_plain (ps : list (str * value)) :
  Forall (fun p => array_index (fst p) = None) ps -> keys (Obj ps) = map fst ps.
Proof.
  intros H. unfold keys.
  assert (E1 : fold_right
                 (fun p acc =>
                    match array_index (fst p) with
                    | Some i => insert_sorted (i, fst p) acc
                    | None => acc
                    end) [] ps = []).
  { induction H as [|p ps Hp _ IH]; [reflexivity|]. cbn [fold_right]. rewrite Hp. exact IH. }
  rewrite E1. cbn [map app]. clear E1.
  induction H as [|p ps Hp _ IH]; [reflexivity|]. cbn [filter]. rewrite Hp. cbn [map].
  now f_equal.
Qed.

Lemma assoc_entry (k : str) (ps : list (str * value)) : assoc k ps = entry k ps.
Proof.
  induction ps as [|[k' v] ps IH]; [reflexivity|]. cbn [assoc entry fst snd].
  now rewrite IH.
Qed.

Lemma assign_put (k : str) (v : value) (ps : list (str * value)) : assign k v ps = put k v ps.
Proof.
  induction ps as [|[k' v'] ps IH]; [reflexivity|]. cbn [assign put fst snd].
  now rewrite IH.
Qed.

Lemma entry_map {A B : Type} (f : A -> B) (k : str) (ms : list (str * A)) :
  entry k (map (fun m => (fst m, f (snd m))) ms) = option_map f (entry k ms).
Proof.
  induction ms as [|m ms IH]; [reflexivity|]. cbn [map entry fst snd].
  now destruct (str_eqb (fst m) k).
Qed.

Lemma put_map {A B : Type} (f : A -> B) (k : str) (x : A) (ms : list (str * A)) :
  put k (f x) (map (fun m => (fst m, f (snd m))) ms)
  = map (fun m => (fst m, f (snd m))) (put k x ms).
Proof.
  induction ms as [|m ms IH]; [reflexivity|]. cbn [map put fst snd].
  destruct (str_eqb (fst m) k); cbn [map fst snd]; [reflexivity | now rewrite IH].
Qed.

Lemma entry_absent {A : Type} (k : str) (ms : list (str * A)) :
  entry k ms = None <-> ~ In k (map fst ms).
Proof.
  induction ms as [|m ms IH]; cbn [entry map In]; [tauto|].
  destruct (str_eqb (fst m) k) eqn:E.
  - apply str_eqb_eq in E. split; [discriminate | tauto].
  - assert (fst m <> k) by (intros H; apply str_eqb_eq in H; congruence). tauto.
Qed.

Lemma put_absent {A : Type} (k : str) (x : A) (ms : list (str * A)) :
  entry k ms = None -> put k x ms = ms ++ [(k, x)].
Proof.
  induction ms as [|m ms IH]; [reflexivity|]. cbn [entry put].
  destruct (str_eqb (fst m) k); [discriminate|]. intros H. cbn [app]. now rewrite IH.
Qed.

(** Where the key is held, [put] changes the value there. *)
Lemma put_present {A : Type} (k : str) (x d : A) (ms : list (str * A)) :
  entry k ms = Some d ->
  exists before after,
    ms = before ++ (k, d) :: after /\ put k x ms = before ++ (k, x) :: after.
Proof.
  induction ms as [|m ms IH]; [discriminate|]. cbn [entry put].
  destruct (str_eqb (fst m) k) eqn:E.
  - intros H. injection H as <-. apply str_eqb_eq in E. subst k.
    exists [], ms. destruct m. now split.
  - intros H. destruct (IH H) as (before & after & E1 & E2).
    exists (m :: before), after. cbn [app]. now rewrite <- E1, E2.
Qed.

Lemma put_same {A : Type} (k : str) (d : A) (ms : list (str * A)) :
  entry k ms = Some d -> put k d ms = ms.
Proof.
  intros H. destruct (put_present k d d ms H) as (before & after & E1 & E2). congruence.
Qed.

Lemma flat_map_snd {A B C : Type} (f : B -> list C) (ms : list (A * B)) :
  flat_map (fun m => f (snd m)) ms = flat_map f (map snd ms).
Proof. induction ms as [|m ms IH]; [reflexivity|]. cbn. now rewrite IH. Qed.

Lemma length_flat_map_In {A B : Type} (f : A -> list B) (x : A) (l : list A) :
  In x l -> List.length (f x) <= List.length (flat_map f l).
Proof.
  induction l as [|y l IH]; [intros []|]. cbn [flat_map]. rewrite length_app.
  intros [->|H]; [lia | specialize (IH H); lia].
Qed.

(** *** Trees in the store *)

Lemma cells_parts (t : ltree) :
  value_at t = VRef (top t) -> cells t = (top t, cell t) :: flat_map cells (parts t).
Proof.
  destruct t as [a|l items|l ms]; cbn [value_at top cells parts cell].
  - destruct a; discriminate.
  - reflexivity.
  - intros _. now rewrite flat_map_snd.
Qed.

Lemma locs_parts (t : ltree) :
  value_at t = VRef (top t) -> locs t = top t :: flat_map locs (parts t).
Proof.
  intros H. unfold locs. rewrite (cells_parts t H). cbn [map fst]. f_equal.
  induction (parts t) as [|x l IH]; [reflexivity|]. cbn [flat_map]. now rewrite map_app, IH.
Qed.

Lemma holds_all (h : store) (ts : list ltree) :
  Forall (holds h) ts <-> Forall (fun c => lookup h (fst c) = Some (snd c)) (flat_map cells ts).
Proof.
  unfold holds. induction ts as [|t ts IH]; cbn [flat_map].
  - split; constructor.
  - rewrite Forall_app, <- IH. split.
    + intros H. inversion H. tauto.
    + intros [H1 H2]. now constructor.
Qed.

Lemma holds_parts (h : store) (t : ltree) :
  value_at t = VRef (top t) ->
  holds h t <-> lookup h (top t) = Some (cell t) /\ Forall (holds h) (parts t).
Proof.
  intros H. unfold holds at 1. rewrite (cells_parts t H), holds_all. split.
  - intros H'. inversion H'. tauto.
  - intros [H1 H2]. now constructor.
Qed.

Lemma holds_leaf (h : store) (a : atom) : holds h (LLeaf a).
Proof. constructor. Qed.

Lemma holds_lt (h : store) (t : ltree) (i : nat) :
  holds h t -> In i (locs t) -> i < List.length h.
Proof.
  unfold holds, locs. intros H Hin. apply in_map_iff in Hin. destruct Hin as (c & <- & Hc).
  rewrite Forall_forall in H. eapply lookup_lt. now apply H.
Qed.

(** A store that agrees with [h] on the locations of a tree holds it
    too. *)
Lemma holds_frame (h h' : store) (t : ltree) :
  holds h t -> (forall i, In i (locs t) -> lookup h' i = lookup h i) -> holds h' t.
Proof.
  unfold holds, locs. rewrite !Forall_forall. intros H Hsame c Hc.
  rewrite Hsame; [now apply H|]. apply in_map_iff. now exists c.
Qed.

Lemma holds_size (h : store) (t : ltree) :
  holds h t -> NoDup (locs t) -> List.length (locs t) <= List.length h.
Proof.
  intros H Hnd.
  assert (Hincl : incl (locs t) (seq 0 (List.length h))).
  { intros i Hi. apply in_seq. pose proof (holds_lt h t i H Hi). lia. }
  pose proof (NoDup_incl_length Hnd Hincl) as Hle. now rewrite length_seq in Hle.
Qed.

Lemma part_locs (t x : ltree) (i : nat) :
  value_at t = VRef (top t) -> In x (parts t) -> In i (locs x) -> In i (locs t).
Proof.
  intros H Hx Hi. rewrite (locs_parts t H). right. apply in_flat_map. now exists x.
Qed.

Lemma part_size (t x : ltree) :
  value_at t = VRef (top t) -> In x (parts t) -> List.length (locs x) < List.length (locs t).
Proof.
  intros H Hx. rewrite (locs_parts t H). cbn [List.length].
  pose proof (length_flat_map_In locs x (parts t) Hx). lia.
Qed.

(** *** Reading a tree off the store *)

Lemma reify_all (fuel : nat) (h : store) (ts : list ltree) :
  Forall (fun t => reify fuel h (value_at t) = Some (erase t)) ts ->
  fold_right
    (fun v acc =>
       match reify fuel h v, acc with
       | Some t, Some ts => Some (t :: ts)
       | _, _ => None
       end)
    (Some []) (map value_at ts)
  = Some (map erase ts).
Proof.
  induction 1 as [|t ts Ht _ IH]; [reflexivity|]. cbn [map fold_right]. now rewrite IH, Ht.
Qed.

Lemma reify_holds (fuel : nat) :
  forall (h : store) (t : ltree),
    holds h t -> List.length (locs t) < fuel -> reify fuel h (value_at t) = Some (erase t).
Proof.
  induction fuel as [|fuel IH]; intros h t Hh Hsize; [lia|].
  destruct t as [a|l items|l ms].
  - now destruct a.
  - apply (holds_parts h (LArr l items) eq_refl) in Hh. destruct Hh as [Hl Hparts].
    cbn [value_at top cell parts] in *. cbn [reify]. rewrite Hl.
    rewrite (reify_all fuel h items); [reflexivity|].
    rewrite Forall_forall in *. intros x Hx. apply IH; [now apply Hparts|].
    pose proof (part_size (LArr l items) x eq_refl Hx). lia.
  - apply (holds_parts h (LObj l ms) eq_refl) in Hh. destruct Hh as [Hl Hparts].
    cbn [value_at top cell parts] in *. cbn [reify]. rewrite Hl.
    rewrite !map_map. cbn [fst snd].
    rewrite <- (map_map snd value_at).
    rewrite (reify_all fuel h (map snd ms)).
    + cbn [option_map erase]. do 2 f_equal. clear.
      induction ms as [|m ms IH]; [reflexivity|]. cbn. now rewrite IH.
    + rewrite Forall_forall in *. intros x Hx. apply IH; [now apply Hparts|].
      pose proof (part_size (LObj l ms) x eq_refl Hx). lia.
Qed.

(** What [tree_of] makes of a tree that lies in the store. *)
Lemma tree_of_holds (h : store) (t : ltree) :
  holds h t -> NoDup (locs t) -> tree_of h (value_at t) = Some (erase t).
Proof.
  intros H Hnd. unfold tree_of. apply reify_holds; [exact H|].
  pose proof (holds_size h t H Hnd). lia.
Qed.

(** *** The keys of an array *)

Lemma isDigit_digit (d : N) : (d < 10)%N -> isDigit (48 + d) = true.
Proof.
  intros H. unfold isDigit. apply andb_true_iff. split; apply N.leb_le; lia.
Qed.

Lemma decimal_from_spec (fuel : nat) :
  forall (n : N) (acc : str),
    (n < 2 ^ N.of_nat (S fuel))%N ->
    exists ds,
      decimal_from (S fuel) n acc = ds ++ acc
      /\ forallb isDigit ds = true
      /\ number_of_digits ds = n
      /\ (forall k, (n < 10 ^ N.of_nat (S k))%N -> List.length ds <= S k)
      /\ match ds with
         | c :: rest => (c = 48%N -> n = 0%N) /\ (n = 0%N -> rest = [])
         | [] => False
         end.
Proof.
  assert (Hsmall : forall f n acc,
             (n < 10)%N ->
             exists ds,
               decimal_from (S f) n acc = ds ++ acc
               /\ forallb isDigit ds = true
               /\ number_of_digits ds = n
               /\ (forall k, (n < 10 ^ N.of_nat (S k))%N -> List.length ds <= S k)
               /\ match ds with
                  | c :: rest => (c = 48%N -> n = 0%N) /\ (n = 0%N -> rest = [])
                  | [] => False
                  end).
  { intros f n acc E. cbn [decimal_from].
    pose proof E as E'. apply N.ltb_lt in E'. rewrite E'.
    rewrite (N.mod_small n 10 E).
    exists [(48 + n)%N]. repeat split.
    - cbn [forallb]. now rewrite isDigit_digit.
    - unfold number_of_digits, digit_value. cbn [fold_left]. lia.
    - intros k _. cbn. lia.
    - lia. }
  induction fuel as [|fuel IH]; intros n acc Hn.
  - apply Hsmall. cbn in Hn. lia.
  - destruct (n <? 10)%N eqn:E; [apply Hsmall; now apply N.ltb_lt|].
    assert (Estep : decimal_from (S (S fuel)) n acc
                    = decimal_from (S fuel) (n / 10)%N ((48 + n mod 10)%N :: acc)).
    { change (decimal_from (S (S fuel)) n acc)
        with (if (n <? 10)%N then (48 + n mod 10)%N :: acc
              else decimal_from (S fuel) (n / 10)%N ((48 + n mod 10)%N :: acc)).
      now rewrite E. }
    rewrite Estep. clear Estep. apply N.ltb_ge in E.
    pose proof (N.div_mod n 10 ltac:(lia)) as Hdm.
    pose proof (N.mod_upper_bound n 10 ltac:(lia)) as Hr.
    assert (Hdiv : (n / 10 < 2 ^ N.of_nat (S fuel))%N).
    { apply N.Div0.div_lt_upper_bound.
      rewrite (Nnat.Nat2N.inj_succ (S fuel)), N.pow_succ_r' in Hn.
      revert Hn. generalize (2 ^ N.of_nat (S fuel))%N. intros; lia. }
    assert (Hten : forall k, (n < 10 ^ N.of_nat (S (S k)))%N ->
                             (n / 10 < 10 ^ N.of_nat (S k))%N).
    { intros k Hk. apply N.Div0.div_lt_upper_bound.
      now rewrite (Nnat.Nat2N.inj_succ (S k)), N.pow_succ_r' in Hk. }
    revert Hdm Hr Hdiv Hten IH.
    generalize (n / 10)%N (n mod 10)%N. intros q r Hdm Hr Hdiv Hten IH.
    destruct (IH q ((48 + r)%N :: acc) Hdiv) as (ds & Eds & Hdig & Hnum & Hlen & Hhd).
    exists (ds ++ [(48 + r)%N]). repeat split.
    + rewrite Eds, <- app_assoc. reflexivity.
    + rewrite forallb_app, Hdig. cbn [forallb andb]. now rewrite isDigit_digit.
    + unfold number_of_digits in *. rewrite fold_left_app, Hnum. cbn [fold_left].
      unfold digit_value. lia.
    + intros k Hk. rewrite length_app. cbn [List.length].
      destruct k as [|k].
      { cbn in Hk. lia. }
      assert (List.length ds <= S k); [|lia].
      apply Hlen. now apply Hten.
    + destruct ds as [|c rest]; [contradiction|]. cbn [app].
      destruct Hhd as [H0 _]. split.
      * intros Hc. specialize (H0 Hc). lia.
      * intros Hz. lia.
Qed.

Lemma array_index_decimal (n : N) :
  (n < array_limit)%N -> array_index (decimal n) = Some n.
Proof.
  intros Hn. unfold decimal.
  assert (Hfuel : (n < 2 ^ N.of_nat (S (N.to_nat (N.log2 n))))%N).
  { rewrite Nnat.Nat2N.inj_succ, Nnat.N2Nat.id.
    destruct (N.eq_dec n 0) as [->|Hpos]; [reflexivity|].
    apply N.log2_spec. lia. }
  destruct (decimal_from_spec (N.to_nat (N.log2 n)) n [] Hfuel) as (ds & Eds & Hdig & Hnum & Hlen & Hhd).
  rewrite Eds, app_nil_r. destruct ds as [|c rest]; [contradiction|].
  unfold array_index. rewrite Hdig, Hnum.
  assert (Hl : List.length (c :: rest) <= 10).
  { apply Hlen. unfold array_limit in Hn. cbn. lia. }
  apply Nat.leb_le in Hl. rewrite Hl.
  assert (Hc : (negb (c =? 48)%N || Nat.eqb (List.length rest) 0)%bool = true).
  { destruct (c =? 48)%N eqn:Ec; [|reflexivity]. apply N.eqb_eq in Ec.
    destruct Hhd as [H0 H1]. now rewrite (H1 (H0 Ec)). }
  rewrite Hc. cbn [andb]. unfold array_limit in Hn. apply N.ltb_lt in Hn. now rewrite Hn.
Qed.

(** The keys of an array with [n] elements from the index [i] on. *)
Lemma keys_array (items : list value) :
  keys (Arr items) = map (fun i => decimal (N.of_nat i)) (seq 0 (List.length items)).
Proof. reflexivity. Qed.

Lemma get_item (items : list value) (i : nat) :
  (N.of_nat i < array_limit)%N ->
  get_property (Arr items) (decimal (N.of_nat i)) = nth i items VUndefined.
Proof.
  intros Hi. cbn [get_property]. rewrite (array_index_decimal _ Hi). now rewrite Nnat.Nat2N.id.
Qed.

Lemma set_item_spec (items : list value) (i : nat) (v : value) :
  (N.of_nat i < array_limit)%N ->
  i <= List.length items ->
  set_property (Arr items) (decimal (N.of_nat i)) v = Ok (Arr (set_item i v items)).
Proof.
  intros Hi Hle. cbn [set_property]. rewrite (array_index_decimal _ Hi), Nnat.Nat2N.id.
  unfold set_item. destruct (i <? List.length items) eqn:E; [reflexivity|].
  apply Nat.ltb_ge in E. replace (Nat.eqb i (List.length items)) with true; [reflexivity|].
  symmetry. apply Nat.eqb_eq. lia.
Qed.

(** *** Deep merge in the store *)

Lemma fold_bind {A K : Type} (f : K -> A -> outcome A) (ks : list K) (o : outcome A) :
  fold_left (fun acc k => bind acc (f k)) ks o
  = bind o (fun a => fold_left (fun acc k => bind acc (f k)) ks (Ok a)).
Proof.
  revert o. induction ks as [|k ks IH]; intros o.
  - now destruct o.
  - cbn [fold_left]. rewrite IH. destruct o as [a| |]; cbn [bind]; try reflexivity.
    symmetry. apply IH.
Qed.

Lemma fold_bind_cons {A K : Type} (f : K -> A -> outcome A) (k : K) (ks : list K) (a : A) :
  fold_left (fun acc k => bind acc (f k)) (k :: ks) (Ok a)
  = bind (f k a) (fun a => fold_left (fun acc k => bind acc (f k)) ks (Ok a)).
Proof. cbn [fold_left bind]. apply fold_bind. Qed.

Lemma baseMerge_eq (fuel : nat) (h : store) (object source : nat) :
  baseMerge (S fuel) h object source
  = if Nat.eqb object source then Ok h
    else match lookup h source with
         | None => OutOfModel
         | Some src =>
             fold_left (fun acc key => bind acc (mergeKey fuel src object key)) (keys src) (Ok h)
         end.
Proof. reflexivity. Qed.

(** The test of [assignMergeValue] on a scalar, read on the trees. *)
Lemma eq_same (old : option ltree) (a : atom) :
  Json.eq (value_of_entry old) (atom_value a)
  = match option_map erase old with
    | Some o => same o (atom_tree a)
    | None => false
    end.
Proof.
  destruct old as [[a'|l items|l ms]|]; cbn [value_of_entry value_at option_map erase].
  - destruct a' as [|b'|n'|s'], a as [|b|n|s]; try reflexivity;
      try (destruct n'; reflexivity); try (destruct n; reflexivity).
  - now destruct a.
  - now destruct a.
  - now destruct a.
Qed.

Lemma eq_ref (v : value) (l : nat) :
  (forall l', v <> VRef l') -> Json.eq v (VRef l) = false.
Proof.
  intros H. destruct v as [| | | | |l']; try reflexivity.
  - now destruct n.
  - now destruct (H l').
Qed.

Lemma nth_value (ds : list ltree) (i : nat) :
  nth i (map value_at ds) VUndefined = value_of_entry (nth_error ds i).
Proof.
  revert i. induction ds as [|d ds IH]; intros [|i]; cbn; try reflexivity. apply IH.
Qed.

Lemma update_same_item {A : Type} (i : nat) (x : A) (l : list A) :
  nth_error l i = Some x -> update i x l = l.
Proof.
  revert i. induction l as [|y l IH]; intros [|i]; cbn; try congruence.
  intros H. f_equal. now apply IH.
Qed.

Lemma update_map {A B : Type} (f : A -> B) (i : nat) (x : A) (l : list A) :
  update i (f x) (map f l) = map f (update i x l).
Proof.
  revert i. induction l as [|y l IH]; intros [|i]; cbn; try reflexivity. now rewrite IH.
Qed.

Lemma set_item_map {A B : Type} (f : A -> B) (i : nat) (x : A) (l : list A) :
  set_item i (f x) (map f l) = map f (set_item i x l).
Proof.
  unfold set_item. rewrite length_map. destruct (i <? List.length l).
  - apply update_map.
  - now rewrite map_app.
Qed.

Lemma update_split {A : Type} (before after : list A) (x y : A) :
  update (List.length before) y (before ++ x :: after) = before ++ y :: after.
Proof. induction before as [|z before IH]; cbn; congruence. Qed.

(** An item put at an index: in the place of the item there, or behind the
    last. *)
Lemma set_item_split {A : Type} (i : nat) (x : A) (l : list A) :
  i <= List.length l ->
  exists before after,
    l = before ++ match nth_error l i with Some y => [y] | None => [] end ++ after
    /\ set_item i x l = before ++ x :: after.
Proof.
  intros Hi. unfold set_item. destruct (nth_error l i) as [y|] eqn:E.
  - destruct (nth_error_split l i E) as (before & after & -> & <-).
    exists before, after. split; [reflexivity|].
    replace (List.length before <? List.length (before ++ y :: after)) with true.
    + apply update_split.
    + symmetry. apply Nat.ltb_lt. rewrite length_app. cbn. lia.
  - apply nth_error_None in E. exists l, []. split; [now rewrite app_nil_r|].
    replace (i <? List.length l) with false; [reflexivity|].
    symmetry. apply Nat.ltb_ge. lia.
Qed.

Lemma put_split {A : Type} (k : str) (x : A) (ms : list (str * A)) :
  exists before after : list (str * A),
    map snd ms
    = map snd before ++ match entry k ms with Some y => [y] | None => [] end ++ map snd after
    /\ map snd (put k x ms) = map snd before ++ x :: map snd after.
Proof.
  destruct (entry k ms) as [y|] eqn:E.
  - destruct (put_present k x y ms E) as (before & after & -> & ->).
    exists before, after. rewrite !map_app. now split.
  - rewrite (put_absent k x ms E). exists ms, []. rewrite map_app, app_nil_r. now split.
Qed.

Lemma entry_In {A : Type} (k : str) (y : A) (ms : list (str * A)) :
  entry k ms = Some y -> In y (map snd ms).
Proof.
  induction ms as [|m ms IH]; [discriminate|]. cbn [entry map In].
  destruct (str_eqb (fst m) k); [|now right; apply IH].
  intros H. injection H as <-. now left.
Qed.

Lemma NoDup_flat_map_In {A B : Type} (f : A -> list B) (x : A) (l : list A) :
  NoDup (flat_map f l) -> In x l -> NoDup (f x).
Proof.
  induction l as [|y l IH]; [intros _ []|]. cbn [flat_map]. intros H [->|Hin].
  - now apply NoDup_app_remove_r in H.
  - apply IH; [|exact Hin]. now apply NoDup_app_remove_l in H.
Qed.

Lemma NoDup_app_split {A : Type} (l1 l2 : list A) :
  NoDup (l1 ++ l2) -> NoDup l1 /\ NoDup l2 /\ (forall a, In a l1 -> ~ In a l2).
Proof.
  induction l1 as [|x l1 IH]; cbn [app]; intros H.
  - repeat split; [constructor | exact H | intros a []].
  - inversion H as [|? ? Hx Hrest]; subst. destruct (IH Hrest) as (H1 & H2 & H3).
    repeat split.
    + constructor; [|exact H1]. intros Hin. apply Hx, in_app_iff. now left.
    + exact H2.
    + intros a [<-|Ha]; [|now apply H3]. intros Hin. apply Hx, in_app_iff. now right.
Qed.

Lemma grown_refl (h : store) (d : ltree) :
  value_at d = VRef (top d) -> holds h d -> NoDup (locs d) -> grown h d h d.
Proof. intros Hv Hh Hnd. repeat split; auto. Qed.

Lemma top_In (t : ltree) : value_at t = VRef (top t) -> In (top t) (locs t).
Proof. intros H. rewrite (locs_parts t H). now left. Qed.

(** A part of the tree [T] that the store [h] held is changed for [X] (or
    [X] is added as a part): the tree [T1] so made has grown from [d0] as
    [T] had. *)
Lemma regrow (h0 : store) (d0 : ltree) (h h1 : store) (T T1 : ltree) (old : option ltree)
    (X : ltree) (before after : list ltree) :
  grown h0 d0 h T ->
  In (top d0) (locs d0) ->
  top T1 = top T ->
  value_at T1 = VRef (top T1) ->
  parts T = before ++ match old with Some t => [t] | None => [] end ++ after ->
  parts T1 = before ++ X :: after ->
  lookup h1 (top T) = Some (cell T1) ->
  holds h1 X ->
  NoDup (locs X) ->
  (forall i, In i (locs X) -> In i (locs_of old) \/ List.length h <= i) ->
  List.length h <= List.length h1 ->
  (forall i, i < List.length h -> i <> top T -> ~ In i (locs_of old) ->
             lookup h1 i = lookup h i) ->
  grown h0 d0 h1 T1.
Proof.
  intros (Htop & Hv & Hh & Hnd & Hsub & Hlen & Hframe) Hin0 Htop1 Hv1 Hparts Hparts1 Hcell
         HX HndX HsubX Hlen1 Hframe1.
  assert (Hlocs : locs T = top T :: flat_map locs before ++ locs_of old ++ flat_map locs after).
  { rewrite (locs_parts T Hv), Hparts, !flat_map_app. do 3 f_equal.
    destruct old; cbn [flat_map locs_of]; [apply app_nil_r | reflexivity]. }
  assert (Hlocs1 : locs T1 = top T :: flat_map locs before ++ locs X ++ flat_map locs after).
  { rewrite (locs_parts T1 Hv1), Hparts1, Htop1, flat_map_app. reflexivity. }
  assert (Hlt : forall i, In i (locs T) -> i < List.length h)
    by (intros i; apply holds_lt; exact Hh).
  rewrite Hlocs in Hnd, Hlt.
  inversion Hnd as [|? ? Htopnot Hnd']; subst.
  destruct (NoDup_app_split _ _ Hnd') as (HndB & Hnd'' & HdB).
  destruct (NoDup_app_split _ _ Hnd'') as (HndO & HndA & HdO).
  set (LB := flat_map locs before) in *. set (LA := flat_map locs after) in *.
  assert (HinT : forall i, In i LB \/ In i (locs_of old) \/ In i LA -> In i (locs T)).
  { intros i Hi. rewrite Hlocs. right. rewrite !in_app_iff. tauto. }
  assert (Hfresh : forall i, In i (locs X) -> ~ In i (locs_of old) ->
                             ~ In i (top T :: LB ++ locs_of old ++ LA)).
  { intros i Hi Hno Hin. destruct (HsubX i Hi) as [Ho|Hge]; [tauto|].
    specialize (Hlt i Hin). lia. }
  assert (Hkeep : forall y, In y before \/ In y after -> holds h1 y).
  { intros y Hy. apply (holds_parts h T Hv) in Hh. destruct Hh as [_ Hall].
    rewrite Forall_forall in Hall.
    assert (Hyp : In y (parts T)).
    { rewrite Hparts, !in_app_iff. tauto. }
    apply (holds_frame h h1 y (Hall y Hyp)). intros i Hi.
    assert (HiT : In i LB \/ In i LA).
    { destruct Hy as [Hy|Hy]; [left | right]; apply in_flat_map; now exists y. }
    apply Hframe1.
    - apply Hlt. right. rewrite !in_app_iff. tauto.
    - intros ->. apply Htopnot. rewrite !in_app_iff. tauto.
    - intros Hold. destruct HiT as [Hb|Ha].
      + apply (HdB i Hb). rewrite in_app_iff. now left.
      + now apply (HdO i Hold). }
  repeat split.
  - congruence.
  - exact Hv1.
  - apply (holds_parts h1 T1 Hv1). rewrite Htop1, Hparts1. split; [exact Hcell|].
    apply Forall_app. split; [|constructor; [exact HX|]];
      apply Forall_forall; intros y Hy; apply Hkeep; tauto.
  - rewrite Hlocs1. constructor.
    + rewrite !in_app_iff. intros [Hb|[Hx|Ha]].
      * apply Htopnot. rewrite !in_app_iff. tauto.
      * destruct (in_dec Nat.eq_dec (top T) (locs_of old)) as [Ho|Hno].
        -- apply Htopnot. rewrite !in_app_iff. tauto.
        -- apply (Hfresh _ Hx Hno). now left.
      * apply Htopnot. rewrite !in_app_iff. tauto.
    + apply NoDup_app; [exact HndB | apply NoDup_app; [exact HndX | exact HndA |] |].
      * intros i Hx Ha. destruct (in_dec Nat.eq_dec i (locs_of old)) as [Ho|Hno].
        -- now apply (HdO i Ho).
        -- apply (Hfresh _ Hx Hno). right. rewrite !in_app_iff. tauto.
      * intros i Hb. rewrite in_app_iff. intros [Hx|Ha].
        -- destruct (in_dec Nat.eq_dec i (locs_of old)) as [Ho|Hno].
           ++ apply (HdB i Hb). rewrite in_app_iff. now left.
           ++ apply (Hfresh _ Hx Hno). right. rewrite !in_app_iff. tauto.
        -- apply (HdB i Hb). rewrite in_app_iff. now right.
  - intros i Hi. rewrite Hlocs1 in Hi. cbn [In] in Hi. rewrite !in_app_iff in Hi.
    assert (Hold : In i (locs T) -> In i (locs d0) \/ List.length h0 <= i) by apply Hsub.
    destruct Hi as [<-|[Hb|[Hx|Ha]]].
    + apply Hold. rewrite Hlocs. now left.
    + apply Hold, HinT. tauto.
    + destruct (HsubX i Hx) as [Ho|Hge]; [apply Hold, HinT; tauto | right; lia].
    + apply Hold, HinT. tauto.
  - lia.
  - intros i Hi Hni. rewrite Hframe1.
    + now apply Hframe.
    + lia.
    + intros ->. apply Hni. now rewrite Htop.
    + intros Ho. destruct (Hsub i (HinT i ltac:(tauto))) as [H0|Hge]; [tauto | lia].
Qed.

(** A scalar of the source is assigned unless it is the value there. *)
Lemma assign_leaf (o : object) (ol : nat) (k : str) (old : option ltree) (h : store) (a : atom)
    (x : tree) :
  lookup h ol = Some o ->
  get_property o k = value_of_entry old ->
  (forall t, old = Some t -> set_property o k (value_at t) = Ok o) ->
  (forall v, exists o', set_property o k v = Ok o') ->
  (forall t, old = Some t -> holds h t /\ NoDup (locs t)) ->
  merge_value (option_map erase old) (atom_tree a) = Some x ->
  stepped o ol k old h x (assignMergeValue h ol k (atom_value a)).
Proof.
  intros Hl Hget Hsame Hset Hold Hm.
  assert (E : assignMergeValue h ol k (atom_value a)
              = if Json.eq (get_property o k) (atom_value a) then Ok h
                else modify h ol (fun o => set_property o k (atom_value a))).
  { unfold assignMergeValue. rewrite Hl. now destruct a. }
  rewrite E, Hget, eq_same. clear E.
  assert (Hx : x = match option_map erase old with
                   | Some o' => if same o' (atom_tree a) then o' else atom_tree a
                   | None => atom_tree a
                   end).
  { destruct a; cbn in Hm; injection Hm as <-; reflexivity. }
  pose proof (lookup_lt _ _ _ Hl) as Hlt.
  assert (Hnew : stepped o ol k old h (atom_tree a)
                   (modify h ol (fun o => set_property o k (atom_value a)))).
  { destruct (Hset (atom_value a)) as [o' Eo].
    exists (update ol o' h), (LLeaf a), o'. repeat split.
    - now apply (modify_at h ol o o').
    - exact Eo.
    - now apply lookup_update.
    - apply holds_leaf.
    - constructor.
    - intros i [].
    - now rewrite update_length.
    - intros i _ Hi _. apply lookup_update_other. congruence. }
  destruct old as [t|] eqn:Eold; cbn [option_map] in *; [|now subst x].
  destruct (same (erase t) (atom_tree a)); [|now subst x].
  destruct (Hold t eq_refl) as [Hh Hnd].
  exists h, t, o. repeat split; auto.
Qed.

(** An array or an object of the source is merged into the target [d_t],
    which is what the key holds or is new, and the target is assigned
    unless it is there. *)
Lemma deep_step (fuel : nat) (o : object) (ol : nat) (k : str) (old : option ltree) (h : store)
    (s d_t : ltree) (h_t : store) (x : tree) :
  merges fuel ->
  lookup h ol = Some o ->
  get_property o k = value_of_entry old ->
  (forall t, old = Some t -> set_property o k (value_at t) = Ok o) ->
  (forall v, exists o', set_property o k v = Ok o') ->
  (forall t, old = Some t -> holds h t /\ NoDup (locs t)) ->
  ~ In ol (locs_of old) ->
  value_at s = VRef (top s) ->
  holds h s ->
  List.length (locs s) <= fuel ->
  tidy (erase s) ->
  (forall i, In i (locs_of old) -> ~ In i (locs s)) ->
  value_at d_t = VRef (top d_t) ->
  holds h_t d_t ->
  NoDup (locs d_t) ->
  List.length h <= List.length h_t ->
  (forall i, i < List.length h -> lookup h_t i = lookup h i) ->
  (forall i, In i (locs d_t) -> In i (locs_of old) \/ List.length h <= i) ->
  (old = Some d_t \/ forall l, value_of_entry old <> VRef l) ->
  merged (erase d_t) (erase s) = Some x ->
  stepped o ol k old h x
    (bind (baseMerge fuel h_t (top d_t) (top s))
       (fun h' => assignMergeValue h' ol k (VRef (top d_t)))).
Proof.
  intros IH Hl Hget Hsame Hset Hold Hol
         Hvs Hhs Hsize Htidy Hdisj Hvd Hhd Hndd Hlen Hext Hsub Hcase Hm.
  pose proof (lookup_lt _ _ _ Hl) as Hlt.
  assert (Hslt : forall i, In i (locs s) -> i < List.length h)
    by (intros i; apply holds_lt; exact Hhs).
  assert (Hhs' : holds h_t s).
  { apply (holds_frame h h_t s Hhs). intros i Hi. apply Hext. now apply Hslt. }
  assert (Hapart : forall i, In i (locs d_t) -> ~ In i (locs s)).
  { intros i Hi Hs. destruct (Hsub i Hi) as [Ho|Hge]; [now apply (Hdisj i)|].
    specialize (Hslt i Hs). lia. }
  destruct (IH s d_t h_t x Hsize Hvd Hvs Hhd Hhs' Hndd Hapart Htidy Hm)
    as (h2 & d2 & E & (Htop2 & Hv2 & Hh2 & Hnd2 & Hsub2 & Hlen2 & Hframe2) & Herase).
  rewrite E. cbn [bind].
  assert (Hnot : ~ In ol (locs d_t)).
  { intros Hi. destruct (Hsub ol Hi) as [Ho|Hge]; [tauto | lia]. }
  assert (Hl2 : lookup h2 ol = Some o).
  { rewrite Hframe2; [now rewrite Hext | lia | exact Hnot]. }
  assert (Hsub' : forall i, In i (locs d2) -> In i (locs_of old) \/ List.length h <= i).
  { intros i Hi. destruct (Hsub2 i Hi) as [Hd|Hge]; [now apply Hsub | right; lia]. }
  assert (Hkeep : forall i, i < List.length h -> i <> ol -> ~ In i (locs_of old) ->
                            lookup h2 i = lookup h i).
  { intros i Hi _ Hno. rewrite Hframe2; [now apply Hext | lia |].
    intros Hd. destruct (Hsub i Hd) as [Ho|Hge]; [tauto | lia]. }
  assert (Hol2 : ~ In ol (locs d2)).
  { intros Hi. destruct (Hsub' ol Hi) as [Ho|Hge]; [tauto | lia]. }
  unfold assignMergeValue. rewrite Hl2, Hget.
  destruct Hcase as [Eold|Hscalar].
  - (* the target was there *)
    assert (Hv : value_of_entry old = VRef (top d_t)) by (rewrite Eold; exact Hvd).
    rewrite Hv. cbn [Json.eq]. rewrite Nat.eqb_refl.
    exists h2, d2, o. repeat split; auto; try lia.
    rewrite Hv2, Htop2, <- Hvd. now apply Hsame.
  - (* the target is new *)
    rewrite (eq_ref _ _ Hscalar).
    destruct (Hset (VRef (top d_t))) as [o' Eo].
    rewrite (modify_at h2 ol o o' _ Hl2 Eo).
    exists (update ol o' h2), d2, o'. repeat split; auto.
    + now rewrite Hv2, Htop2.
    + apply lookup_update. lia.
    + apply (holds_frame h2 _ d2 Hh2). intros i Hi. apply lookup_update_other.
      intros <-. now apply Hol2.
    + rewrite update_length. lia.
    + intros i Hi Hne Hno. rewrite lookup_update_other by congruence. now apply Hkeep.
Qed.

(** One key of the source. *)
Lemma merge_step (fuel : nat) (src : object) (o : object) (ol : nat) (k : str) (old : option ltree) (h : store)
    (s : ltree) (x : tree) :
  merges fuel ->
  lookup h ol = Some o ->
  get_property o k = value_of_entry old ->
  (forall t, old = Some t -> set_property o k (value_at t) = Ok o) ->
  (forall v, exists o', set_property o k v = Ok o') ->
  (forall t, old = Some t -> holds h t /\ NoDup (locs t)) ->
  ~ In ol (locs_of old) ->
  get_property src k = value_at s ->
  holds h s ->
  List.length (locs s) <= fuel ->
  tidy (erase s) ->
  (forall i, In i (locs_of old) -> ~ In i (locs s)) ->
  merge_value (option_map erase old) (erase s) = Some x ->
  stepped o ol k old h x (mergeKey fuel src ol k h).
Proof.
  intros IH Hl Hget Hsame Hset Hold Hol Hsrc Hhs Hsize Htidy Hdisj Hm.
  unfold mergeKey. rewrite Hl, Hsrc.
  assert (Hfresh : forall d_t : ltree,
             top d_t = List.length h ->
             cells d_t = [(top d_t, cell d_t)] ->
             value_at d_t = VRef (top d_t) ->
             value_at s = VRef (top s) ->
             (forall l, value_of_entry old <> VRef l) ->
             merged (erase d_t) (erase s) = Some x ->
             stepped o ol k old h x
               (bind (baseMerge fuel (h ++ [cell d_t]) (List.length h) (top s))
                  (fun h' => assignMergeValue h' ol k (VRef (List.length h))))).
  { intros d_t Htop Hcells Hvd Hvs Hscalar Hmerged. rewrite <- Htop.
    apply (deep_step fuel o ol k old h s d_t (h ++ [cell d_t]) x); auto.
    - unfold holds. rewrite Hcells. constructor; [|constructor]. cbn [fst snd].
      rewrite Htop. apply lookup_alloc.
    - unfold locs. rewrite Hcells. cbn. constructor; [intros [] | constructor].
    - rewrite length_app. cbn. lia.
    - intros i Hi. unfold lookup. now rewrite nth_error_app1.
    - unfold locs. rewrite Hcells. cbn. intros i [<-|[]]. right. lia. }
  destruct s as [a|sl items|sl ns].
  - (* a scalar *)
    destruct a; exact (assign_leaf o ol k old h _ x Hl Hget Hsame Hset Hold Hm).
  - (* an array *)
    cbn [value_at]. apply (holds_parts h (LArr sl items) eq_refl) in Hhs as Hparts.
    destruct Hparts as [Hsl _]. cbn [top cell] in Hsl. rewrite Hsl. cbv zeta.
    rewrite Hget.
    destruct old as [[a'|ol_k ds|ol_k ms]|] eqn:Eold; cbn [value_of_entry value_at].
    + assert (Hscalar : forall l, atom_value a' <> VRef l) by (now destruct a').
      assert (Hm' : merged (erase (LArr (List.length h) [])) (erase (LArr sl items)) = Some x)
        by (destruct a'; exact Hm).
      destruct a'; exact (Hfresh (LArr (List.length h) []) eq_refl eq_refl eq_refl eq_refl
                            Hscalar Hm').
    + destruct (Hold _ eq_refl) as [Hh Hnd].
      apply (holds_parts h (LArr ol_k ds) eq_refl) in Hh as Hparts.
      destruct Hparts as [Hlk _]. cbn [top cell] in Hlk. rewrite Hlk.
      apply (deep_step fuel o ol k _ h (LArr sl items) (LArr ol_k ds) h x); auto.
    + discriminate Hm.
    + assert (Hscalar : forall l, VUndefined <> VRef l) by discriminate.
      exact (Hfresh (LArr (List.length h) []) eq_refl eq_refl eq_refl eq_refl Hscalar Hm).
  - (* an object *)
    cbn [value_at]. apply (holds_parts h (LObj sl ns) eq_refl) in Hhs as Hparts.
    destruct Hparts as [Hsl _]. cbn [top cell] in Hsl. rewrite Hsl. cbv zeta.
    rewrite Hget.
    destruct old as [[a'|ol_k ds|ol_k ms]|] eqn:Eold; cbn [value_of_entry value_at].
    + assert (Hscalar : forall l, atom_value a' <> VRef l) by (now destruct a').
      assert (Hm' : merged (erase (LObj (List.length h) [])) (erase (LObj sl ns)) = Some x)
        by (destruct a'; exact Hm).
      destruct a'; exact (Hfresh (LObj (List.length h) []) eq_refl eq_refl eq_refl eq_refl
                            Hscalar Hm').
    + discriminate Hm.
    + destruct (Hold _ eq_refl) as [Hh Hnd].
      apply (deep_step fuel o ol k _ h (LObj sl ns) (LObj ol_k ms) h x); auto.
    + assert (Hscalar : forall l, VUndefined <> VRef l) by discriminate.
      exact (Hfresh (LObj (List.length h) []) eq_refl eq_refl eq_refl eq_refl Hscalar Hm).
Qed.

Lemma flat_map_locs_In (ts : list ltree) (t : ltree) (i : nat) :
  In t ts -> In i (locs t) -> In i (flat_map locs ts).
Proof. intros Ht Hi. apply in_flat_map. now exists t. Qed.

(** The keys of an object of the source, one after the other. *)
Lemma merge_object_loop (fuel : nat) (src : object) (ol : nat) (h0 : store) (d0 : ltree) :
  merges fuel ->
  In ol (locs d0) ->
  forall (ns : list (str * ltree)) (h : store) (ms : list (str * ltree))
         (r : list (str * tree)),
    grown h0 d0 h (LObj ol ms) ->
    Forall
      (fun n =>
         usable (fst n) = true
         /\ get_property src (fst n) = value_at (snd n)
         /\ holds h0 (snd n)
         /\ List.length (locs (snd n)) <= fuel
         /\ tidy (erase (snd n))
         /\ (forall i, In i (locs (snd n)) -> ~ In i (locs d0)))
      ns ->
    merge_members merge_value
      (map (fun m => (fst m, erase (snd m))) ns)
      (map (fun m => (fst m, erase (snd m))) ms) = Some r ->
    exists h' ms',
      fold_left (fun acc key => bind acc (mergeKey fuel src ol key)) (map fst ns) (Ok h) = Ok h'
      /\ grown h0 d0 h' (LObj ol ms')
      /\ map (fun m => (fst m, erase (snd m))) ms' = r.
Proof.
  intros IH Hin0. induction ns as [|[k s] ns IHns]; intros h ms r Hg Hns Hm.
  - cbn in Hm. injection Hm as <-. exists h, ms. cbn. auto.
  - inversion Hns as [|? ? (Hus & Hsrc & Hhs & Hsize & Htidy & Hdisj) Hrest]; subst.
    cbn [map fst snd] in *.
    change (merge_members merge_value
              ((k, erase s) :: map (fun m => (fst m, erase (snd m))) ns)
              (map (fun m => (fst m, erase (snd m))) ms))
      with (match merge_value (entry k (map (fun m => (fst m, erase (snd m))) ms)) (erase s) with
            | Some x =>
                merge_members merge_value (map (fun m => (fst m, erase (snd m))) ns)
                  (put k x (map (fun m => (fst m, erase (snd m))) ms))
            | None => None
            end) in Hm.
    rewrite entry_map in Hm.
    destruct (merge_value (option_map erase (entry k ms)) (erase s)) as [x|] eqn:Ex;
      [|discriminate].
    rewrite fold_bind_cons.
    pose proof Hg as (Htop & Hv & Hh & Hnd & Hsub & Hlen & Hframe).
    apply (holds_parts h (LObj ol ms) eq_refl) in Hh. destruct Hh as [Hcell Hall].
    cbn [top cell parts] in Hcell, Hall.
    rewrite (locs_parts (LObj ol ms) eq_refl) in Hnd. cbn [top parts] in Hnd.
    inversion Hnd as [|? ? Holnot Hnd']; subst.
    assert (Hpart : forall t i, entry k ms = Some t -> In i (locs t) ->
                                In i (locs (LObj ol ms))).
    { intros t i Et Hi. rewrite (locs_parts (LObj ol ms) eq_refl). right.
      apply (flat_map_locs_In _ t); [now apply (entry_In k) | exact Hi]. }
    assert (Hslt : forall i, In i (locs s) -> i < List.length h0)
      by (intros i; apply holds_lt; exact Hhs).
    destruct (merge_step fuel src (Obj (map (fun m => (fst m, value_at (snd m))) ms))
                ol k (entry k ms) h s x IH Hcell)
      as (h1 & X & o' & E & Herase & Eo & Hl1 & HX & HndX & HsubX & Hlen1 & Hframe1).
    + cbn [get_property]. rewrite assoc_entry, entry_map. now destruct (entry k ms).
    + intros t Et. cbn [set_property]. rewrite (usable_proto k Hus).
      now rewrite assign_put, put_map, (put_same k t ms Et).
    + intros v. cbn [set_property]. rewrite (usable_proto k Hus). now eexists.
    + intros t Et. split.
      * rewrite Forall_forall in Hall. apply Hall. now apply (entry_In k).
      * apply (NoDup_flat_map_In locs t _ Hnd'). now apply (entry_In k).
    + destruct (entry k ms) as [t|] eqn:Et; [|intros []]. cbn [locs_of]. intros Hi.
      apply Holnot. apply (flat_map_locs_In _ t); [now apply (entry_In k) | exact Hi].
    + exact Hsrc.
    + apply (holds_frame h0 h s Hhs). intros i Hi. apply Hframe; [now apply Hslt|].
      now apply Hdisj.
    + exact Hsize.
    + exact Htidy.
    + destruct (entry k ms) as [t|] eqn:Et; [|intros i []]. cbn [locs_of]. intros i Hi Hs.
      destruct (Hsub i (Hpart t i eq_refl Hi)) as [Hd|Hge].
      * now apply (Hdisj i).
      * specialize (Hslt i Hs). lia.
    + exact Ex.
    + rewrite E. cbn [bind].
      destruct (put_split k X ms) as (before & after & Hp & Hp1).
      assert (Hg1 : grown h0 d0 h1 (LObj ol (put k X ms))).
      { apply (regrow h0 d0 h h1 (LObj ol ms) (LObj ol (put k X ms)) (entry k ms) X
                 (map snd before) (map snd after)); auto.
        { cbn [top] in Htop. now rewrite <- Htop. }
        cbn [top cell]. rewrite Hl1. f_equal.
        cbn [set_property] in Eo. rewrite (usable_proto k Hus) in Eo.
        injection Eo as <-. now rewrite assign_put, put_map. }
      apply (IHns h1 (put k X ms) r Hg1 Hrest).
      now rewrite <- put_map, Herase.
Qed.

Lemma nth_error_shift {A : Type} (x : A) (l : list A) (j : nat) :
  nth_error (x :: l) (S j) = nth_error l j.
Proof. reflexivity. Qed.

(** The indices of an array of the source, one after the other. *)
Lemma merge_array_loop (fuel : nat) (src : object) (ol : nat) (h0 : store) (d0 : ltree) :
  merges fuel ->
  In ol (locs d0) ->
  forall (ss : list ltree) (i : nat) (h : store) (ds : list ltree) (r : list tree),
    grown h0 d0 h (LArr ol ds) ->
    i <= List.length ds ->
    (N.of_nat (i + List.length ss) < array_limit)%N ->
    (forall j s, nth_error ss j = Some s ->
                 get_property src (decimal (N.of_nat (i + j))) = value_at s) ->
    Forall
      (fun s =>
         holds h0 s
         /\ List.length (locs s) <= fuel
         /\ tidy (erase s)
         /\ (forall i, In i (locs s) -> ~ In i (locs d0)))
      ss ->
    merge_items merge_value (map erase ss) i (map erase ds) = Some r ->
    exists h' ds',
      fold_left (fun acc key => bind acc (mergeKey fuel src ol key))
        (map (fun j => decimal (N.of_nat j)) (seq i (List.length ss))) (Ok h) = Ok h'
      /\ grown h0 d0 h' (LArr ol ds')
      /\ map erase ds' = r.
Proof.
  intros IH Hin0. induction ss as [|s ss IHss]; intros i h ds r Hg Hi Hlim Hsrc Hss Hm.
  - cbn in Hm. injection Hm as <-. exists h, ds. cbn. auto.
  - inversion Hss as [|? ? (Hhs & Hsize & Htidy & Hdisj) Hrest]; subst.
    cbn [map List.length seq] in *.
    change (merge_items merge_value (erase s :: map erase ss) i (map erase ds))
      with (match merge_value (nth_error (map erase ds) i) (erase s) with
            | Some x => merge_items merge_value (map erase ss) (S i)
                          (set_item i x (map erase ds))
            | None => None
            end) in Hm.
    rewrite nth_error_map in Hm.
    destruct (merge_value (option_map erase (nth_error ds i)) (erase s)) as [x|] eqn:Ex;
      [|discriminate].
    rewrite fold_bind_cons.
    pose proof Hg as (Htop & Hv & Hh & Hnd & Hsub & Hlen & Hframe).
    apply (holds_parts h (LArr ol ds) eq_refl) in Hh. destruct Hh as [Hcell Hall].
    cbn [top cell parts] in Hcell, Hall.
    rewrite (locs_parts (LArr ol ds) eq_refl) in Hnd. cbn [top parts] in Hnd.
    inversion Hnd as [|? ? Holnot Hnd']; subst.
    assert (Hilim : (N.of_nat i < array_limit)%N) by lia.
    assert (Hpart : forall t j, nth_error ds i = Some t -> In j (locs t) ->
                                In j (locs (LArr ol ds))).
    { intros t j Et Hj. rewrite (locs_parts (LArr ol ds) eq_refl). right.
      apply (flat_map_locs_In _ t); [now apply (nth_error_In ds i) | exact Hj]. }
    assert (Hslt : forall j, In j (locs s) -> j < List.length h0)
      by (intros j; apply holds_lt; exact Hhs).
    destruct (merge_step fuel src (Arr (map value_at ds)) ol (decimal (N.of_nat i))
                (nth_error ds i) h s x IH Hcell)
      as (h1 & X & o' & E & Herase & Eo & Hl1 & HX & HndX & HsubX & Hlen1 & Hframe1).
    + rewrite (get_item _ _ Hilim). apply nth_value.
    + intros t Et. rewrite set_item_spec; [|exact Hilim | now rewrite length_map].
      rewrite set_item_map. unfold set_item.
      assert (Hlt : i < List.length ds) by (apply nth_error_Some; congruence).
      apply Nat.ltb_lt in Hlt. rewrite Hlt. now rewrite (update_same_item i t ds Et).
    + intros v. rewrite set_item_spec; [now eexists | exact Hilim | now rewrite length_map].
    + intros t Et. split.
      * rewrite Forall_forall in Hall. apply Hall. now apply (nth_error_In ds i).
      * apply (NoDup_flat_map_In locs t _ Hnd'). now apply (nth_error_In ds i).
    + destruct (nth_error ds i) as [t|] eqn:Et; [|intros []]. cbn [locs_of]. intros Hj.
      apply Holnot. apply (flat_map_locs_In _ t); [now apply (nth_error_In ds i) | exact Hj].
    + specialize (Hsrc 0 s eq_refl). now rewrite Nat.add_0_r in Hsrc.
    + apply (holds_frame h0 h s Hhs). intros j Hj. apply Hframe; [now apply Hslt|].
      now apply Hdisj.
    + exact Hsize.
    + exact Htidy.
    + destruct (nth_error ds i) as [t|] eqn:Et; [|intros j []]. cbn [locs_of]. intros j Hj Hs.
      destruct (Hsub j (Hpart t j eq_refl Hj)) as [Hd|Hge].
      * now apply (Hdisj j).
      * specialize (Hslt j Hs). lia.
    + exact Ex.
    + rewrite E. cbn [bind].
      destruct (set_item_split i X ds Hi) as (before & after & Hp & Hp1).
      assert (Hg1 : grown h0 d0 h1 (LArr ol (set_item i X ds))).
      { apply (regrow h0 d0 h h1 (LArr ol ds) (LArr ol (set_item i X ds)) (nth_error ds i) X
                 before after); auto.
        { cbn [top] in Htop. now rewrite <- Htop. }
        cbn [top cell]. rewrite Hl1. f_equal.
        rewrite set_item_spec in Eo; [|exact Hilim | now rewrite length_map].
        injection Eo as <-. now rewrite set_item_map. }
      apply (IHss (S i) h1 (set_item i X ds) r Hg1).
      * unfold set_item. destruct (i <? List.length ds) eqn:El.
        -- apply Nat.ltb_lt in El. rewrite update_length. lia.
        -- rewrite length_app. cbn. lia.
      * lia.
      * intros j s' Hj. specialize (Hsrc (S j) s' Hj).
        now replace (S i + j) with (i + S j) by lia.
      * exact Hrest.
      * now rewrite <- set_item_map, Herase.
Qed.

Lemma tidy_arr (ts : list tree) :
  tidy (TArr ts) <-> (N.of_nat (List.length ts) < array_limit)%N /\ Forall tidy ts.
Proof.
  cbn [tidy]. apply and_iff_compat_l. induction ts as [|t ts IH].
  - split; constructor.
  - rewrite IH. split.
    + intros [H1 H2]. now constructor.
    + intros H. inversion H. tauto.
Qed.

Lemma tidy_obj (ms : list (str * tree)) :
  tidy (TObj ms)
  <-> Forall (fun m => usable (fst m) = true) ms
      /\ NoDup (map fst ms)
      /\ Forall (fun m => tidy (snd m)) ms.
Proof.
  cbn [tidy]. do 2 apply and_iff_compat_l. induction ms as [|m ms IH].
  - split; constructor.
  - rewrite IH. split.
    + intros [H1 H2]. now constructor.
    + intros H. inversion H. tauto.
Qed.

Lemma entry_NoDup {A : Type} (k : str) (x : A) (ms : list (str * A)) :
  NoDup (map fst ms) -> In (k, x) ms -> entry k ms = Some x.
Proof.
  induction ms as [|m ms IH]; [intros _ []|]. cbn [map entry]. intros Hnd Hin.
  inversion Hnd as [|? ? Hnot Hnd']; subst. destruct Hin as [->|Hin].
  - cbn [fst snd]. now rewrite str_eqb_refl.
  - rewrite str_eqb_neq; [now apply IH|]. intros E. apply Hnot. rewrite E.
    apply in_map_iff. now exists (k, x).
Qed.

(** [baseMerge] on two trees that lie apart in the store. *)
Lemma baseMerge_spec (fuel : nat) : merges fuel.
Proof.
  induction fuel as [|fuel IH]; intros s d h m Hsize Hvd Hvs Hhd Hhs Hnd Hdisj Htidy Hm.
  - rewrite (locs_parts s Hvs) in Hsize. cbn in Hsize. lia.
  - rewrite baseMerge_eq.
    pose proof (top_In d Hvd) as Hind. pose proof (top_In s Hvs) as Hins.
    assert (Hne : Nat.eqb (top d) (top s) = false).
    { apply Nat.eqb_neq. intros E. apply (Hdisj (top d) Hind). now rewrite E. }
    rewrite Hne.
    pose proof (proj1 (holds_parts h s Hvs) Hhs) as [Hcell Hparts].
    rewrite Hcell.
    assert (Hpart : forall x, In x (parts s) ->
                holds h x
                /\ List.length (locs x) <= fuel
                /\ (forall i, In i (locs x) -> ~ In i (locs d))).
    { intros x Hx. rewrite Forall_forall in Hparts. repeat split.
      - now apply Hparts.
      - pose proof (part_size s x Hvs Hx). lia.
      - intros i Hi Hd. apply (Hdisj i Hd). now apply (part_locs s x). }
    destruct s as [a|sl ss|sl ns]; [destruct a; discriminate| |];
      (destruct d as [a|ol ds|ol ms]; [destruct a; discriminate| |]);
      try discriminate Hm; cbn [top cell parts] in *.
    + (* arrays *)
      cbn [erase] in Htidy. apply tidy_arr in Htidy. destruct Htidy as [Hlim Htidy].
      rewrite length_map in Hlim. rewrite Forall_map in Htidy.
      unfold merged in Hm. cbn [erase merge_value] in Hm.
      destruct (merge_items merge_value (map erase ss) 0 (map erase ds)) as [r|] eqn:Er;
        [|discriminate].
      injection Hm as <-.
      rewrite keys_array, length_map.
      destruct (merge_array_loop fuel (Arr (map value_at ss)) ol h (LArr ol ds) IH Hind
                  ss 0 h ds r) as (h' & ds' & E & Hg & Her).
      * now apply grown_refl.
      * lia.
      * exact Hlim.
      * intros j s' Hj. cbn [Nat.add].
        assert (Hjlt : j < List.length ss) by (apply nth_error_Some; congruence).
        rewrite get_item by lia. now rewrite nth_value, Hj.
      * rewrite Forall_forall in *. intros x Hx.
        destruct (Hpart x Hx) as (H1 & H2 & H3). repeat split; auto.
      * exact Er.
      * exists h', (LArr ol ds'). cbn [top erase]. rewrite E, Her. auto.
    + (* objects *)
      cbn [erase] in Htidy. apply tidy_obj in Htidy. destruct Htidy as (Hus & Hkeys & Htidy).
      rewrite Forall_map in Hus, Htidy. cbn [fst snd] in Hus, Htidy.
      rewrite map_map in Hkeys. cbn [fst] in Hkeys.
      unfold merged in Hm. cbn [erase merge_value] in Hm.
      destruct (merge_members merge_value (map (fun m => (fst m, erase (snd m))) ns)
                  (map (fun m => (fst m, erase (snd m))) ms)) as [r|] eqn:Er;
        [|discriminate].
      injection Hm as <-.
      rewrite keys_plain, map_map; cbn [fst].
      2: { rewrite Forall_map. cbn [fst]. rewrite Forall_forall in *. intros n Hn.
           apply usable_index. now apply Hus. }
      destruct (merge_object_loop fuel (Obj (map (fun m => (fst m, value_at (snd m))) ns))
                  ol h (LObj ol ms) IH Hind ns h ms r) as (h' & ms' & E & Hg & Her).
      * now apply grown_refl.
      * rewrite Forall_forall in *. intros n Hn.
        destruct (Hpart (snd n)) as (H1 & H2 & H3); [now apply in_map|].
        repeat split; auto.
        cbn [get_property]. rewrite assoc_entry, entry_map.
        rewrite (entry_NoDup (fst n) (snd n) ns Hkeys); [reflexivity|]. now destruct n.
      * exact Er.
      * exists h', (LObj ol ms'). cbn [top erase].
        change (map (fun x : str * ltree => fst x) ns) with (map fst ns).
        rewrite E, Her. auto.
Qed.

(** [_.merge] as [onclose] calls it, on what a key holds and the container
    that was popped. *)
Lemma merge_spec (h : store) (d s : ltree) (m : tree) :
  value_at d = VRef (top d) ->
  value_at s = VRef (top s) ->
  holds h d ->
  holds h s ->
  NoDup (locs d) ->
  NoDup (locs s) ->
  (forall i, In i (locs d) -> ~ In i (locs s)) ->
  tidy (erase s) ->
  merged (erase d) (erase s) = Some m ->
  exists h' d', merge h (value_at d) (value_at s) = Ok h' /\ grown h d h' d' /\ erase d' = m.
Proof.
  intros Hvd Hvs Hhd Hhs Hnd Hnds Hdisj Htidy Hm. rewrite Hvd, Hvs. cbn [merge].
  apply baseMerge_spec; auto.
  pose proof (holds_size h s Hhs Hnds). lia.
Qed.

(** *** Running the handlers *)

Lemma run_from (es : list event) (o : outcome parser_state) :
  fold_left (fun acc e => bind acc (handle e)) es o = bind o (run es).
Proof.
  revert o. induction es as [|e es IH]; intros o.
  - now destruct o.
  - cbn [fold_left]. rewrite IH. destruct o; try reflexivity.
    unfold run. cbn [fold_left bind]. now rewrite IH.
Qed.

Lemma run_cons (e : event) (es : list event) (st : parser_state) :
  run (e :: es) st = bind (handle e st) (run es).
Proof. unfold run at 1. cbn [fold_left bind]. apply run_from. Qed.

Lemma run_app (es1 es2 : list event) (st : parser_state) :
  run (es1 ++ es2) st = bind (run es1 st) (run es2).
Proof. unfold run at 1. rewrite fold_left_app. apply run_from. Qed.

Lemma run_nil (st : parser_state) : run [] st = Ok st.
Proof. reflexivity. Qed.

Lemma jtext_nested_ind (P : jtext -> Prop) :
  P JNull ->
  (forall b, P (JBool b)) ->
  (forall n, P (JNumber n)) ->
  (forall s, P (JString s)) ->
  (forall items, Forall P items -> P (JArray items)) ->
  (forall members, Forall (fun m => P (snd m)) members -> P (JObject members)) ->
  forall t, P t.
Proof.
  intros H1 H2 H3 H4 Harr Hobj. fix IH 1.
  intros [|b|n|s|items|members]; [exact H1 | apply H2 | apply H3 | apply H4 | |].
  - apply Harr. induction items as [|x items IHl]; constructor; [apply IH | exact IHl].
  - apply Hobj. induction members as [|m members IHl]; constructor; [apply IH | exact IHl].
Qed.

Lemma events_atom (t : jtext) (a : atom) :
  atom_of t = Some a ->
  events t = [Value (atom_value a)]
  /\ forall strict, collapse strict t = Some (atom_tree a).
Proof. destruct t; cbn; intros E; try discriminate; injection E as <-; now split. Qed.

(** The last event of an array or an object closes it. *)
Lemma events_body (t : jtext) :
  atom_of t = None -> exists close, events t = body t ++ [close] /\ handle close = onclose.
Proof.
  destruct t as [| | | |items|[|[k v] ms]]; try discriminate; intros _.
  - exists CloseArray. now split.
  - exists CloseObject. now split.
  - exists CloseObject. split; [|reflexivity]. cbn [events body app]. f_equal.
    now rewrite app_assoc.
Qed.

(** *** The container on top of the stack *)

Lemma fill_obj (l : nat) (before : list (str * ltree)) (k : str) (y x : ltree) :
  fill (LObj l (before ++ [(k, y)])) x = LObj l (before ++ [(k, x)]).
Proof. cbn [fill]. rewrite removelast_last, map_app. cbn [map]. now rewrite last_last. Qed.

Lemma accepts_value (cur : ltree) : accepts cur -> value_at cur = VRef (top cur).
Proof. now destruct cur. Qed.

Lemma fill_top (cur x : ltree) : top (fill cur x) = top cur.
Proof. now destruct cur. Qed.

Lemma fill_value (cur x : ltree) :
  accepts cur -> value_at (fill cur x) = VRef (top (fill cur x)).
Proof. now destruct cur. Qed.

(** The parts of a container that took [x]: those it had, a key that
    waited apart, and [x]. *)
Lemma fill_parts (cur x : ltree) :
  accepts cur ->
  exists before,
    (forall h, Forall (holds h) before <-> Forall (holds h) (parts cur))
    /\ flat_map locs before = flat_map locs (parts cur)
    /\ parts (fill cur x) = before ++ [x].
Proof.
  destruct cur as [a|l items|l ms]; [intros []| |].
  - intros _. exists items. repeat split; auto.
  - intros (before & k & a & -> & _). exists (map snd before). rewrite fill_obj.
    cbn [parts]. rewrite !map_app. cbn [map snd]. repeat split.
    + intros H. apply Forall_app. split; [exact H|]. constructor; [apply holds_leaf | constructor].
    + intros H. now apply Forall_app in H.
    + rewrite flat_map_app. cbn. now rewrite app_nil_r.
Qed.

Lemma current_top (st : parser_state) (below : list nat) (l : nat) (o : object) :
  elements st = below ++ [l] -> lookup (heap st) l = Some o -> current st = Ok (l, o).
Proof.
  intros E Hl. unfold current. rewrite E, map_app. cbn [map]. now rewrite last_last, Hl.
Qed.

Lemma keyed_index (ms : list (str * ltree)) :
  keyed ms ->
  Forall (fun p : str * value => array_index (fst p) = None)
    (map (fun m => (fst m, value_at (snd m))) ms).
Proof.
  intros [Hus _]. rewrite Forall_map. cbn [fst]. rewrite Forall_forall in *.
  intros m Hm. apply usable_index. now apply Hus.
Qed.

Lemma keys_cell (l : nat) (ms : list (str * ltree)) :
  keyed ms -> keys (cell (LObj l ms)) = map fst ms.
Proof.
  intros Hk. cbn [cell]. rewrite (keys_plain _ (keyed_index ms Hk)), map_map. reflexivity.
Qed.

(** [attach] on a container that takes the value. *)
Lemma attach_fill (st : parser_state) (below : list nat) (cur x : ltree) :
  elements st = below ++ [top cur] ->
  lookup (heap st) (top cur) = Some (cell cur) ->
  accepts cur ->
  attach st (value_at x)
  = Ok (with_heap st (update (top cur) (cell (fill cur x)) (heap st))).
Proof.
  intros E Hl Hacc. unfold attach. rewrite (current_top st below _ _ E Hl). cbn [bind].
  destruct cur as [a|l items|l ms]; [destruct Hacc| |].
  - cbn [top cell fill] in *.
    rewrite (modify_at _ _ _ (Arr (map value_at (items ++ [x]))) _ Hl); [reflexivity|].
    cbn [isArray push]. now rewrite map_app.
  - destruct Hacc as (before & k & a & -> & Hkeyed). rewrite fill_obj.
    cbn [top] in *.
    rewrite (modify_at _ _ _ (cell (LObj l (before ++ [(k, x)]))) _ Hl); [reflexivity|].
    cbn [isArray]. unfold last_key. rewrite (keys_cell l _ Hkeyed).
    rewrite !map_app. cbn [map fst]. rewrite last_last.
    destruct Hkeyed as [Hus Hnd]. apply Forall_app in Hus. destruct Hus as [_ Hus].
    inversion Hus as [|? ? Hk _]; subst. cbn [fst] in Hk.
    cbn [cell set_property]. rewrite (usable_proto k Hk). rewrite !map_app. cbn [map fst snd].
    rewrite assign_last; [reflexivity|].
    rewrite map_app in Hnd. cbn [map fst] in Hnd.
    apply NoDup_remove_2 in Hnd. rewrite app_nil_r in Hnd.
    now rewrite map_map.
Qed.

(** The container [cur'] is [cur] with the part [x] behind the parts it
    had, and lies in the store that holds [x] with the object of [cur']
    written over that of [cur]. *)
Lemma under_next (st0 st st' : parser_state) (cur cur' x : ltree) (before : list ltree)
    (h_a : store) :
  under st0 st cur ->
  top cur' = top cur ->
  value_at cur' = VRef (top cur') ->
  (forall h, Forall (holds h) before <-> Forall (holds h) (parts cur)) ->
  flat_map locs before = flat_map locs (parts cur) ->
  parts cur' = before ++ [x] ->
  List.length (heap st) <= List.length h_a ->
  (forall i, i < List.length (heap st) -> lookup h_a i = lookup (heap st) i) ->
  holds h_a x ->
  NoDup (locs x) ->
  Forall (fun i => List.length (heap st) <= i) (locs x) ->
  heap st' = update (top cur) (cell cur') h_a ->
  elements st' = elements st ->
  root st' = root st ->
  duplicated st' = duplicated st ->
  under st0 st' cur'.
Proof.
  intros (Eel & Hv & Hlen & Hframe & Hh & Hnd & Hge & Hroot & Hdup)
         Htop Hv' Hb1 Hb2 Hparts Hlena Hframea Hx Hndx Hgex Eheap Eel' Eroot Edup.
  assert (Hlocs : locs cur' = top cur :: flat_map locs (parts cur) ++ locs x).
  { rewrite (locs_parts cur' Hv'), Hparts, flat_map_app, Hb2, Htop. cbn [flat_map].
    now rewrite app_nil_r. }
  rewrite (locs_parts cur Hv) in Hnd, Hge.
  inversion Hnd as [|? ? Htopnot Hnd']; subst.
  inversion Hge as [|? ? Htopge Hge']; subst.
  rewrite Forall_forall in Hge', Hgex.
  assert (Htoplt : top cur < List.length (heap st)).
  { apply (holds_lt _ cur); [exact Hh | now apply top_In]. }
  assert (Hpartlt : forall i, In i (flat_map locs (parts cur)) -> i < List.length (heap st)).
  { intros i Hi. apply (holds_lt _ cur); [exact Hh|]. rewrite (locs_parts cur Hv). now right. }
  unfold under. rewrite Eheap, Eel', Eroot, Edup, Htop.
  repeat split; auto.
  - now rewrite <- Htop.
  - rewrite update_length. lia.
  - intros i Hi. rewrite lookup_update_other by lia. rewrite Hframea by lia. now apply Hframe.
  - apply (holds_parts _ cur' Hv'). rewrite Htop, Hparts. split.
    + apply lookup_update. lia.
    + apply Forall_app. split.
      * apply Hb1. apply (holds_parts _ cur Hv) in Hh. destruct Hh as [_ Hall].
        rewrite Forall_forall in *. intros y Hy.
        apply (holds_frame (heap st) _ y (Hall y Hy)). intros i Hi.
        assert (Hin : In i (flat_map locs (parts cur))) by (now apply (flat_map_locs_In _ y)).
        rewrite lookup_update_other by (intros <-; now apply Htopnot).
        apply Hframea. now apply Hpartlt.
      * constructor; [|constructor]. apply (holds_frame h_a _ x Hx). intros i Hi.
        apply lookup_update_other. specialize (Hgex i Hi). lia.
  - rewrite Hlocs. constructor.
    + rewrite in_app_iff. intros [Hp|Hxi]; [now apply Htopnot|].
      specialize (Hgex _ Hxi). lia.
    + apply NoDup_app; auto. intros i Hp Hxi.
      specialize (Hgex _ Hxi). specialize (Hpartlt _ Hp). lia.
  - rewrite Hlocs. constructor; [exact Htopge|]. apply Forall_app. split.
    + now apply Forall_forall.
    + apply Forall_forall. intros i Hi. specialize (Hgex i Hi). lia.
Qed.

Lemma under_fill (st0 st st' : parser_state) (cur x : ltree) (h_a : store) :
  under st0 st cur ->
  accepts cur ->
  List.length (heap st) <= List.length h_a ->
  (forall i, i < List.length (heap st) -> lookup h_a i = lookup (heap st) i) ->
  holds h_a x ->
  NoDup (locs x) ->
  Forall (fun i => List.length (heap st) <= i) (locs x) ->
  heap st' = update (top cur) (cell (fill cur x)) h_a ->
  elements st' = elements st ->
  root st' = root st ->
  duplicated st' = duplicated st ->
  under st0 st' (fill cur x).
Proof.
  intros Hu Hacc. destruct (fill_parts cur x Hacc) as (before & Hb1 & Hb2 & Hb3).
  apply (under_next st0 st st' cur (fill cur x) x before h_a Hu); auto.
  - apply fill_top.
  - now apply fill_value.
Qed.

(** The container a handler has just opened. *)
Lemma under_open (st0 st1 : parser_state) (c : ltree) :
  cells c = [(top c, cell c)] ->
  top c = List.length (heap st0) ->
  value_at c = VRef (top c) ->
  heap st1 = heap st0 ++ [cell c] ->
  elements st1 = elements st0 ++ [top c] ->
  root st1 = root st0 ->
  duplicated st1 = duplicated st0 ->
  under st0 st1 c.
Proof.
  intros Hcells Htop Hv Eheap Eel Eroot Edup. unfold under, holds, locs.
  rewrite Hcells, Eheap, Eel, Eroot, Edup. cbn [map fst snd]. repeat split; auto.
  - rewrite length_app. lia.
  - intros i Hi. unfold lookup. now rewrite nth_error_app1.
  - constructor; [|constructor]. cbn [fst snd]. rewrite Htop. apply lookup_alloc.
  - constructor; [intros [] | constructor].
  - constructor; [lia | constructor].
Qed.

(** *** Closing a container *)

Lemma onclose_root (st : parser_state) (l : nat) :
  elements st = [l] ->
  onclose st = Ok {| heap := heap st; elements := []; root := VRef l;
                     duplicated := duplicated st |}.
Proof. intros E. unfold onclose. rewrite E. reflexivity. Qed.

Lemma onclose_attach (st : parser_state) (below : list nat) (c l : nat) :
  elements st = (below ++ [c]) ++ [l] ->
  match duplicated st with
  | Some (level, _) => level <> List.length below
  | None => True
  end ->
  onclose st
  = attach {| heap := heap st; elements := below ++ [c]; root := root st;
              duplicated := duplicated st |} (VRef l).
Proof.
  intros E Hdup. unfold onclose. rewrite E, rev_unit, rev_involutive.
  cbn [heap elements root duplicated].
  destruct (below ++ [c]) as [|b rest] eqn:Eb; [now destruct below|].
  assert (Hlen : List.length (b :: rest) - 1 = List.length below).
  { rewrite <- Eb, length_app. cbn. lia. }
  rewrite Hlen.
  destruct (duplicated st) as [[level existing]|]; [|reflexivity].
  apply Nat.eqb_neq in Hdup. now rewrite Hdup.
Qed.

Lemma onclose_merge (st : parser_state) (below : list nat) (c l : nat) (existing : value) :
  elements st = (below ++ [c]) ++ [l] ->
  duplicated st = Some (List.length below, existing) ->
  onclose st
  = bind (merge (heap st) existing (VRef l))
      (fun h => Ok {| heap := h; elements := below ++ [c]; root := root st;
                      duplicated := None |}).
Proof.
  intros E Hdup. unfold onclose. rewrite E, rev_unit, rev_involutive.
  cbn [heap elements root duplicated].
  destruct (below ++ [c]) as [|b rest] eqn:Eb; [now destruct below|].
  assert (Hlen : List.length (b :: rest) - 1 = List.length below).
  { rewrite <- Eb, length_app. cbn. lia. }
  rewrite Hlen, Hdup. now rewrite Nat.eqb_refl.
Qed.

Lemma holds_top (h : store) (t : ltree) :
  value_at t = VRef (top t) -> holds h t -> lookup h (top t) = Some (cell t).
Proof. intros Hv Hh. now apply (holds_parts h t Hv) in Hh. Qed.

(** A container that has grown in the store stays the one the parser is
    reading. *)
Lemma under_grown (st0 st st' : parser_state) (cur cur' : ltree) :
  under st0 st cur ->
  grown (heap st) cur (heap st') cur' ->
  elements st' = elements st ->
  root st' = root st ->
  duplicated st' = duplicated st ->
  under st0 st' cur'.
Proof.
  intros (Eel & Hv & Hlen & Hframe & Hh & Hnd & Hge & Hroot & Hdup)
         (Htop & Hv' & Hh' & Hnd' & Hsub & Hlen' & Hframe') Eel' Eroot Edup.
  rewrite Forall_forall in Hge.
  unfold under. rewrite Eel', Eroot, Edup, Htop. repeat split; auto.
  - now rewrite <- Htop.
  - lia.
  - intros i Hi. rewrite Hframe' by (try lia; intros Hin; specialize (Hge i Hin); lia).
    now apply Hframe.
  - apply Forall_forall. intros i Hi. destruct (Hsub i Hi) as [Hin|Hnew]; [|lia].
    now apply Hge.
Qed.

(** The marker stays out of the way under a container that is being
    read. *)
Lemma quiet_under (strict : bool) (st0 st : parser_state) (cur : ltree) :
  quiet strict st0 -> under st0 st cur -> quiet strict st.
Proof.
  intros Hq (Eel & _ & _ & _ & _ & _ & _ & _ & Hdup). unfold quiet in *.
  rewrite Hdup, Eel, length_app. destruct strict; [|exact Hq].
  destruct (duplicated st0) as [[level existing]|]; [cbn; lia | exact I].
Qed.

Lemma quiet_level (strict : bool) (st0 : parser_state) :
  quiet strict st0 ->
  match duplicated st0 with
  | Some (level, _) => level <> List.length (elements st0)
  | None => True
  end.
Proof.
  unfold quiet. destruct strict.
  - destruct (duplicated st0) as [[level existing]|]; [lia | auto].
  - now intros ->.
Qed.

(** *** One value *)

(** The events of a value, read by a container that takes it. *)
Lemma value_step (x : jtext) (strict : bool) (r : tree) (st0 st : parser_state) (cur : ltree) :
  opens x ->
  collapse strict x = Some r ->
  under st0 st cur ->
  accepts cur ->
  quiet strict st0 ->
  exists st' lt,
    run (events x) st = Ok st'
    /\ under st0 st' (fill cur lt)
    /\ erase lt = r
    /\ (strict = true -> tidy r).
Proof.
  intros Hopen Hr Hu Hacc Hq.
  pose proof Hu as (Eel & Hv & Hlen & Hframe & Hh & Hnd & Hge & Hroot & Hdup).
  pose proof (holds_top _ _ Hv Hh) as Hcell.
  destruct (atom_of x) as [a|] eqn:Ea.
  - destruct (events_atom x a Ea) as [Eev Ecol]. rewrite Ecol in Hr. injection Hr as <-.
    rewrite Eev, run_cons. cbn [handle]. unfold onvalue.
    change (atom_value a) with (value_at (LLeaf a)).
    rewrite (attach_fill st (elements st0) cur (LLeaf a) Eel Hcell Hacc). cbn [bind].
    rewrite run_nil. eexists. exists (LLeaf a). split; [reflexivity|].
    split; [|split; [reflexivity | now destruct a]].
    apply (under_fill st0 st _ cur (LLeaf a) (heap st) Hu Hacc); auto.
    + apply holds_leaf.
    + constructor.
  - destruct (Hopen strict r st Hr Ea (quiet_under strict st0 st cur Hq Hu))
      as (st1 & c & Erun & Hu1 & Herase & Htidy).
    pose proof Hu1 as (Eel1 & Hv1 & Hlen1 & Hframe1 & Hh1 & Hnd1 & Hge1 & Hroot1 & Hdup1).
    destruct (events_body x Ea) as (close & Eev & Eclose).
    rewrite Eev, run_app, Erun. cbn [bind]. rewrite run_cons, Eclose.
    rewrite Eel in Eel1.
    rewrite (onclose_attach st1 (elements st0) (top cur) (top c) Eel1)
      by (rewrite Hdup1, Hdup; now apply (quiet_level strict)).
    rewrite <- Hv1.
    assert (Hcell1 : lookup (heap st1) (top cur) = Some (cell cur)).
    { rewrite Hframe1; [exact Hcell|]. apply (holds_lt _ cur); [exact Hh | now apply top_In]. }
    rewrite (attach_fill
               {| heap := heap st1; elements := elements st0 ++ [top cur]; root := root st1;
                  duplicated := duplicated st1 |}
               (elements st0) cur c eq_refl Hcell1 Hacc).
    cbn [bind].
    rewrite run_nil. eexists. exists c. split; [reflexivity|].
    split; [|split; [exact Herase | exact Htidy]].
    apply (under_fill st0 st _ cur c (heap st1) Hu Hacc); auto.
Qed.

(** *** The items of an array *)

Lemma collapse_items_length (f : jtext -> option tree) (items : list jtext) (rs : list tree) :
  collapse_items f items = Some rs -> List.length rs = List.length items.
Proof.
  revert rs. induction items as [|x items IH]; intros rs; cbn.
  - intros H. now injection H as <-.
  - destruct (f x); [|discriminate]. destruct (collapse_items f items); [|discriminate].
    intros H. injection H as <-. cbn. f_equal. now apply IH.
Qed.

Lemma items_loop (strict : bool) (items : list jtext) :
  Forall opens items ->
  forall (rs : list tree) (st0 st : parser_state) (l : nat) (lts : list ltree),
    collapse_items (collapse strict) items = Some rs ->
    under st0 st (LArr l lts) ->
    quiet strict st0 ->
    exists st' lts',
      run (flat_map events items) st = Ok st'
      /\ under st0 st' (LArr l (lts ++ lts'))
      /\ map erase lts' = rs
      /\ (strict = true -> Forall tidy rs).
Proof.
  induction 1 as [|x items Hx _ IH]; intros rs st0 st l lts Hrs Hu Hq.
  - cbn in Hrs. injection Hrs as <-. exists st, []. rewrite app_nil_r.
    split; [reflexivity|]. split; [exact Hu|]. split; [reflexivity|]. intros _. constructor.
  - cbn in Hrs. destruct (collapse strict x) as [r|] eqn:Er; [|discriminate].
    destruct (collapse_items (collapse strict) items) as [rs'|] eqn:Ers; [|discriminate].
    injection Hrs as <-.
    destruct (value_step x strict r st0 st (LArr l lts) Hx Er Hu I Hq)
      as (st1 & lt & Erun & Hu1 & Herase & Htidy).
    cbn [fill] in Hu1.
    destruct (IH rs' st0 st1 l (lts ++ [lt]) eq_refl Hu1 Hq)
      as (st2 & lts' & Erun2 & Hu2 & Herase2 & Htidy2).
    exists st2, (lt :: lts'). cbn [flat_map]. rewrite run_app, Erun. cbn [bind].
    split; [exact Erun2|]. split; [now rewrite <- app_assoc in Hu2|].
    split; [cbn [map]; congruence|]. intros Hs. constructor; auto.
Qed.

(** *** The members of an object *)

Lemma keyed_snoc (lms : list (str * ltree)) (k : str) (x : ltree) :
  keyed lms -> usable k = true -> ~ In k (map fst lms) -> keyed (lms ++ [(k, x)]).
Proof.
  intros [Hus Hnd] Hk Hnot. split.
  - apply Forall_app. split; [exact Hus|]. now constructor.
  - rewrite map_app. cbn [map fst]. apply NoDup_app; auto.
    + constructor; [intros [] | constructor].
    + intros a Ha [<-|[]]. now apply Hnot.
Qed.

Lemma keyed_put (lms : list (str * ltree)) (k : str) (d x : ltree) :
  keyed lms -> entry k lms = Some d -> keyed (put k x lms).
Proof.
  intros [Hus Hnd] Hd. destruct (put_present k x d lms Hd) as (before & after & E1 & E2).
  rewrite E2. rewrite E1 in Hus, Hnd. split.
  - apply Forall_app in Hus. destruct Hus as [H1 H2]. inversion H2; subst.
    apply Forall_app. split; [exact H1|]. now constructor.
  - rewrite map_app in *. exact Hnd.
Qed.

Lemma present_key {A : Type} (k : str) (d : A) (ms : list (str * A)) :
  entry k ms = Some d -> existsb (str_eqb k) (map fst ms) = true.
Proof.
  induction ms as [|m ms IH]; [discriminate|]. cbn [entry map existsb].
  destruct (str_eqb (fst m) k) eqn:E.
  - intros _. apply str_eqb_eq in E. rewrite E, str_eqb_refl. reflexivity.
  - intros H. rewrite (IH H). apply Bool.orb_true_r.
Qed.

(** A key that comes anew, and its value. *)
Lemma fresh_key (k : str) (v : jtext) (strict : bool) (st0 st : parser_state) (l : nat)
    (lms : list (str * ltree)) (r : tree) :
  opens v ->
  under st0 st (LObj l lms) ->
  keyed lms ->
  quiet strict st0 ->
  usable k = true ->
  entry k lms = None ->
  collapse strict v = Some r ->
  exists st' lt,
    run (Key k :: events v) st = Ok st'
    /\ under st0 st' (LObj l (lms ++ [(k, lt)]))
    /\ erase lt = r
    /\ (strict = true -> tidy r).
Proof.
  intros Hopen Hu Hkeyed Hq Hus Hnone Hr.
  pose proof Hu as (Eel & Hv & Hlen & Hframe & Hh & Hnd & Hge & Hroot & Hdup).
  pose proof (holds_top _ _ Hv Hh) as Hcell. cbn [top] in Eel, Hcell.
  apply entry_absent in Hnone.
  assert (Hkeyed' : keyed (lms ++ [(k, LLeaf ANull)])) by now apply keyed_snoc.
  rewrite run_cons. cbn [handle]. unfold onkey.
  rewrite (current_top st (elements st0) l _ Eel Hcell). cbn [bind].
  rewrite (keys_cell l lms Hkeyed), (absent_key k _ Hnone).
  rewrite (modify_at _ _ _ (cell (LObj l (lms ++ [(k, LLeaf ANull)]))) _ Hcell).
  2:{ cbn [cell set_property]. rewrite (usable_proto k Hus), assign_absent.
      - now rewrite map_app.
      - now rewrite map_map. }
  cbn [bind].
  assert (Hu' : under st0 (with_heap st (update l (cell (LObj l (lms ++ [(k, LLeaf ANull)])))
                                           (heap st)))
                  (LObj l (lms ++ [(k, LLeaf ANull)]))).
  { apply (under_next st0 st _ (LObj l lms) _ (LLeaf ANull) (map snd lms) (heap st) Hu); auto.
    - intros h. reflexivity.
    - cbn [parts]. now rewrite map_app.
    - apply holds_leaf.
    - constructor. }
  assert (Hacc : accepts (LObj l (lms ++ [(k, LLeaf ANull)]))).
  { exists lms, k, ANull. now split. }
  destruct (value_step v strict r st0 _ _ Hopen Hr Hu' Hacc Hq)
    as (st1 & lt & Erun & Hu1 & Herase & Htidy).
  rewrite fill_obj in Hu1. exists st1, lt. auto.
Qed.

(** A key that comes again, and its value: merged into what the key
    holds when the value is closed. *)
Lemma repeated_key (k : str) (v : jtext) (st0 st : parser_state) (l : nat)
    (lms : list (str * ltree)) (d : ltree) (later r : tree) :
  opens v ->
  under st0 st (LObj l lms) ->
  keyed lms ->
  quiet false st0 ->
  entry k lms = Some d ->
  collapse true v = Some later ->
  merged (erase d) later = Some r ->
  exists st' d',
    run (Key k :: events v) st = Ok st'
    /\ under st0 st' (LObj l (put k d' lms))
    /\ erase d' = r.
Proof.
  intros Hopen Hu Hkeyed Hq Hd Hlater Hm.
  pose proof Hu as (Eel & Hv & Hlen & Hframe & Hh & Hnd & Hge & Hroot & Hdup).
  pose proof (holds_top _ _ Hv Hh) as Hcell. cbn [top] in Eel, Hcell.
  unfold quiet in Hq.
  assert (Hvd : value_at d = VRef (top d)).
  { destruct d as [a|dl ds|dl dms]; [|reflexivity|reflexivity]. destruct a; discriminate. }
  assert (Ea : atom_of v = None).
  { destruct (atom_of v) as [a|] eqn:Ea; [|reflexivity].
    destruct (events_atom v a Ea) as [_ Ecol]. rewrite Ecol in Hlater. injection Hlater as <-.
    destruct (erase d), a; discriminate. }
  assert (Hdin : In d (parts (LObj l lms))) by (cbn [parts]; now apply (entry_In k)).
  assert (Hdlocs : forall i, In i (locs d) -> In i (locs (LObj l lms))).
  { intros i Hi. now apply (part_locs _ d). }
  assert (Hlt : forall i, In i (locs (LObj l lms)) -> i < List.length (heap st)).
  { intros i Hi. now apply (holds_lt _ (LObj l lms)). }
  rewrite run_cons. cbn [handle]. unfold onkey.
  rewrite (current_top st (elements st0) l _ Eel Hcell). cbn [bind].
  rewrite (keys_cell l lms Hkeyed), (present_key k d lms Hd).
  assert (Hget : get_property (cell (LObj l lms)) k = value_at d).
  { cbn [cell get_property]. rewrite assoc_entry, (entry_map value_at), Hd. reflexivity. }
  rewrite Hget. cbn [bind].
  assert (Hlevel : List.length (elements st) - 1 = List.length (elements st0)).
  { rewrite Eel, length_app. cbn. lia. }
  rewrite Hlevel.
  assert (Hqm : quiet true {| heap := heap st; elements := elements st; root := root st;
                              duplicated := Some (List.length (elements st0), value_at d) |}).
  { unfold quiet. cbn [duplicated elements]. rewrite Eel, length_app. cbn. lia. }
  destruct (Hopen true later _ Hlater Ea Hqm) as (st1 & c & Erun & Hu1 & Herase & Htidy).
  pose proof Hu1 as (Eel1 & Hv1 & Hlen1 & Hframe1 & Hh1 & Hnd1 & Hge1 & Hroot1 & Hdup1).
  cbn [heap elements root duplicated] in Eel1, Hlen1, Hframe1, Hge1, Hroot1, Hdup1.
  destruct (events_body v Ea) as (close & Eev & Eclose).
  rewrite Eev, run_app, Erun. cbn [bind]. rewrite run_cons, Eclose.
  rewrite Eel in Eel1.
  rewrite (onclose_merge st1 (elements st0) l (top c) (value_at d) Eel1 Hdup1).
  rewrite <- Hv1.
  assert (Hh1cur : holds (heap st1) (LObj l lms)).
  { apply (holds_frame (heap st)); [exact Hh|]. intros i Hi. apply Hframe1. now apply Hlt. }
  assert (Hhd : holds (heap st1) d).
  { apply (holds_parts _ _ Hv) in Hh1cur. destruct Hh1cur as [_ Hall].
    rewrite Forall_forall in Hall. now apply Hall. }
  assert (Hlnot : ~ In l (locs d)).
  { rewrite (locs_parts _ Hv) in Hnd. inversion Hnd as [|? ? Hnot _]; subst.
    intros Hin. apply Hnot. apply in_flat_map. now exists d. }
  assert (Hndd : NoDup (locs d)).
  { rewrite (locs_parts _ Hv) in Hnd. inversion Hnd; subst.
    now apply (NoDup_flat_map_In locs d (parts (LObj l lms))). }
  rewrite Forall_forall in Hge1.
  destruct (merge_spec (heap st1) d c r Hvd Hv1 Hhd Hh1 Hndd Hnd1)
    as (h' & d' & Emerge & Hgrown & Herase').
  { intros i Hi Hic. specialize (Hge1 i Hic). specialize (Hlt i (Hdlocs i Hi)). lia. }
  { rewrite Herase. now apply Htidy. }
  { now rewrite Herase. }
  rewrite Emerge. cbn [bind]. rewrite run_nil.
  eexists. exists d'. split; [reflexivity|]. split; [|exact Herase'].
  pose proof Hgrown as (Htop' & Hv' & Hh' & Hnd' & Hsub' & Hlen' & Hframe').
  destruct (put_split k d' lms) as (before & after & Hparts & Hparts1). rewrite Hd in Hparts.
  apply (under_grown st0 st _ (LObj l lms) _ Hu).
  - cbn [heap].
    apply (regrow (heap st) (LObj l lms) (heap st1) h' (LObj l lms) (LObj l (put k d' lms))
             (Some d) d' (map snd before) (map snd after)).
    + repeat split; auto.
    + now apply top_In.
    + reflexivity.
    + reflexivity.
    + exact Hparts.
    + exact Hparts1.
    + cbn [top].
      assert (Ecell : cell (LObj l (put k d' lms)) = cell (LObj l lms)).
      { cbn [cell]. f_equal. rewrite <- (put_map value_at), Hv', Htop', <- Hvd.
        rewrite (put_map value_at). now rewrite (put_same k d lms Hd). }
      rewrite Ecell, Hframe'.
      * rewrite Hframe1; [exact Hcell | apply Hlt, (top_In _ Hv)].
      * pose proof (Hlt l (top_In _ Hv)). lia.
      * exact Hlnot.
    + exact Hh'.
    + exact Hnd'.
    + exact Hsub'.
    + exact Hlen'.
    + intros i Hi _ Hnot. now apply Hframe'.
  - cbn [elements]. now symmetry.
  - exact Hroot1.
  - cbn [duplicated]. now rewrite Hdup, Hq.
Qed.

Lemma members_loop (strict : bool) (members : list (str * jtext)) :
  Forall (fun m => opens (snd m)) members ->
  forall (acc res : list (str * tree)) (st0 st : parser_state) (l : nat)
         (lms : list (str * ltree)),
    collapse_members strict collapse members acc = Some res ->
    under st0 st (LObj l lms) ->
    keyed lms ->
    map (fun m => (fst m, erase (snd m))) lms = acc ->
    quiet strict st0 ->
    (strict = true -> Forall (fun m => tidy (snd m)) acc) ->
    exists st' lms',
      run (flat_map (fun m => Key (fst m) :: events (snd m)) members) st = Ok st'
      /\ under st0 st' (LObj l lms')
      /\ keyed lms'
      /\ map (fun m => (fst m, erase (snd m))) lms' = res
      /\ (strict = true -> Forall (fun m => tidy (snd m)) res).
Proof.
  induction 1 as [|[k v] members Hv _ IH]; intros acc res st0 st l lms Hres Hu Hkeyed Hacc Hq Htidy.
  - cbn in Hres. injection Hres as <-. exists st, lms. rewrite run_nil. auto.
  - cbn [snd] in Hv. cbn in Hres. cbn [flat_map fst snd].
    change (Key k :: events v ++ ?rest) with ((Key k :: events v) ++ rest).
    rewrite run_app.
    destruct (usable k) eqn:Hus; [|discriminate].
    subst acc. rewrite entry_map in Hres.
    destruct (entry k lms) as [d|] eqn:Hd; cbn [option_map] in Hres.
    + destruct strict; [discriminate|].
      destruct (collapse true v) as [later|] eqn:Hlater; [|discriminate].
      destruct (merged (erase d) later) as [r|] eqn:Hm; [|discriminate].
      destruct (repeated_key k v st0 st l lms d later r Hv Hu Hkeyed Hq Hd Hlater Hm)
        as (st1 & d' & Erun & Hu1 & Herase).
      rewrite Erun. cbn [bind].
      apply (IH (put k r (map (fun m => (fst m, erase (snd m))) lms)) res st0 st1 l
               (put k d' lms) Hres Hu1).
      * now apply (keyed_put lms k d).
      * rewrite <- Herase. symmetry. apply put_map.
      * exact Hq.
      * discriminate.
    + destruct (collapse strict v) as [r|] eqn:Hr; [|discriminate].
      destruct (fresh_key k v strict st0 st l lms r Hv Hu Hkeyed Hq Hus Hd Hr)
        as (st1 & lt & Erun & Hu1 & Herase & Htidy1).
      rewrite Erun. cbn [bind].
      apply (IH (map (fun m => (fst m, erase (snd m))) lms ++ [(k, r)]) res st0 st1 l
               (lms ++ [(k, lt)]) Hres Hu1).
      * apply keyed_snoc; auto. now apply entry_absent.
      * rewrite map_app. cbn [map fst snd]. now rewrite Herase.
      * exact Hq.
      * intros Hs. apply Forall_app. split; [now apply Htidy|].
        constructor; [now apply Htidy1 | constructor].
Qed.

(** *** Arrays and objects up to the closing bracket *)

Lemma run_open (t : jtext) : opens t.
Proof.
  induction t as [| | | |items IH|members IH] using jtext_nested_ind;
    intros strict r st0 Hr Ea Hq; try discriminate.
  - cbn [collapse] in Hr.
    destruct (N.of_nat (List.length items) <? array_limit)%N eqn:Hlim; [|discriminate].
    destruct (collapse_items (collapse strict) items) as [rs|] eqn:Hrs; [|discriminate].
    cbn [option_map] in Hr. injection Hr as <-.
    cbn [body]. rewrite run_cons. cbn [handle]. unfold onopenarray, alloc. cbn [bind].
    assert (Hu0 : under st0
                    {| heap := heap st0 ++ [Arr []];
                       elements := elements st0 ++ [List.length (heap st0)];
                       root := root st0; duplicated := duplicated st0 |}
                    (LArr (List.length (heap st0)) [])).
    { apply under_open; reflexivity. }
    destruct (items_loop strict items IH rs st0 _ _ [] Hrs Hu0 Hq)
      as (st' & lts & Erun & Hu & Herase & Htidy).
    exists st', (LArr (List.length (heap st0)) lts).
    split; [exact Erun|]. split; [exact Hu|]. split.
    + cbn [erase]. now rewrite Herase.
    + intros Hs. apply tidy_arr. split; [|auto].
      rewrite (collapse_items_length _ _ _ Hrs). now apply N.ltb_lt.
  - destruct members as [|[k v] members]; [discriminate|].
    cbn [collapse] in Hr.
    destruct (collapse_members strict collapse ((k, v) :: members) []) as [res|] eqn:Hres;
      [|discriminate].
    cbn [option_map] in Hr. injection Hr as <-.
    cbn in Hres. destruct (usable k) eqn:Hus; [|discriminate].
    destruct (collapse strict v) as [r1|] eqn:Hr1; [|discriminate].
    inversion IH as [|? ? Hv IHm]; subst. cbn [snd] in Hv.
    cbn [body]. rewrite run_cons. cbn [handle]. unfold onopenobject.
    cbn [set_property]. rewrite (usable_proto k Hus). cbn [bind assign alloc].
    assert (Hu0 : under st0
                    {| heap := heap st0 ++ [Obj [(k, VNull)]];
                       elements := elements st0 ++ [List.length (heap st0)];
                       root := root st0; duplicated := duplicated st0 |}
                    (LObj (List.length (heap st0)) [(k, LLeaf ANull)])).
    { apply under_open; reflexivity. }
    assert (Hacc : accepts (LObj (List.length (heap st0)) [(k, LLeaf ANull)])).
    { exists [], k, ANull. split; [reflexivity|]. split.
      - now constructor.
      - constructor; [intros [] | constructor]. }
    rewrite run_app.
    destruct (value_step v strict r1 st0 _ _ Hv Hr1 Hu0 Hacc Hq)
      as (st1 & lt & Erun & Hu1 & Herase & Htidy1).
    rewrite Erun. cbn [bind].
    change (fill (LObj (List.length (heap st0)) [(k, LLeaf ANull)]) lt)
      with (LObj (List.length (heap st0)) [(k, lt)]) in Hu1.
    destruct (members_loop strict members IHm [(k, r1)] res st0 st1 _ [(k, lt)] Hres Hu1)
      as (st' & lms' & Erun' & Hu' & Hkeyed' & Herase' & Htidy').
    + split; [now constructor | constructor; [intros [] | constructor]].
    + cbn [map fst snd]. now rewrite Herase.
    + exact Hq.
    + intros Hs. constructor; [now apply Htidy1 | constructor].
    + exists st', (LObj (List.length (heap st0)) lms').
      split; [exact Erun'|]. split; [exact Hu'|]. split.
      * cbn [erase]. now rewrite Herase'.
      * intros Hs. apply tidy_obj. destruct Hkeyed' as [Hk1 Hk2]. rewrite <- Herase'.
        split; [now rewrite Forall_map|]. split; [now rewrite map_map|].
        rewrite Herase'. now apply Htidy'.
Qed.

(** *** The whole text *)

(** An array or an object read to its end: the parser's root refers to
    the tree [collapse] gives, which lies in the store. *)
Lemma run_container (source : jtext) (r0 : tree) :
  atom_of source = None ->
  collapse false source = Some r0 ->
  exists st cur,
    run (events source) initial = Ok st
    /\ root st = VRef (top cur)
    /\ value_at cur = VRef (top cur)
    /\ holds (heap st) cur
    /\ NoDup (locs cur)
    /\ erase cur = r0.
Proof.
  intros Ea Hr.
  destruct (run_open source false r0 initial Hr Ea eq_refl)
    as (st & cur & Erun & Hu & Herase & _).
  destruct Hu as (Eel & Hv & _ & _ & Hh & Hnd & _ & Hroot & Hdup).
  destruct (events_body source Ea) as (close & Eev & Eclose).
  rewrite Eev, run_app, Erun. cbn [bind].
  rewrite run_cons, Eclose, (onclose_root st (top cur) Eel). cbn [bind]. rewrite run_nil.
  eexists. exists cur. split; [reflexivity|]. cbn [heap root]. auto.
Qed.

(** What [parseJson] returns for an array or an object: the object, or
    the first element of the array. *)
Lemma parsed_collapse (source : jtext) (r0 : tree) :
  atom_of source = None ->
  collapse false source = Some r0 ->
  parsed source
  = Ok (Some match r0 with
             | TArr (first :: _) => first
             | TArr [] => TUndefined
             | _ => r0
             end).
Proof.
  intros Ea Hr0.
  destruct (run_container source r0 Ea Hr0)
    as (st & cur & Erun & Hroot & Hv & Hh & Hnd & Herase).
  unfold parsed, parseJson.
  destruct source as [| | | |items|members]; try discriminate;
    rewrite Erun; cbn [bind]; rewrite Hroot, (holds_top _ _ Hv Hh);
    (destruct cur as [a|l lts|l lms]; [destruct a; discriminate | |]);
    cbn [erase] in Herase; subst r0; cbn [cell bind fst snd].
  - destruct lts as [|x lts]; cbn [map nth]; [reflexivity|]. do 2 f_equal.
    apply (holds_parts _ _ Hv) in Hh. destruct Hh as [_ Hall]. cbn [parts] in Hall.
    inversion Hall as [|? ? Hx _]; subst.
    rewrite (locs_parts _ Hv) in Hnd. cbn [parts flat_map] in Hnd.
    inversion Hnd as [|? ? _ Hrest]; subst.
    apply tree_of_holds; [exact Hx|]. now apply NoDup_app_remove_r in Hrest.
  - cbn [collapse] in Hr0.
    destruct (N.of_nat (List.length items) <? array_limit)%N; [|discriminate].
    destruct (collapse_items (collapse false) items); discriminate.
  - destruct members as [|m members]; [discriminate|]. cbn [collapse] in Hr0.
    destruct (collapse_members false collapse (m :: members) []); discriminate.
  - f_equal. apply (tree_of_holds _ (LObj l lms) Hh Hnd).
Qed.


(** [{"a":1,"a":2,"b":{"c":3}}] is read to [{"a":2,"b":null}]: the marker
    the second [a] left is met by the object of [b], which is merged into
    the number and lost. *)
Lemma duplicate_scalar_drops_next_container :
  parsed ex_stale_marker
  = Ok (Some (plain (JObject [(lit "a", num 2); (lit "b", JNull)]))).
Proof. vm_compute. reflexivity. Qed.



(** *** Texts without repeated keys *)

Import JsonMoreSpec.

Lemma distinct_NoDup (keys : list str) : distinct keys = true -> NoDup keys.
Proof.
  induction keys as [|k keys IH]; [constructor|]. cbn [distinct].
  intros H. apply andb_prop in H. destruct H as [Hk Hrest].
  constructor; [|now apply IH]. intros Hin.
  apply Bool.negb_true_iff in Hk.
  assert (Hex : existsb (str_eqb k) keys = true).
  { apply existsb_exists. exists k. split; [exact Hin | apply str_eqb_refl]. }
  congruence.
Qed.

Lemma collapse_items_plain (strict : bool) (items : list jtext) :
  Forall (fun x => collapse strict x = Some (plain x)) items ->
  collapse_items (collapse strict) items = Some (map plain items).
Proof.
  induction 1 as [|x items Hx _ IH]; [reflexivity|]. cbn. cbn in IH. now rewrite Hx, IH.
Qed.

Lemma collapse_members_plain (strict : bool) (members : list (str * jtext)) :
  forall acc : list (str * tree),
    Forall (fun m => usable (fst m) = true) members ->
    NoDup (map fst acc ++ map fst members) ->
    Forall (fun m => collapse strict (snd m) = Some (plain (snd m))) members ->
    collapse_members strict collapse members acc
    = Some (acc ++ map (fun m => (fst m, plain (snd m))) members).
Proof.
  induction members as [|[k v] members IH]; intros acc Hus Hnd Hall.
  - cbn. now rewrite app_nil_r.
  - inversion Hus as [|? ? Hk Hus']; subst. inversion Hall as [|? ? Hv Hall']; subst.
    cbn [fst snd] in Hk, Hv. cbn [map fst] in Hnd.
    assert (Hfresh : entry k acc = None).
    { apply entry_absent. intros Hin. apply NoDup_remove_2 in Hnd. apply Hnd.
      apply in_or_app. now left. }
    cbn [collapse_members fst snd]. rewrite Hk, Hfresh, Hv.
    change (collapse_members strict collapse members (acc ++ [(k, plain v)])
            = Some (acc ++ (k, plain v) :: map (fun m => (fst m, plain (snd m))) members)).
    rewrite (IH (acc ++ [(k, plain v)]) Hus'); [now rewrite <- app_assoc | | exact Hall'].
    rewrite map_app. cbn [map fst]. rewrite <- app_assoc. exact Hnd.
Qed.

Lemma regular_collapse (t : jtext) :
  forall strict, regular t = true -> collapse strict t = Some (plain t).
Proof.
  induction t as [| | | |items IH|members IH] using jtext_nested_ind;
    intros strict Hreg; try reflexivity.
  - cbn [regular] in Hreg. apply andb_prop in Hreg. destruct Hreg as [Hlim Hall].
    cbn [collapse plain]. rewrite Hlim.
    rewrite (collapse_items_plain strict items); [reflexivity|].
    rewrite forallb_forall in Hall. rewrite Forall_forall in *.
    intros x Hx. apply (IH x Hx). now apply Hall.
  - cbn [regular] in Hreg.
    apply andb_prop in Hreg. destruct Hreg as [Hreg Hall].
    apply andb_prop in Hreg. destruct Hreg as [Hreg Hdist].
    apply andb_prop in Hreg. destruct Hreg as [Hne Hus].
    destruct members as [|m members]; [discriminate|].
    cbn [collapse plain].
    rewrite (collapse_members_plain strict (m :: members) []); [reflexivity | | |].
    + apply Forall_forall. intros x Hx. rewrite forallb_forall in Hus. now apply Hus.
    + cbn [app map]. now apply distinct_NoDup.
    + rewrite forallb_forall in Hall. rewrite Forall_forall in *.
      intros x Hx. apply (IH x Hx). now apply Hall.
Qed.

(** X4.  [parseJson] on a text without repeated keys returns the value the
    text spells, member by member, and of a text that is an array its first
    element; a text that is a scalar is refused. *)
Theorem regular_text_is_read_plainly (source : jtext) :
  regular source = true ->
  parsed source
  = match source with
    | JObject _ => Ok (Some (plain source))
    | JArray (first :: _) => Ok (Some (plain first))
    | JArray [] => Ok (Some TUndefined)
    | _ => Throw rejected
    end.
Proof.
  intros Hreg.
  destruct source as [| | | |items|members]; try reflexivity.
  - rewrite (parsed_collapse (JArray items) _ eq_refl (regular_collapse _ false Hreg)).
    cbn [plain]. now destruct items.
  - rewrite (parsed_collapse (JObject members) _ eq_refl (regular_collapse _ false Hreg)).
    reflexivity.
Qed.

Lemma regular_text_is_read_plainly_witness :
  regular ex_plain_plan = true
  /\ parsed ex_plain_plan = Ok (Some (plain ex_workers_merged)).
Proof.
  assert (H : regular ex_plain_plan = true) by (vm_compute; reflexivity).
  split; [exact H | exact (regular_text_is_read_plainly ex_plain_plan H)].
Defined.

End JsonFacts.

(** * The text parser (C7, C9) *)

Module TextFacts.
Import Regex Store JSLib Text TextSpec StoreFacts.

Unset Implicit Arguments.
Local Open Scope nat_scope.

(** *** Writes to one object *)

Lemma writes_ret {A : Type} (n : nat) (a : A) : writes n a (ret a).
Proof. intros h ps Hl. exists ps. unfold ret. now rewrite (update_same _ _ _ Hl). Qed.

Lemma setp_at (h : store) (n : nat) (ps : list (str * value)) (key : str) (v : value) :
  str_eqb key proto = false ->
  lookup h n = Some (Obj ps) ->
  setp n key v h = Ok (update n (Obj (assign key v ps)) h, tt).
Proof.
  intros Hkey Hl. unfold setp.
  rewrite (modify_at h n (Obj ps) (Obj (assign key v ps)) _ Hl); [reflexivity|].
  cbn [set_property]. now rewrite Hkey.
Qed.

Lemma writes_setp (n : nat) (key : str) (v : value) :
  str_eqb key proto = false -> writes n tt (setp n key v).
Proof. intros Hkey h ps Hl. exists (assign key v ps). now apply setp_at. Qed.

Lemma writes_bind {A B : Type} (n : nat) (a : A) (b : B) (c : M A) (k : A -> M B) :
  writes n a c -> writes n b (k a) -> writes n b (mbind c k).
Proof.
  intros Hc Hk h ps Hl. destruct (Hc h ps Hl) as [ps1 E1].
  destruct (Hk (update n (Obj ps1) h) ps1) as [ps2 E2].
  { apply lookup_update. exact (lookup_lt _ _ _ Hl). }
  exists ps2. unfold mbind. rewrite E1, E2. now rewrite update_update.
Qed.

Lemma writes_whenM (n : nat) (b : bool) (c : M unit) :
  writes n tt c -> writes n tt (whenM b c).
Proof. intros Hc. destruct b; [exact Hc | apply writes_ret]. Qed.

Ltac writes_one :=
  lazymatch goal with
  | |- writes _ _ (ret _) => apply writes_ret
  | |- writes _ _ (setp _ _ _) => apply writes_setp; reflexivity
  | |- writes _ _ (whenM _ _) => apply writes_whenM; writes_one
  | |- writes _ _ (mbind _ _) => eapply writes_bind; [writes_one | cbv beta; writes_one]
  end.

(** A node line always builds its node, as a new object. *)
Lemma buildNode_allocates (nodeMatches : found) (h : store) :
  exists ps, buildNode nodeMatches h = Ok (h ++ [Obj ps], List.length h).
Proof.
  unfold buildNode, newNode.
  match goal with
  | |- exists ps, mbind (new ?o) ?k h = _ =>
      assert (Hk : writes (List.length h) (List.length h) (k (List.length h)))
  end.
  { cbv beta. writes_one. }
  destruct (Hk (h ++ [Obj [(NODE_TYPE, match group 2 nodeMatches with
                                       | Some s => VStr s
                                       | None => VUndefined
                                       end)]]) _ (lookup_alloc _ _)) as [ps E].
  exists ps. unfold mbind at 1. unfold new, alloc. rewrite E. now rewrite update_alloc.
Qed.

(** *** Never executed (C9) *)

Lemma buildNode_never_executed (nodeMatches : found) (h : store) :
  present (group 13 nodeMatches) = true ->
  exists ps,
    buildNode nodeMatches h = Ok (h ++ [Obj ps], List.length h)
    /\ assoc ACTUAL_LOOPS ps = Some (VNum zero)
    /\ assoc ACTUAL_ROWS ps = Some (VNum zero)
    /\ assoc ACTUAL_TOTAL_TIME ps = Some (VNum zero).
Proof.
  intros Hnever. unfold buildNode, newNode. rewrite Hnever.
  unfold mbind at 1. unfold new, alloc.
  set (n := List.length h).
  set (h0 := h ++ [Obj _]).
  assert (Hl0 : lookup h0 n = Some (Obj [(NODE_TYPE, match group 2 nodeMatches with
                                                     | Some s => VStr s
                                                     | None => VUndefined
                                                     end)]))
    by apply lookup_alloc.
  assert (Hlt : n < List.length h0) by exact (lookup_lt _ _ _ Hl0).
  revert Hl0. generalize [(NODE_TYPE, match group 2 nodeMatches with
                                      | Some s => VStr s
                                      | None => VUndefined
                                      end)].
  intros ps0 Hl0.
  (* the estimate, the times, the rows and loops *)
  match goal with
  | |- context [mbind (whenM ?b ?c) ?k h0] =>
      destruct (writes_whenM n b c ltac:(writes_one) h0 ps0 Hl0) as [ps1 E1];
      unfold mbind at 1; rewrite E1
  end.
  assert (Hl1 : lookup (update n (Obj ps1) h0) n = Some (Obj ps1))
    by (apply lookup_update; exact Hlt).
  match goal with
  | |- context [mbind (whenM ?b ?c) ?k (update n (Obj ps1) h0)] =>
      destruct (writes_whenM n b c ltac:(writes_one) _ ps1 Hl1) as [ps2 E2];
      unfold mbind at 1; rewrite E2
  end.
  rewrite update_update.
  assert (Hl2 : lookup (update n (Obj ps2) h0) n = Some (Obj ps2))
    by (apply lookup_update; exact Hlt).
  match goal with
  | |- context [mbind (whenM ?b ?c) ?k (update n (Obj ps2) h0)] =>
      destruct (writes_whenM n b c ltac:(writes_one) _ ps2 Hl2) as [ps3 E3];
      unfold mbind at 1; rewrite E3
  end.
  rewrite update_update.
  assert (Hl3 : lookup (update n (Obj ps3) h0) n = Some (Obj ps3))
    by (apply lookup_update; exact Hlt).
  (* never executed *)
  cbn [whenM]. unfold mbind.
  rewrite (setp_at _ n ps3 ACTUAL_LOOPS _ eq_refl Hl3), update_update.
  rewrite (setp_at _ n _ ACTUAL_ROWS _ eq_refl (lookup_update _ _ _ Hlt)), update_update.
  rewrite (setp_at _ n _ ACTUAL_TOTAL_TIME _ eq_refl (lookup_update _ _ _ Hlt)), update_update.
  eexists. split.
  - unfold ret. subst h0 n. rewrite update_alloc. reflexivity.
  - rewrite assoc_assign.
    rewrite !(assoc_assign_other ACTUAL_ROWS ACTUAL_TOTAL_TIME) by discriminate.
    rewrite !(assoc_assign_other ACTUAL_LOOPS ACTUAL_TOTAL_TIME) by discriminate.
    rewrite assoc_assign.
    rewrite !(assoc_assign_other ACTUAL_LOOPS ACTUAL_ROWS) by discriminate.
    rewrite assoc_assign.
    repeat split.
Qed.

(** Where group 13 holds the words, the node gets the three zeros, whatever
    the groups before wrote. *)
Lemma never_executed_after_estimate (nodeMatches : found) (h : store) :
  present (group 13 nodeMatches) = true ->
  built (buildNode nodeMatches h) ACTUAL_LOOPS = Some (VNum zero)
  /\ built (buildNode nodeMatches h) ACTUAL_ROWS = Some (VNum zero)
  /\ built (buildNode nodeMatches h) ACTUAL_TOTAL_TIME = Some (VNum zero).
Proof.
  intros Hnever.
  destruct (buildNode_never_executed nodeMatches h Hnever) as (ps & E & H1 & H2 & H3).
  rewrite E. unfold built. rewrite lookup_alloc. cbn [get_property].
  now rewrite H1, H2, H3.
Qed.

Lemma never_executed_with_cost_example :
  match nodeMatch (snd (strip (lit ex_never_executed_with_cost))) with
  | Some m =>
      built (buildNode m empty_root) ACTUAL_LOOPS = Some (VNum zero)
      /\ built (buildNode m empty_root) ACTUAL_ROWS = Some (VNum zero)
      /\ built (buildNode m empty_root) ACTUAL_TOTAL_TIME = Some (VNum zero)
  | None => False
  end.
Proof.
  destruct (nodeMatch (snd (strip (lit ex_never_executed_with_cost)))) as [m|] eqn:E;
    [|vm_compute in E; discriminate E].
  apply never_executed_after_estimate.
  vm_compute in E. injection E as <-. reflexivity.
Defined.

(** C9: the code departs from the claim.  On a node line without the cost
    estimate the words never executed are captured by group 24, group 13
    stays unset, and the node gets none of actual_loops, actual_rows and
    actual_total_time; [fromText] returns such a child with its node type
    only. *)
Theorem never_executed_without_estimate_is_lost :
  match nodeMatch (snd (strip (lit ex_never_executed))) with
  | Some m =>
      group 24 m = Some (lit "never executed")
      /\ group 13 m = None
      /\ built (buildNode m empty_root) ACTUAL_LOOPS = Some VUndefined
      /\ built (buildNode m empty_root) ACTUAL_ROWS = Some VUndefined
      /\ built (buildNode m empty_root) ACTUAL_TOTAL_TIME = Some VUndefined
  | None => False
  end
  /\ returned (fromText ex_never_executed_plan) = Some ex_never_executed_tree.
Proof. split; vm_compute; repeat split. Qed.

(** *** The root plan (C7) *)

Lemma leaves_ret {A : Type} (keys : list str) (n : nat) (a : A) : leaves keys n a (ret a).
Proof.
  intros h ps Hl. exists ps. unfold ret. now rewrite (update_same _ _ _ Hl).
Qed.

Lemma leaves_setp (keys : list str) (n : nat) (key : str) (v : value) :
  str_eqb key proto = false ->
  forallb (fun k => negb (str_eqb key k)) keys = true ->
  leaves keys n tt (setp n key v).
Proof.
  intros Hkey Hother h ps Hl. exists (assign key v ps). split; [now apply setp_at|].
  intros k Hk. apply assoc_assign_other. intros ->.
  rewrite forallb_forall in Hother. specialize (Hother k Hk).
  now rewrite str_eqb_refl in Hother.
Qed.

Lemma leaves_bind {A B : Type} (keys : list str) (n : nat) (a : A) (b : B) (c : M A)
    (k : A -> M B) :
  leaves keys n a c -> leaves keys n b (k a) -> leaves keys n b (mbind c k).
Proof.
  intros Hc Hk h ps Hl. destruct (Hc h ps Hl) as (ps1 & E1 & K1).
  destruct (Hk (update n (Obj ps1) h) ps1) as (ps2 & E2 & K2).
  { apply lookup_update. exact (lookup_lt _ _ _ Hl). }
  exists ps2. split.
  - unfold mbind. rewrite E1, E2. now rewrite update_update.
  - intros key Hin. now rewrite K2, K1.
Qed.

Lemma leaves_whenM (keys : list str) (n : nat) (b : bool) (c : M unit) :
  leaves keys n tt c -> leaves keys n tt (whenM b c).
Proof. intros Hc. destruct b; [exact Hc | apply leaves_ret]. Qed.

Ltac leaves_one :=
  lazymatch goal with
  | |- leaves _ _ _ (ret _) => apply leaves_ret
  | |- leaves _ _ _ (setp _ _ _) => apply leaves_setp; reflexivity
  | |- leaves _ _ _ (whenM _ _) => apply leaves_whenM; leaves_one
  | |- leaves _ _ _ (mbind _ _) => eapply leaves_bind; [leaves_one | cbv beta; leaves_one]
  end.

(** A node line builds its node as a new object, with its type and without
    children. *)
Lemma buildNode_fresh (nodeMatches : found) (h : store) :
  exists ps,
    buildNode nodeMatches h = Ok (h ++ [Obj ps], List.length h)
    /\ assoc NODE_TYPE ps = Some (strOf (group 2 nodeMatches))
    /\ assoc PLANS ps = None.
Proof.
  unfold buildNode, newNode.
  match goal with
  | |- exists ps, mbind (new ?o) ?k h = _ /\ _ =>
      assert (Hk : leaves [NODE_TYPE; PLANS] (List.length h) (List.length h)
                     (k (List.length h)))
  end.
  { cbv beta. leaves_one. }
  destruct (Hk (h ++ [Obj [(NODE_TYPE, match group 2 nodeMatches with
                                       | Some s => VStr s
                                       | None => VUndefined
                                       end)]]) _ (lookup_alloc _ _)) as (ps & E & K).
  exists ps. split; [|split].
  - unfold mbind at 1. unfold new, alloc. rewrite E. now rewrite update_alloc.
  - rewrite (K NODE_TYPE) by (now left). reflexivity.
  - rewrite (K PLANS) by (right; now left). reflexivity.
Qed.

Lemma skipped_step (root : nat) (es : list ElementAtDepth) (line : str) :
  kind_of line = Skipped -> processLine root es line = ret es.
Proof.
  unfold kind_of, processLine. destruct (strip line) as [depth l].
  destruct (skipped_line l); [reflexivity|]. destruct (nodeMatch l); discriminate.
Qed.

Lemma node_step (root : nat) (es : list ElementAtDepth) (line : str) (depth : nat)
    (nodeMatches : found) :
  kind_of line = NodeLine depth nodeMatches ->
  processLine root es line = nodeLine nodeMatches depth root es.
Proof.
  unfold kind_of, processLine. destruct (strip line) as [d l].
  destruct (skipped_line l); [discriminate|].
  destruct (nodeMatch l); [|discriminate]. intros E. now injection E as -> ->.
Qed.

Lemma getp_at (h : store) (l : nat) (o : object) (key : str) :
  lookup h l = Some o -> getp l key h = Ok (h, get_property o key).
Proof. intros Hl. unfold getp, mbind, read, ret. now rewrite Hl. Qed.

(** The first node line becomes the root plan. *)
Lemma first_node_line (root : nat) (ps : list (str * value)) (h : store) (depth : nat)
    (nodeMatches : found) :
  lookup h root = Some (Obj ps) ->
  exists h' es,
    nodeLine nodeMatches depth root [] h = Ok (h', es)
    /\ rooted root depth (List.length h) (strOf (group 2 nodeMatches)) h' es.
Proof.
  intros Hl. unfold nodeLine. cbn [List.length Nat.eqb].
  destruct (buildNode_fresh nodeMatches h) as (psn & E & Htype & Hplans).
  unfold mbind at 1. rewrite E.
  pose proof (lookup_lt _ _ _ Hl) as Hlt.
  unfold mbind. rewrite (setp_at _ root ps (lit "Plan") _ eq_refl (lookup_app_l _ _ _ _ Hl)).
  unfold ret. cbn [app]. eexists. eexists. split; [reflexivity|].
  assert (Hn : lookup (update root (Obj (assign (lit "Plan") (VRef (List.length h)) ps))
                         (h ++ [Obj psn])) (List.length h) = Some (Obj psn)).
  { rewrite lookup_update_other by lia. apply lookup_alloc. }
  repeat split.
  - eexists. exists []. repeat split. constructor.
  - constructor; [|constructor]. repeat split; cbn [snd node subelementType]; [lia|].
    exists psn. split; [exact Hn|]. now rewrite Hplans.
  - eexists. split.
    + apply lookup_update. rewrite length_app. lia.
    + apply assoc_assign.
  - exists psn. split; [exact Hn | exact Htype].
Qed.

Lemma lastElement_cons (e : ElementAtDepth) (es : list ElementAtDepth) (h : store) :
  exists p, lastElement (e :: es) h = Ok (h, snd p) /\ In p (e :: es).
Proof.
  unfold lastElement. revert e. induction es as [|z es IH]; intros e.
  - exists e. split; [reflexivity | now left].
  - destruct (IH z) as (p & E & Hin). exists p. split; [exact E | now right].
Qed.

(** What a store must keep of another for the elements to stay attached:
    the objects but [np], and that an array is an array. *)
Lemma attached_kept (h h' : store) (root np : nat) (ps' : list (str * value))
    (e : ElementAtDepth) :
  (forall l ps, l <> np -> lookup h l = Some (Obj ps) -> lookup h' l = Some (Obj ps)) ->
  (forall l items, lookup h l = Some (Arr items) -> exists items', lookup h' l = Some (Arr items')) ->
  lookup h' np = Some (Obj ps') ->
  (exists a items, assoc PLANS ps' = Some (VRef a) /\ lookup h' a = Some (Arr items)) ->
  attached h root e -> attached h' root e.
Proof.
  intros Hobj Harr Hnp (a & items & Ha & Hla) (Hsub & Hroot & ps & Hl & Hplans).
  split; [exact Hsub|]. split; [exact Hroot|].
  destruct (Nat.eq_dec (node (snd e)) np) as [->|Hne].
  - exists ps'. split; [exact Hnp|]. rewrite Ha. now exists items.
  - exists ps. split; [now apply Hobj|].
    destruct (assoc PLANS ps) as [[| | | | |a']|]; try exact Hplans.
    destruct Hplans as [items' Hl']. now apply Harr in Hl'.
Qed.

(** A node line indented deeper than the first one is attached below the
    element before it, and leaves the root plan as it is. *)
Lemma deeper_node_line (root d0 n0 : nat) (type : value) (h : store)
    (es : list ElementAtDepth) (depth : nat) (nodeMatches : found) :
  rooted root d0 n0 type h es ->
  d0 < depth ->
  exists h' es',
    nodeLine nodeMatches depth root es h = Ok (h', es')
    /\ rooted root d0 n0 type h' es'.
Proof.
  intros ((e0 & rest & -> & Hn0 & Hdeep) & Hatt & (psr & Hroot & Hplan) & (ps0 & Hl0 & Htype)) Hd.
  unfold nodeLine. cbn [List.length Nat.eqb].
  destruct (buildNode_fresh nodeMatches h) as (psn & E & Htypen & Hplansn).
  unfold mbind at 1. rewrite E.
  set (n := List.length h). set (h1 := h ++ [Obj psn]).
  assert (Hk1 : forall l o, lookup h l = Some o -> lookup h1 l = Some o)
    by (intros l o; apply lookup_app_l).
  assert (Hrm : removeDeeper depth ((d0, e0) :: rest)
                = (d0, e0) :: removeDeeper depth rest).
  { unfold removeDeeper. cbn [filter fst].
    destruct (depth <=? d0) eqn:Ele; [apply Nat.leb_le in Ele; lia | reflexivity]. }
  rewrite Hrm.
  destruct (lastElement_cons (d0, e0) (removeDeeper depth rest) h1) as (p & Elast & Hin).
  unfold ElementAtDepth in *. unfold mbind at 1. rewrite Elast.
  assert (Hp : attached h root p).
  { rewrite Forall_forall in Hatt. apply Hatt.
    destruct Hin as [<-|Hin]; [now left | right].
    unfold removeDeeper in Hin. now apply filter_In in Hin. }
  destruct Hp as (Hsub & Hnr & psp & Hlp & Hplansp).
  set (np := node (snd p)) in *.
  pose proof (lookup_lt _ _ _ Hlp) as Hltp.
  pose proof (lookup_lt _ _ _ Hroot) as Hltr.
  pose proof (lookup_lt _ _ _ Hl0) as Hlt0.
  unfold mbind at 1. rewrite (getp_at h1 np (Obj psp) PLANS (Hk1 _ _ Hlp)). cbn [get_property].
  assert (Hstep :
    exists h3 a items psp',
      h3 = update a (Arr (items ++ [VRef n])) h3 /\
      (forall l ps, l <> np -> lookup h l = Some (Obj ps) -> lookup h3 l = Some (Obj ps)) /\
      (forall l items0, lookup h l = Some (Arr items0) ->
                        exists items', lookup h3 l = Some (Arr items')) /\
      lookup h3 np = Some (Obj psp') /\
      assoc PLANS psp' = Some (VRef a) /\
      (forall key, key <> PLANS -> assoc key psp' = assoc key psp) /\
      lookup h3 a = Some (Arr (items ++ [VRef n])) /\
      lookup h3 n = Some (Obj psn) /\
      mbind
        (whenM (negb (truthy match assoc PLANS psp with
                             | Some v => v
                             | None => VUndefined
                             end))
           (mbind (new (Arr [])) (fun fresh => setp np PLANS (VRef fresh))))
        (fun _ =>
           mbind
             (match subelementType (snd p) with
              | Some type0 =>
                  if str_eqb type0 (lit "initplan")
                  then mbind (setp n PARENT_RELATIONSHIP (VStr (lit "InitPlan")))
                         (fun _ => setp n SUBPLAN_NAME (strOf (name (snd p))))
                  else if str_eqb type0 (lit "subplan")
                  then mbind (setp n PARENT_RELATIONSHIP (VStr (lit "SubPlan")))
                         (fun _ => setp n SUBPLAN_NAME (strOf (name (snd p))))
                  else ret tt
              | None => ret tt
              end)
             (fun _ =>
                mbind (getp np PLANS)
                  (fun plans =>
                     mbind (pushTo plans (VRef n))
                       (fun _ =>
                          ret (((d0, e0) :: removeDeeper depth rest)
                                 ++ [(depth, {| node := n;
                                                subelementType := Some (lit "subnode");
                                                name := None |})]))))) h1
      = Ok (h3, ((d0, e0) :: removeDeeper depth rest)
                  ++ [(depth, {| node := n;
                                 subelementType := Some (lit "subnode");
                                 name := None |})])).
  { rewrite Hsub.
    change (str_eqb (lit "subnode") (lit "initplan")) with false.
    change (str_eqb (lit "subnode") (lit "subplan")) with false. cbv iota.
    assert (Hnh1 : lookup h1 n = Some (Obj psn)) by apply lookup_alloc.
    destruct (assoc PLANS psp) as [[| | | | |a]|] eqn:Eplans; try contradiction.
    - (* the element before has its array *)
      destruct Hplansp as [items Hla].
      pose proof (lookup_lt _ _ _ Hla) as Hlta.
      assert (Hane : a <> np) by (intros ->; congruence).
      exists (update a (Arr (items ++ [VRef n])) h1), a, items, psp.
      assert (Hlen : a < List.length h1) by (unfold h1; rewrite length_app; lia).
      repeat split.
      + now rewrite update_update.
      + intros l ps Hne Hl. rewrite lookup_update_other; [now apply Hk1|].
        intros ->. congruence.
      + intros l items0 Hl. destruct (Nat.eq_dec a l) as [<-|Hne].
        * eexists. now apply lookup_update.
        * exists items0. rewrite lookup_update_other by exact Hne. now apply Hk1.
      + rewrite lookup_update_other by exact Hane. now apply Hk1.
      + exact Eplans.
      + now apply lookup_update.
      + rewrite lookup_update_other by (unfold n; lia). exact Hnh1.
      + cbn [truthy negb whenM]. unfold mbind at 1. unfold ret at 1.
        unfold mbind at 1. unfold ret at 1.
        unfold mbind at 1. rewrite (getp_at h1 np (Obj psp) PLANS (Hk1 _ _ Hlp)).
        cbn [get_property]. rewrite Eplans.
        unfold mbind at 1. unfold pushTo. unfold mbind at 1. unfold read.
        rewrite (Hk1 _ _ Hla).
        rewrite (modify_at h1 a (Arr items) (Arr (items ++ [VRef n])) _ (Hk1 _ _ Hla) eq_refl).
        reflexivity.
    - (* the element before gets an array *)
      set (a := List.length h1).
      set (psp' := assign PLANS (VRef a) psp).
      set (h2 := update np (Obj psp') (h1 ++ [Arr []])).
      assert (Hlen1 : List.length h1 = S n) by (unfold h1; rewrite length_app; cbn; lia).
      assert (Ha2 : lookup h2 a = Some (Arr [])).
      { unfold h2. rewrite lookup_update_other by (unfold a; lia). apply lookup_alloc. }
      assert (Hnp2 : lookup h2 np = Some (Obj psp')).
      { unfold h2. apply lookup_update. rewrite length_app. lia. }
      assert (Hlen2 : a < List.length h2).
      { unfold h2. rewrite update_length, length_app. cbn. unfold a. lia. }
      exists (update a (Arr ([] ++ [VRef n])) h2), a, [], psp'.
      repeat split.
      + now rewrite update_update.
      + intros l ps Hne Hl. pose proof (lookup_lt _ _ _ Hl).
        rewrite lookup_update_other by (unfold a; lia).
        unfold h2. rewrite lookup_update_other by congruence.
        apply lookup_app_l. now apply Hk1.
      + intros l items0 Hl. pose proof (lookup_lt _ _ _ Hl). exists items0.
        rewrite lookup_update_other by (unfold a; lia).
        unfold h2. rewrite lookup_update_other by (intros <-; congruence).
        apply lookup_app_l. now apply Hk1.
      + rewrite lookup_update_other by (unfold a; lia). exact Hnp2.
      + apply assoc_assign.
      + intros key Hkey. apply assoc_assign_other. congruence.
      + now apply lookup_update.
      + rewrite lookup_update_other by (unfold a; lia).
        unfold h2. rewrite lookup_update_other by (unfold n; lia).
        apply lookup_app_l. exact Hnh1.
      + cbn [truthy negb whenM]. unfold mbind at 1. unfold mbind at 1.
        unfold new, alloc. fold a.
        rewrite (setp_at (h1 ++ [Arr []]) np psp PLANS (VRef a) eq_refl
                   (lookup_app_l _ _ _ _ (Hk1 _ _ Hlp))).
        fold psp' h2.
        unfold mbind at 1. unfold ret at 1.
        unfold mbind at 1. rewrite (getp_at h2 np (Obj psp') PLANS Hnp2).
        cbn [get_property]. unfold psp' at 1. rewrite assoc_assign.
        unfold mbind at 1. unfold pushTo. unfold mbind at 1. unfold read.
        rewrite Ha2.
        rewrite (modify_at h2 a (Arr []) (Arr ([] ++ [VRef n])) _ Ha2 eq_refl).
        reflexivity. }
  destruct Hstep as (h3 & a & items & psp' & _ & Hobj & Harr & Hnp3 & Hpl3 & Hkeys & Ha3 & Hn3 & Erun).
  exists h3. eexists. split; [exact Erun|].
  assert (Hnn : n <> np) by (unfold n; lia).
  repeat split.
  - exists e0, (removeDeeper depth rest ++ [(depth, {| node := n;
                                                       subelementType := Some (lit "subnode");
                                                       name := None |})]).
    repeat split; [exact Hn0|].
    apply Forall_app. split.
    + unfold removeDeeper. apply Forall_forall. intros e He. apply filter_In in He.
      rewrite Forall_forall in Hdeep. now apply Hdeep.
    + constructor; [exact Hd | constructor].
  - change ((d0, e0) :: removeDeeper depth rest ++ _)
      with (((d0, e0) :: removeDeeper depth rest) ++
              [(depth, {| node := n; subelementType := Some (lit "subnode"); name := None |})]).
    apply Forall_app. split.
    + apply Forall_forall. intros e He.
      apply (attached_kept h h3 root np psp' e Hobj Harr Hnp3).
      * exists a. eexists. split; [exact Hpl3 | exact Ha3].
      * rewrite Forall_forall in Hatt. apply Hatt.
        destruct He as [<-|He]; [now left | right].
        unfold removeDeeper in He. now apply filter_In in He.
    + constructor; [|constructor]. split; [reflexivity|]. cbn [snd node]. split; [unfold n; lia|].
      exists psn. split; [exact Hn3|]. now rewrite Hplansn.
  - exists psr. split; [|exact Hplan]. apply Hobj; [congruence | exact Hroot].
  - destruct (Nat.eq_dec n0 np) as [Heq|Hne].
    + exists psp'. rewrite Heq. split; [exact Hnp3|].
      rewrite Hkeys by discriminate.
      rewrite Heq in Hl0. rewrite Hlp in Hl0. injection Hl0 as ->. exact Htype.
    + exists ps0. split; [|exact Htype]. now apply Hobj.
Qed.

(** A node line that is not indented deeper than the first one throws. *)
Lemma shallow_node_line (root d0 n0 : nat) (type : value) (h : store)
    (es : list ElementAtDepth) (depth : nat) (nodeMatches : found) :
  rooted root d0 n0 type h es ->
  depth <= d0 ->
  nodeLine nodeMatches depth root es h = Throw TypeError.
Proof.
  intros ((e0 & rest & -> & _ & Hdeep) & _) Hd.
  unfold nodeLine. cbn [List.length Nat.eqb].
  destruct (buildNode_fresh nodeMatches h) as (psn & E & _).
  unfold mbind at 1. rewrite E.
  assert (Hrm : removeDeeper depth ((d0, e0) :: rest) = []).
  { unfold removeDeeper. cbn [filter fst].
    destruct (depth <=? d0) eqn:Ele; [|apply Nat.leb_gt in Ele; lia]. cbn [negb].
    induction Hdeep as [|e rest He _ IH]; [reflexivity|]. cbn [filter].
    destruct (depth <=? fst e) eqn:Ele'; [exact IH | apply Nat.leb_gt in Ele'; lia]. }
  rewrite Hrm. reflexivity.
Qed.

(** The node lines after the first. *)
Lemma later_node_lines (root d0 n0 : nat) (type : value) (lines : list str) :
  forall (nodes : list (nat * found)) (h : store) (es : list ElementAtDepth),
    node_lines lines = Some nodes ->
    rooted root d0 n0 type h es ->
    if below d0 nodes
    then exists h' es', processLines root es lines h = Ok (h', es')
                        /\ rooted root d0 n0 type h' es'
    else processLines root es lines h = Throw TypeError.
Proof.
  induction lines as [|line lines IH]; intros nodes h es Hnodes Hinv.
  - injection Hnodes as <-. cbn. now exists h, es.
  - cbn [node_lines] in Hnodes. cbn [processLines].
    destruct (kind_of line) as [|depth m|] eqn:Ek.
    + rewrite (skipped_step root es line Ek). unfold mbind, ret.
      now apply IH.
    + destruct (node_lines lines) as [r|] eqn:Er; [|discriminate].
      injection Hnodes as <-. rewrite (node_step root es line depth m Ek).
      cbn [below forallb fst]. fold (below d0 r).
      destruct (d0 <? depth) eqn:Ed.
      * apply Nat.ltb_lt in Ed.
        destruct (deeper_node_line root d0 n0 type h es depth m Hinv Ed) as (h' & es' & E & Hinv').
        unfold mbind. rewrite E. cbn [andb]. now apply (IH r).
      * apply Nat.ltb_ge in Ed. cbn [andb]. unfold mbind.
        now rewrite (shallow_node_line root d0 n0 type h es depth m Hinv Ed).
    + discriminate.
Qed.

(** The lines up to the first node line and after it. *)
Lemma all_node_lines (root : nat) (ps : list (str * value)) (lines : list str) :
  forall (nodes : list (nat * found)) (h : store),
    node_lines lines = Some nodes ->
    lookup h root = Some (Obj ps) ->
    match nodes with
    | [] => processLines root [] lines h = Ok (h, [])
    | (d0, m0) :: rest =>
        if below d0 rest
        then exists n0 h' es',
               processLines root [] lines h = Ok (h', es')
               /\ rooted root d0 n0 (strOf (group 2 m0)) h' es'
        else processLines root [] lines h = Throw TypeError
    end.
Proof.
  induction lines as [|line lines IH]; intros nodes h Hnodes Hl.
  - injection Hnodes as <-. reflexivity.
  - cbn [node_lines] in Hnodes. cbn [processLines].
    destruct (kind_of line) as [|depth m|] eqn:Ek.
    + rewrite (skipped_step root [] line Ek). unfold mbind, ret. now apply IH.
    + destruct (node_lines lines) as [r|] eqn:Er; [|discriminate].
      injection Hnodes as <-. rewrite (node_step root [] line depth m Ek).
      destruct (first_node_line root ps h depth m Hl) as (h1 & es1 & E & Hinv).
      pose proof (later_node_lines root depth (List.length h) (strOf (group 2 m)) lines
                    r h1 es1 Er Hinv) as Hrest.
      unfold mbind. rewrite E.
      destruct (below depth r); [|exact Hrest].
      destruct Hrest as (h' & es' & E' & Hinv'). now exists (List.length h), h', es'.
    + discriminate.
Qed.


(** A root plan that was attached can be overwritten with the empty string,
    a plan attribute can stand in for the root plan, and a line can throw. *)
Lemma root_plan_is_an_attribute :
  fromText ex_plan_overwritten = UnableToParsePlan
  /\ returned (fromText ex_plan_attribute) = Some (TObj [(lit "Plan", TStr (lit "x"))])
  /\ fromText ex_bare_option = Thrown TypeError.
Proof. repeat split; vm_compute; reflexivity. Qed.



(** Two node lines at the same indentation. *)
Lemma second_root_throws : fromText ex_two_roots = Thrown TypeError.
Proof. vm_compute. reflexivity. Qed.

End TextFacts.


(** * Further facts about the plan service *)

Module EnrichMore.
Import JSNum Enrich EnrichSpec EnrichFacts EnrichMoreSpec Maximums MaximumsSpec.

Unset Implicit Arguments.

(** ** Exclusive duration *)

Lemma clamp_nonneg (d : number) : nonneg (clamp d) = true.
Proof.
  destruct d as [| | |q]; try reflexivity.
  unfold clamp, gtb, ltb, zero. destruct (0 ?= q)%Q eqn:E; try reflexivity.
  cbn [nonneg]. apply Qle_bool_iff. apply Qlt_le_weak. exact E.
Qed.

Lemma actuals_untimed (p : Props) (pl : option (list Node)) :
  get ACTUAL_TOTAL_TIME p = None -> get ACTUAL_TOTAL_TIME (calculateActuals p pl) = None.
Proof.
  intros Hn. unfold calculateActuals. rewrite Hn.
  set (I := fun q : Props => get ACTUAL_TOTAL_TIME q = None).
  assert (Hcost : forall v q, I q -> I (set EXCLUSIVE_COST v q)).
  { intros v q H. unfold I. now read_props. }
  apply fold_left_inv with (I := I).
  2: { intros a b H. destruct (get (Row b) a); [|exact H]. unfold I. now read_props. }
  match goal with |- I (if ?c then _ else _) => destruct c end; [apply Hcost|];
  (apply each_inv with (I := I); [| intros q a Hq; destruct (_ && _); auto ]);
  (match goal with |- I (if ?c then _ else _) => destruct c end; [apply Hcost|]);
  exact Hn.
Qed.

(** X1.  In an enriched plan, a node that has an actual total time has an
    exclusive duration, and it is a positive number or 0: never negative,
    never NaN. *)
Theorem exclusive_duration_never_negative (root : Node) :
  Forall
    (fun n =>
       forall t, get ACTUAL_TOTAL_TIME (props n) = Some t ->
                 exists d, get EXCLUSIVE_DURATION (props n) = Some d /\ nonneg d = true)
    (plan_nodes (createPlan root)).
Proof.
  apply plan_all. intros written node nodeId t.
  destruct (walked_root written node nodeId) as (pl2 & -> & _). cbn [props].
  rewrite !(exclusives_get) by discriminate.
  destruct (get ACTUAL_TOTAL_TIME (entered written node nodeId)) as [t0|] eqn:E.
  - intros _. destruct (@actuals_times _ pl2 t0 E) as (_ & _ & ->).
    eexists. split; [reflexivity | apply clamp_nonneg].
  - rewrite (actuals_untimed _ pl2 E). discriminate.
Qed.

Lemma exclusive_duration_of_chain :
  exists d,
    get EXCLUSIVE_DURATION (props (content_Plan (createPlan ex_chain))) = Some d
    /\ nonneg d = true.
Proof.
  pose proof (exclusive_duration_never_negative ex_chain) as H.
  rewrite Forall_forall in H.
  assert (Hin : In (content_Plan (createPlan ex_chain)) (plan_nodes (createPlan ex_chain)))
    by (vm_compute; left; reflexivity).
  assert (Ht : get ACTUAL_TOTAL_TIME (props (content_Plan (createPlan ex_chain)))
               = Some (Fin 10)) by (vm_compute; reflexivity).
  exact (H _ Hin _ Ht).
Defined.

(** ** Exclusive cost *)

Lemma sub_fin (e x : Q) : exists r, sub (Fin e) (Fin x) = Fin r /\ (r == e - x)%Q.
Proof.
  eexists. split; [reflexivity|]. rewrite !Qred_correct. reflexivity.
Qed.

Lemma truthy_fin (x : Q) : truthy (Fin x) = false -> (x == 0)%Q.
Proof. cbn. intros H. apply negb_false_iff in H. now apply Qeq_bool_iff. Qed.

(** The loop that takes the children's costs off. *)
Lemma cost_loop (l : list Node) :
  forall (q : Props) (e : Q),
    get EXCLUSIVE_COST q = Some (Fin e) ->
    Forall (fun child => finite (get TOTAL_COST (props child))) l ->
    exists e',
      get EXCLUSIVE_COST
        (fold_left
           (fun node subPlan =>
              if negb (relationship_is "InitPlan" (props subPlan))
                 && truthyV (get TOTAL_COST (props subPlan))
              then set EXCLUSIVE_COST
                     (Some (sub (toNumber (get EXCLUSIVE_COST node))
                              (toNumber (get TOTAL_COST (props subPlan)))))
                     node
              else node)
           l q)
      = Some (Fin e')
      /\ (e' == e - Qsum (map costOf
                            (filter (fun child =>
                                       negb (relationship_is "InitPlan" (props child))) l)))%Q.
Proof.
  induction l as [|child l IH]; intros q e He Hfin.
  - exists e. split; [exact He|]. cbn. ring.
  - inversion Hfin as [|? ? Hc Hl]; subst. cbn [fold_left filter].
    destruct (negb (relationship_is "InitPlan" (props child))) eqn:Hrel; cbn [andb];
      [|exact (IH q e He Hl)].
    match goal with
    | |- context [Qsum (map costOf (child :: ?l0))] =>
        change (Qsum (map costOf (child :: l0))) with (costOf child + Qsum (map costOf l0))%Q
    end.
    unfold costOf at 1.
    destruct (get TOTAL_COST (props child)) as [[| | |x]|] eqn:Hcost;
      try (cbn in Hc; contradiction); cbn [truthyV].
    + destruct (truthy (Fin x)) eqn:Ht.
      * rewrite He. cbn [toNumber]. destruct (sub_fin e x) as (r & Hr & Er). rewrite Hr.
        destruct (IH (set EXCLUSIVE_COST (Some (Fin r)) q) r) as (e' & H1 & H2);
          [now read_props | exact Hl |].
        exists e'. split; [exact H1|]. rewrite H2, Er. ring.
      * apply truthy_fin in Ht. destruct (IH q e He Hl) as (e' & H1 & H2).
        exists e'. split; [exact H1|]. rewrite H2, Ht. ring.
    + destruct (IH q e He Hl) as (e' & H1 & H2).
      exists e'. split; [exact H1|]. rewrite H2. ring.
Qed.

Lemma floor0_cases (x : Q) (e : Q) :
  (e == x)%Q ->
  exists r,
    (if ltb (Fin e) zero then Some zero else Some (Fin e)) = Some (Fin r)
    /\ (r == floor0 x)%Q.
Proof.
  intros E. unfold ltb, zero, floor0.
  assert (Hc : (e ?= 0)%Q = (x ?= 0)%Q) by now rewrite E.
  rewrite Hc. destruct (x ?= 0)%Q; eexists; (split; [reflexivity|]); (exact E || reflexivity).
Qed.

Lemma actuals_cost (p : Props) (pl : option (list Node)) (c : Q) :
  get TOTAL_COST p = Some (Fin c) ->
  ~ (c == 0)%Q ->
  Forall (fun child => finite (get TOTAL_COST (props child))) (elems pl) ->
  exists r,
    get EXCLUSIVE_COST (calculateActuals p pl) = Some (Fin r)
    /\ (r == floor0 (c - Qsum (map costOf (charged (mkNode p pl)))))%Q.
Proof.
  intros Hc Hnz Hfin. unfold calculateActuals, charged, children. cbn [PLANS].
  (* the part on the times leaves the cost *)
  match goal with
  | |- context [truthyV (get TOTAL_COST ?q)] =>
      assert (Hq : get TOTAL_COST q = Some (Fin c))
        by (destruct (get ACTUAL_TOTAL_TIME p); [read_props|]; exact Hc);
      generalize dependent q
  end.
  intros q Hq. rewrite Hq. cbn [truthyV truthy].
  destruct (Qeq_bool c 0) eqn:Hz; [apply Qeq_bool_iff in Hz; contradiction|]. cbn [negb].
  (* the loop over the children *)
  assert (Hloop : exists e,
             get EXCLUSIVE_COST
               (each pl
                  (fun node subPlan =>
                     if negb (relationship_is "InitPlan" (props subPlan))
                        && truthyV (get TOTAL_COST (props subPlan))
                     then set EXCLUSIVE_COST
                            (Some (sub (toNumber (get EXCLUSIVE_COST node))
                                     (toNumber (get TOTAL_COST (props subPlan)))))
                            node
                     else node)
                  (set EXCLUSIVE_COST (Some (Fin c)) q))
             = Some (Fin e)
             /\ (e == c - Qsum (map costOf
                                  (filter (fun child =>
                                             negb (relationship_is "InitPlan" (props child)))
                                     (elems pl))))%Q).
  { destruct pl as [l|]; cbn [each elems].
    - apply cost_loop; [now read_props | exact Hfin].
    - exists c. split; [now read_props | cbn; ring]. }
  destruct Hloop as (e & He & Ee).
  match goal with
  | |- context [each pl ?F ?q0] => set (q1 := each pl F q0) in *
  end.
  destruct (floor0_cases _ e Ee) as (r & Hr & Er).
  exists r. split; [|exact Er].
  apply fold_left_inv with (I := fun q' => get EXCLUSIVE_COST q' = Some (Fin r)).
  - rewrite He. cbn [toNumber].
    destruct (ltb (Fin e) zero); [read_props; exact Hr|]. rewrite He. exact Hr.
  - intros a b Ha. destruct (get (Row b) a); [now read_props | exact Ha].
Qed.



(** ** Revised row counts *)

Lemma actuals_revised (p : Props) (pl : option (list Node)) (r : RowProp) :
  get (REVISED r) (calculateActuals p pl)
  = match get (Row r) p with
    | Some v => Some (mul v (orNum (get ACTUAL_LOOPS p) one))
    | None => get (REVISED r) p
    end.
Proof.
  unfold calculateActuals.
  set (I := fun q : Props =>
              (forall r', get (Row r') q = get (Row r') p)
              /\ get ACTUAL_LOOPS q = get ACTUAL_LOOPS p
              /\ (forall r', get (REVISED r') q = get (REVISED r') p)).
  assert (Hcost : forall v q, I q -> I (set EXCLUSIVE_COST v q)).
  { intros v q (H1 & H2 & H3). unfold I. repeat split; intros; now read_props. }
  match goal with
  | |- context [fold_left ?f ?l ?q] => assert (Hq : I q); [|generalize dependent q]
  end.
  { match goal with |- I (if ?c then _ else _) => destruct c end; [apply Hcost|];
    (apply each_inv with (I := I); [| intros q a Hq; destruct (_ && _); auto ]);
    (match goal with |- I (if ?c then _ else _) => destruct c end; [apply Hcost|]);
    (destruct (get ACTUAL_TOTAL_TIME p); unfold I; repeat split; intros; now read_props). }
  intros q (Hrow & Hloops & Hrev). cbn [fold_left].
  repeat match goal with
         | |- context [match get (Row ?x) ?s with _ => _ end] =>
             let E := fresh "E" in
             assert (E : get (Row x) s = get (Row x) p) by (read_props; apply Hrow);
             rewrite E; clear E;
             destruct (get (Row x) p) eqn:?
         end;
    destruct r; read_props; rewrite ?Hloops, ?Hrev;
    repeat match goal with H : get (Row _) p = _ |- _ => rewrite H end; reflexivity.
Qed.

(** X3.  In an enriched plan, each of the four row counters a node has
    (actual rows, plan rows, rows removed by filter, rows removed by join
    filter) has its revised twin set to the counter times the node's
    [actual_loops], or times 1 when the loops are missing or 0. *)
Theorem revised_rows (root : Node) :
  Forall
    (fun n =>
       forall (r : RowProp) (v : number),
         get (Row r) (props n) = Some v ->
         get (REVISED r) (props n)
         = Some (mul v (orNum (get ACTUAL_LOOPS (props n)) one)))
    (plan_nodes (createPlan root)).
Proof.
  apply plan_all. intros written node nodeId r v.
  destruct (walked_root written node nodeId) as (pl2 & -> & _). cbn [props].
  rewrite !exclusives_get by discriminate.
  rewrite (@actuals_get (Row r) _ _), (@actuals_get ACTUAL_LOOPS _ _) by reflexivity.
  intros Hv. now rewrite actuals_revised, Hv.
Qed.

Lemma revised_rows_of_loop :
  get (REVISED ACTUAL_ROWS) (props (content_Plan (createPlan ex_loops))) = Some (Fin 6).
Proof.
  pose proof (revised_rows ex_loops) as H. rewrite Forall_forall in H.
  assert (Hin : In (content_Plan (createPlan ex_loops)) (plan_nodes (createPlan ex_loops)))
    by (vm_compute; left; reflexivity).
  assert (Hv : get (Row ACTUAL_ROWS) (props (content_Plan (createPlan ex_loops)))
               = Some (Fin 3)) by (vm_compute; reflexivity).
  rewrite (H _ Hin ACTUAL_ROWS (Fin 3) Hv). vm_compute. reflexivity.
Defined.

(** ** Maxima *)

Lemma gtb_irrefl (a : number) : gtb a a = false.
Proof.
  destruct a as [| | |q]; try reflexivity. unfold gtb, ltb.
  now rewrite (proj1 (Qeq_alt q q) (Qeq_refl q)).
Qed.

(** A value that is not greater than the one kept is not greater than one
    that is greater than it. *)
Lemma gtb_raise (v kept current : number) :
  gtb current kept = true -> gtb v kept = false -> gtb v current = false.
Proof.
  unfold gtb, ltb.
  destruct kept as [| | |k], current as [| | |c], v as [| | |x];
    try reflexivity; try discriminate.
  intros H1 H2. destruct (c ?= x)%Q eqn:E3; try reflexivity. exfalso.
  destruct (k ?= c)%Q eqn:E1; try discriminate.
  assert (H : (k < x)%Q).
  { apply (Qlt_trans k c x); apply Qlt_alt; assumption. }
  pose proof (proj1 (Qlt_alt k x) H) as H'.
  destruct (k ?= x)%Q; discriminate.
Qed.

Section MaxBy.

Variables (A : Type) (iteratee : A -> value).

Let step (kept : option (number * A)) (x : A) : option (number * A) :=
  match iteratee x with
  | None => kept
  | Some current =>
      match kept with
      | None => if isNaN current then kept else Some (current, x)
      | Some (computed, _) => if gtb current computed then Some (current, x) else kept
      end
  end.

Let good (seen : list A) (kept : option (number * A)) : Prop :=
  match kept with
  | Some (m, o) =>
      In o seen /\ iteratee o = Some m /\ isNaN m = false
      /\ forall y v, In y seen -> iteratee y = Some v -> gtb v m = false
  | None => no_value iteratee seen
  end.

Lemma step_good (seen : list A) (kept : option (number * A)) (x : A) :
  good seen kept -> good (seen ++ [x]) (step kept x).
Proof.
  unfold good, step. intros H.
  destruct (iteratee x) as [current|] eqn:Ex.
  - destruct kept as [[m o]|].
    + destruct H as (Hin & Ho & Hm & Hall).
      destruct (gtb current m) eqn:Eg.
      * repeat split.
        -- apply in_or_app. right. now left.
        -- exact Ex.
        -- destruct current; try reflexivity. destruct m; discriminate.
        -- intros y v Hy Hv. apply in_app_or in Hy. destruct Hy as [Hy|[<-|[]]].
           ++ apply (gtb_raise v m current Eg). now apply (Hall y).
           ++ rewrite Ex in Hv. injection Hv as <-. apply gtb_irrefl.
      * repeat split; try assumption.
        -- apply in_or_app. now left.
        -- intros y v Hy Hv. apply in_app_or in Hy. destruct Hy as [Hy|[<-|[]]].
           ++ now apply (Hall y).
           ++ rewrite Ex in Hv. now injection Hv as <-.
    + destruct (isNaN current) eqn:En.
      * intros y Hy. apply in_app_or in Hy. destruct Hy as [Hy|[<-|[]]]; [now apply H|].
        right. rewrite Ex. destruct current; try discriminate. reflexivity.
      * repeat split.
        -- apply in_or_app. right. now left.
        -- exact Ex.
        -- exact En.
        -- intros y v Hy Hv. apply in_app_or in Hy. destruct Hy as [Hy|[<-|[]]].
           ++ destruct (H y Hy) as [N|N]; rewrite N in Hv; [discriminate|].
              injection Hv as <-. now destruct current.
           ++ rewrite Ex in Hv. injection Hv as <-. apply gtb_irrefl.
  - destruct kept as [[m o]|].
    + destruct H as (Hin & Ho & Hm & Hall). repeat split; try assumption.
      * apply in_or_app. now left.
      * intros y v Hy Hv. apply in_app_or in Hy. destruct Hy as [Hy|[<-|[]]].
        -- now apply (Hall y).
        -- rewrite Ex in Hv. discriminate.
    + intros y Hy. apply in_app_or in Hy. destruct Hy as [Hy|[<-|[]]]; [now apply H|].
      now left.
Qed.

Lemma fold_good (l : list A) :
  forall seen kept, good seen kept -> good (seen ++ l) (fold_left step l kept).
Proof.
  induction l as [|x l IH]; intros seen kept H; cbn [fold_left].
  - now rewrite app_nil_r.
  - replace (seen ++ x :: l) with ((seen ++ [x]) ++ l) by now rewrite <- app_assoc.
    apply IH. now apply step_good.
Qed.

(** [_.maxBy]: the element returned has a value that is not NaN and that no
    value of the array exceeds; nothing is returned only when no element has
    a value other than NaN. *)
Lemma maxBy_spec (l : list A) :
  match maxBy l iteratee with
  | Some o => In o l /\ exists m, iteratee o = Some m /\ is_max iteratee l m
  | None => no_value iteratee l
  end.
Proof.
  unfold maxBy. fold step.
  pose proof (fold_good l [] None (fun y (H : In y []) => match H with end)) as H.
  cbn [app] in H. destruct (fold_left step l None) as [[m o]|]; cbn [option_map snd].
  - destruct H as (Hin & Ho & Hm & Hall). split; [exact Hin|].
    exists m. split; [exact Ho|]. repeat split; [now exists o | exact Hm | exact Hall].
  - exact H.
Qed.

End MaxBy.


Lemma largest_spec (key : NodeProp) (l : list Node) (before : value) :
  max_entry key l before (largest key l before).
Proof.
  unfold max_entry, largest.
  pose proof (maxBy_spec Node (fun o => get key (props o)) l) as H.
  destruct (maxBy l (fun o => get key (props o))) as [o|].
  - destruct H as (_ & m & Hm & Hmax). left. exists m. now split.
  - right. now split.
Qed.

Lemma highest_spec (sum : Node -> number) (l : list Node) (before : value) :
  max_blocks_entry sum l before (highest sum l before).
Proof.
  unfold max_blocks_entry, highest.
  pose proof (maxBy_spec Node (fun o => Some (sum o)) l) as H.
  destruct (maxBy l (fun o => Some (sum o))) as [o|].
  - destruct H as (_ & m & Hm & Hmax). injection Hm as <-. left. exists (sum o). now split.
  - right. now split.
Qed.


End EnrichMore.

(** * Further facts about the text parser *)

Module TextMoreFacts.
Import Regex JSLib Text TextSpec TextMoreSpec.

Unset Implicit Arguments.

Lemma appendToLast_concat (out : list str) (line : str) :
  out <> [] ->
  appendToLast out line <> [] /\ List.concat (appendToLast out line) = List.concat out ++ line.
Proof.
  intros Hne. unfold appendToLast.
  destruct (rev out) as [|lastLine before] eqn:E.
  - apply (f_equal (@rev str)) in E. rewrite rev_involutive in E. contradiction.
  - apply (f_equal (@rev str)) in E. rewrite rev_involutive in E. cbn [rev] in E. subst out.
    split; [now destruct (rev before)|].
    rewrite !concat_app. cbn [List.concat]. now rewrite !app_nil_r, app_assoc.
Qed.

Lemma push_concat (out : list str) (line : str) :
  out ++ [line] <> [] /\ List.concat (out ++ [line]) = List.concat out ++ line.
Proof.
  split; [now destruct out|]. rewrite concat_app. cbn [List.concat]. now rewrite app_nil_r.
Qed.

(** The loop of [splitIntoLines], from an [out] that has a line and from the
    empty one. *)
Lemma split_loop (f : list str -> str -> list str) (lines : list str) :
  (forall out line, out <> [] -> f out line <> [] /\ List.concat (f out line) = List.concat out ++ line) ->
  (forall line, f [] line = if closes line then [] else [line]) ->
  forall out,
    List.concat (fold_left f lines out)
    = match out with
      | [] => List.concat (fromFirstOpen lines)
      | _ :: _ => List.concat out ++ List.concat lines
      end.
Proof.
  intros Hstep Hfirst. induction lines as [|line lines IH]; intros out; cbn [fold_left].
  - destruct out; [reflexivity | now rewrite app_nil_r].
  - rewrite IH. destruct out as [|x out].
    + rewrite Hfirst. cbn [fromFirstOpen]. destruct (closes line); [reflexivity|].
      cbn [List.concat]. now rewrite app_nil_r.
    + destruct (Hstep (x :: out) line) as [Hne Hc]; [discriminate|].
      destruct (f (x :: out) line) as [|y out']; [contradiction|].
      rewrite Hc. cbn [List.concat]. now rewrite <- !app_assoc.
Qed.

(** X6.  [splitIntoLines] keeps the characters of the lines in their order:
    put end to end, the logical lines are the lines of the text put end to
    end, but for the lines with more closing than opening parentheses that
    come before every other line, which are lost. *)
Theorem splitIntoLines_keeps_the_text (text : str) :
  List.concat (splitIntoLines text) = List.concat (fromFirstOpen (rawLines text)).
Proof.
  unfold splitIntoLines, rawLines.
  match goal with
  | |- List.concat (fold_left ?f ?lines []) = _ => exact (split_loop f lines
      (fun out line Hne =>
         ltac:(cbv beta; fold (closes line);
               destruct (closes line); [now apply appendToLast_concat|];
               destruct (test flag_i keywordRegex line); [apply push_concat|];
               destruct (_ || _)%bool; [|apply push_concat];
               destruct out; [contradiction|]; cbn [List.length Nat.ltb Nat.leb];
               now apply appendToLast_concat))
      (fun line =>
         ltac:(cbv beta; fold (closes line);
               destruct (closes line); [reflexivity|];
               destruct (test flag_i keywordRegex line); [reflexivity|];
               destruct (_ || _)%bool; reflexivity))
      [])
  end.
Qed.

(** The first line of a text is lost when it closes a parenthesis it did not
    open. *)
Lemma splitIntoLines_loses_a_closing_first_line :
  splitIntoLines ex_closing_first = [lit "Seq Scan on t"].
Proof. vm_compute. reflexivity. Qed.

End TextMoreFacts.
